(** * DependencyGraph: a typed directed graph with a dual adjacency index

    A shallow embedding of [lib/DependencyGraph.js]: the graph store
  (insertion-ordered [Map]s and [Set]s, the edge table keyed by the string
  [from->to]), traversal, cycle detection, the tree builder, the codec and
  the asynchronous tree executor, followed by the properties proved about
  them. *)

From Stdlib Require Import ZArith Lia.
From Stdlib Require QArith.
From stdpp Require Import base tactics decidable option list strings relations.

#[local] Set Warnings "-clear-no-such-hyp,-register-all".

Local Open Scope string_scope.
Local Open Scope list_scope.
Local Open Scope nat_scope.

(** ** Insertion-ordered containers

  A JavaScript [Map] iterates its entries in insertion order, [set] on a
  present key keeps the key's position, and [delete] forgets it.  A [Set]
  behaves the same way on its members.  Both are lists here, the order
  being the iteration order. *)

Module JsSet.

Definition has (x : string) (s : list string) : bool := bool_decide (x ∈ s).

Definition add (x : string) (s : list string) : list string :=
  if has x s then s else s ++ [x].

Definition delete (x : string) (s : list string) : list string :=
  filter (λ y, y ≠ x) s.

End JsSet.

Module JsMap.
Section ops.
Context {V : Type}.

Fixpoint get (k : string) (m : list (string * V)) : option V :=
  match m with
  | [] => None
  | (k', v) :: m' => if decide (k' = k) then Some v else get k m'
  end.

Definition has (k : string) (m : list (string * V)) : bool :=
  match get k m with Some _ => true | None => false end.

Fixpoint set (k : string) (v : V) (m : list (string * V)) : list (string * V) :=
  match m with
  | [] => [(k, v)]
  | (k', v') :: m' =>
      if decide (k' = k) then (k, v) :: m' else (k', v') :: set k v m'
  end.

Definition delete (k : string) (m : list (string * V)) : list (string * V) :=
  filter (λ kv, kv.1 ≠ k) m.

(** [m.get(k)?.f()] for a method [f] that mutates the value in place. *)
Fixpoint alter (f : V → V) (k : string) (m : list (string * V)) : list (string * V) :=
  match m with
  | [] => []
  | (k', v) :: m' =>
      if decide (k' = k) then (k', f v) :: m' else (k', v) :: alter f k m'
  end.

Definition keys (m : list (string * V)) : list string := m.*1.
End ops.
End JsMap.

(** [m.get(k) || new Set()]: the members stored under [k], none when the
    key is missing. *)
Definition members (m : list (string * list string)) (k : string) : list string :=
  default [] (JsMap.get k m).

(** ** The graph store *)

Record Edge := mkEdge { to : string; type : string }.

Record DependencyGraph := mkGraph {
  nodes : list (string * list string);
  incomingEdges : list (string * list string);
  edges : list (string * Edge)
}.

Definition empty_graph : DependencyGraph := mkGraph [] [] [].

(** The template literal [`${fromNodeId}->${toNodeId}`]. *)
Definition edgeId (fromNodeId toNodeId : string) : string :=
  fromNodeId +:+ "->" +:+ toNodeId.

Definition hasNode (nodeId : string) (g : DependencyGraph) : bool :=
  JsMap.has nodeId (nodes g).

Definition addNode (nodeId : string) (g : DependencyGraph) : bool * DependencyGraph :=
  if JsMap.has nodeId (nodes g) then (false, g)
  else (true, mkGraph (JsMap.set nodeId [] (nodes g))
                      (JsMap.set nodeId [] (incomingEdges g))
                      (edges g)).

(** One round of the first loop of [removeNode]. *)
Definition drop_outgoing (nodeId : string) (g : DependencyGraph) (dependencyId : string)
  : DependencyGraph :=
  mkGraph (nodes g)
          (JsMap.alter (JsSet.delete nodeId) dependencyId (incomingEdges g))
          (JsMap.delete (edgeId nodeId dependencyId) (edges g)).

(** One round of the second loop of [removeNode]. *)
Definition drop_incoming (nodeId : string) (g : DependencyGraph) (dependentId : string)
  : DependencyGraph :=
  mkGraph (JsMap.alter (JsSet.delete nodeId) dependentId (nodes g))
          (incomingEdges g)
          (JsMap.delete (edgeId dependentId nodeId) (edges g)).

Definition removeNode (nodeId : string) (g : DependencyGraph) : bool * DependencyGraph :=
  if negb (JsMap.has nodeId (nodes g)) then (false, g)
  else
    let nodesThisDependsOn := members (nodes g) nodeId in
    let g1 := foldl (drop_outgoing nodeId) g nodesThisDependsOn in
    let nodesThatDependOnThis := members (incomingEdges g1) nodeId in
    let g2 := foldl (drop_incoming nodeId) g1 nodesThatDependOnThis in
    (true, mkGraph (JsMap.delete nodeId (nodes g2))
                   (JsMap.delete nodeId (incomingEdges g2))
                   (edges g2)).

(** [addEdge] dereferences [this.nodes.get(fromNodeId)] and
    [this.incomingEdges.get(toNodeId)] without a guard: [None] is the
    [TypeError] raised when one of them is [undefined]. *)
Definition addEdge (fromNodeId toNodeId type : string) (g : DependencyGraph)
  : option DependencyGraph :=
  let g1 := (addNode fromNodeId g).2 in
  let g2 := (addNode toNodeId g1).2 in
  if JsMap.has fromNodeId (nodes g2) && JsMap.has toNodeId (incomingEdges g2) then
    Some (mkGraph (JsMap.alter (JsSet.add toNodeId) fromNodeId (nodes g2))
                  (JsMap.alter (JsSet.add fromNodeId) toNodeId (incomingEdges g2))
                  (JsMap.set (edgeId fromNodeId toNodeId) (mkEdge toNodeId type) (edges g2)))
  else None.

Definition removeEdge (fromNodeId toNodeId : string) (g : DependencyGraph)
  : bool * DependencyGraph :=
  let edgeId := edgeId fromNodeId toNodeId in
  if negb (JsMap.has edgeId (edges g)) then (false, g)
  else (true, mkGraph (JsMap.alter (JsSet.delete toNodeId) fromNodeId (nodes g))
                      (JsMap.alter (JsSet.delete fromNodeId) toNodeId (incomingEdges g))
                      (JsMap.delete edgeId (edges g))).

(** Calls of the mutating interface, and the store they leave behind. *)
Inductive call :=
| AddNode (nodeId : string)
| AddEdge (fromNodeId toNodeId type : string)
| RemoveEdge (fromNodeId toNodeId : string)
| RemoveNode (nodeId : string).

Definition perform (c : call) (g : DependencyGraph) : option DependencyGraph :=
  match c with
  | AddNode n => Some (addNode n g).2
  | AddEdge f t ty => addEdge f t ty g
  | RemoveEdge f t => Some (removeEdge f t g).2
  | RemoveNode n => Some (removeNode n g).2
  end.

Definition perform_all (cs : list call) (g : DependencyGraph) : option DependencyGraph :=
  foldl (λ og c, og ≫= perform c) (Some g) cs.

(** Observations on a store. *)
Definition outgoing (g : DependencyGraph) (nodeId : string) : list string :=
  members (nodes g) nodeId.

Definition incoming (g : DependencyGraph) (nodeId : string) : list string :=
  members (incomingEdges g) nodeId.

(** The edge table holds the edge [(fromNodeId, toNodeId)] with type [ty]. *)
Definition is_edge (g : DependencyGraph) (fromNodeId toNodeId ty : string) : Prop :=
  JsMap.get (edgeId fromNodeId toNodeId) (edges g) = Some (mkEdge toNodeId ty).

(** The invariant the mutating interface maintains: both indices have the
    same keys, they mirror each other, adjacency entries name present
    nodes only, and every entry of the edge table is the edge from some
    node to its recorded [to], present in the adjacency index. *)
Record store_inv (g : DependencyGraph) : Prop := mkStoreInv {
  inv_index_keys : ∀ k, JsMap.has k (incomingEdges g) = JsMap.has k (nodes g);
  inv_mutual : ∀ a b, b ∈ outgoing g a ↔ a ∈ incoming g b;
  inv_adjacent : ∀ a b, b ∈ outgoing g a → hasNode a g = true ∧ hasNode b g = true;
  inv_edge : ∀ K e, JsMap.get K (edges g) = Some e →
             ∃ f, K = edgeId f (to e) ∧ to e ∈ outgoing g f
}.

(** ** The codec

    [serialize] builds a document of strings, arrays and objects and hands
    it to [JSON.stringify]; [deserialize] starts from [JSON.parse].  Both
    belong to the runtime, and [JSON.parse (JSON.stringify d)] rebuilds such
    a document [d], so the codec is modelled on the document. *)
Inductive json :=
| JString (s : string)
| JArray (items : list json)
| JObject (fields : list (string * json)).

(** [Array.from(map.entries(), ([k, v]) => [k, Array.from(v)])] *)
Definition index_entries (m : list (string * list string)) : json :=
  JArray ((λ kv, JArray [JString kv.1; JArray (JString <$> kv.2)]) <$> m).

(** [Array.from(this.edges.entries())] *)
Definition edge_entries (m : list (string * Edge)) : json :=
  JArray ((λ kv, JArray [JString kv.1;
                         JObject [("to", JString (to kv.2)); ("type", JString (type kv.2))]])
          <$> m).

Definition serialize (g : DependencyGraph) : json :=
  JObject [("nodes", index_entries (nodes g));
           ("incomingEdges", index_entries (incomingEdges g));
           ("edges", edge_entries (edges g))].

(** [new Set(iterable)] and [new Map(iterable)] insert one element after
    the other. *)
Definition new_Set (xs : list string) : list string :=
  foldl (λ s x, JsSet.add x s) [] xs.

Definition new_Map {V} (kvs : list (string * V)) : list (string * V) :=
  foldl (λ m kv, JsMap.set kv.1 kv.2 m) [] kvs.

Definition as_string (j : json) : option string :=
  match j with JString s => Some s | _ => None end.

Definition field (name : string) (j : json) : option json :=
  match j with JObject fs => JsMap.get name fs | _ => None end.

(** [([key, value]) => [key, new Set(value)]] *)
Definition index_entry (j : json) : option (string * list string) :=
  match j with
  | JArray (JString key :: JArray value :: _) =>
      members ← mapM as_string value; Some (key, new_Set members)
  | _ => None
  end.

Definition edge_entry (j : json) : option (string * Edge) :=
  match j with
  | JArray (JString key :: value :: _) =>
      match field "to" value, field "type" value with
      | Some (JString t), Some (JString ty) => Some (key, mkEdge t ty)
      | _, _ => None
      end
  | _ => None
  end.

(** [data.name.map(entry)] *)
Definition entries_of {A} (name : string) (entry : json → option A) (data : json)
  : option (list A) :=
  match field name data with
  | Some (JArray items) => mapM entry items
  | _ => None
  end.

(** [deserialize] of a document; [None] stands for a document of another
    shape than the one [serialize] writes. *)
Definition deserialize (data : json) : option DependencyGraph :=
  ns ← entries_of "nodes" index_entry data;
  ins ← entries_of "incomingEdges" index_entry data;
  es ← entries_of "edges" edge_entry data;
  Some (mkGraph (new_Map ns) (new_Map ins) (new_Map es)).

(** What a [Map] and a [Set] guarantee by construction: no key and no
    member twice. *)
Definition index_wf (m : list (string * list string)) : Prop :=
  NoDup (JsMap.keys m) ∧ Forall (λ kv, NoDup kv.2) m.

Definition store_wf (g : DependencyGraph) : Prop :=
  index_wf (nodes g) ∧ index_wf (incomingEdges g) ∧ NoDup (JsMap.keys (edges g)).

(** ** Options shared by the traversals

    [direction === 'outgoing'] selects the outgoing index and every other
    value the incoming one; [strategy === 'dfs'] pops from the back and
    every other value shifts from the front. *)
Inductive direction := Outgoing | Incoming.

Inductive strategy := Bfs | Dfs.

(** The [edgeTypes] option as the caller passes it: missing, one type, or
    an array of types. *)
Inductive edgeTypes_option :=
| TypesAbsent
| TypesOne (t : string)
| TypesArray (ts : list string).

(** [edgeTypes ? (Array.isArray(edgeTypes) ? edgeTypes : [edgeTypes]) : null]:
    the empty string is falsy, an array never is. *)
Definition normalize_edgeTypes (edgeTypes : edgeTypes_option) : option (list string) :=
  match edgeTypes with
  | TypesAbsent => None
  | TypesOne t => if decide (t = "") then None else Some [t]
  | TypesArray ts => Some ts
  end.

(** [!types || types.includes(edge.type)] *)
Definition type_allowed (types : option (list string)) (ty : string) : bool :=
  match types with
  | None => true
  | Some ts => bool_decide (ty ∈ ts)
  end.

Definition adjacencyMap (dir : direction) (g : DependencyGraph)
  : list (string * list string) :=
  match dir with Outgoing => nodes g | Incoming => incomingEdges g end.

(** [this.edges.get(edgeId)] for the edge between a node and a neighbour
    found in the index of direction [dir]. *)
Definition edge_to_neighbor (dir : direction) (g : DependencyGraph)
    (nodeId neighborId : string) : option Edge :=
  JsMap.get (match dir with
             | Outgoing => edgeId nodeId neighborId
             | Incoming => edgeId neighborId nodeId
             end) (edges g).

(** The edge to the neighbour exists and passes the type filter. *)
Definition followed (types : option (list string)) (dir : direction) (g : DependencyGraph)
    (nodeId neighborId : string) : bool :=
  match edge_to_neighbor dir g nodeId neighborId with
  | Some edge => type_allowed types (type edge)
  | None => false
  end.

(** One node reaches another by one followed edge of the index. *)
Definition step_to (types : option (list string)) (dir : direction) (g : DependencyGraph)
    (x y : string) : Prop :=
  y ∈ members (adjacencyMap dir g) x ∧ followed types dir g x y = true.

(** ** Traversal *)

(** [queue.pop()] for [dfs], [queue.shift()] otherwise. *)
Definition dequeue (strat : strategy) (queue : list string) : option (string * list string) :=
  match strat with
  | Bfs => match queue with [] => None | x :: q => Some (x, q) end
  | Dfs => match last queue with None => None | Some x => Some (x, removelast queue) end
  end.

Record traverse_options := mkTraverseOptions {
  t_edgeTypes : edgeTypes_option;
  t_direction : direction;
  t_strategy : strategy
}.

(** The [while (queue.length > 0)] loop; [fuel] bounds its rounds and
    [None] means the bound was reached first. *)
Fixpoint traverse_loop (fuel : nat) (g : DependencyGraph) (types : option (list string))
    (dir : direction) (strat : strategy)
    (visited queue result : list string) : option (list string) :=
  match fuel with
  | 0 => None
  | S fuel' =>
      match dequeue strat queue with
      | None => Some result
      | Some (currentNodeId, queue') =>
          if JsSet.has currentNodeId visited then
            traverse_loop fuel' g types dir strat visited queue' result
          else
            let visited' := JsSet.add currentNodeId visited in
            let neighbors := members (adjacencyMap dir g) currentNodeId in
            let pushed :=
              filter (λ neighborId, followed types dir g currentNodeId neighborId = true
                                    ∧ JsSet.has neighborId visited' = false) neighbors in
            traverse_loop fuel' g types dir strat visited'
                          (queue' ++ pushed) (result ++ [currentNodeId])
      end
  end.

(** Number of members stored in an index. *)
Definition index_size (m : list (string * list string)) : nat :=
  sum_list ((λ kv, length kv.2) <$> m).

(** [traverse]: an absent start node gives the empty array (and a
    diagnostic on the console).  The loop runs at most once per queued
    element; the bound given to it is never reached
    ([traverse_loop_terminates]). *)
Definition traverse (startNodeId : string) (options : traverse_options) (g : DependencyGraph)
  : option (list string) :=
  if negb (JsMap.has startNodeId (nodes g)) then Some []
  else
    let types := normalize_edgeTypes (t_edgeTypes options) in
    let dir := t_direction options in
    traverse_loop (2 + index_size (adjacencyMap dir g)) g types dir (t_strategy options)
                  [] [startNodeId] [].

(** Rounds the loop can still make: one per queued element, and the
    members of the entries not visited yet bound what can still be queued. *)
Definition unvisited_size (adj : list (string * list string)) (visited : list string) : nat :=
  sum_list ((λ kv, if bool_decide (kv.1 ∈ visited) then 0 else length kv.2) <$> adj).

Definition traverse_potential (adj : list (string * list string))
    (visited queue : list string) : nat :=
  length queue + unvisited_size adj visited.

(** ** Cycle detection *)

(** [_detectCycleUtil]: the result with the [visiting] and [visited] sets
    as the call leaves them.  [fuel] bounds the depth of the recursion. *)
Fixpoint _detectCycleUtil (fuel : nat) (g : DependencyGraph) (edgeTypes : option (list string))
    (nodeId : string) (visiting visited : list string)
  : option (bool * list string * list string) :=
  match fuel with
  | 0 => None
  | S fuel' =>
      (fix neighbors_loop (neighbors visiting visited : list string) :=
         match neighbors with
         | [] => Some (false, JsSet.delete nodeId visiting, JsSet.add nodeId visited)
         | neighborId :: neighbors' =>
             if followed edgeTypes Outgoing g nodeId neighborId then
               if JsSet.has neighborId visiting then Some (true, visiting, visited)
               else if negb (JsSet.has neighborId visited) then
                 match _detectCycleUtil fuel' g edgeTypes neighborId visiting visited with
                 | None => None
                 | Some (true, visiting', visited') => Some (true, visiting', visited')
                 | Some (false, visiting', visited') =>
                     neighbors_loop neighbors' visiting' visited'
                 end
               else neighbors_loop neighbors' visiting visited
             else neighbors_loop neighbors' visiting visited
         end)
        (members (nodes g) nodeId) (JsSet.add nodeId visiting) visited
  end.

(** A recursion enters a node only while it is not in [visiting], so its
    depth stays below the number of node ids the store mentions. *)
Definition cycle_fuel (g : DependencyGraph) : nat :=
  2 + length (nodes g) + index_size (nodes g).

Fixpoint detect_from_each (g : DependencyGraph) (edgeTypes : option (list string))
    (nodeIds visiting visited : list string) : option bool :=
  match nodeIds with
  | [] => Some false
  | nodeId :: nodeIds' =>
      match _detectCycleUtil (cycle_fuel g) g edgeTypes nodeId visiting visited with
      | None => None
      | Some (true, _, _) => Some true
      | Some (false, visiting', visited') =>
          detect_from_each g edgeTypes nodeIds' visiting' visited'
      end
  end.

Definition hasCircularDependency (edgeTypes : edgeTypes_option) (g : DependencyGraph)
  : option bool :=
  detect_from_each g (normalize_edgeTypes edgeTypes) (JsMap.keys (nodes g)) [] [].

(** [path.indexOf(x)] *)
Fixpoint indexOf (x : string) (path : list string) : option nat :=
  match path with
  | [] => None
  | y :: path' => if decide (y = x) then Some 0 else S <$> indexOf x path'
  end.

(** [path.slice(path.indexOf(x))]; [indexOf] gives [-1] for a missing
    element, and [slice(-1)] keeps the last element. *)
Definition slice_from (x : string) (path : list string) : list string :=
  match indexOf x path with
  | Some i => drop i path
  | None => drop (length path - 1) path
  end.

(** [_findCycleUtil]: the cycle path or [null], with [visiting], [visited]
    and [path] as the call leaves them. *)
Fixpoint _findCycleUtil (fuel : nat) (g : DependencyGraph) (edgeTypes : option (list string))
    (nodeId : string) (visiting visited path : list string)
  : option (option (list string) * list string * list string * list string) :=
  match fuel with
  | 0 => None
  | S fuel' =>
      (fix neighbors_loop (neighbors visiting visited path : list string) :=
         match neighbors with
         | [] => Some (None, JsSet.delete nodeId visiting, JsSet.add nodeId visited,
                       removelast path)
         | neighborId :: neighbors' =>
             if followed edgeTypes Outgoing g nodeId neighborId then
               if JsSet.has neighborId visiting then
                 let cyclePath := slice_from neighborId path ++ [neighborId] in
                 Some (Some cyclePath, visiting, visited, path)
               else if negb (JsSet.has neighborId visited) then
                 match _findCycleUtil fuel' g edgeTypes neighborId visiting visited path with
                 | None => None
                 | Some (Some result, visiting', visited', path') =>
                     Some (Some result, visiting', visited', path')
                 | Some (None, visiting', visited', path') =>
                     neighbors_loop neighbors' visiting' visited' path'
                 end
               else neighbors_loop neighbors' visiting visited path
             else neighbors_loop neighbors' visiting visited path
         end)
        (members (nodes g) nodeId) (JsSet.add nodeId visiting) visited (path ++ [nodeId])
  end.

Fixpoint find_from_each (g : DependencyGraph) (edgeTypes : option (list string))
    (nodeIds visited : list string) : option (option (list string)) :=
  match nodeIds with
  | [] => Some None
  | nodeId :: nodeIds' =>
      if negb (JsSet.has nodeId visited) then
        match _findCycleUtil (cycle_fuel g) g edgeTypes nodeId [] visited [] with
        | None => None
        | Some (Some cyclePath, _, _, _) => Some (Some cyclePath)
        | Some (None, _, visited', _) => find_from_each g edgeTypes nodeIds' visited'
        end
      else find_from_each g edgeTypes nodeIds' visited
  end.

Definition findCircularDependency (edgeTypes : edgeTypes_option) (g : DependencyGraph)
  : option (option (list string)) :=
  find_from_each g (normalize_edgeTypes edgeTypes) (JsMap.keys (nodes g)) [].

(** The store of the cycle examples: [A -> B] then [B -> A]. *)
Definition two_node_cycle (t1 t2 : string) : DependencyGraph :=
  mkGraph [("A", ["B"]); ("B", ["A"])] [("A", ["B"]); ("B", ["A"])]
          [("A->B", mkEdge "B" t1); ("B->A", mkEdge "A" t2)].

(** ** The tree builder *)

Inductive TreeNode := mkTree { node : string; children : list TreeNode }.

(** The [for (const neighborId of neighbors)] loop of [_buildTreeNode],
    given the function that builds one child. *)
Definition build_children (build : string → list string → option (TreeNode * list string))
    (types : option (list string)) (dir : direction) (g : DependencyGraph) (nodeId : string)
  : list string → list string → list TreeNode → option (list TreeNode * list string) :=
  fix loop neighbors visited children :=
    match neighbors with
    | [] => Some (children, visited)
    | neighborId :: neighbors' =>
        if followed types dir g nodeId neighborId && negb (JsSet.has neighborId visited) then
          match build neighborId visited with
          | None => None
          | Some (childNode, visited') => loop neighbors' visited' (children ++ [childNode])
          end
        else loop neighbors' visited children
    end.

(** [_buildTreeNode]: the tree node and the [visited] set as the call
    leaves it; [fuel] bounds the depth of the recursion. *)
Fixpoint _buildTreeNode (fuel : nat) (g : DependencyGraph) (edgeTypes : option (list string))
    (dir : direction) (nodeId : string) (visited : list string)
  : option (TreeNode * list string) :=
  match fuel with
  | 0 => None
  | S fuel' =>
      match build_children (_buildTreeNode fuel' g edgeTypes dir) edgeTypes dir g nodeId
              (members (adjacencyMap dir g) nodeId) (JsSet.add nodeId visited) [] with
      | None => None
      | Some (children, visited') => Some (mkTree nodeId children, visited')
      end
  end.

Record tree_options := mkTreeOptions {
  tree_edgeTypes : edgeTypes_option;
  tree_direction : direction
}.

(** [getTree]: [Some None] is [null] for an absent start node.  A call
    recurses only into a neighbour that is not visited yet, so the depth
    stays below the bound given here ([buildTreeNode_terminates]). *)
Definition getTree (startNodeId : string) (options : tree_options) (g : DependencyGraph)
  : option (option TreeNode) :=
  if negb (JsMap.has startNodeId (nodes g)) then Some None
  else
    let types := normalize_edgeTypes (tree_edgeTypes options) in
    let dir := tree_direction options in
    match _buildTreeNode (2 + index_size (adjacencyMap dir g)) g types dir startNodeId [] with
    | None => None
    | Some (tree, _) => Some (Some tree)
    end.

(** The node ids of a tree, the root first. *)
Fixpoint tree_nodes (t : TreeNode) : list string :=
  node t :: mjoin (tree_nodes <$> children t).

(** Distinct node ids of the index members that are not visited yet. *)
Definition unvisited_ids (adj : list (string * list string)) (visited : list string) : nat :=
  length (filter (λ x, x ∉ visited) (remove_dups (mjoin adj.*2))).

(** What one call of the builder guarantees. *)
Definition builds (g : DependencyGraph) (types : option (list string)) (dir : direction)
    (build : string → list string → option (TreeNode * list string)) (bound : nat) : Prop :=
  ∀ n V, n ∉ V → unvisited_ids (adjacencyMap dir g) (JsSet.add n V) < bound →
    ∃ t, build n V = Some (t, V ++ tree_nodes t) ∧ node t = n ∧
      (NoDup V → NoDup (V ++ tree_nodes t)) ∧
      (∀ x, x ∈ tree_nodes t → rtc (step_to types dir g) n x) ∧
      (∀ x y, x ∈ tree_nodes t → step_to types dir g x y → y ∈ V ++ tree_nodes t).

(** The store of the tree example: [A -> B], [A -> C], [B -> D], [C -> D]. *)
Definition diamond : DependencyGraph :=
  mkGraph [("A", ["B"; "C"]); ("B", ["D"]); ("C", ["D"]); ("D", [])]
          [("A", []); ("B", ["A"]); ("C", ["A"]); ("D", ["B"; "C"])]
          [("A->B", mkEdge "B" "link"); ("A->C", mkEdge "C" "link");
           ("B->D", mkEdge "D" "link"); ("C->D", mkEdge "D" "link")].

(** ** The tree executor

    [executeOnTree] is asynchronous.  Its steps are modelled as they run on
    the event loop: every call of [_executeTreeNode] is a frame; a frame
    runs without interruption up to its next [await], and resumes when the
    awaited promise has settled.  When that happens is decided outside the
    code, so a run is driven by a schedule of ticks: a pending callback
    settles, the limiter's [finally] handler runs, the promises of a
    frame's children have settled, or the abort signal fires. *)
Module Executor.

Inductive jsval :=
| VNull
| VUndefined
| VNaN
| VNum (n : Z)
| VStr (s : string)
| VError (message : string).

(** Truthiness, as in [error && ...]. *)
Definition truthy (v : jsval) : bool :=
  match v with
  | VNull | VUndefined | VNaN => false
  | VNum n => negb (n =? 0)%Z
  | VStr s => negb (bool_decide (s = ""))
  | VError _ => true
  end.

Inductive ExecNode := mkExecNode {
  node : string;
  result : jsval;
  error : jsval;
  isCircularRef : bool;
  children : list ExecNode
}.

Record context := mkContext {
  depth : nat;
  path : list string;
  parentNode : option string;
  edgeType : option string;
  siblings : list string
}.

(** How a call of the callback behaves: whether its synchronous part
    aborts the signal, and how its promise settles. *)
Inductive settlement :=
| Returns (value : jsval)
| Throws (reason : jsval).

Record behaviour := mkBehaviour { aborts : bool; settles : settlement }.

(** ['fail-fast'], ['skip-children'], and ['collect'] for every other
    value. *)
Inductive error_strategy := FailFast | Collect | SkipChildren.

(** [errorStrategy === 'fail-fast'] and [errorStrategy === 'skip-children'] *)
Definition is_fail_fast (st : error_strategy) : bool :=
  match st with FailFast => true | _ => false end.

Definition is_skip_children (st : error_strategy) : bool :=
  match st with SkipChildren => true | _ => false end.

(** [maxConcurrency] is a number: [NaN], an infinity, or a fraction (every
    finite double is one). *)
Inductive number :=
| NaN
| Infinity
| NegInfinity
| Finite (q : QArith_base.Q).

(** The integer [z] as a number. *)
Definition integer (z : Z) : number := Finite (QArith_base.inject_Z z).

(** Truthiness of a number, as in [maxConcurrency ? ... : null]: zero and
    [NaN] are falsy. *)
Definition number_truthy (n : number) : bool :=
  match n with
  | NaN => false
  | Infinity | NegInfinity => true
  | Finite q => negb (QArith_base.Qeq_bool q (QArith_base.inject_Z 0))
  end.

(** [running < max], for the counter [running] of the limiter. *)
Definition below (running : nat) (max : number) : bool :=
  match max with
  | NaN | NegInfinity => false
  | Infinity => true
  | Finite q =>
      negb (QArith_base.Qle_bool q (QArith_base.inject_Z (Z.of_nat running)))
  end.

Record options := mkOptions {
  opt_edgeTypes : edgeTypes_option;
  opt_direction : direction;
  opt_errorStrategy : error_strategy;
  (** [null] or a number, the limit on concurrent callbacks *)
  opt_maxConcurrency : option number;
  (** [null], or a signal and whether it is aborted already *)
  opt_signal : option bool;
  (** [null], or the hook: [Some e] when its call throws [e] *)
  opt_onProgress : option (string → jsval → option jsval)
}.

Definition default_options : options :=
  mkOptions TypesAbsent Outgoing FailFast None None None.

Inductive frame_status :=
| Queued
| Running
| AwaitingChildren
| Fulfilled (value : ExecNode)
| Rejected (reason : jsval) (order : nat).

(** One call of [_executeTreeNode]: its arguments, its local variables,
    and where it stands. *)
Record frame := mkFrame {
  f_nodeId : string;
  f_parentResult : jsval;
  f_context : context;
  f_status : frame_status;
  f_result : jsval;
  f_error : jsval;
  f_validNeighbors : list (string * string);
  f_childPromises : list nat
}.

(** What an observer of the run can see happen, in order. *)
Inductive event :=
| SignalAborted
| Abandoned (nodeId : string)
| Reused (nodeId : string)
| Entered (nodeId : string)
| Invoked (nodeId : string) (parentResult : jsval) (ctx : context)
| Settled (nodeId : string) (outcome : settlement)
| Progressed (nodeId : string) (result : jsval).

Record state := mkState {
  frames : list frame;
  visited : list string;
  resultCache : list (string * jsval);
  aborted : bool;
  (** the limiter: waiting frames, callbacks in flight, [finally]
      handlers still to run *)
  queue : list nat;
  running : nat;
  releases : nat;
  (** number of promises rejected so far *)
  rejections : nat;
  trace : list event
}.

Inductive tick :=
| CallbackSettles (i : nat)
| SlotReleased
| ChildrenSettled (i : nat)
| SignalAborts.

Inductive promise :=
| Pending
| Resolves (value : ExecNode)
| Rejects (reason : jsval).

Definition abort_error : jsval := VError "Execution aborted".

(** [`${nodeId}::${edgeType}`] *)
Definition visitKey (nodeId : string) (edgeType : option string) : string :=
  nodeId +:+ "::" +:+ default "null" edgeType.

(** The neighbours whose edge exists and passes the filter, with the type
    of that edge. *)
Definition validNeighbors (g : DependencyGraph) (types : option (list string))
    (dir : direction) (nodeId : string) : list (string * string) :=
  omap (λ neighborId,
          match edge_to_neighbor dir g nodeId neighborId with
          | Some edge =>
              if type_allowed types (type edge) then Some (neighborId, type edge) else None
          | None => None
          end)
       (members (adjacencyMap dir g) nodeId).

Definition set_status (st : frame_status) (f : frame) : frame :=
  mkFrame (f_nodeId f) (f_parentResult f) (f_context f) st
          (f_result f) (f_error f) (f_validNeighbors f) (f_childPromises f).

Definition with_frames (fs : list frame) (s : state) : state :=
  mkState fs (visited s) (resultCache s) (aborted s) (queue s) (running s)
          (releases s) (rejections s) (trace s).

Definition log (evs : list event) (s : state) : state :=
  mkState (frames s) (visited s) (resultCache s) (aborted s) (queue s) (running s)
          (releases s) (rejections s) (trace s ++ evs).

Definition new_frame (nodeId : string) (parentResult : jsval) (ctx : context)
    (st : frame_status) : frame :=
  mkFrame nodeId parentResult ctx st VNull VNull [] [].

Section machine.
Context (g : DependencyGraph) (callback : string → jsval → context → behaviour)
        (o : options).

(** [maxConcurrency ? this._createConcurrencyLimiter(maxConcurrency) : null] *)
Definition limiter : option number :=
  match opt_maxConcurrency o with
  | Some max => if number_truthy max then Some max else None
  | None => None
  end.

Definition has_signal : bool :=
  match opt_signal o with Some _ => true | None => false end.

(** The callback of the waiting frame [i] is called; its synchronous part
    may abort the signal. *)
Definition start_callback (i : nat) (s : state) : state :=
  match frames s !! i with
  | Some (mkFrame nodeId parentResult ctx Queued result error vn kids) =>
      let b := callback nodeId parentResult ctx in
      let fires := aborts b && has_signal && negb (aborted s) in
      mkState (<[i := mkFrame nodeId parentResult ctx Running result error vn kids]>
                 (frames s))
              (visited s) (resultCache s)
              (aborted s || fires) (queue s) (running s) (releases s) (rejections s)
              (trace s ++ Invoked nodeId parentResult ctx
                       :: (if fires then [SignalAborted] else []))
  | _ => s
  end.

(** [processQueue] of the limiter, on the frames waiting in [waiting]. *)
Fixpoint drain (max : number) (waiting : list nat) (s : state) : state :=
  match waiting with
  | [] => mkState (frames s) (visited s) (resultCache s) (aborted s) []
                  (running s) (releases s) (rejections s) (trace s)
  | i :: waiting' =>
      if below (running s) max then
        drain max waiting'
              (start_callback i
                 (mkState (frames s) (visited s) (resultCache s) (aborted s) waiting'
                          (S (running s)) (releases s) (rejections s) (trace s)))
      else
        mkState (frames s) (visited s) (resultCache s) (aborted s) waiting
                (running s) (releases s) (rejections s) (trace s)
  end.

Definition processQueue (max : number) (s : state) : state := drain max (queue s) s.

(** The synchronous part of [_executeTreeNode], up to the call of the
    callback or its admission to the limiter.  The new frame gets the next
    free index. *)
Definition launch (nodeId : string) (parentResult : jsval) (ctx : context) (s : state)
  : state :=
  let i := length (frames s) in
  if aborted s then
    mkState (frames s ++ [new_frame nodeId parentResult ctx
                            (Rejected abort_error (rejections s))])
            (visited s) (resultCache s) (aborted s) (queue s) (running s) (releases s)
            (S (rejections s)) (trace s ++ [Abandoned nodeId])
  else
    let visitKey := visitKey nodeId (edgeType ctx) in
    if JsSet.has visitKey (visited s) then
      let cached := default VUndefined (JsMap.get nodeId (resultCache s)) in
      mkState (frames s ++ [new_frame nodeId parentResult ctx
                              (Fulfilled (mkExecNode nodeId cached VNull true []))])
              (visited s) (resultCache s) (aborted s) (queue s) (running s) (releases s)
              (rejections s) (trace s ++ [Reused nodeId])
    else
      let s1 :=
        mkState (frames s ++ [new_frame nodeId parentResult ctx Queued])
                (JsSet.add visitKey (visited s)) (resultCache s) (aborted s)
                (queue s) (running s) (releases s) (rejections s)
                (trace s ++ [Entered nodeId]) in
      match limiter with
      | None => start_callback i s1
      | Some max =>
          processQueue max
            (mkState (frames s1) (visited s1) (resultCache s1) (aborted s1)
                     (queue s1 ++ [i]) (running s1) (releases s1) (rejections s1)
                     (trace s1))
      end.

(** The [children] of the frame are launched one after the other. *)
Definition launch_children (nodeId : string) (result : jsval) (ctx : context)
    (neighbors : list (string * string)) (s : state) : state :=
  foldl (λ s nb, launch nb.1 result
                   (mkContext (S (depth ctx)) (path ctx ++ [nodeId]) (Some nodeId)
                              (Some nb.2) [])
                   s)
        s neighbors.

(** The [try] block once the callback has settled, and the [catch] block:
    the values of [result] and [error], whether [catch] ran, and the
    [resultCache] and the progress reports they leave. *)
Definition after_callback (nodeId : string) (outcome : settlement)
    (cache : list (string * jsval))
  : jsval * jsval * bool * list (string * jsval) * list event :=
  match outcome with
  | Returns v =>
      let cache1 := JsMap.set nodeId v cache in
      match opt_onProgress o with
      | None => (v, VNull, false, cache1, [])
      | Some hook =>
          match hook nodeId v with
          | None => (v, VNull, false, cache1, [Progressed nodeId v])
          | Some e => (v, e, true, JsMap.set nodeId VUndefined cache1, [Progressed nodeId v])
          end
      end
  | Throws e => (VNull, e, true, JsMap.set nodeId VUndefined cache, [])
  end.

Definition finish (f : frame) (st : frame_status) (result error : jsval)
    (vn : list (string * string)) (kids : list nat) : frame :=
  mkFrame (f_nodeId f) (f_parentResult f) (f_context f) st result error vn kids.

Definition reject_frame (i : nat) (f : frame) (reason : jsval) (s : state) : state :=
  mkState (<[i := set_status (Rejected reason (rejections s)) f]> (frames s))
          (visited s) (resultCache s) (aborted s) (queue s) (running s)
          (releases s) (S (rejections s)) (trace s).

Definition fulfil_frame (i : nat) (f : frame) (kids : list ExecNode) (s : state) : state :=
  with_frames
    (<[i := set_status
              (Fulfilled (mkExecNode (f_nodeId f) (f_result f) (f_error f) false kids)) f]>
       (frames s)) s.

(** Frame [i] resumes after [await executeCallback()] (or the limiter's
    promise) and runs up to [await Promise.all / allSettled], or to its
    end. *)
Definition callback_settles (i : nat) (s : state) : state :=
  match frames s !! i with
  | Some f =>
      match f_status f with
      | Running =>
          let nodeId := f_nodeId f in
          let outcome := settles (callback nodeId (f_parentResult f) (f_context f)) in
          let '(result, error, caught, cache, reports) :=
            after_callback nodeId outcome (resultCache s) in
          let f1 := finish f Running result error [] [] in
          let s1 :=
            mkState (frames s) (visited s) cache (aborted s) (queue s) (running s)
                    (match limiter with Some _ => S (releases s) | None => releases s end)
                    (rejections s) (trace s ++ Settled nodeId outcome :: reports) in
          if caught && is_fail_fast (opt_errorStrategy o) then
            reject_frame i f1 error s1
          else if truthy error && is_skip_children (opt_errorStrategy o) then
            fulfil_frame i f1 [] s1
          else
            let vn := validNeighbors g (normalize_edgeTypes (opt_edgeTypes o))
                        (opt_direction o) nodeId in
            match vn with
            | [] => fulfil_frame i f1 [] s1
            | _ :: _ =>
                let kids := seq (length (frames s1)) (length vn) in
                launch_children nodeId result (f_context f) vn
                  (with_frames
                     (<[i := finish f AwaitingChildren result error vn kids]> (frames s1))
                     s1)
            end
      | _ => s
      end
  | None => s
  end.

(** The rejection [Promise.all] reports: the first of the children's. *)
Definition first_rejection (kids : list frame_status) : option (jsval * nat) :=
  foldl (λ acc st,
           match st, acc with
           | Rejected r t, Some (r', t') => if t <? t' then Some (r, t) else Some (r', t')
           | Rejected r t, None => Some (r, t)
           | _, _ => acc
           end) None kids.

Definition fulfilled_value (st : frame_status) : option ExecNode :=
  match st with Fulfilled v => Some v | _ => None end.

(** The entry [Promise.allSettled] gives for a child, as the executor maps
    it. *)
Definition settled_entry (nb : string * string) (st : frame_status) : option ExecNode :=
  match st with
  | Fulfilled v => Some v
  | Rejected r _ => Some (mkExecNode nb.1 VNull r false [])
  | _ => None
  end.

Definition child_statuses (s : state) (kids : list nat) : option (list frame_status) :=
  mapM (λ k, f_status <$> frames s !! k) kids.

(** Frame [i] resumes after [await Promise.all(childPromises)] or
    [await Promise.allSettled(childPromises)]. *)
Definition children_settled (i : nat) (s : state) : state :=
  match frames s !! i with
  | Some f =>
      match f_status f, child_statuses s (f_childPromises f) with
      | AwaitingChildren, Some sts =>
          if is_fail_fast (opt_errorStrategy o) then
            match first_rejection sts with
            | Some (r, _) => reject_frame i f r s
            | None =>
                match mapM fulfilled_value sts with
                | Some vs => fulfil_frame i f vs s
                | None => s
                end
            end
          else
            match mapM (λ p, settled_entry p.1 p.2) (zip (f_validNeighbors f) sts) with
            | Some vs => fulfil_frame i f vs s
            | None => s
            end
      | _, _ => s
      end
  | None => s
  end.

(** The [finally] handler of the limiter. *)
Definition slot_released (s : state) : state :=
  match limiter, releases s with
  | Some max, S n =>
      processQueue max
        (mkState (frames s) (visited s) (resultCache s) (aborted s) (queue s)
                 (pred (running s)) n (rejections s) (trace s))
  | _, _ => s
  end.

Definition signal_aborts (s : state) : state :=
  if has_signal && negb (aborted s) then
    mkState (frames s) (visited s) (resultCache s) true (queue s) (running s)
            (releases s) (rejections s) (trace s ++ [SignalAborted])
  else s.

Definition step (s : state) (t : tick) : state :=
  match t with
  | CallbackSettles i => callback_settles i s
  | SlotReleased => slot_released s
  | ChildrenSettled i => children_settled i s
  | SignalAborts => signal_aborts s
  end.

(** The state [executeOnTree] leaves when it reaches its [await]: the root
    frame has been launched. *)
Definition init (startNodeId : string) : state :=
  let pre := match opt_signal o with Some true => true | _ => false end in
  launch startNodeId VNull (mkContext 0 [] None None [])
         (mkState [] [] [] pre [] 0 0 0 (if pre then [SignalAborted] else [])).

Definition run (startNodeId : string) (schedule : list tick) : state :=
  foldl step (init startNodeId) schedule.

Definition settled_promise (s : state) : promise :=
  match frames s !! 0 with
  | Some f =>
      match f_status f with
      | Fulfilled v => Resolves v
      | Rejected r _ => Rejects r
      | _ => Pending
      end
  | None => Pending
  end.

(** [executeOnTree] under a schedule: the state of the returned promise
    once the schedule has run. *)
Definition executeOnTree (startNodeId : string) (schedule : list tick) : promise :=
  if negb (JsMap.has startNodeId (nodes g)) then
    Rejects (VError ("Start node '" +:+ startNodeId +:+ "' does not exist."))
  else settled_promise (run startNodeId schedule).

End machine.

(** *** How the frames of a run evolve *)

(** A frame as another frame's step can leave it: untouched, or taken from
    the limiter's queue and started. *)
Definition started (f f' : frame) : Prop :=
  f' = f ∨ (f_status f = Queued ∧ f' = set_status Running f).

Definition only_started (s s' : state) : Prop :=
  length (frames s') = length (frames s) ∧
  ∀ i f, frames s !! i = Some f → ∃ f', frames s' !! i = Some f' ∧ started f f'.

(** A frame as [launch] leaves it. *)
Definition fresh (nodeId : string) (parentResult : jsval) (ctx : context) (f : frame)
  : Prop :=
  f_nodeId f = nodeId ∧ f_parentResult f = parentResult ∧ f_context f = ctx ∧
  f_childPromises f = [] ∧
  (f_status f = Queued ∨ f_status f = Running ∨
   (∃ x, f_status f = Fulfilled x ∧ isCircularRef x = true) ∨
   (∃ t, f_status f = Rejected abort_error t)).

Definition child_context (nodeId : string) (ctx : context) (ty : string) : context :=
  mkContext (S (depth ctx)) (path ctx ++ [nodeId]) (Some nodeId) (Some ty) [].

(** *** What holds of every frame of a run *)

Definition final (st : frame_status) : bool :=
  match st with Fulfilled _ | Rejected _ _ => true | _ => false end.

(** A frame keeps the arguments of its call, and a settled frame does not
    change any more. *)
Definition evolves (f f' : frame) : Prop :=
  f_nodeId f' = f_nodeId f ∧ f_parentResult f' = f_parentResult f ∧
  f_context f' = f_context f ∧
  (final (f_status f) = true → f' = f).

Definition advance (fs fs' : list frame) : Prop :=
  ∀ i f, fs !! i = Some f → ∃ f', fs' !! i = Some f' ∧ evolves f f'.

Section frame_invariant.
Context (g : DependencyGraph) (callback : string → jsval → context → behaviour)
        (o : options).

(** [result] and [error] after the [try] and [catch] blocks. *)
Definition settled_locals (f : frame) : Prop :=
  match settles (callback (f_nodeId f) (f_parentResult f) (f_context f)) with
  | Throws e => f_result f = VNull ∧ f_error f = e
  | Returns v => f_result f = v
  end.

(** Frame [k] is the call made for the neighbour [nb] of frame [f]. *)
Definition child_of (fs : list frame) (f : frame) (k : nat) (nb : string * string) : Prop :=
  ∃ fk, fs !! k = Some fk ∧ f_nodeId fk = nb.1 ∧ f_parentResult fk = f_result f ∧
        f_context fk = child_context (f_nodeId f) (f_context f) nb.2.

Definition skipped (f : frame) : Prop :=
  truthy (f_error f) = true ∧ is_skip_children (opt_errorStrategy o) = true.

(** The children of a frame whose callback has settled: none when they are
    skipped, else one call per valid neighbour, in order. *)
Definition children_launched (fs : list frame) (f : frame) : Prop :=
  (skipped f ∧ f_validNeighbors f = [] ∧ f_childPromises f = []) ∨
  (f_validNeighbors f
   = validNeighbors g (normalize_edgeTypes (opt_edgeTypes o)) (opt_direction o) (f_nodeId f) ∧
   Forall2 (child_of fs f) (f_childPromises f) (f_validNeighbors f)).

(** [v] is what the settled child [k] contributes to its parent's
    [children]. *)
Definition entry_of (fs : list frame) (nb : string * string) (k : nat) (v : ExecNode)
  : Prop :=
  ∃ fk, fs !! k = Some fk ∧ settled_entry nb (f_status fk) = Some v ∧
        (is_fail_fast (opt_errorStrategy o) = true → f_status fk = Fulfilled v).

(** [r] was thrown by a call of the callback or of the progress hook. *)
Definition thrown (r : jsval) : Prop :=
  (∃ n pr ctx, settles (callback n pr ctx) = Throws r) ∨
  (∃ hook n v, opt_onProgress o = Some hook ∧ hook n v = Some r).

Definition frame_ok (fs : list frame) (f : frame) : Prop :=
  match f_status f with
  | Queued | Running => f_childPromises f = []
  | AwaitingChildren => settled_locals f ∧ children_launched fs f
  | Fulfilled x =>
      (isCircularRef x = true ∧ f_childPromises f = []) ∨
      (settled_locals f ∧ children_launched fs f ∧
       ∃ vs, x = mkExecNode (f_nodeId f) (f_result f) (f_error f) false vs ∧
             Forall2 (λ p v, entry_of fs p.1 p.2 v)
                     (zip (f_validNeighbors f) (f_childPromises f)) vs)
  | Rejected r _ =>
      r = abort_error ∨ (is_fail_fast (opt_errorStrategy o) = true ∧ thrown r)
  end.

(** Every frame but the root was launched by an earlier frame. *)
Definition has_parent (fs : list frame) (i : nat) : Prop :=
  ∃ p fp, p < i ∧ fs !! p = Some fp ∧ i ∈ f_childPromises fp.

Definition frames_ok (fs : list frame) : Prop :=
  0 < length fs ∧
  (∀ i f, fs !! i = Some f → frame_ok fs f) ∧
  (∀ i, 0 < i < length fs → has_parent fs i).

End frame_invariant.

(** *** What the trace shows after the signal has fired *)

(** The events that follow the first [SignalAborted]. *)
Fixpoint after_abort (tr : list event) : list event :=
  match tr with
  | [] => []
  | SignalAborted :: tr' => tr'
  | _ :: tr' => after_abort tr'
  end.

(** An attempt got past the cancellation check. *)
Definition passes_check (ev : event) : bool :=
  match ev with Entered _ | Reused _ => true | _ => false end.

Definition is_invoked (ev : event) : bool :=
  match ev with Invoked _ _ _ => true | _ => false end.

(** After the signal has fired no attempt gets past the check, and without
    a limiter no callback is called. *)
Definition quiet (o : options) (tr : list event) : Prop :=
  Forall (λ ev, passes_check ev = false ∧ (limiter o = None → is_invoked ev = false))
         (after_abort tr).

Definition trace_ok (o : options) (s : state) : Prop :=
  (aborted s = true ↔ SignalAborted ∈ trace s) ∧ quiet o (trace s).

(** *** The arguments of the calls of the callback *)

Section call_arguments.
Context (g : DependencyGraph) (callback : string → jsval → context → behaviour)
        (o : options) (startNodeId : string).

(** The value of [result] once the callback called with these arguments
    has settled. *)
Definition callback_result (nodeId : string) (parentResult : jsval) (ctx : context)
  : jsval :=
  match settles (callback nodeId parentResult ctx) with
  | Returns v => v
  | Throws _ => VNull
  end.

(** The arguments of the call at the root, and those of a call made for a
    valid neighbour of a called node. *)
Inductive call_args : string → jsval → context → Prop :=
| root_call :
    call_args startNodeId VNull (mkContext 0 [] None None [])
| child_call parentId parentResult ctx nodeId ty :
    call_args parentId parentResult ctx →
    (nodeId, ty) ∈ validNeighbors g (normalize_edgeTypes (opt_edgeTypes o))
                     (opt_direction o) parentId →
    call_args nodeId (callback_result parentId parentResult ctx)
              (child_context parentId ctx ty).

Definition args_ok (s : state) : Prop :=
  (∀ i f, frames s !! i = Some f →
          call_args (f_nodeId f) (f_parentResult f) (f_context f)) ∧
  (∀ n pr ctx, Invoked n pr ctx ∈ trace s → call_args n pr ctx).

End call_arguments.

(** *** The order of the calls *)

(** Every call of the callback below the root comes after the callback of
    its parent node has settled. *)
Definition order_ok (s : state) : Prop :=
  (∀ i f p, frames s !! i = Some f → parentNode (f_context f) = Some p →
            ∃ outcome, Settled p outcome ∈ trace s) ∧
  (∀ j n pr ctx p, trace s !! j = Some (Invoked n pr ctx) → parentNode ctx = Some p →
                   ∃ i outcome, i < j ∧ trace s !! i = Some (Settled p outcome)).

(** *** Callbacks in flight *)

Definition is_running (st : frame_status) : bool :=
  match st with Running => true | _ => false end.

Definition is_settled (ev : event) : bool :=
  match ev with Settled _ _ => true | _ => false end.

(** The frames whose callback has been called and has not settled yet. *)
Definition in_flight (s : state) : nat :=
  sum_list ((λ f, if is_running (f_status f) then 1 else 0) <$> frames s).

Definition calls_made (tr : list event) : nat :=
  length (filter (λ ev, is_invoked ev = true) tr).

Definition calls_settled (tr : list event) : nat :=
  length (filter (λ ev, is_settled ev = true) tr).

(** The calls in flight are the calls made and not settled; the limiter's
    counter covers them, and it was below the limit when it was last
    raised. *)
Definition flight_ok (o : options) (s : state) : Prop :=
  calls_made (trace s) = calls_settled (trace s) + in_flight s ∧
  match limiter o with
  | Some max =>
      in_flight s + releases s ≤ running s ∧
      ∀ n, running s = S n → below n max = true
  | None => True
  end.

(** *** One call per visit key *)

Definition is_queued (st : frame_status) : bool :=
  match st with Queued => true | _ => false end.

(** The visit keys [nodeId::edgeType] of the calls of the callback, in the
    order of the calls. *)
Definition call_keys (tr : list event) : list string :=
  omap (λ ev, match ev with
              | Invoked n _ c => Some (visitKey n (edgeType c))
              | _ => None
              end) tr.

(** The visit keys of the frames that wait for their callback to be
    called. *)
Definition waiting_keys (fs : list frame) : list string :=
  omap (λ f, if is_queued (f_status f)
             then Some (visitKey (f_nodeId f) (edgeType (f_context f))) else None) fs.

Definition keys_ok (s : state) : Prop :=
  NoDup (call_keys (trace s) ++ waiting_keys (frames s)) ∧
  ∀ k, k ∈ call_keys (trace s) ++ waiting_keys (frames s) → k ∈ visited s.

(** *** The shape of the result *)

(** The trees [executeOnTree] resolves with.  A circular reference has no
    error and no children.  A child whose call was abandoned is reported,
    under [collect] and [skip-children], as a node with the cancellation
    error.  Every other node has no error under [fail-fast], no children
    when it has an error under [skip-children], and otherwise one child
    per valid neighbour, in their order. *)
Inductive result_tree (g : DependencyGraph) (o : options) : ExecNode → Prop :=
| circular_ref nodeId cached :
    result_tree g o (mkExecNode nodeId cached VNull true [])
| abandoned_node nodeId :
    is_fail_fast (opt_errorStrategy o) = false →
    result_tree g o (mkExecNode nodeId VNull abort_error false [])
| executed_node nodeId result error kids :
    (is_fail_fast (opt_errorStrategy o) = true → error = VNull) →
    (if truthy error && is_skip_children (opt_errorStrategy o) then kids = []
     else node <$> kids
          = (validNeighbors g (normalize_edgeTypes (opt_edgeTypes o)) (opt_direction o)
               nodeId).*1) →
    Forall (result_tree g o) kids →
    result_tree g o (mkExecNode nodeId result error false kids).

(** What the frames of a run keep for it. *)
Definition frame_shape (g : DependencyGraph) (o : options) (f : frame) : Prop :=
  match f_status f with
  | AwaitingChildren =>
      (is_fail_fast (opt_errorStrategy o) = true → f_error f = VNull) ∧
      truthy (f_error f) && is_skip_children (opt_errorStrategy o) = false
  | Fulfilled x => node x = f_nodeId f ∧ result_tree g o x
  | _ => True
  end.

Definition shape_ok (g : DependencyGraph) (o : options) (s : state) : Prop :=
  ∀ i f, frames s !! i = Some f → frame_shape g o f.

(** *** The work a run has left *)

(** The visit keys of the calls made for the valid neighbours of a node. *)
Definition neighbor_keys (g : DependencyGraph) (o : options) (nodeId : string)
  : list string :=
  (λ nb, visitKey nb.1 (Some nb.2))
    <$> validNeighbors g (normalize_edgeTypes (opt_edgeTypes o)) (opt_direction o) nodeId.

(** The visit keys a run can enter: the key of the root call and the keys
    of the neighbours of the entries of the index, each once. *)
Definition all_keys (g : DependencyGraph) (o : options) (startNodeId : string)
  : list string :=
  remove_dups
    (visitKey startNodeId None
     :: mjoin (neighbor_keys g o <$> JsMap.keys (adjacencyMap (opt_direction o) g))).

Definition unvisited (g : DependencyGraph) (o : options) (startNodeId : string)
    (s : state) : nat :=
  length (filter (λ k, k ∉ visited s) (all_keys g o startNodeId)).

(** What a frame still has to do: wait for the limiter, for its callback
    and for its children. *)
Definition weight (st : frame_status) : nat :=
  match st with
  | Queued => 5
  | Running => 4
  | AwaitingChildren => 1
  | Fulfilled _ | Rejected _ _ => 0
  end.

(** A bound on the ticks that can still change the state: the work of the
    frames, the [finally] handlers to run, the calls for the keys not
    entered yet, and the signal that can still fire. *)
Definition work_left (g : DependencyGraph) (o : options) (startNodeId : string)
    (s : state) : nat :=
  sum_list ((λ f, weight (f_status f)) <$> frames s) + 2 * releases s
  + 5 * unvisited g o startNodeId s
  + (if has_signal o && negb (aborted s) then 1 else 0).

Definition work_bound (g : DependencyGraph) (o : options) (startNodeId : string) : nat :=
  5 * length (all_keys g o startNodeId) + 1.

(** Every tick of the schedule changes the state it is taken in. *)
Fixpoint productive (g : DependencyGraph) (callback : string → jsval → context → behaviour)
    (o : options) (s : state) (schedule : list tick) : Prop :=
  match schedule with
  | [] => True
  | t :: schedule' =>
      step g callback o s t ≠ s ∧ productive g callback o (step g callback o s t) schedule'
  end.

(** The frames listed in [waiting] are the frames that wait for their
    callback, each once, and the limiter's counter covers the callbacks in
    flight and the [finally] handlers to run. *)
Definition waiting_ok (waiting : list nat) (s : state) : Prop :=
  NoDup waiting ∧
  (∀ i, i ∈ waiting ↔ ∃ f, frames s !! i = Some f ∧ f_status f = Queued) ∧
  running s = in_flight s + releases s.

(** The limiter's queue is in order, and a frame waits only while the
    limiter is full.  Without a limiter no frame waits. *)
Definition queue_ok (o : options) (s : state) : Prop :=
  match limiter o with
  | None => ∀ i f, frames s !! i = Some f → is_queued (f_status f) = false
  | Some max => waiting_ok (queue s) s ∧ (queue s ≠ [] → below (running s) max = false)
  end.

(** The limiter, when there is one, admits a first call: [0 < max]. *)
Definition admits_first (o : options) : bool :=
  match limiter o with
  | Some max => below 0 max
  | None => true
  end.

(** The calls for the children of a frame are made after its own. *)
Definition kids_ok (s : state) : Prop :=
  ∀ i f k, frames s !! i = Some f → k ∈ f_childPromises f → i < k.

Definition is_pending (p : promise) : bool :=
  match p with Pending => true | _ => false end.

(** *** The progress hook and the outcome of a call *)

(** What the trace shows of [onProgress]: it is called with the node and
    the result right after a callback that returned, and at no other
    time. *)
Definition reports_ok (o : options) (tr : list event) : Prop :=
  (∀ j n v, tr !! j = Some (Progressed n v) →
            is_Some (opt_onProgress o) ∧
            ∃ i, j = S i ∧ tr !! i = Some (Settled n (Returns v))) ∧
  (∀ j n v, tr !! j = Some (Settled n (Returns v)) → is_Some (opt_onProgress o) →
            tr !! S j = Some (Progressed n v)).

(** Neither a settlement nor a report. *)
Definition is_plain (ev : event) : bool :=
  match ev with Settled _ _ | Progressed _ _ => false | _ => true end.

(** The values of [result] and [error] once the callback has settled:
    [error] is what the callback threw, or what the progress hook threw
    when it was called with the result. *)
Definition outcome_result (outcome : settlement) : jsval :=
  match outcome with Returns v => v | Throws _ => VNull end.

Definition outcome_error (o : options) (nodeId : string) (outcome : settlement) : jsval :=
  match outcome with
  | Throws e => e
  | Returns v =>
      match opt_onProgress o with
      | Some hook => default VNull (hook nodeId v)
      | None => VNull
      end
  end.

(** A frame that is past its callback holds these values, and the node it
    returns carries them. *)
Definition locals_ok (callback : string → jsval → context → behaviour) (o : options)
    (s : state) : Prop :=
  ∀ i f, frames s !! i = Some f →
    let outcome := settles (callback (f_nodeId f) (f_parentResult f) (f_context f)) in
    match f_status f with
    | AwaitingChildren =>
        f_result f = outcome_result outcome ∧
        f_error f = outcome_error o (f_nodeId f) outcome
    | Fulfilled x =>
        isCircularRef x = true ∨
        (isCircularRef x = false ∧ node x = f_nodeId f ∧
         result x = outcome_result outcome ∧
         error x = outcome_error o (f_nodeId f) outcome)
    | _ => True
    end.

(** The cache holds, for a node, [undefined] or a value its callback has
    returned; a circular reference carries what the cache held. *)
Definition cached_value (s : state) (nodeId : string) (v : jsval) : Prop :=
  v = VUndefined ∨ Settled nodeId (Returns v) ∈ trace s.

Definition cache_ok (s : state) : Prop :=
  (∀ n v, JsMap.get n (resultCache s) = Some v → cached_value s n v) ∧
  (∀ i f x, frames s !! i = Some f → f_status f = Fulfilled x → isCircularRef x = true →
            node x = f_nodeId f ∧ error x = VNull ∧ children x = [] ∧
            cached_value s (f_nodeId f) (result x)).

End Executor.

(** *** The waterfall example

    The store [A -> B -> C] and the callback
    [parentResult ? parentResult * 2 : 10]. *)
Definition waterfall_chain : DependencyGraph :=
  mkGraph [("A", ["B"]); ("B", ["C"]); ("C", [])]
          [("A", []); ("B", ["A"]); ("C", ["B"])]
          [("A->B", mkEdge "B" "calc"); ("B->C", mkEdge "C" "calc")].

Definition waterfall (nodeId : string) (parentResult : Executor.jsval)
    (ctx : Executor.context) : Executor.behaviour :=
  Executor.mkBehaviour false
    (Executor.Returns
       (if Executor.truthy parentResult then
          match parentResult with
          | Executor.VNum n => Executor.VNum (n * 2)
          | _ => Executor.VNaN
          end
        else Executor.VNum 10)).

(** Every [await] resumes as soon as it can. *)
Definition waterfall_schedule : list Executor.tick :=
  [Executor.CallbackSettles 0; Executor.CallbackSettles 1; Executor.CallbackSettles 2;
   Executor.ChildrenSettled 1; Executor.ChildrenSettled 0].

Definition waterfall_state (k : nat) : Executor.state :=
  Executor.run waterfall_chain waterfall Executor.default_options "A"
               (take k waterfall_schedule).

Definition waterfall_tree : Executor.ExecNode :=
  Executor.mkExecNode "A" (Executor.VNum 10) Executor.VNull false
    [Executor.mkExecNode "B" (Executor.VNum 20) Executor.VNull false
       [Executor.mkExecNode "C" (Executor.VNum 40) Executor.VNull false []]].

Definition waterfall_trace : list Executor.event :=
  [Executor.Entered "A";
   Executor.Invoked "A" Executor.VNull (Executor.mkContext 0 [] None None []);
   Executor.Settled "A" (Executor.Returns (Executor.VNum 10));
   Executor.Entered "B";
   Executor.Invoked "B" (Executor.VNum 10)
     (Executor.mkContext 1 ["A"] (Some "A") (Some "calc") []);
   Executor.Settled "B" (Executor.Returns (Executor.VNum 20));
   Executor.Entered "C";
   Executor.Invoked "C" (Executor.VNum 20)
     (Executor.mkContext 2 ["A"; "B"] (Some "B") (Some "calc") []);
   Executor.Settled "C" (Executor.Returns (Executor.VNum 40))].

(** *** The error strategies example

    The store [A -> B -> D, A -> C -> E] and a callback that throws at
    [C]. *)
Definition two_branches : DependencyGraph :=
  mkGraph [("A", ["B"; "C"]); ("B", ["D"]); ("D", []); ("C", ["E"]); ("E", [])]
          [("A", []); ("B", ["A"]); ("D", ["B"]); ("C", ["A"]); ("E", ["C"])]
          [("A->B", mkEdge "B" "link"); ("B->D", mkEdge "D" "link");
           ("A->C", mkEdge "C" "link"); ("C->E", mkEdge "E" "link")].

Definition fails_at_C (nodeId : string) (parentResult : Executor.jsval)
    (ctx : Executor.context) : Executor.behaviour :=
  Executor.mkBehaviour false
    (if decide (nodeId = "C") then Executor.Throws (Executor.VError "Error in C")
     else Executor.Returns (Executor.VStr ("result_" +:+ nodeId))).

Definition collect_options : Executor.options :=
  Executor.mkOptions TypesAbsent Outgoing Executor.Collect None None None.

Definition two_branches_schedule : list Executor.tick :=
  [Executor.CallbackSettles 0; Executor.CallbackSettles 1; Executor.CallbackSettles 2;
   Executor.CallbackSettles 3; Executor.CallbackSettles 4;
   Executor.ChildrenSettled 2; Executor.ChildrenSettled 1; Executor.ChildrenSettled 0].

(** *** The cancellation example

    The store [A -> B -> C -> D] and a callback that aborts the signal
    when it is called at [B]. *)
Definition abort_chain : DependencyGraph :=
  mkGraph [("A", ["B"]); ("B", ["C"]); ("C", ["D"]); ("D", [])]
          [("A", []); ("B", ["A"]); ("C", ["B"]); ("D", ["C"])]
          [("A->B", mkEdge "B" "link"); ("B->C", mkEdge "C" "link");
           ("C->D", mkEdge "D" "link")].

Definition aborts_at_B (nodeId : string) (parentResult : Executor.jsval)
    (ctx : Executor.context) : Executor.behaviour :=
  Executor.mkBehaviour (bool_decide (nodeId = "B")) (Executor.Returns (Executor.VStr nodeId)).

(** [{ signal: controller.signal }] with the strategy [st]. *)
Definition signal_options (st : Executor.error_strategy) : Executor.options :=
  Executor.mkOptions TypesAbsent Outgoing st None (Some false) None.

Definition abort_schedule : list Executor.tick :=
  [Executor.CallbackSettles 0; Executor.CallbackSettles 1;
   Executor.ChildrenSettled 1; Executor.ChildrenSettled 0].

(** The store [A -> B, A -> C] run with [maxConcurrency: 1]. *)
Definition abort_fork : DependencyGraph :=
  mkGraph [("A", ["B"; "C"]); ("B", []); ("C", [])]
          [("A", []); ("B", ["A"]); ("C", ["A"])]
          [("A->B", mkEdge "B" "link"); ("A->C", mkEdge "C" "link")].

Definition one_at_a_time : Executor.options :=
  Executor.mkOptions TypesAbsent Outgoing Executor.FailFast (Some (Executor.integer 1))
                     (Some false) None.

(** *** An edge with metadata

    The store after [addEdge('A', 'B', 'weighted', { weight: 5, cost: 100 })]:
    [addEdge] has three parameters, the fourth argument is dropped. *)
Definition weighted_pair : DependencyGraph :=
  mkGraph [("A", ["B"]); ("B", [])]
          [("A", []); ("B", ["A"])]
          [("A->B", mkEdge "B" "weighted")].

Definition returns_id (nodeId : string) (parentResult : Executor.jsval)
    (ctx : Executor.context) : Executor.behaviour :=
  Executor.mkBehaviour false (Executor.Returns (Executor.VStr nodeId)).

(** ** Node ids and edge keys

    The key of an edge is [from->to]; [toMermaid] recovers [from] from the
    key with [edgeId.split('->')[0]]. *)

(** [s.startsWith('->')] *)
Definition starts_with_arrow (s : string) : bool :=
  match s with
  | String a (String b _) => bool_decide (String a (String b EmptyString) = "->")
  | _ => false
  end.

(** [s.includes('->')] *)
Fixpoint contains_arrow (s : string) : bool :=
  match s with
  | EmptyString => false
  | String c s' => if starts_with_arrow s then true else contains_arrow s'
  end.

(** [s.split('->')[0]]: the part of [s] before the first [->], all of [s]
    when there is none. *)
Fixpoint before_arrow (s : string) : string :=
  match s with
  | EmptyString => EmptyString
  | String c s' => if starts_with_arrow s then EmptyString else String c (before_arrow s')
  end.

(** ** Dependents and dependencies *)

(** [result.splice(result.indexOf(x), 1)], done when [x] is in [result]. *)
Definition splice_out (x : string) (result : list string) : list string :=
  match indexOf x result with
  | Some index => take index result ++ drop (S index) result
  | None => result
  end.

(** [getDependents]: [traverse] with [{ ...options, direction: 'outgoing' }],
    the node itself taken out of the result. *)
Definition getDependents (nodeId : string) (options : traverse_options) (g : DependencyGraph)
  : option (list string) :=
  result ← traverse nodeId
             (mkTraverseOptions (t_edgeTypes options) Outgoing (t_strategy options)) g;
  Some (splice_out nodeId result).

(** [getDependencies]: the same with [direction: 'incoming']. *)
Definition getDependencies (nodeId : string) (options : traverse_options) (g : DependencyGraph)
  : option (list string) :=
  result ← traverse nodeId
             (mkTraverseOptions (t_edgeTypes options) Incoming (t_strategy options)) g;
  Some (splice_out nodeId result).

(** ** Shape of a tree *)

(** The nodes of a tree with their subtrees, the root first. *)
Fixpoint subtrees (t : TreeNode) : list TreeNode :=
  t :: mjoin (subtrees <$> children t).

(** The children of a tree node are neighbours of the node along followed
    edges, in the order of the adjacency set. *)
Definition follows_index (g : DependencyGraph) (types : option (list string))
    (dir : direction) (s : TreeNode) : Prop :=
  (node <$> children s)
    `sublist_of` filter (λ y, followed types dir g (node s) y = true)
                        (members (adjacencyMap dir g) (node s)).

(** ** What the cycle detection decides *)

(** The [for (const neighborId of neighbors)] loop of [_detectCycleUtil],
    given the function of the recursive call. *)
Definition detect_loop
    (util : string → list string → list string → option (bool * list string * list string))
    (g : DependencyGraph) (edgeTypes : option (list string)) (nodeId : string)
  : list string → list string → list string → option (bool * list string * list string) :=
  fix neighbors_loop neighbors visiting visited :=
    match neighbors with
    | [] => Some (false, JsSet.delete nodeId visiting, JsSet.add nodeId visited)
    | neighborId :: neighbors' =>
        if followed edgeTypes Outgoing g nodeId neighborId then
          if JsSet.has neighborId visiting then Some (true, visiting, visited)
          else if negb (JsSet.has neighborId visited) then
            match util neighborId visiting visited with
            | None => None
            | Some (true, visiting', visited') => Some (true, visiting', visited')
            | Some (false, visiting', visited') =>
                neighbors_loop neighbors' visiting' visited'
            end
          else neighbors_loop neighbors' visiting visited
        else neighbors_loop neighbors' visiting visited
    end.

(** The same loop of [_findCycleUtil]. *)
Definition find_loop
    (util : string → list string → list string → list string →
            option (option (list string) * list string * list string * list string))
    (g : DependencyGraph) (edgeTypes : option (list string)) (nodeId : string)
  : list string → list string → list string → list string →
    option (option (list string) * list string * list string * list string) :=
  fix neighbors_loop neighbors visiting visited path :=
    match neighbors with
    | [] => Some (None, JsSet.delete nodeId visiting, JsSet.add nodeId visited,
                  removelast path)
    | neighborId :: neighbors' =>
        if followed edgeTypes Outgoing g nodeId neighborId then
          if JsSet.has neighborId visiting then
            let cyclePath := slice_from neighborId path ++ [neighborId] in
            Some (Some cyclePath, visiting, visited, path)
          else if negb (JsSet.has neighborId visited) then
            match util neighborId visiting visited path with
            | None => None
            | Some (Some result, visiting', visited', path') =>
                Some (Some result, visiting', visited', path')
            | Some (None, visiting', visited', path') =>
                neighbors_loop neighbors' visiting' visited' path'
            end
          else neighbors_loop neighbors' visiting visited path
        else neighbors_loop neighbors' visiting visited path
    end.

(** Some node reaches itself along followed outgoing edges. *)
Definition has_cycle (g : DependencyGraph) (types : option (list string)) : Prop :=
  ∃ x, tc (step_to types Outgoing g) x x.

(** Each element of the array is followed by a neighbour along a followed
    outgoing edge. *)
Definition is_walk (g : DependencyGraph) (types : option (list string)) (p : list string)
  : Prop :=
  ∀ i a b, p !! i = Some a → p !! S i = Some b → step_to types Outgoing g a b.

(** A cycle written as the nodes along it, none of them twice, the first
    one repeated at the end. *)
Definition cycle_path (g : DependencyGraph) (types : option (list string)) (p : list string)
  : Prop :=
  (∃ x middle, p = x :: middle ++ [x] ∧ NoDup (x :: middle)) ∧ is_walk g types p.

(** The nodes explored so far: their followed edges stay among them, and
    none of them lies on a cycle. *)
Definition explored (g : DependencyGraph) (types : option (list string))
    (visited : list string) : Prop :=
  (∀ v w, v ∈ visited → step_to types Outgoing g v w → w ∈ visited) ∧
  (∀ v, v ∈ visited → ¬ tc (step_to types Outgoing g) v v).

(** What a call of [_detectCycleUtil] guarantees. *)
Definition detects (g : DependencyGraph) (types : option (list string))
    (util : string → list string → list string → option (bool * list string * list string))
    (bound : nat) : Prop :=
  ∀ n visiting visited,
    n ∉ visiting → (∀ v, v ∈ visiting → tc (step_to types Outgoing g) v n) →
    explored g types visited →
    unvisited_ids (nodes g) (JsSet.add n visiting) < bound →
    ∃ r visiting' visited', util n visiting visited = Some (r, visiting', visited') ∧
      if r then has_cycle g types
      else visiting' = visiting ∧ explored g types visited' ∧
           (∀ v, v ∈ visited → v ∈ visited') ∧ n ∈ visited'.

(** What a call of [_findCycleUtil] guarantees: [visiting] and [path] hold
    the same nodes in the same order. *)
Definition finds (g : DependencyGraph) (types : option (list string))
    (util : string → list string → list string → list string →
            option (option (list string) * list string * list string * list string))
    (bound : nat) : Prop :=
  ∀ n path visited,
    n ∉ path → NoDup path → is_walk g types (path ++ [n]) →
    explored g types visited →
    unvisited_ids (nodes g) (JsSet.add n path) < bound →
    ∃ r visiting' visited' path', util n path visited path = Some (r, visiting', visited', path') ∧
      match r with
      | Some p => cycle_path g types p
      | None => visiting' = path ∧ path' = path ∧ explored g types visited' ∧
                (∀ v, v ∈ visited → v ∈ visited') ∧ n ∈ visited'
      end.

(** ** Rendering for Mermaid *)

Definition double_quote : string := String (Ascii.ascii_of_nat 34) EmptyString.

Definition newline : string := String (Ascii.ascii_of_nat 10) EmptyString.

(** The line of a node: four spaces, the id, and the id again in brackets
    and double quotes. *)
Definition node_line (nodeId : string) : string :=
  "    " +:+ nodeId +:+ "[" +:+ double_quote +:+ nodeId +:+ double_quote +:+ "];" +:+ newline.

(** The line of an entry of the edge table; [from] is
    [edgeId.split('->')[0]]. *)
Definition edge_line (entry : string * Edge) : string :=
  "    " +:+ before_arrow entry.1 +:+ " -- " +:+ type entry.2 +:+ " --> " +:+ to entry.2
  +:+ ";" +:+ newline.

Definition toMermaid (g : DependencyGraph) : string :=
  let mermaidString := "graph TD;" +:+ newline in
  let mermaidString :=
    foldl (λ s nodeId, s +:+ node_line nodeId) mermaidString (JsMap.keys (nodes g)) in
  foldl (λ s entry, s +:+ edge_line entry) mermaidString (edges g).

(** The lines of a text, one after the other. *)
Definition join_lines (lines : list string) : string :=
  foldr (λ line text, line +:+ text) EmptyString lines.

(** ** Breadth-first order *)

(** [x] is reached from the start node by [n] followed edges. *)
Definition reaches_in (g : DependencyGraph) (types : option (list string)) (dir : direction)
    (startNodeId : string) (n : nat) (x : string) : Prop :=
  nsteps (step_to types dir g) n startNodeId x.

(** [x] is reached by [n] followed edges and by no fewer. *)
Definition at_distance (g : DependencyGraph) (types : option (list string)) (dir : direction)
    (startNodeId : string) (n : nat) (x : string) : Prop :=
  reaches_in g types dir startNodeId n x ∧
  ∀ m, reaches_in g types dir startNodeId m x → n ≤ m.

Definition ascending (l : list nat) : Prop :=
  ∀ i j a b, i ≤ j → l !! i = Some a → l !! j = Some b → a ≤ b.

(** The state of the [bfs] loop.  The visited nodes are listed with their
    distances, in order, none beyond [level]; the queue holds nodes reached
    in [level] steps followed by nodes reached in [level + 1] steps; and
    every followed neighbour of a visited node is visited or waits in the
    queue. *)
Definition bfs_inv (g : DependencyGraph) (types : option (list string)) (dir : direction)
    (startNodeId : string) (visited queue : list string) : Prop :=
  ∃ (vl : list (string * nat)) (level : nat) (qa qb : list string),
    visited = vl.*1 ∧ queue = qa ++ qb ∧ startNodeId ∈ visited ∧
    Forall (λ p, at_distance g types dir startNodeId p.2 p.1 ∧ p.2 ≤ level) vl ∧
    ascending vl.*2 ∧
    Forall (reaches_in g types dir startNodeId level) qa ∧
    Forall (reaches_in g types dir startNodeId (S level)) qb ∧
    (∀ v d y, (v, d) ∈ vl → step_to types dir g v y →
       y ∈ visited ∨ (y ∈ qa ∧ level ≤ S d) ∨ (y ∈ qb ∧ level ≤ d)).

(** ** Ids without [->] *)

(** The node ids a call of the interface names. *)
Definition call_ids (c : call) : list string :=
  match c with
  | AddNode n => [n]
  | AddEdge f t _ => [f; t]
  | RemoveEdge f t => [f; t]
  | RemoveNode n => [n]
  end.

(** No call names an id that contains [->]. *)
Definition arrow_free (cs : list call) : Prop :=
  ∀ c k, c ∈ cs → k ∈ call_ids c → contains_arrow k = false.

(** The adjacency index has an entry of the edge table behind each of its
    members, and every node id is free of [->]. *)
Definition index_backed (g : DependencyGraph) : Prop :=
  (∀ k, hasNode k g = true → contains_arrow k = false) ∧
  (∀ f t, t ∈ outgoing g f → ∃ ty, is_edge g f t ty).

(** ** Discovery order *)

(** Every node of [l] after the first is entered by a followed edge from a
    node that comes before it. *)
Definition parent_first (g : DependencyGraph) (types : option (list string)) (dir : direction)
    (l : list string) : Prop :=
  ∀ j y, l !! j = Some y → 0 < j →
         ∃ i x, i < j ∧ l !! i = Some x ∧ step_to types dir g x y.

(** The neighbours the first round of [traverse] queues: the members of
    the start node's entry whose edge is followed, the start node itself
    apart. *)
Definition first_neighbors (g : DependencyGraph) (types : option (list string))
    (dir : direction) (startNodeId : string) : list string :=
  filter (λ y, followed types dir g startNodeId y = true ∧ y ≠ startNodeId)
         (members (adjacencyMap dir g) startNodeId).

(** * Properties *)

(** ** Container facts *)

Section container_facts.
Context {V : Type}.
Implicit Types (m : list (string * V)) (k : string) (s : list string).

Lemma set_elem_of_add x y s : y ∈ JsSet.add x s ↔ y = x ∨ y ∈ s.
Proof.
  unfold JsSet.add, JsSet.has. case_bool_decide.
  - split; [auto | by intros [->|]].
  - rewrite elem_of_app, list_elem_of_singleton. tauto.
Qed.

Lemma set_elem_of_delete x y s : y ∈ JsSet.delete x s ↔ y ≠ x ∧ y ∈ s.
Proof. unfold JsSet.delete. by rewrite list_elem_of_filter. Qed.

Lemma set_delete_nil x : JsSet.delete x [] = [].
Proof. reflexivity. Qed.

Lemma map_has_get k m : JsMap.has k m = true ↔ is_Some (JsMap.get k m).
Proof.
  unfold JsMap.has. destruct (JsMap.get k m); split; intros H; try done; eauto.
Qed.

Lemma map_has_false k m : JsMap.has k m = false ↔ JsMap.get k m = None.
Proof. unfold JsMap.has. by destruct (JsMap.get k m). Qed.

Lemma map_get_set k k' v m :
  JsMap.get k' (JsMap.set k v m) = if decide (k = k') then Some v else JsMap.get k' m.
Proof.
  induction m as [|[k0 v0] m IH]; simpl.
  - repeat case_decide; congruence.
  - repeat (case_decide; simpl); congruence.
Qed.

Lemma map_get_delete k k' m :
  JsMap.get k' (JsMap.delete k m) = if decide (k = k') then None else JsMap.get k' m.
Proof.
  unfold JsMap.delete.
  induction m as [|[k0 v0] m IH]; simpl.
  - by case_decide.
  - rewrite filter_cons. simpl. repeat (case_decide; simpl); congruence.
Qed.

Lemma map_get_alter (f : V → V) k k' m :
  JsMap.get k' (JsMap.alter f k m)
  = if decide (k = k') then f <$> JsMap.get k m else JsMap.get k' m.
Proof.
  induction m as [|[k0 v0] m IH]; simpl.
  - by case_decide.
  - repeat (case_decide; simpl); congruence.
Qed.

End container_facts.

Lemma string_length_app (a b : string) :
  String.length (a +:+ b) = String.length a + String.length b.
Proof. induction a; simpl; [done | by rewrite IHa]. Qed.

Lemma string_app_inj_r (x a b : string) : a +:+ x = b +:+ x → a = b.
Proof.
  revert b. induction a as [|c a IH]; intros [|c' b] H; try done.
  - apply (f_equal String.length) in H.
    rewrite !string_length_app in H. simpl in H. lia.
  - apply (f_equal String.length) in H.
    rewrite !string_length_app in H. simpl in H. lia.
  - injection H as -> H. f_equal. by apply IH.
Qed.

Lemma edgeId_inj_from f f' t : edgeId f t = edgeId f' t → f = f'.
Proof.
  unfold edgeId. intros H. apply (string_app_inj_r ("->" +:+ t)).
  exact H.
Qed.

(** ** Adjacency after an update of an index *)

Lemma adj_alter_delete x k a b (m : list (string * list string)) :
  b ∈ members (JsMap.alter (JsSet.delete x) k m) a ↔ b ∈ members m a ∧ ¬ (k = a ∧ b = x).
Proof.
  unfold members. rewrite map_get_alter. case_decide as Hk.
  - subst a. destruct (JsMap.get k m) as [s|]; simpl.
    + rewrite set_elem_of_delete. naive_solver.
    + rewrite elem_of_nil. tauto.
  - tauto.
Qed.

Lemma adj_alter_add x k a b (m : list (string * list string)) :
  JsMap.has k m = true →
  b ∈ members (JsMap.alter (JsSet.add x) k m) a ↔ b ∈ members m a ∨ (k = a ∧ b = x).
Proof.
  intros [s Hs]%map_has_get. unfold members. rewrite map_get_alter. case_decide as Hk.
  - subst a. rewrite Hs. simpl. rewrite set_elem_of_add. naive_solver.
  - tauto.
Qed.

Lemma adj_delete k a b (m : list (string * list string)) :
  b ∈ members (JsMap.delete k m) a ↔ b ∈ members m a ∧ k ≠ a.
Proof.
  unfold members. rewrite map_get_delete.
  case_decide; simpl; [rewrite elem_of_nil|]; naive_solver.
Qed.

Lemma adj_set_nil k a (m : list (string * list string)) :
  JsMap.has k m = false → members (JsMap.set k [] m) a = members m a.
Proof.
  intros H%map_has_false. unfold members. rewrite map_get_set.
  case_decide; [subst; by rewrite H | done].
Qed.

Lemma has_set {V} k k' (v : V) m :
  JsMap.has k' (JsMap.set k v m) = bool_decide (k = k') || JsMap.has k' m.
Proof. unfold JsMap.has. rewrite map_get_set. by case_decide; case_bool_decide. Qed.

Lemma has_alter {V} (f : V → V) k k' m :
  JsMap.has k' (JsMap.alter f k m) = JsMap.has k' m.
Proof.
  unfold JsMap.has. rewrite map_get_alter. case_decide; [subst|done].
  by destruct (JsMap.get k' m).
Qed.

Lemma has_delete {V} k k' (m : list (string * V)) :
  JsMap.has k' (JsMap.delete k m) = negb (bool_decide (k = k')) && JsMap.has k' m.
Proof. unfold JsMap.has. rewrite map_get_delete. by case_decide; case_bool_decide. Qed.

(** ** The store invariant is kept by every call *)

Lemma store_inv_empty : store_inv empty_graph.
Proof.
  split; try done.
  - intros a b. unfold outgoing, incoming, members. simpl. by rewrite !elem_of_nil.
  - intros a b. unfold outgoing, members. simpl. by rewrite elem_of_nil.
Qed.

Lemma addNode_hasNode n k g :
  hasNode k (addNode n g).2 = bool_decide (n = k) || hasNode k g.
Proof.
  unfold addNode, hasNode. destruct (JsMap.has n (nodes g)) eqn:Hn; simpl.
  - case_bool_decide; [by subst|done].
  - apply has_set.
Qed.

Lemma addNode_outgoing n g a : outgoing (addNode n g).2 a = outgoing g a.
Proof.
  unfold addNode, outgoing. destruct (JsMap.has n (nodes g)) eqn:Hn; simpl; [done|].
  by apply adj_set_nil.
Qed.

Lemma addNode_incoming n g a :
  (∀ k, JsMap.has k (incomingEdges g) = JsMap.has k (nodes g)) →
  incoming (addNode n g).2 a = incoming g a.
Proof.
  intros Hk. unfold addNode, incoming.
  destruct (JsMap.has n (nodes g)) eqn:Hn; simpl; [done|].
  apply adj_set_nil. by rewrite Hk.
Qed.

Lemma addNode_edges n g : edges (addNode n g).2 = edges g.
Proof. unfold addNode. by destruct (JsMap.has n (nodes g)). Qed.

Lemma addNode_index_keys n g k :
  (∀ k, JsMap.has k (incomingEdges g) = JsMap.has k (nodes g)) →
  JsMap.has k (incomingEdges (addNode n g).2) = JsMap.has k (nodes (addNode n g).2).
Proof.
  intros Hk. unfold addNode. destruct (JsMap.has n (nodes g)) eqn:Hn; simpl; [done|].
  by rewrite !has_set, Hk.
Qed.

Lemma store_inv_addNode n g : store_inv g → store_inv (addNode n g).2.
Proof.
  intros [Hk Hm Ha He]. split.
  - intros k. by apply addNode_index_keys.
  - intros a b. by rewrite addNode_outgoing, addNode_incoming.
  - intros a b. rewrite addNode_outgoing, !addNode_hasNode. intros [-> ->]%Ha.
    by rewrite !orb_true_r.
  - intros K e. rewrite addNode_edges. intros (f & -> & Hf)%He.
    exists f. by rewrite addNode_outgoing.
Qed.

Lemma addEdge_spec f t ty g :
  store_inv g →
  ∃ g', addEdge f t ty g = Some g' ∧
    (∀ k, hasNode k g' = bool_decide (f = k) || bool_decide (t = k) || hasNode k g) ∧
    (∀ k, JsMap.has k (incomingEdges g') = JsMap.has k (nodes g')) ∧
    (∀ a b, b ∈ outgoing g' a ↔ b ∈ outgoing g a ∨ (f = a ∧ b = t)) ∧
    (∀ a b, a ∈ incoming g' b ↔ a ∈ incoming g b ∨ (t = b ∧ a = f)) ∧
    (∀ K, JsMap.get K (edges g')
          = if decide (edgeId f t = K) then Some (mkEdge t ty) else JsMap.get K (edges g)).
Proof.
  intros Hg. unfold addEdge.
  pose proof (store_inv_addNode f g Hg) as H1.
  pose proof (store_inv_addNode t _ H1) as H2.
  set (g2 := (addNode t (addNode f g).2).2) in *.
  assert (Hf : JsMap.has f (nodes g2) = true).
  { change (hasNode f g2 = true). unfold g2. rewrite !addNode_hasNode.
    rewrite (bool_decide_true (f = f)) by done. by rewrite orb_true_r. }
  assert (Ht : JsMap.has t (incomingEdges g2) = true).
  { rewrite (inv_index_keys _ H2). change (hasNode t g2 = true).
    unfold g2. rewrite addNode_hasNode. by rewrite (bool_decide_true (t = t)) by done. }
  rewrite Hf, Ht. simpl. eexists. split; [done|]. split_and!.
  - intros k. unfold hasNode. simpl. rewrite has_alter.
    change (hasNode k g2 = bool_decide (f = k) || bool_decide (t = k) || hasNode k g).
    unfold g2. rewrite !addNode_hasNode. by destruct (bool_decide (f = k)), (bool_decide (t = k)).
  - intros k. simpl. rewrite !has_alter. apply (inv_index_keys _ H2).
  - intros a b. unfold outgoing. simpl. rewrite adj_alter_add by done.
    change (members (nodes g2) a) with (outgoing g2 a).
    unfold g2. by rewrite !addNode_outgoing.
  - intros a b. unfold incoming. simpl. rewrite adj_alter_add by done.
    change (members (incomingEdges g2) b) with (incoming g2 b).
    unfold g2. rewrite addNode_incoming by apply (inv_index_keys _ H1).
    by rewrite addNode_incoming by apply (inv_index_keys _ Hg).
  - intros K. simpl. rewrite map_get_set. unfold g2. by rewrite !addNode_edges.
Qed.

Lemma store_inv_addEdge f t ty g :
  store_inv g → ∃ g', addEdge f t ty g = Some g' ∧ store_inv g'.
Proof.
  intros Hg. destruct (addEdge_spec f t ty g Hg) as (g' & Hg' & Hn & Hk & Ho & Hi & He).
  exists g'. split; [done|]. destruct Hg as [_ Hm Ha Hed]. split.
  - done.
  - intros a b. rewrite Ho, Hi, Hm. naive_solver.
  - intros a b. rewrite Ho, !Hn. intros [[-> ->]%Ha | [-> ->]].
    + by rewrite !orb_true_r.
    + split; repeat case_bool_decide; simpl; rewrite ?orb_true_r; done.
  - intros K e. rewrite He. case_decide as HK.
    + intros [= <-]. simpl. exists f. rewrite Ho. auto.
    + intros (f' & -> & Hf')%Hed. exists f'. rewrite Ho. auto.
Qed.

Lemma removeEdge_spec f t g :
  let g' := (removeEdge f t g).2 in
  JsMap.has (edgeId f t) (edges g) = true →
    nodes g' = JsMap.alter (JsSet.delete t) f (nodes g) ∧
    (∀ k, hasNode k g' = hasNode k g) ∧
    (∀ k, JsMap.has k (incomingEdges g') = JsMap.has k (incomingEdges g)) ∧
    (∀ a b, b ∈ outgoing g' a ↔ b ∈ outgoing g a ∧ ¬ (f = a ∧ b = t)) ∧
    (∀ a b, a ∈ incoming g' b ↔ a ∈ incoming g b ∧ ¬ (t = b ∧ a = f)) ∧
    (∀ K, JsMap.get K (edges g')
          = if decide (edgeId f t = K) then None else JsMap.get K (edges g)).
Proof.
  intros g' He. unfold g', removeEdge. rewrite He. simpl. split_and!.
  - done.
  - intros k. unfold hasNode. simpl. apply has_alter.
  - intros k. apply has_alter.
  - intros a b. unfold outgoing. simpl. apply adj_alter_delete.
  - intros a b. unfold incoming. simpl. apply adj_alter_delete.
  - intros K. apply map_get_delete.
Qed.

Lemma store_inv_removeEdge f t g : store_inv g → store_inv (removeEdge f t g).2.
Proof.
  intros Hg. destruct (JsMap.has (edgeId f t) (edges g)) eqn:He.
  2: { unfold removeEdge. by rewrite He. }
  destruct (removeEdge_spec f t g He) as (_ & Hn & Hk & Ho & Hi & Hed).
  destruct Hg as [Hkeys Hm Ha Hedge]. split.
  - intros k. rewrite Hk, Hkeys. symmetry. apply Hn.
  - intros a b. rewrite Ho, Hi, Hm. naive_solver.
  - intros a b. rewrite Ho, !Hn. intros [H _]. by apply Ha.
  - intros K e. rewrite Hed. case_decide as HK; [done|].
    intros (f' & -> & Hf')%Hedge. exists f'. split; [done|]. rewrite Ho. split; [done|].
    intros [-> Ht]. by rewrite Ht in HK.
Qed.

Lemma foldl_drop_outgoing n ds g :
  let g1 := foldl (drop_outgoing n) g ds in
  nodes g1 = nodes g ∧
  (∀ k, JsMap.has k (incomingEdges g1) = JsMap.has k (incomingEdges g)) ∧
  (∀ a b, a ∈ incoming g1 b ↔ a ∈ incoming g b ∧ ¬ (b ∈ ds ∧ a = n)) ∧
  (∀ K, JsMap.get K (edges g1)
        = if decide (K ∈ edgeId n <$> ds) then None else JsMap.get K (edges g)).
Proof.
  induction ds as [|d ds IH] using rev_ind; simpl.
  - split_and!; try done; intros; rewrite ?elem_of_nil; try tauto.
    all: case_decide as HK; [by apply elem_of_nil in HK | done].
  - rewrite foldl_snoc. destruct IH as (Hn & Hk & Hi & He).
    set (g1 := foldl (drop_outgoing n) g ds) in *. split_and!.
    + done.
    + intros k. simpl. by rewrite has_alter.
    + intros a b. unfold incoming at 1. simpl. rewrite adj_alter_delete.
      change (members (incomingEdges g1) b) with (incoming g1 b).
      rewrite Hi, elem_of_app, list_elem_of_singleton. naive_solver.
    + intros K. simpl. rewrite map_get_delete, He, fmap_app. simpl.
      repeat case_decide; try done; exfalso;
        rewrite elem_of_app, list_elem_of_singleton in *; naive_solver.
Qed.

Lemma foldl_drop_incoming n ps g :
  let g2 := foldl (drop_incoming n) g ps in
  incomingEdges g2 = incomingEdges g ∧
  (∀ k, JsMap.has k (nodes g2) = JsMap.has k (nodes g)) ∧
  (∀ a b, b ∈ outgoing g2 a ↔ b ∈ outgoing g a ∧ ¬ (a ∈ ps ∧ b = n)) ∧
  (∀ K, JsMap.get K (edges g2)
        = if decide (K ∈ (λ p, edgeId p n) <$> ps) then None else JsMap.get K (edges g)).
Proof.
  induction ps as [|p ps IH] using rev_ind; simpl.
  - split_and!; try done; intros; rewrite ?elem_of_nil; try tauto.
    all: case_decide as HK; [by apply elem_of_nil in HK | done].
  - rewrite foldl_snoc. destruct IH as (Hn & Hk & Hi & He).
    set (g1 := foldl (drop_incoming n) g ps) in *. split_and!.
    + done.
    + intros k. simpl. by rewrite has_alter.
    + intros a b. unfold outgoing at 1. simpl. rewrite adj_alter_delete.
      change (members (nodes g1) a) with (outgoing g1 a).
      rewrite Hi, elem_of_app, list_elem_of_singleton. naive_solver.
    + intros K. simpl. rewrite map_get_delete, He, fmap_app. simpl.
      repeat case_decide; try done; exfalso;
        rewrite elem_of_app, list_elem_of_singleton in *; naive_solver.
Qed.

Lemma removeNode_spec n g :
  store_inv g → hasNode n g = true →
  let g' := (removeNode n g).2 in
    (∀ k, hasNode k g' = negb (bool_decide (n = k)) && hasNode k g) ∧
    (∀ k, JsMap.has k (incomingEdges g') = JsMap.has k (nodes g')) ∧
    (∀ a b, b ∈ outgoing g' a ↔ b ∈ outgoing g a ∧ a ≠ n ∧ b ≠ n) ∧
    (∀ a b, a ∈ incoming g' b ↔ a ∈ incoming g b ∧ a ≠ n ∧ b ≠ n) ∧
    (∀ K e, JsMap.get K (edges g') = Some e →
            JsMap.get K (edges g) = Some e ∧
            ∀ f t, K = edgeId f t → t ∈ outgoing g f → f ≠ n ∧ t ≠ n).
Proof.
  intros [Hkeys Hm Ha Hedge] Hn g'. unfold g', removeNode.
  unfold hasNode in Hn. rewrite Hn. simpl.
  destruct (foldl_drop_outgoing n (members (nodes g) n) g) as (Hn1 & Hk1 & Hi1 & He1).
  set (g1 := foldl (drop_outgoing n) g (members (nodes g) n)) in *.
  destruct (foldl_drop_incoming n (members (incomingEdges g1) n) g1) as (Hn2 & Hk2 & Ho2 & He2).
  set (g2 := foldl (drop_incoming n) g1 (members (incomingEdges g1) n)) in *.
  change (members (nodes g) n) with (outgoing g n) in *.
  change (members (incomingEdges g1) n) with (incoming g1 n) in *.
  assert (Ho1 : ∀ a, outgoing g1 a = outgoing g a) by (intros a; unfold outgoing; by rewrite Hn1).
  assert (Hi2 : ∀ b, incoming g2 b = incoming g1 b) by (intros a; unfold incoming; by rewrite Hn2).
  assert (Hout : ∀ a b : string,
    b ∈ members (JsMap.delete n (nodes g2)) a ↔ b ∈ outgoing g a ∧ a ≠ n ∧ b ≠ n).
  { intros a b. rewrite adj_delete. change (members (nodes g2) a) with (outgoing g2 a).
    rewrite Ho2, Ho1, Hi1. split; [|naive_solver].
    intros ((Hab & Hps) & Hna). split_and!; [done|done|]. intros ->.
    apply Hps. split; [|done]. split; [by apply Hm|]. naive_solver. }
  assert (Hin : ∀ a b : string,
    a ∈ members (JsMap.delete n (incomingEdges g2)) b ↔ a ∈ incoming g b ∧ a ≠ n ∧ b ≠ n).
  { intros a b. rewrite adj_delete. change (members (incomingEdges g2) b) with (incoming g2 b).
    rewrite Hi2, Hi1. split; [|naive_solver].
    intros ((Hab & Hds) & Hnb). split_and!; [done| |done]. intros ->.
    apply Hds. split; [|done]. by apply Hm. }
  split_and!.
  - intros k. unfold hasNode. simpl. rewrite has_delete, Hk2. by rewrite Hn1.
  - intros k. simpl. rewrite !has_delete, Hn2, Hk1, Hk2, Hn1. by rewrite Hkeys.
  - done.
  - done.
  - intros K e. simpl. rewrite He2. case_decide as HK2; [done|].
    rewrite He1. case_decide as HK1; [done|]. intros HKe. split; [done|].
    intros f t -> Hft. split.
    + intros ->. apply HK1. apply list_elem_of_fmap. eauto.
    + intros ->. apply HK2. apply list_elem_of_fmap. exists f. split; [done|].
      rewrite Hi1. split; [by apply Hm|]. intros [_ ->].
      apply HK1. apply list_elem_of_fmap. eauto.
Qed.

Lemma store_inv_removeNode n g : store_inv g → store_inv ((removeNode n g).2).
Proof.
  intros Hg. destruct (hasNode n g) eqn:Hn.
  2: { unfold removeNode. unfold hasNode in Hn. by rewrite Hn. }
  destruct (removeNode_spec n g Hg Hn) as (Hh & Hk & Ho & Hi & He).
  destruct Hg as [Hkeys Hm Ha Hedge]. split.
  - done.
  - intros a b. rewrite Ho, Hi, Hm. tauto.
  - intros a b. rewrite Ho, !Hh. intros (Hab & Hna & Hnb).
    destruct (Ha _ _ Hab) as [-> ->]. by rewrite !bool_decide_false by done.
  - intros K e [HK Hne]%He. destruct (Hedge _ _ HK) as (f & -> & Hf).
    exists f. split; [done|]. rewrite Ho. split; [done|]. by apply Hne.
Qed.

Lemma store_inv_perform c g :
  store_inv g → ∃ g', perform c g = Some g' ∧ store_inv g'.
Proof.
  intros Hg. destruct c as [n|f t ty|f t|n]; simpl.
  - eauto using store_inv_addNode.
  - by apply store_inv_addEdge.
  - eauto using store_inv_removeEdge.
  - eauto using store_inv_removeNode.
Qed.

Lemma store_inv_perform_all cs g :
  store_inv g → ∃ g', perform_all cs g = Some g' ∧ store_inv g'.
Proof.
  intros Hg. unfold perform_all. induction cs as [|c cs IH] using rev_ind; simpl.
  - eauto.
  - rewrite foldl_snoc. destruct IH as (g1 & -> & H1). simpl.
    by apply store_inv_perform.
Qed.

Lemma store_inv_absent g n :
  store_inv g → hasNode n g = false →
  JsMap.has n (incomingEdges g) = false ∧ outgoing g n = [] ∧ incoming g n = [] ∧
  (∀ m, (n ∉ outgoing g m) ∧ (n ∉ incoming g m)) ∧
  (∀ m ty, ¬ is_edge g n m ty ∧ ¬ is_edge g m n ty).
Proof.
  intros [Hkeys Hm Ha Hedge] Hn.
  assert (Hout : ∀ a b, b ∈ outgoing g a → a ≠ n ∧ b ≠ n).
  { intros a b [H1 H2]%Ha. split; intros ->; congruence. }
  assert (Hi : JsMap.has n (incomingEdges g) = false) by by rewrite Hkeys.
  split_and!.
  - done.
  - unfold outgoing, members. unfold hasNode in Hn. apply map_has_false in Hn. by rewrite Hn.
  - unfold incoming, members. apply map_has_false in Hi. by rewrite Hi.
  - intros m. split; [intros H | intros H%Hm]; apply Hout in H; naive_solver.
  - intros m ty. unfold is_edge.
    split; intros (f & Hf%edgeId_inj_from & Hin)%Hedge; simpl in *; subst f;
      apply Hout in Hin; naive_solver.
Qed.

(** C1.  Every store reached from the empty one by [addNode], [addEdge],
    [removeEdge] and [removeNode] calls (none of which fails) satisfies: the
    endpoints of every edge are nodes and the edge is recorded in both
    adjacency indices; the outgoing and incoming indices mirror each other;
    a node that is not in the node set has no adjacency key, appears in no
    adjacency set and is the endpoint of no edge; and [removeNode] leaves
    the removed node absent, so nothing mentions it afterwards. *)
Theorem store_invariant_reachable (cs : list call) :
  ∃ g, perform_all cs empty_graph = Some g ∧
    (∀ f t ty, is_edge g f t ty →
       hasNode f g = true ∧ hasNode t g = true ∧ t ∈ outgoing g f ∧ f ∈ incoming g t) ∧
    (∀ f t, t ∈ outgoing g f ↔ f ∈ incoming g t) ∧
    (∀ n, hasNode n g = false →
       JsMap.has n (incomingEdges g) = false ∧ outgoing g n = [] ∧ incoming g n = [] ∧
       (∀ m, (n ∉ outgoing g m) ∧ (n ∉ incoming g m)) ∧
       (∀ m ty, ¬ is_edge g n m ty ∧ ¬ is_edge g m n ty)) ∧
    (∀ n, hasNode n ((removeNode n g).2) = false).
Proof.
  destruct (store_inv_perform_all cs empty_graph store_inv_empty) as (g & Hrun & Hg).
  exists g. split; [done|]. split_and!.
  - intros f t ty He. destruct (inv_edge _ Hg _ _ He) as (f' & Hf%edgeId_inj_from & Hin).
    simpl in *. subst f'. destruct (inv_adjacent _ Hg _ _ Hin) as [? ?].
    split_and!; try done. by apply (inv_mutual _ Hg).
  - apply (inv_mutual _ Hg).
  - intros n. by apply store_inv_absent.
  - intros n. destruct (hasNode n g) eqn:Hn.
    + destruct (removeNode_spec n g Hg Hn) as (Hh & _). rewrite Hh.
      by rewrite bool_decide_true by done.
    + unfold removeNode. unfold hasNode in Hn. rewrite Hn. simpl. done.
Qed.

(** C10.  [removeNode] returns [false] only for an absent node and
    [removeEdge] returns [false] only for an absent edge, and in both cases
    the store (node set, both adjacency indices, edge table) is the one the
    call started from. *)
Theorem failed_removal_leaves_store (g : DependencyGraph) (nodeId fromNodeId toNodeId : string) :
  ((removeNode nodeId g).1 = false →
     hasNode nodeId g = false ∧ (removeNode nodeId g).2 = g) ∧
  ((removeEdge fromNodeId toNodeId g).1 = false →
     JsMap.has (edgeId fromNodeId toNodeId) (edges g) = false ∧
     (removeEdge fromNodeId toNodeId g).2 = g).
Proof.
  split.
  - unfold removeNode, hasNode. by destruct (JsMap.has nodeId (nodes g)).
  - unfold removeEdge. by destruct (JsMap.has (edgeId fromNodeId toNodeId) (edges g)).
Qed.

Lemma failed_removal_leaves_store_witness :
  let g := mkGraph [("A", ["B"]); ("B", [])] [("A", []); ("B", ["A"])]
                   [("A->B", mkEdge "B" "link")] in
  (removeNode "C" g).2 = g ∧ (removeEdge "B" "A" g).2 = g.
Proof.
  intros g.
  destruct (failed_removal_leaves_store g "C" "B" "A") as [Hn He].
  split; [apply Hn | apply He]; reflexivity.
Defined.

(** ** The codec *)

Lemma set_add_fresh x s : x ∉ s → JsSet.add x s = s ++ [x].
Proof. intros H. unfold JsSet.add, JsSet.has. by rewrite bool_decide_false. Qed.

Lemma new_Set_app acc xs :
  NoDup (acc ++ xs) → foldl (λ s x, JsSet.add x s) acc xs = acc ++ xs.
Proof.
  revert acc. induction xs as [|x xs IH]; intros acc Hnd; simpl.
  - by rewrite app_nil_r.
  - rewrite set_add_fresh.
    + rewrite IH; rewrite <- app_assoc; done.
    + apply NoDup_app in Hnd as (_ & Hd & _). intros Hx. apply (Hd x Hx). left.
Qed.

Lemma new_Set_nodup xs : NoDup xs → new_Set xs = xs.
Proof. intros H. unfold new_Set. by rewrite new_Set_app. Qed.

Lemma map_set_fresh {V} k (v : V) m :
  k ∉ JsMap.keys m → JsMap.set k v m = m ++ [(k, v)].
Proof.
  unfold JsMap.keys. induction m as [|[k' v'] m IH]; simpl; intros Hk; [done|].
  apply not_elem_of_cons in Hk as [Hne Hk]. case_decide; [congruence|].
  by rewrite IH.
Qed.

Lemma new_Map_app {V} (acc m : list (string * V)) :
  NoDup (JsMap.keys (acc ++ m)) →
  foldl (λ m kv, JsMap.set kv.1 kv.2 m) acc m = acc ++ m.
Proof.
  revert acc. induction m as [|[k v] m IH]; intros acc Hnd; simpl.
  - by rewrite app_nil_r.
  - rewrite map_set_fresh.
    + rewrite IH; rewrite <- app_assoc; done.
    + unfold JsMap.keys in *. rewrite fmap_app in Hnd.
      apply NoDup_app in Hnd as (_ & Hd & _). intros Hx. apply (Hd k Hx). left.
Qed.

Lemma new_Map_nodup {V} (m : list (string * V)) :
  NoDup (JsMap.keys m) → new_Map m = m.
Proof. intros H. unfold new_Map. by rewrite new_Map_app. Qed.

Lemma mapM_as_string l : mapM as_string (JString <$> l) = Some l.
Proof. apply mapM_fmap_Forall_Some. by apply Forall_true. Qed.

Lemma mapM_index_entry m :
  Forall (λ kv, NoDup kv.2) m →
  mapM index_entry ((λ kv, JArray [JString kv.1; JArray (JString <$> kv.2)]) <$> m) = Some m.
Proof.
  intros Hm. apply mapM_fmap_Forall_Some. eapply Forall_impl; [exact Hm|].
  intros [k v] Hv. simpl in *. rewrite mapM_as_string. simpl. by rewrite new_Set_nodup.
Qed.

Lemma mapM_edge_entry m :
  mapM edge_entry
    ((λ kv, JArray [JString kv.1;
                    JObject [("to", JString (to kv.2)); ("type", JString (type kv.2))]]) <$> m)
  = Some m.
Proof. apply mapM_fmap_Forall_Some. apply Forall_true. by intros [k [t ty]]. Qed.

(** C9.  For every store whose maps and sets hold no key and no member
    twice, as [Map] and [Set] guarantee, deserializing the serialized
    document gives back the same store: the same nodes in the same order,
    the same edge table with the same types, and the same outgoing and
    incoming adjacency sets. *)
Theorem deserialize_serialize (g : DependencyGraph) :
  store_wf g → deserialize (serialize g) = Some g.
Proof.
  intros ([Hn1 Hn2] & [Hi1 Hi2] & He). destruct g as [ns ins es]. simpl in *.
  unfold deserialize, serialize, entries_of, index_entries, edge_entries. simpl.
  rewrite !mapM_index_entry by done. simpl.
  rewrite mapM_edge_entry. simpl.
  by rewrite !new_Map_nodup.
Qed.

#[local] Instance index_wf_dec m : Decision (index_wf m).
Proof. unfold index_wf. apply _. Defined.

#[local] Instance store_wf_dec g : Decision (store_wf g).
Proof. unfold store_wf. apply _. Defined.

Lemma deserialize_serialize_witness :
  let g := mkGraph [("A", ["B"; "C"]); ("B", []); ("C", [])]
                   [("A", []); ("B", ["A"]); ("C", ["A"])]
                   [("A->B", mkEdge "B" "type1"); ("A->C", mkEdge "C" "type2")] in
  store_wf g ∧ deserialize (serialize g) = Some g.
Proof.
  intros g.
  assert (Hwf : store_wf g) by (apply (bool_decide_unpack _); vm_compute; exact I).
  split; [exact Hwf|]. apply (deserialize_serialize g Hwf).
Defined.

(** The stores the mutating interface builds are of that kind. *)

Lemma keys_set {V} k (v : V) m :
  JsMap.keys (JsMap.set k v m)
  = if JsMap.has k m then JsMap.keys m else JsMap.keys m ++ [k].
Proof.
  unfold JsMap.keys, JsMap.has. induction m as [|[k' v'] m IH]; csimpl; [done|].
  case_decide; csimpl; [by subst|]. rewrite IH. by destruct (JsMap.get k m).
Qed.

Lemma keys_alter {V} (f : V → V) k m : JsMap.keys (JsMap.alter f k m) = JsMap.keys m.
Proof.
  unfold JsMap.keys. induction m as [|[k' v'] m IH]; csimpl; [done|].
  case_decide; csimpl; [done|]. by rewrite IH.
Qed.

Lemma keys_delete {V} k (m : list (string * V)) :
  JsMap.keys (JsMap.delete k m) = filter (λ y, y ≠ k) (JsMap.keys m).
Proof.
  unfold JsMap.keys, JsMap.delete. induction m as [|[k' v'] m IH]; csimpl; [done|].
  rewrite !filter_cons. csimpl. case_decide; csimpl; by rewrite IH.
Qed.

Lemma has_keys {V} k (m : list (string * V)) : JsMap.has k m = true ↔ k ∈ JsMap.keys m.
Proof.
  unfold JsMap.has, JsMap.keys. induction m as [|[k' v'] m IH]; csimpl.
  - rewrite elem_of_nil. naive_solver.
  - rewrite elem_of_cons. case_decide; naive_solver.
Qed.

Lemma NoDup_keys_set {V} k (v : V) m :
  NoDup (JsMap.keys m) → NoDup (JsMap.keys (JsMap.set k v m)).
Proof.
  intros H. rewrite keys_set. destruct (JsMap.has k m) eqn:Hk; [done|].
  apply NoDup_app. split_and!; [done| |apply NoDup_singleton].
  intros x Hx ->%list_elem_of_singleton. apply has_keys in Hx. congruence.
Qed.

Lemma NoDup_keys_delete {V} k (m : list (string * V)) :
  NoDup (JsMap.keys m) → NoDup (JsMap.keys (JsMap.delete k m)).
Proof. intros H. rewrite keys_delete. by apply NoDup_filter. Qed.

Lemma NoDup_set_add x s : NoDup s → NoDup (JsSet.add x s).
Proof.
  intros H. unfold JsSet.add, JsSet.has. case_bool_decide; [done|].
  apply NoDup_app. split_and!; [done| |apply NoDup_singleton].
  by intros y Hy ->%list_elem_of_singleton.
Qed.

Lemma NoDup_set_delete x s : NoDup s → NoDup (JsSet.delete x s).
Proof. intros H. by apply NoDup_filter. Qed.

Lemma index_wf_alter f k m :
  (∀ s, NoDup s → NoDup (f s)) → index_wf m → index_wf (JsMap.alter f k m).
Proof.
  intros Hf [H1 H2]. split; [by rewrite keys_alter|].
  clear H1. induction H2 as [|[k' v'] m Hv Hm IH]; simpl; [done|].
  case_decide; constructor; simpl; auto.
Qed.

Lemma index_wf_set_nil k m : index_wf m → index_wf (JsMap.set k [] m).
Proof.
  intros [H1 H2]. split; [by apply NoDup_keys_set|].
  clear H1. induction H2 as [|[k' v'] m Hv Hm IH]; simpl.
  - repeat constructor.
  - case_decide; constructor; simpl; auto. constructor.
Qed.

Lemma index_wf_delete k m : index_wf m → index_wf (JsMap.delete k m).
Proof.
  intros [H1 H2]. split; [by apply NoDup_keys_delete|].
  apply Forall_forall. intros kv [_ Hkv]%list_elem_of_filter.
  by apply (proj1 (Forall_forall _ _) H2).
Qed.

Lemma store_wf_addNode n g : store_wf g → store_wf ((addNode n g).2).
Proof.
  intros (Hn & Hi & He). unfold addNode. destruct (JsMap.has n (nodes g)); simpl; [done|].
  split_and!; simpl; auto using index_wf_set_nil.
Qed.

Lemma store_wf_foldl_drop_outgoing n ds g :
  store_wf g → store_wf (foldl (drop_outgoing n) g ds).
Proof.
  intros Hg. induction ds as [|d ds IH] using rev_ind; [done|].
  rewrite foldl_snoc. destruct IH as (Hn & Hi & He).
  split_and!; simpl; auto using index_wf_alter, NoDup_set_delete, NoDup_keys_delete.
Qed.

Lemma store_wf_foldl_drop_incoming n ps g :
  store_wf g → store_wf (foldl (drop_incoming n) g ps).
Proof.
  intros Hg. induction ps as [|p ps IH] using rev_ind; [done|].
  rewrite foldl_snoc. destruct IH as (Hn & Hi & He).
  split_and!; simpl; auto using index_wf_alter, NoDup_set_delete, NoDup_keys_delete.
Qed.

Lemma store_wf_perform c g g' : store_wf g → perform c g = Some g' → store_wf g'.
Proof.
  intros Hg. destruct c as [n|f t ty|f t|n]; simpl.
  - intros [= <-]. by apply store_wf_addNode.
  - unfold addEdge. pose proof (store_wf_addNode t _ (store_wf_addNode f _ Hg)) as (Hn & Hi & He).
    case_match; [|done]. intros [= <-].
    split_and!; simpl; auto using index_wf_alter, NoDup_set_add, NoDup_keys_set.
  - intros [= <-]. unfold removeEdge. destruct Hg as (Hn & Hi & He).
    case_match; simpl; [done|].
    split_and!; simpl; auto using index_wf_alter, NoDup_set_delete, NoDup_keys_delete.
  - intros [= <-]. unfold removeNode. case_match; simpl; [done|].
    pose proof (store_wf_foldl_drop_incoming n
      (members (incomingEdges (foldl (drop_outgoing n) g (members (nodes g) n))) n) _
      (store_wf_foldl_drop_outgoing n (members (nodes g) n) g Hg)) as (Hn & Hi & He).
    split_and!; simpl; auto using index_wf_delete.
Qed.

Lemma store_wf_perform_all cs g :
  perform_all cs empty_graph = Some g → store_wf g.
Proof.
  unfold perform_all. revert g. induction cs as [|c cs IH] using rev_ind; simpl; intros g.
  - intros [= <-]. repeat split; simpl; constructor.
  - rewrite foldl_snoc. destruct (foldl _ _ cs) as [g1|]; simpl; [|done].
    intros Hc. eapply store_wf_perform; [|exact Hc]. by apply IH.
Qed.

(** ** Traversal *)

Lemma dequeue_None strat q : dequeue strat q = None → q = [].
Proof.
  destruct strat; simpl.
  - by destruct q.
  - destruct (last q) eqn:Hl; [done|]. intros _. by apply last_None.
Qed.

Lemma dequeue_Some strat q c q' :
  dequeue strat q = Some (c, q') →
  length q = S (length q') ∧ ∀ x, x ∈ q ↔ x = c ∨ x ∈ q'.
Proof.
  destruct strat; simpl.
  - destruct q as [|x q]; intros [= <- <-]. split; [done|]. intros y. apply elem_of_cons.
  - destruct (last q) as [x|] eqn:Hl; intros [= <- <-].
    apply last_Some in Hl as [l' ->]. rewrite removelast_last.
    rewrite length_app. simpl. split; [lia|].
    intros y. rewrite elem_of_app, list_elem_of_singleton. tauto.
Qed.

Lemma unvisited_size_mono adj visited c :
  unvisited_size adj (JsSet.add c visited) ≤ unvisited_size adj visited.
Proof.
  unfold unvisited_size. induction adj as [|[k v] adj IH]; csimpl; [done|].
  repeat case_bool_decide; try lia.
  exfalso. rewrite set_elem_of_add in *. naive_solver.
Qed.

Lemma unvisited_size_visit adj visited c :
  c ∉ visited →
  unvisited_size adj (JsSet.add c visited) + length (members adj c)
  ≤ unvisited_size adj visited.
Proof.
  intros Hc. unfold members.
  induction adj as [|[k v] adj IH]; [done|].
  change (unvisited_size ((k, v) :: adj) ?vis)
    with ((if bool_decide (k ∈ vis) then 0 else length v) + unvisited_size adj vis).
  simpl. case_decide as Hk.
  - subst k. simpl. rewrite (bool_decide_false (c ∈ visited)) by done.
    rewrite (bool_decide_true (c ∈ JsSet.add c visited)) by (rewrite set_elem_of_add; auto).
    pose proof (unvisited_size_mono adj visited c). lia.
  - assert (bool_decide (k ∈ JsSet.add c visited) = bool_decide (k ∈ visited)) as ->.
    { apply bool_decide_ext. rewrite set_elem_of_add. naive_solver. }
    lia.
Qed.

Lemma unvisited_size_nil adj : unvisited_size adj [] = index_size adj.
Proof.
  unfold unvisited_size, index_size. induction adj as [|[k v] adj IH]; csimpl; [done|].
  by f_equal.
Qed.

Section traverse_facts.
Context (g : DependencyGraph) (types : option (list string)) (dir : direction)
        (strat : strategy) (startNodeId : string).

Local Notation "'step'" := (step_to types dir g).
Local Notation "'adj'" := (adjacencyMap dir g).

Lemma traverse_loop_correct fuel visited queue result :
  traverse_potential adj visited queue < fuel →
  result = visited →
  NoDup visited →
  (∀ x, x ∈ visited ∨ x ∈ queue → rtc step startNodeId x) →
  (∀ x y, x ∈ visited → step x y → y ∈ visited ∨ y ∈ queue) →
  ∃ l, traverse_loop fuel g types dir strat visited queue result = Some l ∧
       NoDup l ∧ result `prefix_of` l ∧
       (∀ x, x ∈ queue → x ∈ l) ∧
       (∀ x, x ∈ l → rtc step startNodeId x) ∧
       (∀ x y, x ∈ l → step x y → y ∈ l).
Proof.
  revert visited queue result.
  induction fuel as [|fuel IH]; intros visited queue result Hfuel -> Hnd Hreach Hclosed;
    [lia|].
  simpl. destruct (dequeue strat queue) as [[c queue']|] eqn:Hdq.
  2: { apply dequeue_None in Hdq as ->. exists visited. split_and!; try done.
       - intros x Hx. by apply elem_of_nil in Hx.
       - intros x Hx. apply Hreach. by left.
       - intros x y Hx Hxy. destruct (Hclosed x y Hx Hxy) as [?|Hy]; [done|].
         by apply elem_of_nil in Hy. }
  apply dequeue_Some in Hdq as [Hlen Hmem].
  unfold traverse_potential in Hfuel.
  destruct (JsSet.has c visited) eqn:Hc.
  - apply bool_decide_eq_true in Hc.
    destruct (IH visited queue' visited) as (l & Hl & Hndl & Hpre & Hq & Hr & Hcl); try done.
    + unfold traverse_potential. lia.
    + intros x [?|?]; apply Hreach; [by left|]. right. apply Hmem. by right.
    + intros x y Hx Hxy. destruct (Hclosed x y Hx Hxy) as [?|[->|?]%Hmem]; auto.
    + exists l. split_and!; try done.
      intros x [->|Hx]%Hmem; [|by apply Hq].
      by apply (elem_of_prefix _ _ _ Hc Hpre).
  - apply bool_decide_eq_false in Hc.
    set (visited' := JsSet.add c visited).
    set (pushed := filter _ (members adj c)).
    assert (Hadd : visited' = visited ++ [c]) by by apply set_add_fresh.
    assert (Hpushed : ∀ y, y ∈ pushed ↔ step c y ∧ y ∉ visited').
    { intros y. unfold pushed. rewrite list_elem_of_filter. unfold step_to.
      unfold JsSet.has. rewrite bool_decide_eq_false. tauto. }
    destruct (IH visited' (queue' ++ pushed) visited') as (l & Hl & Hndl & Hpre & Hq & Hr & Hcl).
    + unfold traverse_potential. rewrite length_app.
      pose proof (unvisited_size_visit adj visited c Hc).
      assert (length pushed ≤ length (members adj c)) by apply length_filter.
      unfold visited'. lia.
    + done.
    + rewrite Hadd. apply NoDup_app. split_and!; [done| |apply NoDup_singleton].
      by intros x Hx ->%list_elem_of_singleton.
    + assert (Hrc : rtc step startNodeId c) by (apply Hreach; right; apply Hmem; by left).
      intros x. unfold visited'. rewrite set_elem_of_add, elem_of_app.
      intros [[->|?]|[?|[Hs _]%Hpushed]]; auto.
      * apply Hreach. right. apply Hmem. by right.
      * by eapply rtc_r.
    + intros x y. unfold visited' at 1. rewrite set_elem_of_add, elem_of_app.
      intros [->|Hx] Hxy.
      * destruct (decide (y ∈ visited')); [by left|]. right. right. by apply Hpushed.
      * destruct (Hclosed x y Hx Hxy) as [?|[->|?]%Hmem].
        -- left. apply set_elem_of_add. by right.
        -- left. apply set_elem_of_add. by left.
        -- right. by left.
    + exists l. rewrite <- Hadd. split_and!; try done.
      * rewrite Hadd in Hpre. by eapply prefix_app_l.
      * intros x [->|Hx]%Hmem.
        -- eapply elem_of_prefix; [|exact Hpre]. apply set_elem_of_add. by left.
        -- apply Hq. apply elem_of_app. by left.
Qed.

End traverse_facts.

(** C6.  [traverse] always returns.  When the start node is absent the
    result is the empty array.  Otherwise the result starts with the start
    node, lists no node twice, and lists exactly the nodes that can be
    reached from the start node along followed edges; this holds for the
    [bfs] strategy (shift from the front) and for [dfs] (pop from the
    back), whatever the direction and the type filter. *)
Theorem traverse_visits_once (startNodeId : string) (options : traverse_options)
    (g : DependencyGraph) :
  ∃ result, traverse startNodeId options g = Some result ∧
    NoDup result ∧
    (if hasNode startNodeId g then
       head result = Some startNodeId ∧
       ∀ x, x ∈ result ↔
            rtc (step_to (normalize_edgeTypes (t_edgeTypes options)) (t_direction options) g)
                startNodeId x
     else result = []).
Proof.
  unfold traverse, hasNode. destruct (JsMap.has startNodeId (nodes g)) eqn:Hstart; simpl.
  2: { exists []. split_and!; [done|constructor|done]. }
  set (types := normalize_edgeTypes (t_edgeTypes options)).
  set (dir := t_direction options). set (strat := t_strategy options).
  assert (Hdq : dequeue strat [startNodeId] = Some (startNodeId, [])) by by destruct strat.
  rewrite Hdq.
  change (JsSet.has startNodeId []) with false. cbv iota.
  change (JsSet.add startNodeId []) with [startNodeId].
  set (pushed := filter _ (members (adjacencyMap dir g) startNodeId)).
  assert (Hpushed : ∀ y, y ∈ pushed ↔ step_to types dir g startNodeId y ∧ y ≠ startNodeId).
  { intros y. unfold pushed. rewrite list_elem_of_filter. unfold step_to, JsSet.has.
    rewrite bool_decide_eq_false, list_elem_of_singleton. tauto. }
  destruct (traverse_loop_correct g types dir strat startNodeId
              (S (index_size (adjacencyMap dir g))) [startNodeId] ([] ++ pushed) [startNodeId])
    as (l & Hl & Hnd & Hpre & Hq & Hr & Hcl).
  - unfold traverse_potential. simpl.
    pose proof (unvisited_size_visit (adjacencyMap dir g) [] startNodeId (not_elem_of_nil _)) as H.
    rewrite unvisited_size_nil in H.
    change (JsSet.add startNodeId []) with [startNodeId] in H.
    assert (length pushed ≤ length (members (adjacencyMap dir g) startNodeId))
      by apply length_filter.
    lia.
  - done.
  - apply NoDup_singleton.
  - intros x [->%list_elem_of_singleton | [Hs _]%Hpushed]; [done|]. by apply rtc_once.
  - intros x y ->%list_elem_of_singleton Hxy. simpl.
    destruct (decide (y = startNodeId)) as [->|Hne]; [left; by apply list_elem_of_singleton|].
    right. by apply Hpushed.
  - exists l. split; [exact Hl|]. split; [done|].
    destruct Hpre as [rest ->]. split; [done|].
    intros x. split; [apply Hr|]. revert x. apply rtc_ind_r.
    + left.
    + intros y z _ Hyz Hy. by eapply Hcl.
Qed.

Example traverse_bfs_ex :
  (g ← perform_all [AddEdge "A" "B" "t"; AddEdge "A" "C" "t"; AddEdge "B" "D" "t";
                     AddEdge "C" "E" "t"] empty_graph;
   traverse "A" (mkTraverseOptions TypesAbsent Outgoing Bfs) g)
  = Some ["A"; "B"; "C"; "D"; "E"].
Proof. vm_compute. reflexivity. Qed.

Example traverse_dfs_ex :
  (g ← perform_all [AddEdge "A" "B" "t"; AddEdge "A" "C" "t"; AddEdge "B" "D" "t";
                     AddEdge "C" "E" "t"] empty_graph;
   traverse "A" (mkTraverseOptions TypesAbsent Outgoing Dfs) g)
  = Some ["A"; "C"; "E"; "B"; "D"].
Proof. vm_compute. reflexivity. Qed.

(** ** Cycle detection *)

Example cycle_longer_ex :
  (g ← perform_all [AddEdge "A" "B" "link"; AddEdge "B" "C" "link"; AddEdge "C" "A" "link"]
         empty_graph;
   r ← hasCircularDependency TypesAbsent g;
   p ← findCircularDependency TypesAbsent g; Some (r, p))
  = Some (true, Some ["A"; "B"; "C"; "A"]).
Proof. vm_compute. reflexivity. Qed.

Example cycle_filtered_ex :
  (g ← perform_all [AddEdge "A" "B" "type1"; AddEdge "B" "C" "type1";
                     AddEdge "C" "A" "type2"; AddEdge "C" "B" "type1"] empty_graph;
   r ← hasCircularDependency (TypesOne "type1") g;
   p ← findCircularDependency (TypesOne "type1") g; Some (r, p))
  = Some (true, Some ["B"; "C"; "B"]).
Proof. vm_compute. reflexivity. Qed.

Example cycle_none_ex :
  (g ← perform_all [AddEdge "A" "B" "link"; AddEdge "B" "C" "link"] empty_graph;
   r ← hasCircularDependency TypesAbsent g;
   p ← findCircularDependency TypesAbsent g; Some (r, p))
  = Some (false, None).
Proof. vm_compute. reflexivity. Qed.

Lemma two_node_cycle_built t1 t2 :
  perform_all [AddEdge "A" "B" t1; AddEdge "B" "A" t2] empty_graph
  = Some (two_node_cycle t1 t2).
Proof. vm_compute. reflexivity. Qed.

(** The two-node cycle with a filter in force.  For the store built by
    [addEdge('A','B',t1)] then [addEdge('B','A',t2)], with no filter
    [hasCircularDependency] returns [true] and [findCircularDependency]
    returns [['A','B','A']]; with a non-empty type, or an array of types,
    that names neither [t1] nor [t2] they return [false] and [null]. *)
Theorem two_node_cycle_detected (t1 t2 : string) (edgeTypes : edgeTypes_option)
    (ts : list string) :
  normalize_edgeTypes edgeTypes = Some ts → t1 ∉ ts → t2 ∉ ts →
  perform_all [AddEdge "A" "B" t1; AddEdge "B" "A" t2] empty_graph
    = Some (two_node_cycle t1 t2) ∧
  hasCircularDependency TypesAbsent (two_node_cycle t1 t2) = Some true ∧
  findCircularDependency TypesAbsent (two_node_cycle t1 t2) = Some (Some ["A"; "B"; "A"]) ∧
  hasCircularDependency edgeTypes (two_node_cycle t1 t2) = Some false ∧
  findCircularDependency edgeTypes (two_node_cycle t1 t2) = Some None.
Proof.
  intros Hts H1 H2. split; [apply two_node_cycle_built|].
  split; [vm_compute; reflexivity|]. split; [vm_compute; reflexivity|].
  assert (Hf : ∀ x y, followed (Some ts) Outgoing (two_node_cycle t1 t2) x y = false).
  { intros x y. unfold followed, edge_to_neighbor. simpl.
    repeat case_decide; simpl; try done; by apply bool_decide_eq_false. }
  unfold hasCircularDependency, findCircularDependency. rewrite Hts.
  split; simpl; by rewrite !Hf.
Qed.

Lemma two_node_cycle_detected_witness :
  hasCircularDependency TypesAbsent (two_node_cycle "type1" "type1") = Some true ∧
  findCircularDependency TypesAbsent (two_node_cycle "type1" "type1")
    = Some (Some ["A"; "B"; "A"]) ∧
  hasCircularDependency (TypesOne "type2") (two_node_cycle "type1" "type1") = Some false ∧
  findCircularDependency (TypesOne "type2") (two_node_cycle "type1" "type1") = Some None.
Proof.
  assert (Hn : "type1" ∉ ["type2"]) by (apply (bool_decide_unpack _); vm_compute; exact I).
  destruct (two_node_cycle_detected "type1" "type1" (TypesOne "type2") ["type2"]
              eq_refl Hn Hn) as (_ & H1 & H2 & H3 & H4).
  by split_and!.
Defined.

(** C7 at the filter [''].  The empty string is a type no edge of the
    cycle uses, but [options.edgeTypes ? ... : null] tests the
    option for truthiness and so takes [''] for no filter at all:
    [hasCircularDependency({edgeTypes: ''})] returns [true] and
    [findCircularDependency({edgeTypes: ''})] returns [['A','B','A']],
    where filtering by an unused type has to give [false] and [null], as
    the same type given in an array, [['']], does. *)
Theorem empty_filter_finds_cycle :
  ("" ∉ ["link"; "link"]) ∧
  perform_all [AddEdge "A" "B" "link"; AddEdge "B" "A" "link"] empty_graph
    = Some (two_node_cycle "link" "link") ∧
  hasCircularDependency (TypesOne "") (two_node_cycle "link" "link") = Some true ∧
  findCircularDependency (TypesOne "") (two_node_cycle "link" "link")
    = Some (Some ["A"; "B"; "A"]) ∧
  hasCircularDependency (TypesArray [""]) (two_node_cycle "link" "link") = Some false ∧
  findCircularDependency (TypesArray [""]) (two_node_cycle "link" "link") = Some None.
Proof.
  split; [apply (bool_decide_unpack _); vm_compute; exact I|].
  split_and!; vm_compute; reflexivity.
Qed.

(** ** The tree builder *)

Lemma length_filter_le {A} (P Q : A → Prop) `{∀ x, Decision (P x)} `{∀ x, Decision (Q x)} (l : list A) :
  (∀ x, x ∈ l → P x → Q x) → length (filter P l) ≤ length (filter Q l).
Proof.
  induction l as [|x l IH]; intros HPQ; [done|].
  rewrite !filter_cons.
  assert (length (filter P l) ≤ length (filter Q l)).
  { apply IH. intros y Hy. apply HPQ. by right. }
  destruct (decide (P x)) as [HP|HP]; destruct (decide (Q x)) as [HQ|HQ]; simpl; try lia.
  exfalso. apply HQ, HPQ; [left|done].
Qed.

Lemma length_filter_lt' {A} (P Q : A → Prop) `{∀ x, Decision (P x)} `{∀ x, Decision (Q x)} (l : list A) z :
  (∀ x, x ∈ l → P x → Q x) → z ∈ l → Q z → ¬ P z → length (filter P l) < length (filter Q l).
Proof.
  induction l as [|x l IH]; intros HPQ Hz HQz HPz; [by apply elem_of_nil in Hz|].
  rewrite !filter_cons.
  assert (length (filter P l) ≤ length (filter Q l)).
  { apply length_filter_le. intros y Hy. apply HPQ. by right. }
  apply elem_of_cons in Hz as [<-|Hz].
  - destruct (decide (P z)); [done|]. destruct (decide (Q z)); [|done]. simpl. lia.
  - assert (length (filter P l) < length (filter Q l)).
    { apply IH; try done. intros y Hy. apply HPQ. by right. }
    destruct (decide (P x)) as [HP|HP]; destruct (decide (Q x)) as [HQ|HQ]; simpl; try lia.
    exfalso. apply HQ, HPQ; [left|done].
Qed.

Lemma unvisited_ids_mono adj V V' :
  (∀ x, x ∈ V → x ∈ V') → unvisited_ids adj V' ≤ unvisited_ids adj V.
Proof. intros H. unfold unvisited_ids. apply length_filter_le. naive_solver. Qed.

Lemma elem_of_members adj k x : x ∈ members adj k → x ∈ mjoin adj.*2.
Proof.
  unfold members. induction adj as [|[k' v] adj IH]; csimpl.
  - by rewrite elem_of_nil.
  - rewrite elem_of_app. case_decide; simpl; auto.
Qed.

Lemma unvisited_ids_add adj V k n :
  n ∈ members adj k → n ∉ V → unvisited_ids adj (JsSet.add n V) < unvisited_ids adj V.
Proof.
  intros Hn HV. unfold unvisited_ids. apply (length_filter_lt' _ _ _ n).
  - intros x _. rewrite set_elem_of_add. naive_solver.
  - apply elem_of_remove_dups. by eapply elem_of_members.
  - done.
  - rewrite set_elem_of_add. naive_solver.
Qed.

Lemma unvisited_ids_bound adj V : unvisited_ids adj V ≤ index_size adj.
Proof.
  unfold unvisited_ids, index_size.
  etrans; [apply length_filter|].
  assert (length (remove_dups (mjoin adj.*2)) ≤ length (mjoin adj.*2)).
  { apply submseteq_length, NoDup_submseteq; [apply NoDup_remove_dups|].
    intros x. by rewrite elem_of_remove_dups. }
  etrans; [done|]. rewrite length_join. clear.
  induction adj as [|[k v] adj IH]; csimpl; lia.
Qed.

Section tree_facts.
Context (g : DependencyGraph) (types : option (list string)) (dir : direction).

Local Notation "'R'" := (step_to types dir g).
Local Notation "'adj'" := (adjacencyMap dir g).

Lemma build_children_spec build bound n neighbors :
  builds g types dir build bound →
  (∀ y, y ∈ neighbors → y ∈ members adj n) →
  ∀ V cs, n ∈ V → unvisited_ids adj V ≤ bound →
    ∃ cs', build_children build types dir g n neighbors V cs
             = Some (cs ++ cs', V ++ mjoin (tree_nodes <$> cs')) ∧
      (NoDup V → NoDup (V ++ mjoin (tree_nodes <$> cs'))) ∧
      (∀ x, x ∈ mjoin (tree_nodes <$> cs') → rtc R n x) ∧
      (∀ x y, x ∈ mjoin (tree_nodes <$> cs') → R x y → y ∈ V ++ mjoin (tree_nodes <$> cs')) ∧
      (∀ y, y ∈ neighbors → followed types dir g n y = true →
            y ∈ V ++ mjoin (tree_nodes <$> cs')).
Proof.
  intros Hbuild. induction neighbors as [|m neighbors IH]; intros Hsub V cs HnV Hbound; simpl.
  - exists []. rewrite !app_nil_r. split_and!; try done.
    + intros x Hx. by apply elem_of_nil in Hx.
    + intros x y Hx. by apply elem_of_nil in Hx.
    + intros y Hy. by apply elem_of_nil in Hy.
  - assert (Hsub' : ∀ y, y ∈ neighbors → y ∈ members adj n).
    { intros y Hy. apply Hsub. by right. }
    destruct (followed types dir g n m) eqn:Hf; simpl.
    2: { destruct (IH Hsub' V cs HnV Hbound) as (cs' & -> & Hnd & Hr & Hcl & Hnb).
         exists cs'. split_and!; try done.
         intros y [->|Hy]%elem_of_cons Hfy; [congruence|]. by apply Hnb. }
    destruct (JsSet.has m V) eqn:Hm; simpl.
    { apply bool_decide_eq_true in Hm.
      destruct (IH Hsub' V cs HnV Hbound) as (cs' & -> & Hnd & Hr & Hcl & Hnb).
      exists cs'. split_and!; try done.
      intros y [->|Hy]%elem_of_cons Hfy; [|by apply Hnb]. apply elem_of_app. by left. }
    apply bool_decide_eq_false in Hm.
    assert (Hmn : m ∈ members adj n) by (apply Hsub; left).
    destruct (Hbuild m V Hm) as (t & -> & Hnode & Hndt & Hrt & Hclt).
    { pose proof (unvisited_ids_add adj V n m Hmn Hm). lia. }
    destruct (IH Hsub' (V ++ tree_nodes t) (cs ++ [t])) as (cs' & -> & Hnd & Hr & Hcl & Hnb).
    { apply elem_of_app. by left. }
    { etrans; [|exact Hbound]. apply unvisited_ids_mono. intros x Hx. apply elem_of_app. by left. }
    exists (t :: cs'). csimpl. rewrite <- !app_assoc. simpl. split_and!.
    + done.
    + intros HV. rewrite app_assoc. auto.
    + intros x [Hx|Hx]%elem_of_app; [|by apply Hr].
      eapply rtc_l; [|by apply Hrt]. split; [done|done].
    + intros x y [Hx|Hx]%elem_of_app Hxy.
      * rewrite app_assoc. apply elem_of_app. left. by eapply Hclt.
      * rewrite app_assoc. by eapply Hcl.
    + intros y [->|Hy]%elem_of_cons Hfy.
      * rewrite !elem_of_app. right. left. destruct t as [n' cs'']. simpl in *. subst n'. left.
      * rewrite app_assoc. by apply Hnb.
Qed.

Lemma buildTreeNode_spec fuel : builds g types dir (_buildTreeNode fuel g types dir) fuel.
Proof.
  induction fuel as [|fuel IH]; intros n V HnV Hfuel; [lia|].
  simpl.
  destruct (build_children_spec _ fuel n (members adj n) IH (λ y Hy, Hy)
              (JsSet.add n V) []) as (cs & -> & Hnd & Hr & Hcl & Hnb).
  { apply set_elem_of_add. by left. }
  { lia. }
  rewrite set_add_fresh by done. rewrite <- app_assoc. simpl.
  exists (mkTree n cs). simpl. split_and!; try done.
  - intros HV. rewrite set_add_fresh in Hnd by done. rewrite <- app_assoc in Hnd. simpl in Hnd.
    apply Hnd. apply NoDup_app. split_and!; [done| |apply NoDup_singleton].
    by intros x Hx ->%list_elem_of_singleton.
  - intros x [->|Hx]%elem_of_cons; [done|]. by apply Hr.
  - intros x y [->|Hx]%elem_of_cons Hxy.
    + destruct Hxy as [Hy Hf]. specialize (Hnb y Hy Hf).
      by rewrite set_add_fresh, <- app_assoc in Hnb.
    + specialize (Hcl x y Hx Hxy). by rewrite set_add_fresh, <- app_assoc in Hcl.
Qed.

End tree_facts.

Lemma diamond_built :
  perform_all [AddEdge "A" "B" "link"; AddEdge "A" "C" "link";
               AddEdge "B" "D" "link"; AddEdge "C" "D" "link"] empty_graph
  = Some diamond.
Proof. vm_compute. reflexivity. Qed.

(** C8.  [getTree] always returns.  For an absent start node it returns
    [null].  Otherwise it returns a tree rooted at the start node whose
    node ids are exactly the nodes reachable from the start node along
    followed edges, none of them twice, also on stores with several paths
    to a node or with cycles; on the store [A->B, A->C, B->D, C->D] the
    tree from [A] holds [D] once, under [B]. *)
Theorem getTree_each_reachable_once (startNodeId : string) (options : tree_options)
    (g : DependencyGraph) :
  (∃ r, getTree startNodeId options g = Some r ∧
     if hasNode startNodeId g then
       ∃ tree, r = Some tree ∧ node tree = startNodeId ∧ NoDup (tree_nodes tree) ∧
         ∀ x, x ∈ tree_nodes tree ↔
              rtc (step_to (normalize_edgeTypes (tree_edgeTypes options))
                           (tree_direction options) g) startNodeId x
     else r = None) ∧
  getTree "A" (mkTreeOptions TypesAbsent Outgoing) diamond
  = Some (Some (mkTree "A" [mkTree "B" [mkTree "D" []]; mkTree "C" []])).
Proof.
  split; [|vm_compute; reflexivity].
  unfold getTree, hasNode. destruct (JsMap.has startNodeId (nodes g)) eqn:Hstart; cbn [negb].
  2: { by exists None. }
  set (types := normalize_edgeTypes (tree_edgeTypes options)).
  set (dir := tree_direction options).
  destruct (buildTreeNode_spec g types dir (2 + index_size (adjacencyMap dir g))
              startNodeId []) as (t & Ht & Hnode & Hnd & Hr & Hcl).
  { apply not_elem_of_nil. }
  { pose proof (unvisited_ids_bound (adjacencyMap dir g) (JsSet.add startNodeId [])). lia. }
  rewrite Ht. exists (Some t). split; [done|]. exists t. split_and!; try done.
  - apply (Hnd (NoDup_nil_2)).
  - intros x. split; [apply Hr|]. revert x. apply rtc_ind_r.
    + destruct t as [n cs]. simpl in *. subst n. left.
    + intros y z _ Hyz Hy. by apply (Hcl y z).
Qed.

Example getTree_cycle_ex :
  (g ← perform_all [AddEdge "A" "B" "link"; AddEdge "B" "C" "link"; AddEdge "C" "A" "link"]
         empty_graph;
   getTree "A" (mkTreeOptions TypesAbsent Outgoing) g)
  = Some (Some (mkTree "A" [mkTree "B" [mkTree "C" []]])).
Proof. vm_compute. reflexivity. Qed.

(** ** Further properties of the store, the traversals and the codec *)

(** ** Edge keys *)

Lemma starts_with_arrow_app c (a b : string) :
  starts_with_arrow (String c a) = false →
  starts_with_arrow (String c (a +:+ "->" +:+ b)) = false.
Proof.
  destruct a as [|c' a]; [|done]. intros _. simpl.
  apply bool_decide_eq_false. by intros [=].
Qed.

Lemma before_arrow_edgeId f t : contains_arrow f = false → before_arrow (edgeId f t) = f.
Proof.
  unfold edgeId. induction f as [|c f IH]; intros Hf; [done|].
  cbn [contains_arrow] in Hf.
  destruct (starts_with_arrow (String c f)) eqn:Hp; [done|].
  change (String c f +:+ "->" +:+ t) with (String c (f +:+ "->" +:+ t)).
  cbn [before_arrow]. rewrite starts_with_arrow_app by done. by rewrite IH.
Qed.

Lemma string_app_inj_l (x a b : string) : x +:+ a = x +:+ b → a = b.
Proof. induction x as [|c x IH]; simpl; [done|]. intros [= H]. by apply IH. Qed.

(** Keys tell edges apart as long as the start node has no [->] in its
    id. *)
Lemma edgeId_inj f t f' t' :
  contains_arrow f = false → contains_arrow f' = false →
  edgeId f t = edgeId f' t' → f = f' ∧ t = t'.
Proof.
  intros Hf Hf' H.
  assert (f = f') as <-.
  { rewrite <- (before_arrow_edgeId f t), <- (before_arrow_edgeId f' t') by done.
    by rewrite H. }
  split; [done|]. unfold edgeId in H.
  apply string_app_inj_l in H. by apply string_app_inj_l in H.
Qed.

(** The key of an edge from a node with [->] in its id is also the key of
    an edge from a shorter id. *)
Lemma string_app_assoc (x y z : string) : (x +:+ y) +:+ z = x +:+ y +:+ z.
Proof.
  induction x as [|c x IH]; [done|].
  change (String c ((x +:+ y) +:+ z) = String c (x +:+ y +:+ z)). by rewrite IH.
Qed.

Lemma edgeId_collision a b c : edgeId (a +:+ "->" +:+ b) c = edgeId a (b +:+ "->" +:+ c).
Proof. unfold edgeId. by rewrite !string_app_assoc. Qed.

(** ** What the mutating calls do to a store built through them *)

Lemma alter_alter {V} (f h : V → V) k (m : list (string * V)) :
  JsMap.alter f k (JsMap.alter h k m) = JsMap.alter (f ∘ h) k m.
Proof.
  induction m as [|[k' v] m IH]; simpl; [done|].
  case_decide; simpl; case_decide; try done. by rewrite IH.
Qed.

Lemma alter_same {V} (f : V → V) k (m : list (string * V)) :
  (∀ v, JsMap.get k m = Some v → f v = v) → JsMap.alter f k m = m.
Proof.
  induction m as [|[k' v] m IH]; simpl; [done|]. intros H.
  case_decide.
  - by rewrite H.
  - by rewrite IH.
Qed.

Lemma set_delete_add x s : x ∉ s → JsSet.delete x (JsSet.add x s) = s.
Proof.
  intros Hx. rewrite set_add_fresh by done. unfold JsSet.delete.
  rewrite filter_app, filter_cons, decide_False by (intros H; by apply H).
  rewrite filter_nil, app_nil_r.
  induction s as [|y s IH]; [done|].
  apply not_elem_of_cons in Hx as [Hne Hx].
  rewrite filter_cons, decide_True by done. by rewrite IH.
Qed.

Lemma map_delete_set {V} k (v : V) m :
  JsMap.has k m = false → JsMap.delete k (JsMap.set k v m) = m.
Proof.
  intros Hk. assert (Hnk : k ∉ JsMap.keys m).
  { intros H%has_keys. congruence. }
  rewrite map_set_fresh by done. unfold JsMap.delete.
  rewrite filter_app, filter_cons, decide_False by (intros H; by apply H).
  rewrite filter_nil, app_nil_r. clear Hk.
  induction m as [|[k' v'] m IH]; [done|].
  unfold JsMap.keys in Hnk. csimpl in Hnk. apply not_elem_of_cons in Hnk as [Hne Hnk].
  rewrite filter_cons, decide_True by (simpl; congruence). by rewrite IH.
Qed.

Lemma reachable_inv cs g : perform_all cs empty_graph = Some g → store_inv g.
Proof.
  intros H. destruct (store_inv_perform_all cs empty_graph store_inv_empty) as (g' & Hg' & Hinv).
  congruence.
Qed.

Lemma is_edge_adjacent g f t ty :
  store_inv g → is_edge g f t ty →
  t ∈ outgoing g f ∧ f ∈ incoming g t ∧ hasNode f g = true ∧ hasNode t g = true.
Proof.
  intros Hg He. destruct (inv_edge _ Hg _ _ He) as (f' & Hf'%edgeId_inj_from & Hin).
  simpl in *. subst f'. destruct (inv_adjacent _ Hg _ _ Hin) as [? ?].
  split_and!; try done. by apply (inv_mutual _ Hg).
Qed.

(** X1.  [addEdge] on a store built through the interface never throws.
    It creates the endpoints that are missing and no other node, records
    the edge in the edge table and in both adjacency indices, replaces the
    type of an edge that was there, and leaves every other adjacency and
    every other entry of the edge table as it was. *)
Theorem addEdge_effect (cs : list call) (g : DependencyGraph) (f t ty : string) :
  perform_all cs empty_graph = Some g →
  ∃ g', addEdge f t ty g = Some g' ∧
    (∀ k, hasNode k g' = true ↔ k = f ∨ k = t ∨ hasNode k g = true) ∧
    is_edge g' f t ty ∧ (∀ ty', is_edge g' f t ty' → ty' = ty) ∧
    (∀ a b, b ∈ outgoing g' a ↔ b ∈ outgoing g a ∨ (a = f ∧ b = t)) ∧
    (∀ a b, a ∈ incoming g' b ↔ a ∈ incoming g b ∨ (a = f ∧ b = t)) ∧
    (∀ K, K ≠ edgeId f t → JsMap.get K (edges g') = JsMap.get K (edges g)).
Proof.
  intros Hg%reachable_inv.
  destruct (addEdge_spec f t ty g Hg) as (g' & Hg' & Hn & _ & Ho & Hi & He).
  exists g'. split; [done|]. split_and!.
  - intros k. rewrite Hn, !orb_true_iff, !bool_decide_eq_true. naive_solver.
  - unfold is_edge. rewrite He. by rewrite decide_True.
  - unfold is_edge. intros ty'. rewrite He, decide_True by done. congruence.
  - intros a b. rewrite Ho. naive_solver.
  - intros a b. rewrite Hi. naive_solver.
  - intros K HK. rewrite He. by rewrite decide_False.
Qed.

Lemma addEdge_effect_witness :
  ∃ g', addEdge "A" "B" "formula" (mkGraph [("A", [])] [("A", [])] []) = Some g' ∧
        is_edge g' "A" "B" "formula".
Proof.
  destruct (addEdge_effect [AddNode "A"] (mkGraph [("A", [])] [("A", [])] [])
              "A" "B" "formula") as (g' & Hg' & _ & He & _).
  { vm_compute. reflexivity. }
  exists g'. split; [exact Hg'|exact He].
Defined.

(** X2.  A [removeEdge] that returns [true] takes the edge out of the edge
    table and out of both adjacency indices, keeps every node, and leaves
    every other adjacency and every other entry of the edge table as it
    was. *)
Theorem removeEdge_effect (g : DependencyGraph) (f t : string) :
  (removeEdge f t g).1 = true →
  let g' := (removeEdge f t g).2 in
  (∀ k, hasNode k g' = hasNode k g) ∧
  (∀ ty, ¬ is_edge g' f t ty) ∧ (t ∉ outgoing g' f) ∧ (f ∉ incoming g' t) ∧
  (∀ a b, (a, b) ≠ (f, t) →
     (b ∈ outgoing g' a ↔ b ∈ outgoing g a) ∧ (a ∈ incoming g' b ↔ a ∈ incoming g b)) ∧
  (∀ K, K ≠ edgeId f t → JsMap.get K (edges g') = JsMap.get K (edges g)).
Proof.
  intros Hret g'.
  assert (He : JsMap.has (edgeId f t) (edges g) = true).
  { unfold removeEdge in Hret. by destruct (JsMap.has (edgeId f t) (edges g)). }
  destruct (removeEdge_spec f t g He) as (_ & Hn & _ & Ho & Hi & Hed).
  fold g' in Hn, Ho, Hi, Hed. split_and!.
  - done.
  - intros ty. unfold is_edge. rewrite Hed. by rewrite decide_True.
  - rewrite Ho. naive_solver.
  - rewrite Hi. naive_solver.
  - intros a b Hab. rewrite Ho, Hi. naive_solver.
  - intros K HK. rewrite Hed. by rewrite decide_False.
Qed.

Lemma removeEdge_effect_witness :
  hasNode "A" (removeEdge "A" "B" (two_node_cycle "x" "y")).2
  = hasNode "A" (two_node_cycle "x" "y") ∧
  "A" ∈ outgoing (removeEdge "A" "B" (two_node_cycle "x" "y")).2 "B".
Proof.
  destruct (removeEdge_effect (two_node_cycle "x" "y") "A" "B") as (Hn & _ & _ & _ & Ho & _).
  { vm_compute. reflexivity. }
  split; [apply Hn|].
  apply (Ho "B" "A"); [by intros [=]|]. vm_compute. apply list_elem_of_In. simpl. tauto.
Defined.

(** X3.  Adding an edge between two nodes of a store built through the
    interface, where there was none, and removing it again gives back the
    store as it was: the same nodes, adjacency sets and edge table, in the
    same iteration order. *)
Theorem addEdge_removeEdge (cs : list call) (g : DependencyGraph) (f t ty : string) :
  perform_all cs empty_graph = Some g →
  hasNode f g = true → hasNode t g = true →
  t ∉ outgoing g f → JsMap.has (edgeId f t) (edges g) = false →
  ∃ g', addEdge f t ty g = Some g' ∧ removeEdge f t g' = (true, g).
Proof.
  intros Hg%reachable_inv Hf Ht Hout He.
  assert (Hti : JsMap.has t (incomingEdges g) = true) by by rewrite (inv_index_keys _ Hg).
  assert (Hin : f ∉ incoming g t) by by rewrite <- (inv_mutual _ Hg).
  unfold addEdge, addNode. unfold hasNode in Hf, Ht. rewrite Hf. simpl. rewrite Ht. simpl.
  rewrite Hf, Hti. simpl. eexists. split; [done|].
  unfold removeEdge. simpl. rewrite has_set, bool_decide_true by done. simpl.
  f_equal. rewrite !alter_alter, map_delete_set by done.
  destruct g as [ns ins es]. simpl in *. f_equal.
  - apply alter_same. intros s Hs. simpl. apply set_delete_add.
    unfold outgoing, members in Hout. simpl in Hout. by rewrite Hs in Hout.
  - apply alter_same. intros s Hs. simpl. apply set_delete_add.
    unfold incoming, members in Hin. simpl in Hin. by rewrite Hs in Hin.
Qed.

Lemma addEdge_removeEdge_witness :
  ∃ g', addEdge "A" "B" "formula" (mkGraph [("A", []); ("B", [])] [("A", []); ("B", [])] [])
        = Some g' ∧
        removeEdge "A" "B" g' = (true, mkGraph [("A", []); ("B", [])] [("A", []); ("B", [])] []).
Proof.
  apply (addEdge_removeEdge [AddNode "A"; AddNode "B"]).
  - vm_compute. reflexivity.
  - vm_compute. reflexivity.
  - vm_compute. reflexivity.
  - vm_compute. intros H. inversion H.
  - vm_compute. reflexivity.
Defined.

Lemma removeNode_edges n g K :
  hasNode n g = true →
  JsMap.get K (edges (removeNode n g).2)
  = if decide (K ∈ edgeId n <$> outgoing g n) then None
    else if decide (K ∈ (λ p, edgeId p n)
                        <$> incoming (foldl (drop_outgoing n) g (outgoing g n)) n)
         then None else JsMap.get K (edges g).
Proof.
  intros Hn. unfold removeNode. unfold hasNode in Hn. rewrite Hn. simpl.
  destruct (foldl_drop_outgoing n (members (nodes g) n) g) as (_ & _ & _ & He1).
  set (g1 := foldl (drop_outgoing n) g (members (nodes g) n)) in *.
  destruct (foldl_drop_incoming n (members (incomingEdges g1) n) g1) as (_ & _ & _ & He2).
  rewrite He2, He1. unfold outgoing, incoming. fold g1.
  repeat case_decide; done.
Qed.

(** X4.  [removeNode] of a node of a store built through the interface
    returns [true]; the node is gone and every other node stays; the
    adjacency sets lose the node and nothing else; every edge left in the
    edge table was there before and does not touch the node.  When no node
    id contains [->], the edges left are exactly the edges that do not
    touch the node. *)
Theorem removeNode_effect (cs : list call) (g : DependencyGraph) (n : string) :
  perform_all cs empty_graph = Some g → hasNode n g = true →
  let g' := (removeNode n g).2 in
  (removeNode n g).1 = true ∧
  (∀ k, hasNode k g' = true ↔ k ≠ n ∧ hasNode k g = true) ∧
  (∀ a b, b ∈ outgoing g' a ↔ b ∈ outgoing g a ∧ a ≠ n ∧ b ≠ n) ∧
  (∀ a b, a ∈ incoming g' b ↔ a ∈ incoming g b ∧ a ≠ n ∧ b ≠ n) ∧
  (∀ a b ty, is_edge g' a b ty → is_edge g a b ty ∧ a ≠ n ∧ b ≠ n) ∧
  ((∀ k, hasNode k g = true → contains_arrow k = false) →
   ∀ a b ty, is_edge g a b ty → a ≠ n → b ≠ n → is_edge g' a b ty).
Proof.
  intros Hg%reachable_inv Hn g'.
  destruct (removeNode_spec n g Hg Hn) as (Hh & _ & Ho & Hi & He). fold g' in Hh, Ho, Hi, He.
  split_and!.
  - unfold removeNode. unfold hasNode in Hn. by rewrite Hn.
  - intros k. rewrite Hh, andb_true_iff, negb_true_iff, bool_decide_eq_false. naive_solver.
  - done.
  - done.
  - intros a b ty Hab. destruct (He _ _ Hab) as [Hold Hne]. split; [done|].
    apply (Hne a b); [done|]. by apply (is_edge_adjacent g a b ty).
  - intros Hfree a b ty Hab Ha Hb. unfold is_edge, g'. rewrite removeNode_edges by done.
    destruct (is_edge_adjacent g a b ty Hg Hab) as (_ & _ & Hna & _).
    rewrite decide_False, decide_False; [done| |].
    + intros (p & Hp & Hin)%list_elem_of_fmap.
      apply edgeId_inj in Hp as [_ ->]; [done|by apply Hfree|].
      destruct (foldl_drop_outgoing n (outgoing g n) g) as (_ & _ & Hi1 & _).
      apply Hi1 in Hin as [Hin _]. apply (inv_mutual _ Hg) in Hin.
      apply Hfree. by apply (inv_adjacent _ Hg _ _ Hin).
    + intros (d & Hd & Hin)%list_elem_of_fmap.
      apply edgeId_inj in Hd as [-> _]; [done|by apply Hfree|by apply Hfree].
Qed.

Lemma removeNode_effect_witness :
  (removeNode "A" (two_node_cycle "x" "y")).1 = true.
Proof.
  destruct (removeNode_effect [AddEdge "A" "B" "x"; AddEdge "B" "A" "y"]
              (two_node_cycle "x" "y") "A") as (Hr & _).
  - vm_compute. reflexivity.
  - vm_compute. reflexivity.
  - exact Hr.
Defined.

(** X5.  The key [from->to] does not tell edges apart when an id contains
    [->]: after [addEdge(a + '->' + b, c)], the call
    [removeEdge(a, b + '->' + c)] finds that edge's key, returns [true] and
    deletes the entry, while [c] stays in the adjacency set of
    [a + '->' + b]. *)
Theorem edge_key_collision (cs : list call) (g : DependencyGraph) (a b c ty : string) :
  perform_all cs empty_graph = Some g →
  ∃ g', addEdge (a +:+ "->" +:+ b) c ty g = Some g' ∧
    (removeEdge a (b +:+ "->" +:+ c) g').1 = true ∧
    c ∈ outgoing (removeEdge a (b +:+ "->" +:+ c) g').2 (a +:+ "->" +:+ b) ∧
    ∀ ty', ¬ is_edge (removeEdge a (b +:+ "->" +:+ c) g').2 (a +:+ "->" +:+ b) c ty'.
Proof.
  intros Hg%reachable_inv.
  destruct (addEdge_spec (a +:+ "->" +:+ b) c ty g Hg) as (g' & Hg' & _ & _ & Ho & _ & He).
  exists g'. split; [done|].
  assert (Hhas : JsMap.has (edgeId a (b +:+ "->" +:+ c)) (edges g') = true).
  { apply map_has_get. rewrite He, <- edgeId_collision, decide_True by done. by eexists. }
  destruct (removeEdge_spec a (b +:+ "->" +:+ c) g' Hhas) as (_ & _ & _ & Ho' & _ & He').
  split_and!.
  - unfold removeEdge. by rewrite Hhas.
  - rewrite Ho', Ho. split; [by right|]. intros [Ha _].
    apply (f_equal String.length) in Ha. rewrite !string_length_app in Ha. simpl in Ha. lia.
  - intros ty'. unfold is_edge. rewrite He', edgeId_collision. by rewrite decide_True.
Qed.

Lemma edge_key_collision_witness :
  ∃ g', addEdge "a->b" "c" "x" empty_graph = Some g' ∧
        (removeEdge "a" "b->c" g').1 = true ∧ "c" ∈ outgoing (removeEdge "a" "b->c" g').2 "a->b".
Proof.
  destruct (edge_key_collision [] empty_graph "a" "b" "c" "x") as (g' & Hg' & Hr & Ho & _).
  { reflexivity. }
  exists g'. split; [exact Hg'|]. split; [exact Hr|exact Ho].
Defined.

(** ** Traversals from a node *)

(** What [traverse] returns; the bound of its loop is never reached. *)
Lemma traverse_returns startNodeId options g :
  ∃ result, traverse startNodeId options g = Some result ∧ NoDup result ∧
    if hasNode startNodeId g then
      (∃ rest, result = startNodeId :: rest) ∧
      ∀ x, x ∈ result ↔
           rtc (step_to (normalize_edgeTypes (t_edgeTypes options)) (t_direction options) g)
               startNodeId x
    else result = [].
Proof.
  unfold traverse, hasNode. destruct (JsMap.has startNodeId (nodes g)) eqn:Hstart; simpl.
  2: { exists []. split_and!; [done|constructor|done]. }
  set (types := normalize_edgeTypes (t_edgeTypes options)).
  set (dir := t_direction options). set (strat := t_strategy options).
  assert (Hdq : dequeue strat [startNodeId] = Some (startNodeId, [])) by by destruct strat.
  rewrite Hdq.
  change (JsSet.has startNodeId []) with false. cbv iota.
  change (JsSet.add startNodeId []) with [startNodeId].
  set (pushed := filter _ (members (adjacencyMap dir g) startNodeId)).
  assert (Hpushed : ∀ y, y ∈ pushed ↔ step_to types dir g startNodeId y ∧ y ≠ startNodeId).
  { intros y. unfold pushed. rewrite list_elem_of_filter. unfold step_to, JsSet.has.
    rewrite bool_decide_eq_false, list_elem_of_singleton. tauto. }
  destruct (traverse_loop_correct g types dir strat startNodeId
              (S (index_size (adjacencyMap dir g))) [startNodeId] ([] ++ pushed) [startNodeId])
    as (l & Hl & Hnd & [rest ->] & Hq & Hr & Hcl).
  - unfold traverse_potential. simpl.
    pose proof (unvisited_size_visit (adjacencyMap dir g) [] startNodeId (not_elem_of_nil _)) as H.
    rewrite unvisited_size_nil in H.
    change (JsSet.add startNodeId []) with [startNodeId] in H.
    assert (length pushed ≤ length (members (adjacencyMap dir g) startNodeId))
      by apply length_filter.
    lia.
  - done.
  - apply NoDup_singleton.
  - intros x [->%list_elem_of_singleton | [Hs _]%Hpushed]; [done|]. by apply rtc_once.
  - intros x y ->%list_elem_of_singleton Hxy. simpl.
    destruct (decide (y = startNodeId)) as [->|Hne]; [left; by apply list_elem_of_singleton|].
    right. by apply Hpushed.
  - exists ([startNodeId] ++ rest). split; [exact Hl|]. split; [done|].
    split; [by exists rest|].
    intros x. split; [apply Hr|]. revert x. apply rtc_ind_r.
    + left.
    + intros y z _ Hyz Hy. by eapply Hcl.
Qed.

Lemma splice_out_head x rest : splice_out x (x :: rest) = rest.
Proof. unfold splice_out. simpl. by rewrite decide_True. Qed.

Lemma without_self_returns dir nodeId options g :
  ∃ result,
    (result' ← traverse nodeId (mkTraverseOptions (t_edgeTypes options) dir (t_strategy options)) g;
     Some (splice_out nodeId result')) = Some result ∧
    NoDup result ∧
    ∀ x, x ∈ result ↔
         hasNode nodeId g = true ∧ x ≠ nodeId ∧
         rtc (step_to (normalize_edgeTypes (t_edgeTypes options)) dir g) nodeId x.
Proof.
  destruct (traverse_returns nodeId
              (mkTraverseOptions (t_edgeTypes options) dir (t_strategy options)) g)
    as (l & -> & Hnd & Hl). simpl in *.
  destruct (hasNode nodeId g).
  - destruct Hl as [[rest ->] Hmem]. rewrite splice_out_head. exists rest.
    apply NoDup_cons in Hnd as [Hn Hnd]. split_and!; [done|done|].
    intros x. rewrite <- Hmem, elem_of_cons. split.
    + intros Hx. split_and!; [done| |by right]. by intros ->.
    + by intros (_ & Hne & [?|?]).
  - subst l. exists []. split_and!; [done|constructor|].
    intros x. rewrite elem_of_nil. naive_solver.
Qed.

(** X6.  [getDependents] and [getDependencies] always return, whatever
    direction the options ask for.  The result lists no node twice and
    never the node itself: it holds exactly the other nodes reached from
    the node along followed edges, outgoing edges for [getDependents] and
    incoming edges for [getDependencies]; for an absent node it is
    empty. *)
Theorem dependents_and_dependencies (nodeId : string) (options : traverse_options)
    (g : DependencyGraph) :
  (∃ result, getDependents nodeId options g = Some result ∧ NoDup result ∧
     ∀ x, x ∈ result ↔
          hasNode nodeId g = true ∧ x ≠ nodeId ∧
          rtc (step_to (normalize_edgeTypes (t_edgeTypes options)) Outgoing g) nodeId x) ∧
  (∃ result, getDependencies nodeId options g = Some result ∧ NoDup result ∧
     ∀ x, x ∈ result ↔
          hasNode nodeId g = true ∧ x ≠ nodeId ∧
          rtc (step_to (normalize_edgeTypes (t_edgeTypes options)) Incoming g) nodeId x).
Proof. split; apply without_self_returns. Qed.

Example getDependents_ex :
  getDependents "A" (mkTraverseOptions TypesAbsent Incoming Bfs) diamond
  = Some ["B"; "C"; "D"] ∧
  getDependencies "D" (mkTraverseOptions TypesAbsent Outgoing Dfs) diamond
  = Some ["C"; "A"; "B"] ∧
  getDependents "Z" (mkTraverseOptions TypesAbsent Outgoing Bfs) diamond = Some [].
Proof. repeat split; vm_compute; reflexivity. Qed.

(** On a store built through the interface an incoming step is an outgoing
    step read backwards. *)
Lemma step_to_flip g types a b :
  store_inv g → step_to types Incoming g a b ↔ step_to types Outgoing g b a.
Proof.
  intros Hg. unfold step_to, followed, edge_to_neighbor. simpl.
  change (members (incomingEdges g) a) with (incoming g a).
  change (members (nodes g) b) with (outgoing g b).
  by rewrite (inv_mutual _ Hg).
Qed.

Lemma rtc_flip {A} (R R' : relation A) :
  (∀ x y, R x y ↔ R' y x) → ∀ x y, rtc R x y → rtc R' y x.
Proof.
  intros H x y Hxy. induction Hxy as [|x y z Hxy _ IH]; [done|].
  eapply rtc_r; [exact IH|]. by apply H.
Qed.

Lemma reach_flip g types a b :
  store_inv g →
  rtc (step_to types Incoming g) a b ↔ rtc (step_to types Outgoing g) b a.
Proof.
  intros Hg. split; apply rtc_flip; intros x y.
  - by apply step_to_flip.
  - symmetry. by apply step_to_flip.
Qed.

(** A node reached by at least one step is a node of the store. *)
Lemma reached_hasNode g types dir a b :
  store_inv g → rtc (step_to types dir g) a b → a ≠ b →
  hasNode a g = true ∧ hasNode b g = true.
Proof.
  intros Hg Hab Hne.
  assert (Hstep : ∀ x y, step_to types dir g x y → hasNode x g = true ∧ hasNode y g = true).
  { intros x y [Hy _]. destruct dir; simpl in Hy.
    - by apply (inv_adjacent _ Hg).
    - apply (inv_mutual _ Hg) in Hy. apply (inv_adjacent _ Hg) in Hy. tauto. }
  split.
  - destruct Hab as [|x y z Hxy _]; [done|]. by apply (Hstep _ _ Hxy).
  - apply rtc_inv_r in Hab as [->|(y & _ & Hyz)]; [done|]. by apply (Hstep _ _ Hyz).
Qed.

(** X7.  On a store built through the interface the two queries mirror
    each other: [b] is among [getDependencies(a)] exactly when [a] is among
    [getDependents(b)], for the same type filter and whatever the
    strategies. *)
Theorem dependencies_mirror_dependents (cs : list call) (g : DependencyGraph)
    (a b : string) (oa ob : traverse_options) (la lb : list string) :
  perform_all cs empty_graph = Some g →
  t_edgeTypes oa = t_edgeTypes ob →
  getDependencies a oa g = Some la → getDependents b ob g = Some lb →
  b ∈ la ↔ a ∈ lb.
Proof.
  intros Hg%reachable_inv Hty Ha Hb.
  destruct (without_self_returns Incoming a oa g) as (la' & Hla & _ & Hma).
  destruct (without_self_returns Outgoing b ob g) as (lb' & Hlb & _ & Hmb).
  unfold getDependencies in Ha. unfold getDependents in Hb.
  rewrite Ha in Hla. rewrite Hb in Hlb. injection Hla as <-. injection Hlb as <-.
  rewrite Hma, Hmb, Hty, (reach_flip g _ a b Hg). split.
  - intros (_ & Hne & Hr). split_and!; [|done|done].
    by apply (reached_hasNode g _ Outgoing b a Hg Hr).
  - intros (_ & Hne & Hr). split_and!; [|done|done].
    by apply (reached_hasNode g _ Outgoing b a Hg Hr).
Qed.

Lemma dependencies_mirror_dependents_witness :
  "D" ∈ ["B"; "C"; "D"] ↔ "A" ∈ ["C"; "A"; "B"].
Proof.
  apply (dependencies_mirror_dependents
           [AddEdge "B" "A" "link"; AddEdge "C" "A" "link";
            AddEdge "D" "B" "link"; AddEdge "D" "C" "link"]
           (mkGraph [("B", ["A"]); ("A", []); ("C", ["A"]); ("D", ["B"; "C"])]
                    [("B", ["D"]); ("A", ["B"; "C"]); ("C", ["D"]); ("D", [])]
                    [("B->A", mkEdge "A" "link"); ("C->A", mkEdge "A" "link");
                     ("D->B", mkEdge "B" "link"); ("D->C", mkEdge "C" "link")])
           "A" "D" (mkTraverseOptions TypesAbsent Outgoing Bfs)
           (mkTraverseOptions TypesAbsent Outgoing Dfs)).
  - vm_compute. reflexivity.
  - reflexivity.
  - vm_compute. reflexivity.
  - vm_compute. reflexivity.
Defined.

(** ** The tree and the traversal *)

(** What [getTree] returns for a node of the store; the bound of the
    recursion is never reached. *)
Lemma getTree_returns startNodeId options g :
  hasNode startNodeId g = true →
  ∃ tree, getTree startNodeId options g = Some (Some tree) ∧ node tree = startNodeId ∧
    NoDup (tree_nodes tree) ∧
    ∀ x, x ∈ tree_nodes tree ↔
         rtc (step_to (normalize_edgeTypes (tree_edgeTypes options))
                      (tree_direction options) g) startNodeId x.
Proof.
  intros Hstart. unfold getTree. unfold hasNode in Hstart. rewrite Hstart. cbn [negb].
  set (types := normalize_edgeTypes (tree_edgeTypes options)).
  set (dir := tree_direction options).
  destruct (buildTreeNode_spec g types dir (2 + index_size (adjacencyMap dir g))
              startNodeId []) as (t & Ht & Hnode & Hnd & Hr & Hcl).
  { apply not_elem_of_nil. }
  { pose proof (unvisited_ids_bound (adjacencyMap dir g) (JsSet.add startNodeId [])). lia. }
  rewrite Ht. exists t. split_and!; try done.
  - apply (Hnd (NoDup_nil_2)).
  - intros x. split; [apply Hr|]. revert x. apply rtc_ind_r.
    + destruct t as [n cs]. simpl in *. subst n. left.
    + intros y z _ Hyz Hy. by apply (Hcl y z).
Qed.

(** X8.  For a node of the store, [getTree] and [traverse] with the same
    type filter and direction cover the same nodes: the node ids of the
    tree are a rearrangement of the array [traverse] returns, for [bfs] and
    for [dfs]. *)
Theorem getTree_covers_traverse (startNodeId : string) (options : traverse_options)
    (g : DependencyGraph) :
  hasNode startNodeId g = true →
  ∃ tree result,
    getTree startNodeId (mkTreeOptions (t_edgeTypes options) (t_direction options)) g
    = Some (Some tree) ∧
    traverse startNodeId options g = Some result ∧
    tree_nodes tree ≡ₚ result.
Proof.
  intros Hstart.
  destruct (getTree_returns startNodeId
              (mkTreeOptions (t_edgeTypes options) (t_direction options)) g Hstart)
    as (tree & Ht & _ & Hnd & Hmem).
  destruct (traverse_returns startNodeId options g) as (result & Hr & Hnd' & Hres).
  rewrite Hstart in Hres. destruct Hres as [_ Hmem'].
  exists tree, result. split_and!; [done|done|].
  apply NoDup_Permutation; [done|done|]. intros x. by rewrite Hmem, Hmem'.
Qed.

Lemma getTree_covers_traverse_witness :
  ∃ tree result,
    getTree "A" (mkTreeOptions TypesAbsent Outgoing) diamond = Some (Some tree) ∧
    traverse "A" (mkTraverseOptions TypesAbsent Outgoing Bfs) diamond = Some result ∧
    tree_nodes tree ≡ₚ result.
Proof.
  apply (getTree_covers_traverse "A" (mkTraverseOptions TypesAbsent Outgoing Bfs) diamond).
  vm_compute. reflexivity.
Defined.

Section tree_shape.
Context (g : DependencyGraph) (types : option (list string)) (dir : direction).

Local Notation "'shaped'" := (follows_index g types dir).

Lemma build_children_shape build n neighbors V cs cs' V' :
  (∀ nb W t W', build nb W = Some (t, W') →
                node t = nb ∧ Forall shaped (subtrees t)) →
  build_children build types dir g n neighbors V cs = Some (cs', V') →
  ∃ new, cs' = cs ++ new ∧
    (node <$> new) `sublist_of` filter (λ y, followed types dir g n y = true) neighbors ∧
    Forall (λ c, Forall shaped (subtrees c)) new.
Proof.
  intros Hbuild. revert V cs.
  induction neighbors as [|nb neighbors IH]; intros V cs; simpl.
  - intros [= <- <-]. exists []. rewrite app_nil_r. split_and!; [done|done|constructor].
  - destruct (followed types dir g n nb) eqn:Hf; simpl.
    + rewrite filter_cons_True by exact Hf.
      destruct (JsSet.has nb V); simpl.
      * intros (new & -> & Hsub & Hall)%IH. exists new. split_and!; [done| |done].
        by apply sublist_cons.
      * destruct (build nb V) as [[c W]|] eqn:Hc; [|done].
        destruct (Hbuild _ _ _ _ Hc) as [Hnode Hshape].
        intros (new & -> & Hsub & Hall)%IH. exists (c :: new).
        rewrite <- app_assoc. split_and!; [done| |by constructor].
        csimpl. rewrite Hnode. by apply sublist_skip.
    + rewrite filter_cons_False by (simpl; congruence).
      intros (new & -> & Hsub & Hall)%IH. by exists new.
Qed.

Lemma buildTreeNode_shape fuel n V t V' :
  _buildTreeNode fuel g types dir n V = Some (t, V') →
  node t = n ∧ Forall shaped (subtrees t).
Proof.
  revert n V t V'. induction fuel as [|fuel IH]; intros n V t V'; [done|].
  simpl.
  destruct (build_children _ types dir g n _ _ []) as [[cs W]|] eqn:Hcs; [|done].
  intros [= <- <-]. split; [done|].
  apply build_children_shape in Hcs as (new & -> & Hsub & Hall); [|exact IH].
  simpl. constructor.
  - exact Hsub.
  - apply Forall_forall. intros s (l & Hs & (c & -> & Hc)%list_elem_of_fmap)%list_elem_of_join.
    rewrite Forall_forall in Hall. specialize (Hall c Hc).
    rewrite Forall_forall in Hall. by apply Hall.
Qed.

End tree_shape.

(** X9.  The tree [getTree] returns is rooted at the start node, and every
    node of it lists as children neighbours reached along followed edges
    only (the edge exists and passes the type filter), in the order in
    which the adjacency set lists them. *)
Theorem getTree_follows_index (startNodeId : string) (options : tree_options)
    (g : DependencyGraph) (tree : TreeNode) :
  getTree startNodeId options g = Some (Some tree) →
  node tree = startNodeId ∧
  ∀ s, s ∈ subtrees tree →
    (node <$> children s)
      `sublist_of`
      filter (λ y, followed (normalize_edgeTypes (tree_edgeTypes options))
                            (tree_direction options) g (node s) y = true)
             (members (adjacencyMap (tree_direction options) g) (node s)).
Proof.
  unfold getTree. destruct (negb _); [done|].
  destruct (_buildTreeNode _ _ _ _ _ _) as [[t V]|] eqn:Ht; [|done].
  intros [= <-]. apply buildTreeNode_shape in Ht as [Hnode Hshape].
  split; [done|]. by apply Forall_forall.
Qed.

Lemma getTree_follows_index_witness :
  node (mkTree "A" [mkTree "B" [mkTree "D" []]; mkTree "C" []]) = "A" ∧
  ∀ s, s ∈ subtrees (mkTree "A" [mkTree "B" [mkTree "D" []]; mkTree "C" []]) →
    (node <$> children s)
      `sublist_of`
      filter (λ y, followed None Outgoing diamond (node s) y = true)
             (members (nodes diamond) (node s)).
Proof.
  apply (getTree_follows_index "A" (mkTreeOptions TypesAbsent Outgoing) diamond).
  vm_compute. reflexivity.
Defined.

(** ** Cycle detection *)

Section cycle_facts.
Context (g : DependencyGraph) (types : option (list string)).

Local Notation "'E'" := (step_to types Outgoing g).

Lemma detectCycleUtil_unfold fuel n visiting visited :
  _detectCycleUtil (S fuel) g types n visiting visited
  = detect_loop (_detectCycleUtil fuel g types) g types n
      (members (nodes g) n) (JsSet.add n visiting) visited.
Proof. reflexivity. Qed.

Lemma findCycleUtil_unfold fuel n visiting visited path :
  _findCycleUtil (S fuel) g types n visiting visited path
  = find_loop (_findCycleUtil fuel g types) g types n
      (members (nodes g) n) (JsSet.add n visiting) visited (path ++ [n]).
Proof. reflexivity. Qed.

Lemma tc_first (x z : string) : tc E x z → ∃ y, E x y ∧ rtc E y z.
Proof.
  intros H. destruct H as [x y H|x y z H1 H2].
  - exists y. split; [done|left].
  - exists y. split; [done|]. by apply tc_rtc.
Qed.

Lemma explored_reach visited v w :
  explored g types visited → v ∈ visited → rtc E v w → w ∈ visited.
Proof.
  intros [Hcl _] Hv Hr. induction Hr as [|x y z Hxy _ IH]; [done|].
  apply IH. by eapply Hcl.
Qed.

Lemma explored_add visited u :
  explored g types visited → (∀ w, E u w → w ∈ visited) →
  explored g types (JsSet.add u visited).
Proof.
  intros Hex Hsucc. pose proof Hex as [Hcl Hac]. split.
  - intros v w [->|Hv]%set_elem_of_add Hvw; apply set_elem_of_add; right.
    + by apply Hsucc.
    + by eapply Hcl.
  - intros v [->|Hv]%set_elem_of_add; [|by apply Hac].
    destruct (decide (u ∈ visited)) as [Hu|Hu]; [by apply Hac|].
    intros (w & Huw & Hwu)%tc_first. apply Hu.
    eapply explored_reach; [done| |done]. by apply Hsucc.
Qed.

Lemma explored_nil : explored g types [].
Proof. split; intros v; intros; by apply elem_of_nil in H. Qed.

Lemma set_delete_fresh x s : x ∉ s → JsSet.delete x (s ++ [x]) = s.
Proof. intros Hx. rewrite <- set_add_fresh by done. by apply set_delete_add. Qed.

Lemma detect_loop_spec util bound n visiting neighbors :
  detects g types util bound →
  n ∉ visiting → (∀ v, v ∈ visiting → tc E v n) →
  (∀ y, y ∈ neighbors → y ∈ members (nodes g) n) →
  unvisited_ids (nodes g) (visiting ++ [n]) ≤ bound →
  ∀ visited, explored g types visited →
    (∀ w, E n w → w ∈ visited ∨ w ∈ neighbors) →
    ∃ r visiting' visited',
      detect_loop util g types n neighbors (visiting ++ [n]) visited
      = Some (r, visiting', visited') ∧
      if r then has_cycle g types
      else visiting' = visiting ∧ explored g types visited' ∧
           (∀ v, v ∈ visited → v ∈ visited') ∧ n ∈ visited'.
Proof.
  intros Hutil Hn Hpath Hnb Hbound.
  induction neighbors as [|nb neighbors IH]; intros visited Hex Hsucc; simpl.
  - eexists false, _, _. split; [done|]. split_and!.
    + by apply set_delete_fresh.
    + apply explored_add; [done|]. intros w Hw.
      destruct (Hsucc w Hw) as [?|?%elem_of_nil]; done.
    + intros v Hv. apply set_elem_of_add. by right.
    + apply set_elem_of_add. by left.
  - assert (Hnb' : ∀ y, y ∈ neighbors → y ∈ members (nodes g) n).
    { intros y Hy. apply Hnb. by right. }
    destruct (followed types Outgoing g n nb) eqn:Hf.
    2: { apply IH; [done|done|]. intros w Hw.
         destruct (Hsucc w Hw) as [?|[->|?]%elem_of_cons]; [by left| |by right].
         destruct Hw as [_ Hw]. congruence. }
    assert (Hstep : E n nb).
    { split; [|done]. apply Hnb. by left. }
    unfold JsSet.has at 1. case_bool_decide as Hvg.
    { exists true, (visiting ++ [n]), visited. split; [done|].
      apply elem_of_app in Hvg as [Hvg|Hvg%list_elem_of_singleton].
      - exists nb. eapply tc_r; [by apply Hpath|done].
      - subst nb. exists n. by apply tc_once. }
    unfold JsSet.has. case_bool_decide as Hvd; simpl.
    { apply IH; [done|done|]. intros w Hw.
      destruct (Hsucc w Hw) as [?|[->|?]%elem_of_cons]; [by left|by left|by right]. }
    destruct (Hutil nb (visiting ++ [n]) visited) as (r & vg' & vd' & -> & Hr).
    + done.
    + intros v [Hv|Hv%list_elem_of_singleton]%elem_of_app.
      * eapply tc_r; [by apply Hpath|done].
      * subst v. by apply tc_once.
    + done.
    + eapply Nat.lt_le_trans; [|exact Hbound].
      eapply unvisited_ids_add; [|done]. apply Hnb. by left.
    + destruct r.
      * by exists true, vg', vd'.
      * destruct Hr as (-> & Hex' & Hsub & Hin).
        destruct (IH Hnb' vd' Hex') as (r & vg'' & vd'' & -> & Hr').
        { intros w Hw. destruct (Hsucc w Hw) as [?|[->|?]%elem_of_cons];
            [left; by apply Hsub|by left|by right]. }
        exists r, vg'', vd''. split; [done|]. destruct r; [done|].
        destruct Hr' as (? & ? & Hsub' & ?). split_and!; try done.
        intros v Hv. by apply Hsub', Hsub.
Qed.

Lemma detectCycleUtil_spec fuel : detects g types (_detectCycleUtil fuel g types) fuel.
Proof.
  induction fuel as [|fuel IH]; intros n visiting visited Hn Hpath Hex Hfuel; [lia|].
  rewrite detectCycleUtil_unfold, set_add_fresh by done.
  rewrite set_add_fresh in Hfuel by done.
  apply (detect_loop_spec _ fuel); try done; [lia|].
  intros w [Hw _]. by right.
Qed.

Lemma step_key x y : E x y → x ∈ JsMap.keys (nodes g).
Proof.
  intros [Hy _]. simpl in Hy. apply has_keys. unfold members in Hy. unfold JsMap.has.
  destruct (JsMap.get x (nodes g)); [done|]. by apply elem_of_nil in Hy.
Qed.

Lemma cycle_key x : tc E x x → x ∈ JsMap.keys (nodes g).
Proof. intros (y & Hxy & _)%tc_first. by eapply step_key. Qed.

Lemma cycle_fuel_enough n visiting :
  unvisited_ids (nodes g) (JsSet.add n visiting) < cycle_fuel g.
Proof.
  pose proof (unvisited_ids_bound (nodes g) (JsSet.add n visiting)).
  unfold cycle_fuel. lia.
Qed.

Lemma detect_from_each_spec nodeIds visited :
  explored g types visited →
  ∃ b, detect_from_each g types nodeIds [] visited = Some b ∧
    if b then has_cycle g types
    else ∃ visited', explored g types visited' ∧
           (∀ v, v ∈ visited → v ∈ visited') ∧ (∀ k, k ∈ nodeIds → k ∈ visited').
Proof.
  revert visited. induction nodeIds as [|k nodeIds IH]; intros visited Hex; cbn [detect_from_each].
  - exists false. split; [done|]. exists visited. split_and!; [done|done|].
    intros k Hk. by apply elem_of_nil in Hk.
  - destruct (detectCycleUtil_spec (cycle_fuel g) k [] visited)
      as (r & vg' & vd' & -> & Hr).
    + apply not_elem_of_nil.
    + intros v Hv. by apply elem_of_nil in Hv.
    + done.
    + apply cycle_fuel_enough.
    + destruct r; [by exists true|].
      destruct Hr as (-> & Hex' & Hsub & Hk).
      destruct (IH vd' Hex') as (b & -> & Hb). exists b. split; [done|].
      destruct b; [done|]. destruct Hb as (vd'' & Hex'' & Hsub' & Hks).
      exists vd''. split_and!; [done|by intros v Hv; apply Hsub', Hsub|].
      intros k' [->|Hk']%elem_of_cons; [by apply Hsub'|by apply Hks].
Qed.

Lemma detect_all_spec :
  ∃ b, detect_from_each g types (JsMap.keys (nodes g)) [] [] = Some b ∧
       (b = true ↔ has_cycle g types).
Proof.
  destruct (detect_from_each_spec (JsMap.keys (nodes g)) [] explored_nil) as (b & -> & Hb).
  exists b. split; [done|]. destruct b; [done|].
  destruct Hb as (vd & [_ Hac] & _ & Hks). split; [done|].
  intros [x Hx]. destruct (Hac x); [|done]. apply Hks. by apply cycle_key.
Qed.

(** *** The path [findCircularDependency] returns *)

Lemma is_walk_snoc p n nb :
  is_walk g types (p ++ [n]) → E n nb → is_walk g types ((p ++ [n]) ++ [nb]).
Proof.
  intros Hw Hstep i a b Ha Hb.
  destruct (decide (S i < length (p ++ [n]))) as [Hlt|Hge].
  - rewrite lookup_app_l in Ha by lia. rewrite lookup_app_l in Hb by lia. by eapply Hw.
  - assert (Hi : S i = length (p ++ [n])).
    { apply lookup_lt_Some in Hb. rewrite length_app in Hb. simpl in Hb. lia. }
    rewrite lookup_app_r in Hb by lia. rewrite Hi, Nat.sub_diag in Hb. injection Hb as <-.
    rewrite lookup_app_l in Ha by lia.
    rewrite length_app in Hi. simpl in Hi.
    rewrite lookup_app_r in Ha by lia.
    replace (i - length p) with 0 in Ha by lia. by injection Ha as <-.
Qed.

Lemma is_walk_drop p i : is_walk g types p → is_walk g types (drop i p).
Proof.
  intros Hw j a b. rewrite !lookup_drop. replace (i + S j) with (S (i + j)) by lia. apply Hw.
Qed.

Lemma is_walk_app_l p q : is_walk g types (p ++ q) → is_walk g types p.
Proof.
  intros Hw i a b Ha Hb. apply (Hw i a b).
  - by apply lookup_app_l_Some.
  - by apply lookup_app_l_Some.
Qed.

Lemma indexOf_Some x p : x ∈ p → ∃ i, indexOf x p = Some i ∧ p !! i = Some x.
Proof.
  induction p as [|y p IH]; [by intros ?%elem_of_nil|]. simpl.
  case_decide as Hy; [subst; exists 0; by split|].
  intros [->|Hx]%elem_of_cons; [done|].
  destruct (IH Hx) as (i & -> & Hi). exists (S i). by split.
Qed.

Lemma cycle_path_closing p n nb :
  NoDup (p ++ [n]) → is_walk g types (p ++ [n]) → E n nb → nb ∈ p ++ [n] →
  cycle_path g types (slice_from nb (p ++ [n]) ++ [nb]).
Proof.
  intros Hnd Hw Hstep Hin. unfold slice_from.
  destruct (indexOf_Some nb _ Hin) as (i & -> & Hi).
  pose proof (is_walk_snoc p n nb Hw Hstep) as Hw'.
  assert (Hlt : i < length (p ++ [n])) by by eapply lookup_lt_Some.
  assert (Hdrop : drop i (p ++ [n]) ++ [nb] = drop i ((p ++ [n]) ++ [nb])).
  { rewrite (drop_app_le (p ++ [n])) by lia. done. }
  split.
  - exists nb.
    pose proof (sublist_NoDup _ _ Hnd (sublist_drop (p ++ [n]) i)) as Hnd'.
    destruct (drop i (p ++ [n])) as [|x rest] eqn:Hd.
    { apply (f_equal length) in Hd. rewrite length_drop in Hd. simpl in Hd. lia. }
    assert (x = nb) as ->.
    { assert (drop i (p ++ [n]) !! 0 = Some nb) as H0
        by (rewrite lookup_drop, Nat.add_0_r; exact Hi).
      rewrite Hd in H0. by injection H0. }
    by exists rest.
  - rewrite Hdrop. by apply is_walk_drop.
Qed.

Lemma find_loop_spec util bound n path neighbors :
  finds g types util bound →
  n ∉ path → NoDup path → is_walk g types (path ++ [n]) →
  (∀ y, y ∈ neighbors → y ∈ members (nodes g) n) →
  unvisited_ids (nodes g) (path ++ [n]) ≤ bound →
  ∀ visited, explored g types visited →
    (∀ w, E n w → w ∈ visited ∨ w ∈ neighbors) →
    ∃ r visiting' visited' path',
      find_loop util g types n neighbors (path ++ [n]) visited (path ++ [n])
      = Some (r, visiting', visited', path') ∧
      match r with
      | Some p => cycle_path g types p
      | None => visiting' = path ∧ path' = path ∧ explored g types visited' ∧
                (∀ v, v ∈ visited → v ∈ visited') ∧ n ∈ visited'
      end.
Proof.
  intros Hutil Hn Hnd Hwalk Hnb Hbound.
  assert (Hnd' : NoDup (path ++ [n])).
  { apply NoDup_app. split_and!; [done| |apply NoDup_singleton].
    by intros x Hx ->%list_elem_of_singleton. }
  induction neighbors as [|nb neighbors IH]; intros visited Hex Hsucc; simpl.
  - eexists None, _, _, _. split; [done|]. split_and!.
    + by apply set_delete_fresh.
    + by rewrite removelast_last.
    + apply explored_add; [done|]. intros w Hw.
      destruct (Hsucc w Hw) as [?|?%elem_of_nil]; done.
    + intros v Hv. apply set_elem_of_add. by right.
    + apply set_elem_of_add. by left.
  - assert (Hnb' : ∀ y, y ∈ neighbors → y ∈ members (nodes g) n).
    { intros y Hy. apply Hnb. by right. }
    destruct (followed types Outgoing g n nb) eqn:Hf.
    2: { apply IH; [done|done|]. intros w Hw.
         destruct (Hsucc w Hw) as [?|[->|?]%elem_of_cons]; [by left| |by right].
         destruct Hw as [_ Hw]. congruence. }
    assert (Hstep : E n nb).
    { split; [|done]. apply Hnb. by left. }
    unfold JsSet.has at 1. case_bool_decide as Hvg.
    { eexists (Some _), _, _, _. split; [done|]. by apply cycle_path_closing. }
    unfold JsSet.has. case_bool_decide as Hvd; simpl.
    { apply IH; [done|done|]. intros w Hw.
      destruct (Hsucc w Hw) as [?|[->|?]%elem_of_cons]; [by left|by left|by right]. }
    destruct (Hutil nb (path ++ [n]) visited) as (r & vg' & vd' & p' & -> & Hr).
    + done.
    + done.
    + by apply is_walk_snoc.
    + done.
    + eapply Nat.lt_le_trans; [|exact Hbound].
      eapply unvisited_ids_add; [|done]. apply Hnb. by left.
    + destruct r as [p|].
      * by exists (Some p), vg', vd', p'.
      * destruct Hr as (-> & -> & Hex' & Hsub & Hin).
        destruct (IH Hnb' vd' Hex') as (r & vg'' & vd'' & p'' & -> & Hr').
        { intros w Hw. destruct (Hsucc w Hw) as [?|[->|?]%elem_of_cons];
            [left; by apply Hsub|by left|by right]. }
        exists r, vg'', vd'', p''. split; [done|]. destruct r; [done|].
        destruct Hr' as (? & ? & ? & Hsub' & ?). split_and!; try done.
        intros v Hv. by apply Hsub', Hsub.
Qed.

Lemma findCycleUtil_spec fuel : finds g types (_findCycleUtil fuel g types) fuel.
Proof.
  induction fuel as [|fuel IH]; intros n path visited Hn Hnd Hwalk Hex Hfuel; [lia|].
  rewrite findCycleUtil_unfold, set_add_fresh by done.
  rewrite set_add_fresh in Hfuel by done.
  apply (find_loop_spec _ fuel); try done; [lia|].
  intros w [Hw _]. by right.
Qed.

Lemma is_walk_singleton n : is_walk g types ([] ++ [n]).
Proof. intros i a b Ha Hb. apply lookup_lt_Some in Hb. simpl in Hb. lia. Qed.

Lemma find_from_each_spec nodeIds visited :
  explored g types visited →
  ∃ r, find_from_each g types nodeIds visited = Some r ∧
    match r with
    | Some p => cycle_path g types p
    | None => ∃ visited', explored g types visited' ∧
                (∀ v, v ∈ visited → v ∈ visited') ∧ (∀ k, k ∈ nodeIds → k ∈ visited')
    end.
Proof.
  revert visited. induction nodeIds as [|k nodeIds IH]; intros visited Hex; cbn [find_from_each].
  - exists None. split; [done|]. exists visited. split_and!; [done|done|].
    intros k Hk. by apply elem_of_nil in Hk.
  - unfold JsSet.has. case_bool_decide as Hk; cbn [negb].
    { destruct (IH visited Hex) as (r & -> & Hr). exists r. split; [done|].
      destruct r; [done|]. destruct Hr as (vd' & Hex' & Hsub & Hks).
      exists vd'. split_and!; [done|done|].
      intros k' [->|Hk']%elem_of_cons; [by apply Hsub|by apply Hks]. }
    destruct (findCycleUtil_spec (cycle_fuel g) k [] visited)
      as (r & vg' & vd' & p' & -> & Hr).
    + apply not_elem_of_nil.
    + constructor.
    + apply is_walk_singleton.
    + done.
    + apply cycle_fuel_enough.
    + destruct r as [p|]; [by exists (Some p)|].
      destruct Hr as (_ & _ & Hex' & Hsub & Hin).
      destruct (IH vd' Hex') as (r & -> & Hr). exists r. split; [done|].
      destruct r; [done|]. destruct Hr as (vd'' & Hex'' & Hsub' & Hks).
      exists vd''. split_and!; [done|by intros v Hv; apply Hsub', Hsub|].
      intros k' [->|Hk']%elem_of_cons; [by apply Hsub'|by apply Hks].
Qed.

(** A walk with at least one step from [x] back to [x] is a cycle. *)
Lemma is_walk_tc p x y :
  is_walk g types (x :: p ++ [y]) → tc E x y.
Proof.
  revert x. induction p as [|z p IH]; intros x Hw; simpl in *.
  - apply tc_once. by apply (Hw 0).
  - eapply tc_l; [by apply (Hw 0)|]. apply IH.
    intros i a b Ha Hb. by apply (Hw (S i)).
Qed.

Lemma cycle_path_has_cycle p : cycle_path g types p → has_cycle g types.
Proof. intros [(x & middle & -> & _) Hw]. exists x. by eapply is_walk_tc. Qed.

Lemma find_all_spec :
  ∃ r, find_from_each g types (JsMap.keys (nodes g)) [] = Some r ∧
    match r with
    | Some p => cycle_path g types p
    | None => ¬ has_cycle g types
    end.
Proof.
  destruct (find_from_each_spec (JsMap.keys (nodes g)) [] explored_nil) as (r & -> & Hr).
  exists r. split; [done|]. destruct r as [p|]; [done|].
  destruct Hr as (vd & [_ Hac] & _ & Hks).
  intros [x Hx]. destruct (Hac x); [|done]. apply Hks. by apply cycle_key.
Qed.

End cycle_facts.

(** X10.  [hasCircularDependency] always returns, for every store, also one
    that was not built through the interface, and its answer is exact: it
    returns [true] if and only if some node reaches itself along outgoing
    edges that exist in the edge table and pass the type filter. *)
Theorem hasCircularDependency_exact (edgeTypes : edgeTypes_option) (g : DependencyGraph) :
  ∃ b, hasCircularDependency edgeTypes g = Some b ∧
       (b = true ↔ has_cycle g (normalize_edgeTypes edgeTypes)).
Proof. apply detect_all_spec. Qed.

(** X11.  [findCircularDependency] always returns.  A path it returns
    starts and ends with the same node, holds no other node twice, and
    every node of it is followed by a neighbour along a followed outgoing
    edge; it returns [null] only when no node reaches itself along followed
    outgoing edges. *)
Theorem findCircularDependency_sound (edgeTypes : edgeTypes_option) (g : DependencyGraph) :
  ∃ r, findCircularDependency edgeTypes g = Some r ∧
    match r with
    | Some p => cycle_path g (normalize_edgeTypes edgeTypes) p
    | None => ¬ has_cycle g (normalize_edgeTypes edgeTypes)
    end.
Proof. apply find_all_spec. Qed.

(** X12.  The two cycle queries agree on every store and every filter:
    [hasCircularDependency] returns [true] exactly when
    [findCircularDependency] returns a path. *)
Theorem cycle_queries_agree (edgeTypes : edgeTypes_option) (g : DependencyGraph) :
  ∃ b r, hasCircularDependency edgeTypes g = Some b ∧
         findCircularDependency edgeTypes g = Some r ∧
         (b = true ↔ is_Some r).
Proof.
  destruct (detect_all_spec g (normalize_edgeTypes edgeTypes)) as (b & Hb & Hiff).
  destruct (find_all_spec g (normalize_edgeTypes edgeTypes)) as (r & Hr & Hspec).
  exists b, r. split_and!; [done|done|]. rewrite Hiff. destruct r as [p|].
  - split; [by eexists|]. intros _. by eapply cycle_path_has_cycle.
  - split; [done|]. by intros [? [=]].
Qed.

(** ** Rendering for Mermaid *)

Lemma string_app_nil_r (s : string) : s +:+ "" = s.
Proof.
  induction s as [|c s IH]; [done|]. change (String c (s +:+ "") = String c s). by rewrite IH.
Qed.

Lemma foldl_append {A} (f : A → string) acc l :
  foldl (λ s x, s +:+ f x) acc l = acc +:+ join_lines (f <$> l).
Proof.
  revert acc. induction l as [|x l IH]; intros acc; csimpl.
  - by rewrite string_app_nil_r.
  - by rewrite IH, string_app_assoc.
Qed.

Lemma starts_with_arrow_app_true c (a b : string) :
  starts_with_arrow (String c a) = true → starts_with_arrow (String c (a +:+ b)) = true.
Proof. by destruct a. Qed.

(** The part of an edge key before its first [->] is the part of the start
    node's id before its first [->]. *)
Lemma before_arrow_key f t : before_arrow (edgeId f t) = before_arrow f.
Proof.
  unfold edgeId. induction f as [|c f IH]; [done|].
  change (String c f +:+ "->" +:+ t) with (String c (f +:+ "->" +:+ t)).
  cbn [before_arrow].
  destruct (starts_with_arrow (String c f)) eqn:Hp.
  - by rewrite starts_with_arrow_app_true.
  - rewrite starts_with_arrow_app by done. by rewrite IH.
Qed.

Lemma before_arrow_free f : contains_arrow f = false → before_arrow f = f.
Proof.
  induction f as [|c f IH]; [done|]. cbn [contains_arrow before_arrow].
  destruct (starts_with_arrow (String c f)); [done|]. intros Hf. by rewrite IH.
Qed.

Lemma map_get_elem_of {V} k (v : V) m : JsMap.get k m = Some v → (k, v) ∈ m.
Proof.
  induction m as [|[k' v'] m IH]; simpl; [done|].
  case_decide as Hk.
  - intros [= ->]. subst. by left.
  - intros Hget. right. by apply IH.
Qed.

(** X13.  [toMermaid] writes the header [graph TD;], one line per node in
    the order of the node map, and one line per entry of the edge table in
    the order of the table.  The line of an edge of the store names its
    type and its end node, and as start node the id cut before its first
    [->]: the id itself when it contains no [->]. *)
Theorem toMermaid_lines (g : DependencyGraph) :
  toMermaid g
  = join_lines (("graph TD;" +:+ newline)
                  :: (node_line <$> JsMap.keys (nodes g)) ++ (edge_line <$> edges g)) ∧
  ∀ f t ty, is_edge g f t ty →
    ("    " +:+ before_arrow f +:+ " -- " +:+ ty +:+ " --> " +:+ t +:+ ";" +:+ newline)
      ∈ edge_line <$> edges g ∧
    (contains_arrow f = false → before_arrow f = f).
Proof.
  split.
  - unfold toMermaid. rewrite !foldl_append. simpl.
    rewrite string_app_assoc. f_equal.
    generalize (node_line <$> JsMap.keys (nodes g)). intros l.
    induction l as [|x l IH]; simpl; [done|]. by rewrite <- IH, string_app_assoc.
  - intros f t ty He. split; [|apply before_arrow_free].
    apply list_elem_of_fmap. exists (edgeId f t, mkEdge t ty). split.
    + unfold edge_line. simpl. by rewrite before_arrow_key.
    + by apply map_get_elem_of.
Qed.

Example toMermaid_ex :
  toMermaid (mkGraph [("A", ["B"]); ("B", [])] [("A", []); ("B", ["A"])]
                     [("A->B", mkEdge "B" "formula")])
  = "graph TD;" +:+ newline +:+
    "    A[" +:+ double_quote +:+ "A" +:+ double_quote +:+ "];" +:+ newline +:+
    "    B[" +:+ double_quote +:+ "B" +:+ double_quote +:+ "];" +:+ newline +:+
    "    A -- formula --> B;" +:+ newline.
Proof. vm_compute. reflexivity. Qed.

(** ** Breadth-first order *)

Section bfs_facts.
Context (g : DependencyGraph) (types : option (list string)) (dir : direction)
        (startNodeId : string).

Local Notation "'R'" := (step_to types dir g).
Local Notation "'reach'" := (reaches_in g types dir startNodeId).
Local Notation "'dist'" := (at_distance g types dir startNodeId).

Lemma ascending_snoc l level :
  ascending l → Forall (λ a, a ≤ level) l → ascending (l ++ [level]).
Proof.
  intros Hasc Hle i j a b Hij Ha Hb.
  destruct (decide (j < length l)) as [Hj|Hj].
  - rewrite lookup_app_l in Ha by lia. rewrite lookup_app_l in Hb by lia. by apply (Hasc i j a b).
  - assert (b = level) as ->.
    { apply lookup_app_Some in Hb as [Hb|[_ Hb]].
      - apply lookup_lt_Some in Hb. lia.
      - by apply list_lookup_singleton_Some in Hb as [_ ->]. }
    apply lookup_app_Some in Ha as [Ha|[_ Ha]].
    + rewrite Forall_forall in Hle. apply Hle. by eapply list_elem_of_lookup_2.
    + by apply list_lookup_singleton_Some in Ha as [_ ->].
Qed.

(** With the head of the queue at the current level. *)
Lemma bfs_inv_head visited c queue' :
  bfs_inv g types dir startNodeId visited (c :: queue') →
  ∃ (vl : list (string * nat)) (level : nat) (qa qb : list string),
    visited = vl.*1 ∧ queue' = qa ++ qb ∧ startNodeId ∈ visited ∧
    Forall (λ p, dist p.2 p.1 ∧ p.2 ≤ level) vl ∧
    ascending vl.*2 ∧
    reach level c ∧ Forall (reach level) qa ∧ Forall (reach (S level)) qb ∧
    (∀ v d y, (v, d) ∈ vl → R v y →
       y ∈ visited ∨ ((y = c ∨ y ∈ qa) ∧ level ≤ S d) ∨ (y ∈ qb ∧ level ≤ d)).
Proof.
  intros (vl & level & qa & qb & Hv & Hq & Hs & Hvl & Hasc & Hqa & Hqb & Hcl).
  destruct qa as [|c' qa].
  - simpl in Hq. subst qb. apply Forall_cons in Hqb as [Hc Hqb].
    exists vl, (S level), queue', []. rewrite app_nil_r. split_and!; try done.
    + eapply Forall_impl; [exact Hvl|]. intros p [? ?]. split; [done|lia].
    + intros v d y Hvd Hvy. destruct (Hcl v d y Hvd Hvy) as [?|[[?%elem_of_nil _]|[Hy ?]]];
        [by left|done|].
      right. left. split; [|lia]. by apply elem_of_cons in Hy.
  - simpl in Hq. injection Hq as <- ->. apply Forall_cons in Hqa as [Hc Hqa].
    exists vl, level, qa, qb. split_and!; try done.
    intros v d y Hvd Hvy. destruct (Hcl v d y Hvd Hvy) as [?|[[Hy ?]|?]]; [by left| |by right; right].
    right. left. split; [|done]. by apply elem_of_cons in Hy.
Qed.

Lemma dist_start d : dist d startNodeId → d = 0.
Proof. intros [_ Hmin]. specialize (Hmin 0 (nsteps_O _ _)). lia. Qed.

Lemma bfs_loop_order fuel visited queue l :
  bfs_inv g types dir startNodeId visited queue →
  traverse_loop fuel g types dir Bfs visited queue visited = Some l →
  ∃ vl : list (string * nat),
    l = vl.*1 ∧ Forall (λ p, dist p.2 p.1) vl ∧ ascending vl.*2.
Proof.
  revert visited queue. induction fuel as [|fuel IH]; intros visited queue Hinv; [done|].
  simpl. destruct queue as [|c queue'].
  { intros [= <-]. destruct Hinv as (vl & level & _ & _ & Hv & _ & _ & Hvl & Hasc & _).
    exists vl. split_and!; [done| |done].
    eapply Forall_impl; [exact Hvl|]. by intros p [? _]. }
  apply bfs_inv_head in Hinv
    as (vl & level & qa & qb & Hv & Hq & Hs & Hvl & Hasc & Hc & Hqa & Hqb & Hcl).
  unfold JsSet.has. case_bool_decide as Hcv.
  - (* the head was visited before *)
    apply IH. exists vl, level, qa, qb. split_and!; try done.
    intros v d y Hvd Hvy. destruct (Hcl v d y Hvd Hvy) as [?|[[[->|?] ?]|?]]; auto.
  - (* the head is visited now, at distance [level] *)
    rewrite set_add_fresh by done.
    set (pushed := filter _ (members (adjacencyMap dir g) c)).
    assert (Hpushed : ∀ y, y ∈ pushed ↔ R c y ∧ y ∉ visited ++ [c]).
    { intros y. unfold pushed. rewrite list_elem_of_filter. unfold step_to, JsSet.has.
      rewrite bool_decide_eq_false. tauto. }
    assert (Hlevels : ∀ v d, (v, d) ∈ vl → dist d v ∧ d ≤ level).
    { intros v d Hvd. rewrite Forall_forall in Hvl. apply (Hvl _ Hvd). }
    assert (Hin : ∀ v d, (v, d) ∈ vl → v ∈ visited).
    { intros v d Hvd. rewrite Hv. apply list_elem_of_fmap. by exists (v, d). }
    assert (Hni : ∀ v, v ∈ visited → ∃ d, (v, d) ∈ vl).
    { intros v Hvv. rewrite Hv in Hvv.
      apply list_elem_of_fmap in Hvv as ([v' d] & Heq & Hvd). simpl in Heq.
      exists d. by rewrite Heq. }
    assert (Hfar : ∀ m v d y, (v, d) ∈ vl → nsteps R m v y → y ∉ visited → level ≤ d + m).
    { intros m. induction m as [|m IHm]; intros v d y Hvd Hsteps Hy.
      - inversion Hsteps; subst. destruct Hy. by eapply Hin.
      - inversion Hsteps as [|? ? v1 ? Hstep Hrest]; subst.
        destruct (Hcl v d v1 Hvd Hstep) as [Hv1|[[_ ?]|[_ ?]]]; [|lia|lia].
        apply Hni in Hv1 as [d1 Hvd1].
        specialize (IHm v1 d1 y Hvd1 Hrest Hy).
        destruct (Hlevels _ _ Hvd) as [[Hreach _] _].
        destruct (Hlevels _ _ Hvd1) as [[_ Hmin] _].
        specialize (Hmin (S d) (nsteps_r _ _ _ _ Hreach Hstep)). lia. }
    assert (Hdist : dist level c).
    { split; [done|]. intros m Hm.
      destruct (Hni _ Hs) as [d0 Hs0].
      destruct (Hlevels _ _ Hs0) as [Hd0%dist_start _]. subst d0.
      apply (Hfar m startNodeId 0 c Hs0 Hm Hcv). }
    apply IH. exists (vl ++ [(c, level)]), level, qa, (qb ++ pushed).
    rewrite !fmap_app. simpl. split_and!.
    + by rewrite Hv.
    + by rewrite Hq, app_assoc.
    + apply elem_of_app. by left.
    + apply Forall_app. split; [done|]. apply Forall_singleton. by split.
    + apply ascending_snoc; [done|]. apply Forall_fmap.
      eapply Forall_impl; [exact Hvl|]. by intros p [_ ?].
    + done.
    + apply Forall_app. split; [done|]. apply Forall_forall. intros y [Hy _]%Hpushed.
      by eapply nsteps_r.
    + intros v d y [Hvd|Hvd%list_elem_of_singleton]%elem_of_app Hvy.
      * destruct (Hcl v d y Hvd Hvy) as [?|[[[->|?] ?]|[? ?]]].
        -- left. apply elem_of_app. by left.
        -- left. apply elem_of_app. right. by left.
        -- right. by left.
        -- right. right. split; [|done]. apply elem_of_app. by left.
      * injection Hvd as -> ->.
        destruct (decide (y ∈ visited ++ [c])) as [Hy|Hy]; [by left|].
        right. right. split; [|done]. apply elem_of_app. right. by apply Hpushed.
Qed.

Lemma bfs_order fuel l :
  traverse_loop (S fuel) g types dir Bfs [] [startNodeId] [] = Some l →
  ∃ vl : list (string * nat),
    l = vl.*1 ∧ Forall (λ p, dist p.2 p.1) vl ∧ ascending vl.*2.
Proof.
  intros Hl.
  change (traverse_loop fuel g types dir Bfs [startNodeId]
            (filter (λ y, followed types dir g startNodeId y = true
                          ∧ JsSet.has y [startNodeId] = false)
                    (members (adjacencyMap dir g) startNodeId))
            [startNodeId] = Some l) in Hl.
  revert Hl. set (pushed := filter _ _). apply bfs_loop_order.
  assert (Hpushed : ∀ y, y ∈ pushed ↔ R startNodeId y ∧ y ≠ startNodeId).
  { intros y. unfold pushed. rewrite list_elem_of_filter. unfold step_to, JsSet.has.
    rewrite bool_decide_eq_false, list_elem_of_singleton. tauto. }
  exists [(startNodeId, 0)], 1, pushed, []. rewrite app_nil_r. split_and!; try done.
  - by apply list_elem_of_singleton.
  - apply Forall_singleton. simpl. split; [|lia]. split; [apply nsteps_O|lia].
  - intros i j a b Hij Ha Hb. simpl in Ha, Hb.
    apply list_lookup_singleton_Some in Ha as [_ <-].
    by apply list_lookup_singleton_Some in Hb as [_ <-].
  - apply Forall_forall. intros y [Hy _]%Hpushed. by apply nsteps_once.
  - intros v d y [= -> ->]%list_elem_of_singleton Hvy.
    destruct (decide (y = startNodeId)) as [->|Hy].
    + left. by apply list_elem_of_singleton.
    + right. left. split; [|lia]. by apply Hpushed.
Qed.

End bfs_facts.

(** X20.  With the strategy [bfs], [traverse] lists the nodes in the order
    of their distance from the start node: a node that comes earlier in
    the result is reached by a path of followed edges that is at most as
    long as every path to a node that comes later. *)
Theorem traverse_bfs_by_distance (startNodeId : string) (options : traverse_options)
    (g : DependencyGraph) (result : list string) (i j n : nat) (x y : string) :
  t_strategy options = Bfs →
  traverse startNodeId options g = Some result →
  i ≤ j → result !! i = Some x → result !! j = Some y →
  reaches_in g (normalize_edgeTypes (t_edgeTypes options)) (t_direction options)
             startNodeId n y →
  ∃ m, m ≤ n ∧
       reaches_in g (normalize_edgeTypes (t_edgeTypes options)) (t_direction options)
                  startNodeId m x.
Proof.
  intros Hbfs Htr Hij Hx Hy Hn. unfold traverse in Htr.
  destruct (negb (JsMap.has startNodeId (nodes g))); [by simplify_eq|].
  rewrite Hbfs in Htr.
  set (types := normalize_edgeTypes (t_edgeTypes options)) in *.
  set (dir := t_direction options) in *.
  apply (bfs_order g types dir startNodeId) in Htr as (vl & -> & Hvl & Hasc).
  rewrite list_lookup_fmap in Hx, Hy.
  destruct (vl !! i) as [[x' dx]|] eqn:Hi; [|done].
  destruct (vl !! j) as [[y' dy]|] eqn:Hj; [|done]. simplify_eq/=.
  rewrite Forall_forall in Hvl.
  destruct (Hvl _ (list_elem_of_lookup_2 _ _ _ Hi)) as [Hrx _].
  destruct (Hvl _ (list_elem_of_lookup_2 _ _ _ Hj)) as [_ Hmin].
  exists dx. split; [|done]. simpl in *.
  etrans; [|by apply Hmin].
  apply (Hasc i j);
    [done|by rewrite list_lookup_fmap, Hi|by rewrite list_lookup_fmap, Hj].
Qed.

Lemma traverse_bfs_by_distance_witness :
  ∃ m, m ≤ 2 ∧
       reaches_in diamond (normalize_edgeTypes TypesAbsent) Outgoing "A" m "B".
Proof.
  apply (traverse_bfs_by_distance "A" (mkTraverseOptions TypesAbsent Outgoing Bfs) diamond
           ["A"; "B"; "C"; "D"] 1 3 2 "B" "D").
  - reflexivity.
  - vm_compute. reflexivity.
  - lia.
  - reflexivity.
  - reflexivity.
  - apply (nsteps_l _ _ _ "C"); [|apply nsteps_once];
      (split; [apply (bool_decide_unpack _); vm_compute; exact I|reflexivity]).
Defined.
(** ** The index and the edge table, for ids without [->] *)

Lemma removeNode_keeps_edges n g a b ty :
  store_inv g → (∀ k, hasNode k g = true → contains_arrow k = false) →
  hasNode n g = true → is_edge g a b ty → a ≠ n → b ≠ n →
  is_edge (removeNode n g).2 a b ty.
Proof.
  intros Hg Hfree Hn Hab Ha Hb. unfold is_edge. rewrite removeNode_edges by done.
  destruct (is_edge_adjacent g a b ty Hg Hab) as (_ & _ & Hna & _).
  rewrite decide_False, decide_False; [done| |].
  - intros (p & Hp & Hin)%list_elem_of_fmap.
    apply edgeId_inj in Hp as [_ ->]; [done|by apply Hfree|].
    destruct (foldl_drop_outgoing n (outgoing g n) g) as (_ & _ & Hi1 & _).
    apply Hi1 in Hin as [Hin _]. apply (inv_mutual _ Hg) in Hin.
    apply Hfree. by apply (inv_adjacent _ Hg _ _ Hin).
  - intros (d & Hd & Hin)%list_elem_of_fmap.
    apply edgeId_inj in Hd as [-> _]; [done|by apply Hfree|by apply Hfree].
Qed.

Lemma index_backed_perform c g g' :
  (∀ k, k ∈ call_ids c → contains_arrow k = false) →
  store_inv g → index_backed g → perform c g = Some g' → index_backed g'.
Proof.
  intros Hids Hg [Hfree Hback] Hc. destruct c as [n|f t ty|f t|n]; simpl in *.
  - injection Hc as <-. split.
    + intros k. rewrite addNode_hasNode, orb_true_iff, bool_decide_eq_true.
      intros [<-|?]; [|by apply Hfree]. apply Hids. by left.
    + intros a b. rewrite addNode_outgoing. intros [ty' Hab]%Hback. exists ty'.
      unfold is_edge. by rewrite addNode_edges.
  - destruct (addEdge_spec f t ty g Hg) as (g1 & Hg1 & Hn & _ & Ho & _ & He).
    rewrite Hg1 in Hc. injection Hc as <-.
    assert (Hf : contains_arrow f = false) by (apply Hids; by left).
    assert (Ht : contains_arrow t = false) by (apply Hids; right; by left).
    split.
    + intros k. rewrite Hn, !orb_true_iff, !bool_decide_eq_true.
      intros [[<-|<-]|?]; [done|done|by apply Hfree].
    + intros a b [Hab|[<- ->]]%Ho.
      * destruct (Hback _ _ Hab) as [ty' Hty']. unfold is_edge. rewrite He.
        destruct (decide (edgeId f t = edgeId a b)) as [Heq|Hne]; [|by exists ty'].
        apply edgeId_inj in Heq as [<- <-]; [by exists ty|done|].
        apply Hfree. by apply (inv_adjacent _ Hg _ _ Hab).
      * exists ty. unfold is_edge. by rewrite He, decide_True.
  - injection Hc as <-.
    destruct (JsMap.has (edgeId f t) (edges g)) eqn:Hhas.
    2: { unfold removeEdge. by rewrite Hhas. }
    destruct (removeEdge_spec f t g Hhas) as (_ & Hn & _ & Ho & _ & He).
    split.
    + intros k. rewrite Hn. apply Hfree.
    + intros a b [Hab Hne]%Ho. destruct (Hback _ _ Hab) as [ty' Hty']. exists ty'.
      unfold is_edge. rewrite He, decide_False; [done|].
      intros Heq. apply edgeId_inj in Heq as [<- <-]; [by destruct Hne| |].
      * apply Hids. by left.
      * apply Hfree. by apply (inv_adjacent _ Hg _ _ Hab).
  - injection Hc as <-.
    destruct (hasNode n g) eqn:Hhas.
    2: { unfold removeNode. unfold hasNode in Hhas. by rewrite Hhas. }
    destruct (removeNode_spec n g Hg Hhas) as (Hn & _ & Ho & _).
    split.
    + intros k. rewrite Hn, andb_true_iff. intros [_ ?]. by apply Hfree.
    + intros a b (Hab & Ha & Hb)%Ho. destruct (Hback _ _ Hab) as [ty' Hty']. exists ty'.
      by apply removeNode_keeps_edges.
Qed.

Lemma index_backed_perform_all cs g :
  arrow_free cs → perform_all cs empty_graph = Some g → store_inv g ∧ index_backed g.
Proof.
  revert g. unfold perform_all. induction cs as [|c cs IH] using rev_ind; intros g Hcs.
  - intros [= <-]. split; [apply store_inv_empty|]. split.
    + intros k. by vm_compute.
    + intros f t. by intros ?%elem_of_nil.
  - rewrite foldl_snoc.
    destruct (foldl (λ og c, og ≫= perform c) (Some empty_graph) cs) as [g1|] eqn:Hg1; [|done].
    simpl. intros Hc.
    destruct (IH g1) as [Hinv Hback]; [|done|].
    { intros c' k Hc' Hk. apply (Hcs c' k); [|done]. apply elem_of_app. by left. }
    split.
    + destruct (store_inv_perform c g1 Hinv) as (g' & Hg' & ?). congruence.
    + apply (index_backed_perform c g1 g); try done.
      intros k Hk. apply (Hcs c k); [|done]. apply elem_of_app. right. by left.
Qed.

(** X21.  When no id given to [addNode], [addEdge], [removeEdge] and
    [removeNode] contains [->], the adjacency indices and the edge table
    of the store these calls build agree: [t] is in the outgoing set of
    [f], and [f] in the incoming set of [t], exactly when the edge table
    holds an edge from [f] to [t]; so a traversal without a type filter
    follows every member of the index. *)
Theorem index_matches_edge_table (cs : list call) (g : DependencyGraph) :
  arrow_free cs → perform_all cs empty_graph = Some g →
  (∀ f t, t ∈ outgoing g f ↔ ∃ ty, is_edge g f t ty) ∧
  (∀ f t, f ∈ incoming g t ↔ ∃ ty, is_edge g f t ty) ∧
  (∀ dir x y, step_to None dir g x y ↔ y ∈ members (adjacencyMap dir g) x).
Proof.
  intros Hcs Hg. destruct (index_backed_perform_all cs g Hcs Hg) as [Hinv [_ Hback]].
  assert (Hout : ∀ f t, t ∈ outgoing g f ↔ ∃ ty, is_edge g f t ty).
  { intros f t. split; [apply Hback|]. intros [ty Hty].
    by destruct (is_edge_adjacent g f t ty Hinv Hty). }
  split_and!.
  - done.
  - intros f t. by rewrite <- (inv_mutual _ Hinv).
  - intros dir x y. unfold step_to. split; [by intros [? _]|]. intros Hy. split; [done|].
    unfold followed, edge_to_neighbor. destruct dir; simpl in Hy.
    + apply Hback in Hy as [ty Hty]. unfold is_edge in Hty. by rewrite Hty.
    + apply (inv_mutual _ Hinv), Hback in Hy as [ty Hty]. unfold is_edge in Hty.
      by rewrite Hty.
Qed.

Lemma index_matches_edge_table_witness :
  "B" ∈ outgoing (two_node_cycle "x" "y") "A" ↔
  ∃ ty, is_edge (two_node_cycle "x" "y") "A" "B" ty.
Proof.
  destruct (index_matches_edge_table [AddEdge "A" "B" "x"; AddEdge "B" "A" "y"]
              (two_node_cycle "x" "y")) as (Ho & _).
  - intros c k Hc Hk.
    repeat (apply elem_of_cons in Hc as [->|Hc]);
      [| |by apply elem_of_nil in Hc];
      repeat (apply elem_of_cons in Hk as [->|Hk]); try reflexivity;
      by apply elem_of_nil in Hk.
  - vm_compute. reflexivity.
  - exact (Ho "A" "B").
Defined.
(** ** Discovery order *)

Section discovery.
Context (g : DependencyGraph) (types : option (list string)) (dir : direction)
        (strat : strategy).

Lemma parent_first_snoc visited c :
  visited ≠ [] →
  parent_first g types dir visited →
  (∃ x, x ∈ visited ∧ step_to types dir g x c) →
  parent_first g types dir (visited ++ [c]).
Proof.
  intros Hne Hpf (x & Hx & Hxc) j y Hj Hpos.
  apply lookup_app_Some in Hj as [Hj|[Hlen Hj]].
  - destruct (Hpf j y Hj Hpos) as (i & x' & Hi & Hx' & Hstep).
    exists i, x'. split_and!; [done| |done]. by apply lookup_app_l_Some.
  - apply list_lookup_singleton_Some in Hj as [Hj ->].
    apply list_elem_of_lookup in Hx as [i Hi]. exists i, x.
    split_and!; [|by apply lookup_app_l_Some|done].
    apply lookup_lt_Some in Hi. lia.
Qed.

Lemma traverse_loop_parent_first fuel visited queue l :
  visited ≠ [] →
  parent_first g types dir visited →
  (∀ y, y ∈ queue → y ∈ visited ∨ ∃ x, x ∈ visited ∧ step_to types dir g x y) →
  traverse_loop fuel g types dir strat visited queue visited = Some l →
  parent_first g types dir l.
Proof.
  revert visited queue. induction fuel as [|fuel IH]; intros visited queue Hne Hpf Hq; [done|].
  simpl. destruct (dequeue strat queue) as [[c queue']|] eqn:Hdq.
  2: { by intros [= <-]. }
  apply dequeue_Some in Hdq as [Hlen Hmem].
  unfold JsSet.has. case_bool_decide as Hcv.
  - apply IH; [done|done|]. intros y Hy. apply Hq, Hmem. by right.
  - rewrite set_add_fresh by done.
    assert (Hc : ∃ x, x ∈ visited ∧ step_to types dir g x c).
    { destruct (Hq c) as [?|?]; [apply Hmem; by left|done|done]. }
    apply IH.
    + by destruct visited.
    + by apply parent_first_snoc.
    + intros y [Hy|Hy]%elem_of_app.
      * destruct (Hq y) as [?|(x & ? & ?)]; [apply Hmem; by right| |].
        -- left. apply elem_of_app. by left.
        -- right. exists x. split; [|done]. apply elem_of_app. by left.
      * apply list_elem_of_filter in Hy as [[Hf _] Hin].
        right. exists c. split; [|done]. apply elem_of_app. right. by left.
Qed.

Lemma traverse_parent_first fuel startNodeId l :
  traverse_loop (S fuel) g types dir strat [] [startNodeId] [] = Some l →
  parent_first g types dir l.
Proof.
  intros Hl. cbn [traverse_loop] in Hl.
  assert (Hdq : dequeue strat [startNodeId] = Some (startNodeId, [])) by by destruct strat.
  rewrite Hdq in Hl.
  change (JsSet.has startNodeId []) with false in Hl. cbv iota in Hl.
  change (JsSet.add startNodeId []) with [startNodeId] in Hl.
  revert Hl. apply traverse_loop_parent_first.
  - done.
  - intros j y Hj Hpos. apply list_lookup_singleton_Some in Hj as [-> _]. lia.
  - intros y Hy. simpl in Hy. apply list_elem_of_filter in Hy as [[Hf _] Hin].
    right. exists startNodeId. split; [by left|done].
Qed.

End discovery.

(** X22.  Whatever the strategy, [traverse] lists the nodes in an order of
    discovery: the result of a traversal from an existing node starts with
    that node, and every later node of the result has a followed edge from
    a node that comes before it in the result. *)
Theorem traverse_discovery_order (startNodeId : string) (options : traverse_options)
    (g : DependencyGraph) :
  hasNode startNodeId g = true →
  ∃ rest, traverse startNodeId options g = Some (startNodeId :: rest) ∧
    parent_first g (normalize_edgeTypes (t_edgeTypes options)) (t_direction options)
                 (startNodeId :: rest).
Proof.
  intros Hn. destruct (traverse_returns startNodeId options g) as (result & Hres & _ & Hshape).
  rewrite Hn in Hshape. destruct Hshape as [[rest ->] _]. exists rest. split; [done|].
  unfold traverse in Hres. unfold hasNode in Hn. rewrite Hn in Hres.
  change (negb true) with false in Hres. cbv iota zeta in Hres.
  by apply traverse_parent_first in Hres.
Qed.

Lemma traverse_discovery_order_witness :
  ∃ rest, traverse "A" (mkTraverseOptions TypesAbsent Outgoing Dfs) diamond
          = Some ("A" :: rest) ∧
    parent_first diamond (normalize_edgeTypes TypesAbsent) Outgoing ("A" :: rest).
Proof.
  apply (traverse_discovery_order "A" (mkTraverseOptions TypesAbsent Outgoing Dfs) diamond).
  vm_compute. reflexivity.
Defined.
(** ** The order among neighbours *)

Section neighbour_order.
Context (g : DependencyGraph) (types : option (list string)) (dir : direction).

Lemma traverse_loop_prefix strat fuel visited queue result l :
  traverse_loop fuel g types dir strat visited queue result = Some l →
  result `prefix_of` l.
Proof.
  revert visited queue result. induction fuel as [|fuel IH]; intros visited queue result; [done|].
  simpl. destruct (dequeue strat queue) as [[c queue']|].
  2: { by intros [= <-]. }
  destruct (JsSet.has c visited).
  - apply IH.
  - intros Hl%IH. etrans; [|exact Hl]. by apply prefix_app_r.
Qed.

Lemma bfs_queue_in_order fuel qs more visited result l :
  NoDup qs → (∀ x, x ∈ qs → x ∉ visited) →
  traverse_loop fuel g types dir Bfs visited (qs ++ more) result = Some l →
  (result ++ qs) `prefix_of` l.
Proof.
  revert fuel more visited result.
  induction qs as [|c qs IH]; intros fuel more visited result Hnd Hfresh Hl.
  { rewrite app_nil_r. by eapply traverse_loop_prefix. }
  destruct fuel as [|fuel]; [done|]. simpl in Hl.
  apply NoDup_cons in Hnd as [Hc Hnd].
  unfold JsSet.has in Hl. rewrite bool_decide_false in Hl by (apply Hfresh; by left).
  rewrite set_add_fresh in Hl by (apply Hfresh; by left).
  rewrite <- app_assoc in Hl. apply IH in Hl.
  - by rewrite <- app_assoc in Hl.
  - done.
  - intros x Hx [Hv|Hxc%list_elem_of_singleton]%elem_of_app.
    + apply (Hfresh x); [by right|done].
    + by subst x.
Qed.

Lemma first_round strat fuel startNodeId :
  traverse_loop (S fuel) g types dir strat [] [startNodeId] []
  = traverse_loop fuel g types dir strat [startNodeId]
                  (first_neighbors g types dir startNodeId) [startNodeId].
Proof.
  cbn [traverse_loop].
  assert (Hdq : dequeue strat [startNodeId] = Some (startNodeId, [])) by by destruct strat.
  rewrite Hdq.
  change (JsSet.has startNodeId []) with false. cbv iota.
  change (JsSet.add startNodeId []) with [startNodeId].
  f_equal. simpl. unfold first_neighbors. apply list_filter_iff. intros y.
  unfold JsSet.has. rewrite bool_decide_eq_false, list_elem_of_singleton. tauto.
Qed.

Lemma index_wf_members m k : index_wf m → NoDup (members m k).
Proof.
  intros [_ Hm]. unfold members. destruct (JsMap.get k m) as [v|] eqn:Hk; simpl.
  - apply map_get_elem_of in Hk. rewrite Forall_forall in Hm. apply (Hm _ Hk).
  - constructor.
Qed.

Lemma first_neighbors_fresh startNodeId :
  store_wf g →
  NoDup (first_neighbors g types dir startNodeId) ∧
  ∀ x, x ∈ first_neighbors g types dir startNodeId → x ∉ [startNodeId].
Proof.
  intros (Hn & Hi & _). split.
  - apply NoDup_filter, index_wf_members. by destruct dir.
  - intros x [[_ ?] _]%list_elem_of_filter. by rewrite list_elem_of_singleton.
Qed.

End neighbour_order.

(** X23.  The order among the neighbours of the start node.  With [bfs]
    the result of [traverse] starts with the start node followed by all
    its followed neighbours in the order of its adjacency set; with [dfs]
    the node after the start node is the last followed neighbour of that
    set, since the loop pops from the end of the queue. *)
Theorem traverse_neighbour_order (startNodeId : string) (options : traverse_options)
    (g : DependencyGraph) :
  store_wf g → hasNode startNodeId g = true →
  let neighbors := first_neighbors g (normalize_edgeTypes (t_edgeTypes options))
                                   (t_direction options) startNodeId in
  match t_strategy options with
  | Bfs => ∃ rest, traverse startNodeId options g = Some (startNodeId :: neighbors ++ rest)
  | Dfs => ∀ y, last neighbors = Some y →
                ∃ rest, traverse startNodeId options g = Some (startNodeId :: y :: rest)
  end.
Proof.
  intros Hwf Hn neighbors.
  destruct (traverse_returns startNodeId options g) as (result & Hres & _).
  rewrite Hres. unfold traverse in Hres. unfold hasNode in Hn. rewrite Hn in Hres.
  change (negb true) with false in Hres. cbv iota zeta in Hres.
  change (2 + ?n) with (S (S n)) in Hres. rewrite first_round in Hres. fold neighbors in Hres.
  destruct (first_neighbors_fresh g (normalize_edgeTypes (t_edgeTypes options))
              (t_direction options) startNodeId Hwf) as [Hnd Hfresh].
  fold neighbors in Hnd, Hfresh.
  destruct (t_strategy options).
  - rewrite <- (app_nil_r neighbors) in Hres at 1.
    apply bfs_queue_in_order in Hres as [rest ->]; [|done|done].
    by exists rest.
  - intros y Hy. simpl in Hres. rewrite Hy in Hres.
    assert (Hyn : y ∈ neighbors).
    { apply last_Some in Hy as [l' ->]. apply elem_of_app. right. by left. }
    unfold JsSet.has in Hres. rewrite bool_decide_false in Hres by by apply Hfresh.
    apply traverse_loop_prefix in Hres as [rest ->]. by exists rest.
Qed.

Lemma traverse_neighbour_order_witness :
  ∃ rest, traverse "A" (mkTraverseOptions TypesAbsent Outgoing Dfs) diamond
          = Some ("A" :: "C" :: rest).
Proof.
  apply (traverse_neighbour_order "A" (mkTraverseOptions TypesAbsent Outgoing Dfs) diamond).
  - vm_compute. repeat split; repeat constructor; set_solver.
  - vm_compute. reflexivity.
  - vm_compute. reflexivity.
Defined.
(** ** What [deserialize] returns *)

Lemma new_Set_NoDup xs : NoDup (new_Set xs).
Proof.
  unfold new_Set. generalize (NoDup_nil_2 (A := string)). generalize (@nil string).
  induction xs as [|x xs IH]; intros acc Hacc; simpl; [done|].
  apply IH. by apply NoDup_set_add.
Qed.

Lemma map_set_values {V} (P : V → Prop) k v (m : list (string * V)) :
  P v → Forall (λ kv, P kv.2) m → Forall (λ kv, P kv.2) (JsMap.set k v m).
Proof.
  intros Hv Hm. induction Hm as [|[k' v'] m Hkv Hm IH]; simpl.
  - by repeat constructor.
  - case_decide; constructor; done.
Qed.

Lemma new_Map_wf {V} (P : V → Prop) (kvs : list (string * V)) :
  Forall (λ kv, P kv.2) kvs →
  NoDup (JsMap.keys (new_Map kvs)) ∧ Forall (λ kv, P kv.2) (new_Map kvs).
Proof.
  unfold new_Map.
  assert (H : ∀ acc, NoDup (JsMap.keys acc) → Forall (λ kv, P kv.2) acc →
            Forall (λ kv, P kv.2) kvs →
            NoDup (JsMap.keys (foldl (λ m kv, JsMap.set kv.1 kv.2 m) acc kvs)) ∧
            Forall (λ kv, P kv.2) (foldl (λ m kv, JsMap.set kv.1 kv.2 m) acc kvs)).
  { induction kvs as [|kv kvs IH]; intros acc Hnd Hacc Hkvs; simpl; [done|].
    apply Forall_cons in Hkvs as [Hkv Hkvs].
    apply IH; [by apply NoDup_keys_set|by apply map_set_values|done]. }
  apply H; [constructor|constructor].
Qed.

Lemma index_entries_wf items ns :
  mapM index_entry items = Some ns → Forall (λ kv, NoDup kv.2) ns.
Proof.
  intros H%mapM_Some. induction H as [|j kv items ns Hj _ IH]; constructor; [|done].
  destruct j as [|[|[key| |] [|[|value|] rest]]|]; simplify_eq/=.
  destruct (mapM as_string value) as [members|]; simplify_eq/=.
  apply new_Set_NoDup.
Qed.

(** X26.  Whatever document [deserialize] accepts, the store it builds is
    in the form [serialize] writes and reads back unchanged: its maps and
    sets hold no key and no member twice (of repeated keys and members of
    the document one is kept), and serializing and deserializing it again
    gives the same store. *)
Theorem deserialize_canonical (data : json) (g : DependencyGraph) :
  deserialize data = Some g →
  store_wf g ∧ deserialize (serialize g) = Some g.
Proof.
  unfold deserialize, entries_of. intros H.
  destruct (field "nodes" data) as [[|ns_items|]|]; try done.
  destruct (mapM index_entry ns_items) as [ns|] eqn:Hns; [|done].
  destruct (field "incomingEdges" data) as [[|ins_items|]|]; try done.
  destruct (mapM index_entry ins_items) as [ins|] eqn:Hins; [|done].
  destruct (field "edges" data) as [[|es_items|]|]; try done.
  destruct (mapM edge_entry es_items) as [es|] eqn:Hes; [|done].
  simpl in H. injection H as <-.
  destruct (new_Map_wf (λ v, NoDup v) ns (index_entries_wf _ _ Hns)) as [Hn1 Hn2].
  destruct (new_Map_wf (λ v, NoDup v) ins (index_entries_wf _ _ Hins)) as [Hi1 Hi2].
  destruct (new_Map_wf (λ _, True) es) as [He _]; [by apply Forall_true|].
  split; [unfold store_wf, index_wf; simpl; by split_and!|].
  unfold serialize, index_entries, edge_entries. simpl.
  rewrite !mapM_index_entry by done. simpl.
  rewrite mapM_edge_entry. simpl.
  rewrite (new_Map_nodup (new_Map ns)), (new_Map_nodup (new_Map ins)),
    (new_Map_nodup (new_Map es)); done.
Qed.

Lemma deserialize_canonical_witness :
  store_wf diamond ∧ deserialize (serialize diamond) = Some diamond.
Proof.
  apply (deserialize_canonical (serialize diamond) diamond).
  vm_compute. reflexivity.
Defined.
(** ** The tree executor *)

Import Executor.

(** *** The waterfall example *)

Lemma waterfall_chain_built :
  perform_all [AddEdge "A" "B" "calc"; AddEdge "B" "C" "calc"] empty_graph
  = Some waterfall_chain.
Proof. vm_compute. reflexivity. Qed.

(** On the chain at most one tick can act at any time: a tick either
    changes nothing or moves the run to the next state of the schedule. *)
Lemma waterfall_step k t :
  k ≤ 5 →
  step waterfall_chain waterfall default_options (waterfall_state k) t = waterfall_state k ∨
  step waterfall_chain waterfall default_options (waterfall_state k) t
  = waterfall_state (S k).
Proof.
  intros Hk.
  assert (Hcases : k = 0 ∨ k = 1 ∨ k = 2 ∨ k = 3 ∨ k = 4 ∨ k = 5) by lia.
  destruct t as [[|[|[|i]]]| |[|[|[|i]]]|];
    destruct Hcases as [->|[->|[->|[->|[->| ->]]]]];
    first [left; vm_compute; reflexivity | right; vm_compute; reflexivity].
Qed.

Lemma waterfall_reach schedule :
  ∃ k, k ≤ 5 ∧
       run waterfall_chain waterfall default_options "A" schedule = waterfall_state k.
Proof.
  induction schedule as [|t schedule IH] using rev_ind.
  - exists 0. split; [lia|]. vm_compute. reflexivity.
  - destruct IH as (k & Hk & IH). unfold run in *. rewrite foldl_snoc, IH.
    destruct (waterfall_step k t Hk) as [->| ->]; [exists k; by split|].
    destruct (decide (k = 5)) as [->|].
    + exists 5. split; [lia|]. vm_compute. reflexivity.
    + exists (S k). split; [lia|reflexivity].
Qed.

(** C2.  On the store [A -> B -> C], with the callback that returns 10 at
    the root and twice its parent's result elsewhere, [executeOnTree('A')]
    resolves with results 10, 20 and 40 for [A], [B] and [C].  The
    callback is called for [A], then [B], then [C], each call after the
    callback of the parent has settled.  Whatever the order in which the
    event loop resumes the awaits, the run is a prefix of that one and the
    promise is pending or resolved with that tree. *)
Theorem waterfall_execution :
  perform_all [AddEdge "A" "B" "calc"; AddEdge "B" "C" "calc"] empty_graph
    = Some waterfall_chain ∧
  executeOnTree waterfall_chain waterfall default_options "A" waterfall_schedule
    = Resolves waterfall_tree ∧
  trace (run waterfall_chain waterfall default_options "A" waterfall_schedule)
    = waterfall_trace ∧
  ∀ schedule,
    trace (run waterfall_chain waterfall default_options "A" schedule)
      `prefix_of` waterfall_trace ∧
    (executeOnTree waterfall_chain waterfall default_options "A" schedule = Pending ∨
     executeOnTree waterfall_chain waterfall default_options "A" schedule
     = Resolves waterfall_tree).
Proof.
  split; [apply waterfall_chain_built|].
  split; [vm_compute; reflexivity|]. split; [vm_compute; reflexivity|].
  intros schedule.
  change (executeOnTree waterfall_chain waterfall default_options "A" schedule)
    with (settled_promise (run waterfall_chain waterfall default_options "A" schedule)).
  destruct (waterfall_reach schedule) as (k & Hk & ->).
  assert (Hcases : k = 0 ∨ k = 1 ∨ k = 2 ∨ k = 3 ∨ k = 4 ∨ k = 5) by lia.
  destruct Hcases as [->|[->|[->|[->|[->| ->]]]]]; split.
  all: first
    [ left; vm_compute; reflexivity
    | right; vm_compute; reflexivity
    | exists (drop 2 waterfall_trace); vm_compute; reflexivity
    | exists (drop 5 waterfall_trace); vm_compute; reflexivity
    | exists (drop 8 waterfall_trace); vm_compute; reflexivity
    | exists []; vm_compute; reflexivity ].
Qed.

(** *** Frames of a run *)

Section machine_facts.
Context (g : DependencyGraph) (callback : string → jsval → context → behaviour)
        (o : options).

Local Notation "'startcb'" := (start_callback callback o).
Local Notation "'drainq'" := (drain callback o).
Local Notation "'launch1'" := (launch callback o).
Local Notation "'launchall'" := (launch_children callback o).

Lemma started_refl f : started f f.
Proof. by left. Qed.

Lemma started_trans f1 f2 f3 : started f1 f2 → started f2 f3 → started f1 f3.
Proof.
  intros [->|[H1 ->]] [->|[H2 ->]]; try (by left); try (by right).
Qed.

Lemma only_started_refl s : only_started s s.
Proof. split; [done|]. intros i f Hf. exists f. split; [done|apply started_refl]. Qed.

Lemma only_started_same s s' : frames s' = frames s → only_started s s'.
Proof.
  intros H. split; [by rewrite H|]. intros i f Hf. exists f. rewrite H.
  split; [done|apply started_refl].
Qed.

Lemma only_started_trans s1 s2 s3 :
  only_started s1 s2 → only_started s2 s3 → only_started s1 s3.
Proof.
  intros [Hl1 H1] [Hl2 H2]. split; [congruence|].
  intros i f Hf. destruct (H1 i f Hf) as (f' & Hf' & Hs1).
  destruct (H2 i f' Hf') as (f'' & Hf'' & Hs2).
  exists f''. split; [done|]. by eapply started_trans.
Qed.

Lemma start_callback_only_started i s : only_started s (startcb i s).
Proof.
  unfold start_callback.
  destruct (frames s !! i) as [[n r c [] res err vn kids]|] eqn:Hi; try apply only_started_refl.
  split; simpl.
  - by rewrite length_insert.
  - intros j f Hj. destruct (decide (i = j)) as [<-|Hne].
    + rewrite list_lookup_insert_eq by (by eapply lookup_lt_Some).
      eexists. split; [done|]. right. rewrite Hi in Hj. injection Hj as <-. done.
    + rewrite list_lookup_insert_ne by done. exists f. split; [done|apply started_refl].
Qed.

Lemma drain_only_started max waiting s : only_started s (drainq max waiting s).
Proof.
  revert s. induction waiting as [|i waiting IH]; intros s; simpl.
  - by apply only_started_same.
  - destruct (below (running s) max); [|by apply only_started_same].
    eapply only_started_trans; [|apply IH].
    eapply only_started_trans; [|apply start_callback_only_started].
    by apply only_started_same.
Qed.

Lemma fresh_started n r c f f' : fresh n r c f → started f f' → fresh n r c f'.
Proof.
  intros Hf [->|[Hq ->]]; [done|]. destruct Hf as (? & ? & ? & ? & _).
  destruct f; simpl in *. split_and!; auto.
Qed.

Lemma launch_frames n r c s :
  length (frames (launch1 n r c s)) = S (length (frames s)) ∧
  (∀ i f, frames s !! i = Some f →
          ∃ f', frames (launch1 n r c s) !! i = Some f' ∧ started f f') ∧
  ∃ f, frames (launch1 n r c s) !! length (frames s) = Some f ∧ fresh n r c f.
Proof.
  unfold launch.
  set (app_new st := frames s ++ [new_frame n r c st]).
  assert (Hold : ∀ st i f, frames s !! i = Some f → app_new st !! i = Some f).
  { intros st i f Hf. unfold app_new. by apply lookup_app_l_Some. }
  assert (Hnew : ∀ st, app_new st !! length (frames s) = Some (new_frame n r c st)).
  { intros st. unfold app_new. by rewrite list_lookup_middle. }
  assert (Hlen : ∀ st, length (app_new st) = S (length (frames s))).
  { intros st. unfold app_new. rewrite length_app. simpl. lia. }
  destruct (aborted s).
  { simpl. fold (app_new (Rejected abort_error (rejections s))). split_and!; [done| |].
    - intros i f Hf. exists f. split; [by apply Hold|apply started_refl].
    - eexists. split; [apply Hnew|]. repeat split; simpl. eauto 10. }
  destruct (JsSet.has _ (visited s)).
  { simpl. fold (app_new (Fulfilled (mkExecNode n
       (default VUndefined (JsMap.get n (resultCache s))) VNull true []))).
    split_and!; [done| |].
    - intros i f Hf. exists f. split; [by apply Hold|apply started_refl].
    - eexists. split; [apply Hnew|]. repeat split; simpl. eauto 10. }
  fold (app_new Queued).
  set (s1 := mkState (app_new Queued) _ _ _ _ _ _ _ _).
  assert (H1 : ∀ s2, only_started s1 s2 →
    length (frames s2) = S (length (frames s)) ∧
    (∀ i f, frames s !! i = Some f → ∃ f', frames s2 !! i = Some f' ∧ started f f') ∧
    ∃ f, frames s2 !! length (frames s) = Some f ∧ fresh n r c f).
  { intros s2 [Hl Hs]. split_and!.
    - rewrite Hl. apply Hlen.
    - intros i f Hf. apply Hs. simpl. by apply Hold.
    - destruct (Hs (length (frames s)) (new_frame n r c Queued)) as (f' & Hf' & Hst);
        [apply Hnew|].
      exists f'. split; [done|]. eapply fresh_started; [|exact Hst].
      repeat split; simpl. eauto. }
  destruct (limiter o) as [max|].
  - apply H1. unfold processQueue.
    eapply only_started_trans; [|apply drain_only_started]. by apply only_started_same.
  - apply H1. apply start_callback_only_started.
Qed.

Lemma launch_children_frames nodeId result ctx vn s :
  let s' := launchall nodeId result ctx vn s in
  length (frames s') = length (frames s) + length vn ∧
  (∀ i f, frames s !! i = Some f → ∃ f', frames s' !! i = Some f' ∧ started f f') ∧
  (∀ k nb, vn !! k = Some nb →
     ∃ f, frames s' !! (length (frames s) + k) = Some f ∧
          fresh nb.1 result (child_context nodeId ctx nb.2) f).
Proof.
  unfold launch_children. revert s.
  induction vn as [|nb vn IH]; intros s; simpl.
  - split_and!; [lia| |done]. intros i f Hf. exists f. split; [done|apply started_refl].
  - destruct (launch_frames nb.1 result (child_context nodeId ctx nb.2) s)
      as (Hl1 & Hold1 & f1 & Hf1 & Hfresh1).
    fold (child_context nodeId ctx nb.2).
    set (s1 := launch1 _ _ _ s) in *.
    destruct (IH s1) as (Hl & Hold & Hnew). split_and!.
    + rewrite Hl, Hl1. lia.
    + intros i f Hf. destruct (Hold1 i f Hf) as (f' & Hf' & Hs1).
      destruct (Hold i f' Hf') as (f'' & Hf'' & Hs2).
      exists f''. split; [done|]. by eapply started_trans.
    + intros [|k] nb' Hk; simpl in Hk.
      * injection Hk as <-. rewrite Nat.add_0_r.
        destruct (Hold _ _ Hf1) as (f' & Hf' & Hs). exists f'. split; [done|].
        by eapply fresh_started.
      * destruct (Hnew k nb' Hk) as (f & Hf & Hfr). exists f. split; [|done].
        rewrite Hl1 in Hf. by replace (length (frames s) + S k) with (S (length (frames s)) + k) by lia.
Qed.

End machine_facts.

Section frame_invariant_facts.
Context (g : DependencyGraph) (callback : string → jsval → context → behaviour)
        (o : options).

Local Notation "'ok'" := (frame_ok g callback o).
Local Notation "'all_ok'" := (frames_ok g callback o).
Local Notation "'launched'" := (children_launched g o).
Local Notation "'entry'" := (entry_of o).
Local Notation "'tick_step'" := (step g callback o).

Lemma evolves_refl f : evolves f f.
Proof. by repeat split. Qed.

Lemma started_evolves f f' : started f f' → evolves f f'.
Proof.
  intros [->|[Hq ->]]; [apply evolves_refl|].
  destruct f; simpl in *. subst. by repeat split.
Qed.

Lemma advance_refl fs : advance fs fs.
Proof. intros i f Hf. exists f. split; [done|apply evolves_refl]. Qed.

Lemma child_of_advance fs fs' f k nb :
  advance fs fs' → child_of fs f k nb → child_of fs' f k nb.
Proof.
  intros Hadv (fk & Hk & H1 & H2 & H3).
  destruct (Hadv k fk Hk) as (fk' & Hk' & E1 & E2 & E3 & _).
  exists fk'. split; [done|]. by rewrite E1, E2, E3.
Qed.

Lemma children_launched_advance fs fs' f :
  advance fs fs' → launched fs f → launched fs' f.
Proof.
  intros Hadv [H|[Hvn Hkids]]; [by left|]. right. split; [done|].
  eapply Forall2_impl; [exact Hkids|]. intros k nb. by apply child_of_advance.
Qed.

Lemma entry_of_advance fs fs' nb k v :
  advance fs fs' → entry fs nb k v → entry fs' nb k v.
Proof.
  intros Hadv (fk & Hk & He & Hff).
  destruct (Hadv k fk Hk) as (fk' & Hk' & _ & _ & _ & Hfin).
  assert (fk' = fk) as ->.
  { apply Hfin. destruct (f_status fk); simpl in *; done. }
  by exists fk.
Qed.

Lemma frame_ok_advance fs fs' f :
  advance fs fs' → ok fs f → ok fs' f.
Proof.
  intros Hadv. unfold frame_ok. destruct (f_status f); try done.
  - intros [? ?]. eauto using children_launched_advance.
  - intros [?|(? & ? & vs & -> & Hvs)]; [by left|]. right.
    split_and!; eauto using children_launched_advance.
    exists vs. split; [done|]. eapply Forall2_impl; [exact Hvs|].
    intros [nb k] v. by apply entry_of_advance.
Qed.

(** Frames untouched or started keep the invariant. *)
Lemma frame_ok_started fs fs' f f' :
  advance fs fs' → started f f' → ok fs f → ok fs' f'.
Proof.
  intros Hadv [->|[Hq ->]] Hok; [by eapply frame_ok_advance|].
  unfold frame_ok in *. rewrite Hq in Hok. by destruct f.
Qed.

End frame_invariant_facts.

Section frame_invariant_steps.
Context (g : DependencyGraph) (callback : string → jsval → context → behaviour)
        (o : options).

Local Notation "'ok'" := (frame_ok g callback o).
Local Notation "'all_ok'" := (frames_ok g callback o).
Local Notation "'launched'" := (children_launched g o).
Local Notation "'tick_step'" := (step g callback o).

Lemma started_childPromises f f' : started f f' → f_childPromises f' = f_childPromises f.
Proof. intros [->|[_ ->]]; [done|]. by destruct f. Qed.

Lemma fresh_ok fs n r c f : fresh n r c f → ok fs f.
Proof.
  intros (_ & _ & _ & Hk & [Hs|[Hs|[(x & Hs & Hx)|(t & Hs)]]]);
    unfold frame_ok; rewrite Hs; auto.
Qed.

(** The frames after frames were only started, with no new frame. *)
Lemma frames_ok_started fs fs' :
  all_ok fs → length fs' = length fs →
  (∀ i f, fs !! i = Some f → ∃ f', fs' !! i = Some f' ∧ started f f') →
  all_ok fs' ∧ advance fs fs'.
Proof.
  intros (Hlen & Hok & Hpar) Hl Hst.
  assert (Hadv : advance fs fs').
  { intros i f Hf. destruct (Hst i f Hf) as (f' & Hf' & Hs).
    exists f'. split; [done|]. by apply started_evolves. }
  split; [|done]. split_and!.
  - lia.
  - intros i f' Hf'.
    destruct (fs !! i) as [f|] eqn:Hf.
    2: { apply lookup_ge_None in Hf. apply lookup_lt_Some in Hf'. lia. }
    destruct (Hst i f Hf) as (f'' & Hf'' & Hs). simplify_eq.
    eapply frame_ok_started; eauto.
  - intros i Hi. destruct (Hpar i) as (p & fp & Hp & Hfp & Hin); [lia|].
    destruct (Hst p fp Hfp) as (fp' & Hfp' & Hs).
    exists p, fp'. split_and!; [done|done|]. by rewrite (started_childPromises _ _ Hs).
Qed.

(** One frame takes a step of its own, the others stay. *)
Lemma frames_ok_insert fs i f f' :
  all_ok fs → fs !! i = Some f → evolves f f' →
  f_childPromises f' = f_childPromises f →
  (advance fs (<[i := f']> fs) → ok (<[i := f']> fs) f') →
  all_ok (<[i := f']> fs) ∧ advance fs (<[i := f']> fs).
Proof.
  intros (Hlen & Hok & Hpar) Hi Hev Hkids Hf'.
  assert (Hlt : i < length fs) by by eapply lookup_lt_Some.
  assert (Hadv : advance fs (<[i := f']> fs)).
  { intros j fj Hj. destruct (decide (i = j)) as [<-|Hne].
    - rewrite list_lookup_insert_eq by done. exists f'. split; [done|]. by simplify_eq.
    - rewrite list_lookup_insert_ne by done. exists fj. split; [done|apply evolves_refl]. }
  split; [|done]. split_and!.
  - by rewrite length_insert.
  - intros j fj. destruct (decide (i = j)) as [<-|Hne].
    + rewrite list_lookup_insert_eq by done. intros [= <-]. by apply Hf'.
    + rewrite list_lookup_insert_ne by done. intros Hj.
      eapply frame_ok_advance; [exact Hadv|]. by eapply Hok.
  - intros j Hj. rewrite length_insert in Hj.
    destruct (Hpar j Hj) as (p & fp & Hp & Hfp & Hin).
    destruct (decide (i = p)) as [<-|Hne].
    + exists i, f'. rewrite list_lookup_insert_eq by done. simplify_eq.
      split_and!; [done|done|]. by rewrite Hkids.
    + exists p, fp. by rewrite list_lookup_insert_ne by done.
Qed.

Lemma after_callback_locals n outcome cache result error caught cache' reports :
  after_callback o n outcome cache = (result, error, caught, cache', reports) →
  match outcome with
  | Throws e => result = VNull ∧ error = e
  | Returns v => result = v
  end ∧
  (caught = true →
   (∃ e, outcome = Throws e ∧ error = e) ∨
   (∃ hook v, opt_onProgress o = Some hook ∧ hook n v = Some error)).
Proof.
  unfold after_callback. destruct outcome as [v|e].
  - destruct (opt_onProgress o) as [hook|] eqn:Hh.
    + destruct (hook n v) as [e|] eqn:He; intros [= <- <- <- <- <-]; split; try done.
      intros _. right. eauto.
    + intros [= <- <- <- <- <-]. done.
  - intros [= <- <- <- <- <-]. split; [done|]. intros _. left. eauto.
Qed.

Lemma callback_settles_ok i s :
  all_ok (frames s) →
  all_ok (frames (callback_settles g callback o i s)) ∧
  advance (frames s) (frames (callback_settles g callback o i s)).
Proof.
  intros Hall. unfold callback_settles.
  destruct (frames s !! i) as [f|] eqn:Hi; [|split; [done|apply advance_refl]].
  destruct (f_status f) eqn:Hst; try (split; [done|apply advance_refl]).
  destruct (after_callback o (f_nodeId f) _ (resultCache s))
    as [[[[result error] caught] cache] reports] eqn:Hac.
  apply after_callback_locals in Hac as [Hloc Hcaught].
  assert (Hkids0 : f_childPromises f = []).
  { destruct Hall as (_ & Hok & _). specialize (Hok i f Hi).
    unfold frame_ok in Hok. by rewrite Hst in Hok. }
  assert (Hev : ∀ st vn kids, evolves f (finish f st result error vn kids)).
  { intros. repeat split; try done. by rewrite Hst. }
  assert (Hset : ∀ st vn kids,
    set_status st (finish f Running result error vn kids) = finish f st result error vn kids)
    by done.
  assert (Hsl : ∀ st vn kids, settled_locals callback (finish f st result error vn kids)).
  { intros. unfold settled_locals. simpl.
    destruct (settles (callback (f_nodeId f) (f_parentResult f) (f_context f))); done. }
  destruct (caught && is_fail_fast (opt_errorStrategy o)) eqn:Hff.
  { apply andb_true_iff in Hff as [-> Hff]. simpl. rewrite Hset.
    apply (frames_ok_insert _ _ f); try done; [].
    intros _. unfold frame_ok. simpl. right. split; [done|].
    destruct (Hcaught eq_refl) as [(e & He & ->)|(hook & v & Hh & Hv)].
    - left. eauto.
    - right. eauto. }
  destruct (truthy error && is_skip_children (opt_errorStrategy o)) eqn:Hskip.
  { apply andb_true_iff in Hskip as [Htr Hskip]. simpl. rewrite Hset.
    apply (frames_ok_insert _ _ f); try done; [].
    intros _. unfold frame_ok. simpl. right. split_and!; [apply Hsl| |].
    - left. by repeat split.
    - exists []. split; [done|]. constructor. }
  destruct (validNeighbors g _ _ (f_nodeId f)) as [|nb0 vn0] eqn:Hvn.
  { simpl. rewrite Hset. apply (frames_ok_insert _ _ f); try done; [].
    intros _. unfold frame_ok. simpl. right. split_and!; [apply Hsl| |].
    - right. simpl. split; [by rewrite Hvn|]. simpl. constructor.
    - exists []. split; [done|]. constructor. }
  set (vn := nb0 :: vn0) in *. cbn [frames].
  set (kids := seq (length (frames s)) (length vn)).
  set (fA := finish f AwaitingChildren result error vn kids).
  set (s2 := with_frames (<[i := fA]> (frames s)) _).
  destruct (launch_children_frames callback o (f_nodeId f) result (f_context f) vn s2)
    as (Hl & Hold & Hnew).
  set (s' := launch_children callback o (f_nodeId f) result (f_context f) vn s2) in *.
  assert (Hlt : i < length (frames s)) by by eapply lookup_lt_Some.
  assert (Hl2 : length (frames s2) = length (frames s)) by (simpl; by rewrite length_insert).
  rewrite Hl2 in Hl, Hnew.
  assert (Hi' : frames s' !! i = Some fA).
  { destruct (Hold i fA) as (f' & Hf' & [->|[Hq _]]); [|done|done].
    simpl. by rewrite list_lookup_insert_eq. }
  assert (Hother : ∀ j fj, i ≠ j → frames s !! j = Some fj →
            ∃ fj', frames s' !! j = Some fj' ∧ started fj fj').
  { intros j fj Hne Hj. apply Hold. simpl. by rewrite list_lookup_insert_ne. }
  assert (Hadv : advance (frames s) (frames s')).
  { intros j fj Hj. destruct (decide (i = j)) as [<-|Hne].
    - exists fA. split; [done|]. simplify_eq. apply Hev.
    - destruct (Hother j fj Hne Hj) as (fj' & Hj' & Hs). exists fj'.
      split; [done|]. by apply started_evolves. }
  split; [|done]. destruct Hall as (Hlen & Hok & Hpar). split_and!.
  - lia.
  - intros j fj' Hj'. destruct (decide (j < length (frames s))) as [Hjlt|Hjge].
    + destruct (decide (i = j)) as [<-|Hne].
      * rewrite Hi' in Hj'. injection Hj' as <-. unfold frame_ok. simpl.
        split; [apply Hsl|]. right. simpl. split; [by rewrite Hvn|].
        apply Forall2_same_length_lookup. split; [unfold kids; by rewrite length_seq|].
        intros k x nb Hx Hnb. unfold kids in Hx. apply lookup_seq in Hx as [-> Hk].
        destruct (Hnew k nb Hnb) as (fk & Hfk & ? & ? & ? & _).
        exists fk. by split_and!.
      * destruct (lookup_lt_is_Some_2 (frames s) j Hjlt) as [fj Hj].
        destruct (Hother j fj Hne Hj) as (fj'' & Hj'' & Hs). simplify_eq.
        eapply frame_ok_started; eauto.
    + assert (Hk : ∃ k, j = length (frames s) + k ∧ k < length vn).
      { exists (j - length (frames s)). apply lookup_lt_Some in Hj'. lia. }
      destruct Hk as (k & -> & Hk).
      destruct (lookup_lt_is_Some_2 vn k Hk) as [nb Hnb].
      destruct (Hnew k nb Hnb) as (fk & Hfk & Hfresh). simplify_eq.
      by eapply fresh_ok.
  - intros j Hj. destruct (decide (j < length (frames s))) as [Hjlt|Hjge].
    + destruct (Hpar j) as (p & fp & Hp & Hfp & Hin); [lia|].
      destruct (decide (i = p)) as [<-|Hne].
      { simplify_eq. rewrite Hkids0 in Hin. by apply elem_of_nil in Hin. }
      destruct (Hother p fp Hne Hfp) as (fp' & Hfp' & Hs).
      exists p, fp'. split_and!; [done|done|]. by rewrite (started_childPromises _ _ Hs).
    + exists i, fA. split_and!; [lia|done|]. simpl. unfold kids.
      apply elem_of_seq. lia.
Qed.

End frame_invariant_steps.

Section frame_invariant_steps2.
Context (g : DependencyGraph) (callback : string → jsval → context → behaviour)
        (o : options).

Local Notation "'ok'" := (frame_ok g callback o).
Local Notation "'all_ok'" := (frames_ok g callback o).
Local Notation "'tick_step'" := (step g callback o).

Lemma child_statuses_Some s kids sts :
  child_statuses s kids = Some sts →
  Forall2 (λ k st, ∃ fk, frames s !! k = Some fk ∧ f_status fk = st) kids sts.
Proof.
  unfold child_statuses. intros H%mapM_Some. eapply Forall2_impl; [exact H|].
  intros k st Hk. simpl in Hk. destruct (frames s !! k) as [fk|]; [|done].
  injection Hk as <-. eauto.
Qed.

Lemma first_rejection_acc kids acc r t :
  foldl (λ acc st,
           match st, acc with
           | Rejected r t, Some (r', t') => if t <? t' then Some (r, t) else Some (r', t')
           | Rejected r t, None => Some (r, t)
           | _, _ => acc
           end) acc kids = Some (r, t) →
  acc = Some (r, t) ∨ Rejected r t ∈ kids.
Proof.
  revert acc. induction kids as [|st kids IH]; intros acc; simpl; [by left|].
  intros [H|H]%IH; [|right; by right].
  destruct st as [| | |v|r' t']; try (by left).
  destruct acc as [[r'' t'']|].
  - destruct (t' <? t''); [|by left]. injection H as -> ->. right. left.
  - injection H as -> ->. right. left.
Qed.

Lemma first_rejection_Some kids r t :
  first_rejection kids = Some (r, t) → Rejected r t ∈ kids.
Proof. intros [H|H]%first_rejection_acc; done. Qed.

Lemma first_rejection_acc_None kids acc :
  foldl (λ acc st,
           match st, acc with
           | Rejected r t, Some (r', t') => if t <? t' then Some (r, t) else Some (r', t')
           | Rejected r t, None => Some (r, t)
           | _, _ => acc
           end) acc kids = None →
  acc = None ∧ ∀ r t, Rejected r t ∉ kids.
Proof.
  revert acc. induction kids as [|st kids IH]; intros acc; simpl.
  - intros ->. split; [done|]. intros r t. apply not_elem_of_nil.
  - intros [Hacc Hk]%IH. destruct st as [| | |v|r' t'].
    1-4: split; [done|]; intros r t [?|?]%elem_of_cons; [done|by eapply Hk].
    destruct acc as [[r'' t'']|]; simpl in Hacc; [destruct (t' <? t'')|]; done.
Qed.

Lemma first_rejection_None kids r t :
  first_rejection kids = None → Rejected r t ∉ kids.
Proof. intros [_ H]%first_rejection_acc_None. apply H. Qed.

Lemma children_launched_length fs f :
  children_launched g o fs f → length (f_validNeighbors f) = length (f_childPromises f).
Proof.
  intros [(_ & -> & ->)|[_ H]]; [done|]. symmetry. by eapply Forall2_length.
Qed.

Lemma children_settled_ok i s :
  all_ok (frames s) →
  all_ok (frames (children_settled o i s)) ∧
  advance (frames s) (frames (children_settled o i s)).
Proof.
  intros Hall. unfold children_settled.
  destruct (frames s !! i) as [f|] eqn:Hi; [|split; [done|apply advance_refl]].
  destruct (f_status f) eqn:Hst; try (split; [done|apply advance_refl]).
  destruct (child_statuses s (f_childPromises f)) as [sts|] eqn:Hsts;
    [|split; [done|apply advance_refl]].
  apply child_statuses_Some in Hsts.
  assert (Hokf : ok (frames s) f) by (destruct Hall as (_ & Hok & _); by eapply Hok).
  unfold frame_ok in Hokf. rewrite Hst in Hokf. destruct Hokf as [Hsl Hcl].
  pose proof (children_launched_length _ _ Hcl) as Hlen.
  pose proof (Forall2_length _ _ _ Hsts) as Hlen2.
  assert (Hev : ∀ st, evolves f (set_status st f)).
  { intros st. repeat split; try done. by rewrite Hst. }
  assert (Hfulfil : ∀ vs,
    Forall2 (λ p v, entry_of o (frames s) p.1 p.2 v)
            (zip (f_validNeighbors f) (f_childPromises f)) vs →
    all_ok (frames (fulfil_frame i f vs s)) ∧
    advance (frames s) (frames (fulfil_frame i f vs s))).
  { intros vs Hvs. unfold fulfil_frame. simpl.
    apply (frames_ok_insert _ _ _ _ _ f); try done; [].
    intros Hadv. unfold frame_ok. simpl. right. split_and!.
    - done.
    - by eapply children_launched_advance.
    - exists vs. split; [done|]. eapply Forall2_impl; [exact Hvs|].
      intros [nb k] v. by apply entry_of_advance. }
  destruct (is_fail_fast (opt_errorStrategy o)) eqn:Hff.
  - destruct (first_rejection sts) as [[r t]|] eqn:Hrej.
    + apply first_rejection_Some in Hrej.
      apply list_elem_of_lookup in Hrej as [j Hj].
      destruct (Forall2_lookup_r _ _ _ _ _ Hsts Hj) as (k & Hk & fk & Hfk & Hstk).
      unfold reject_frame. simpl.
      apply (frames_ok_insert _ _ _ _ _ f); try done; [].
      intros _. unfold frame_ok. simpl.
      destruct Hall as (_ & Hok & _). specialize (Hok k fk Hfk).
      unfold frame_ok in Hok. rewrite Hstk in Hok.
      destruct Hok as [?|[_ ?]]; [by left|by right].
    + destruct (mapM fulfilled_value sts) as [vs|] eqn:Hvs;
        [|split; [done|apply advance_refl]].
      apply mapM_Some in Hvs. apply Hfulfil.
      apply Forall2_same_length_lookup. split.
      { rewrite length_zip_with. rewrite <- (Forall2_length _ _ _ Hvs). lia. }
      intros j [nb k] v Hz Hv. simpl.
      apply lookup_zip_with_Some in Hz as (nb' & k' & [= <- <-] & Hnb & Hk).
      destruct (Forall2_lookup_l _ _ _ _ _ Hsts Hk) as (st & Hst' & fk & Hfk & <-).
      destruct (Forall2_lookup_l _ _ _ _ _ Hvs Hst') as (v' & Hv' & Hfv). simplify_eq.
      exists fk. destruct (f_status fk); simplify_eq/=. done.
  - destruct (mapM _ (zip (f_validNeighbors f) sts)) as [vs|] eqn:Hvs;
      [|split; [done|apply advance_refl]].
    apply mapM_Some in Hvs. apply Hfulfil.
    apply Forall2_same_length_lookup. split.
    { rewrite length_zip_with. rewrite <- (Forall2_length _ _ _ Hvs).
      rewrite length_zip_with. lia. }
    intros j [nb k] v Hz Hv. simpl.
    apply lookup_zip_with_Some in Hz as (nb' & k' & [= <- <-] & Hnb & Hk).
    destruct (Forall2_lookup_l _ _ _ _ _ Hsts Hk) as (st & Hst' & fk & Hfk & <-).
    assert (Hz : zip (f_validNeighbors f) sts !! j = Some (nb, f_status fk)).
    { apply lookup_zip_with_Some. eauto. }
    destruct (Forall2_lookup_l _ _ _ _ _ Hvs Hz) as (v' & Hv' & Hfv). simplify_eq/=.
    exists fk. by rewrite Hff.
Qed.

Lemma step_ok s t :
  all_ok (frames s) →
  all_ok (frames (tick_step s t)) ∧ advance (frames s) (frames (tick_step s t)).
Proof.
  intros Hall. destruct t as [i| |i|]; simpl.
  - by apply callback_settles_ok.
  - unfold slot_released. destruct (limiter o) as [max|]; [|split; [done|apply advance_refl]].
    destruct (releases s); [split; [done|apply advance_refl]|].
    unfold processQueue.
    destruct (drain_only_started callback o max
                (queue s) (mkState (frames s) (visited s) (resultCache s) (aborted s)
                   (queue s) (pred (running s)) n (rejections s) (trace s))) as [Hl Hs].
    by apply frames_ok_started.
  - by apply children_settled_ok.
  - unfold signal_aborts. destruct (_ && _); split; try done; apply advance_refl.
Qed.

Lemma init_ok startNodeId : all_ok (frames (init callback o startNodeId)).
Proof.
  unfold init.
  destruct (launch_frames callback o startNodeId VNull (mkContext 0 [] None None [])
              (mkState [] [] [] match opt_signal o with Some true => true | _ => false end
                 [] 0 0 0
                 (if match opt_signal o with Some true => true | _ => false end
                  then [SignalAborted] else [])))
    as (Hl & _ & f & Hf & Hfresh).
  simpl in *. split_and!.
  - lia.
  - intros i fi Hi. assert (i = 0) as -> by (apply lookup_lt_Some in Hi; lia).
    simplify_eq. by eapply fresh_ok.
  - intros i Hi. lia.
Qed.

Lemma run_ok startNodeId schedule :
  all_ok (frames (run g callback o startNodeId schedule)).
Proof.
  unfold run. induction schedule as [|t schedule IH] using rev_ind; simpl.
  - apply init_ok.
  - rewrite foldl_snoc. by apply step_ok.
Qed.

End frame_invariant_steps2.

Section collect.
Context (g : DependencyGraph) (callback : string → jsval → context → behaviour)
        (o : options).

(** When the callback of frame [i] settles, every other frame is left as
    it was, or is started from the limiter's queue; whether the callback
    returned or threw makes no difference to them. *)
Lemma callback_settles_others i s j fj :
  j ≠ i → frames s !! j = Some fj →
  ∃ fj', frames (callback_settles g callback o i s) !! j = Some fj' ∧ started fj fj'.
Proof.
  intros Hne Hj. unfold callback_settles.
  destruct (frames s !! i) as [f|] eqn:Hi; [|exists fj; split; [done|by left]].
  destruct (f_status f) eqn:Hst; try (exists fj; split; [done|by left]).
  destruct (after_callback o (f_nodeId f) _ (resultCache s))
    as [[[[result error] caught] cache] reports] eqn:Hac.
  assert (Hins : ∀ f', <[i := f']> (frames s) !! j = Some fj).
  { intros f'. by rewrite list_lookup_insert_ne. }
  destruct (caught && is_fail_fast (opt_errorStrategy o)).
  { simpl. exists fj. split; [apply Hins|by left]. }
  destruct (truthy error && is_skip_children (opt_errorStrategy o)).
  { simpl. exists fj. split; [apply Hins|by left]. }
  destruct (validNeighbors g _ _ (f_nodeId f)) as [|nb0 vn0].
  { simpl. exists fj. split; [apply Hins|by left]. }
  match goal with |- context [launch_children _ _ ?n ?r ?c ?vn ?s2] =>
    destruct (launch_children_frames callback o n r c vn s2) as (_ & Hold & _)
  end.
  apply Hold. simpl. apply Hins.
Qed.

(** Under [collect] the callback's failure does not reject the call: once
    the callback has settled, the frame waits for its children or has
    returned its node. *)
Lemma callback_settles_collect i s f :
  opt_errorStrategy o = Collect →
  frames s !! i = Some f → f_status f = Running →
  ∃ f', frames (callback_settles g callback o i s) !! i = Some f' ∧
        (f_status f' = AwaitingChildren ∨
         ∃ x, f_status f' = Fulfilled x ∧ isCircularRef x = false).
Proof.
  intros Hc Hi Hst. unfold callback_settles. rewrite Hi, Hst.
  destruct (after_callback o (f_nodeId f) _ (resultCache s))
    as [[[[result error] caught] cache] reports] eqn:Hac.
  assert (Hlt : i < length (frames s)) by by eapply lookup_lt_Some.
  rewrite Hc. simpl. rewrite !andb_false_r.
  destruct (validNeighbors g _ _ (f_nodeId f)) as [|nb0 vn0].
  { simpl. eexists. split; [by apply list_lookup_insert_eq|]. right. simpl. eauto. }
  match goal with |- context [launch_children _ _ ?n ?r ?c ?vn ?s2] =>
    destruct (launch_children_frames callback o n r c vn s2) as (_ & Hold & _)
  end.
  match type of Hold with context [<[i := ?fA]> _] =>
    destruct (Hold i fA) as (f' & Hf' & [->|[Hq _]])
  end.
  - simpl. by apply list_lookup_insert_eq.
  - eexists. split; [exact Hf'|by left].
  - done.
Qed.

(** The entries of [children] as [Promise.allSettled] and the mapping of
    its results give them: one per child, in order. *)
Lemma collect_entries s vn kids sts vs :
  child_statuses s kids = Some sts →
  mapM (λ p : (string * string) * frame_status, settled_entry p.1 p.2) (zip vn sts)
  = Some vs →
  length vn = length kids →
  Forall2 (λ p v, ∃ fk, frames s !! p.2 = Some fk ∧
                        settled_entry p.1 (f_status fk) = Some v)
          (zip vn kids) vs.
Proof.
  intros Hsts%child_statuses_Some Hvs%mapM_Some Hlen.
  revert vn vs Hvs Hlen.
  induction Hsts as [|k st kids sts (fk & Hfk & Hst) _ IH]; intros vn vs Hvs Hlen.
  - destruct vn; [|done]. simpl in Hvs. by inversion Hvs.
  - destruct vn as [|nb vn]; [done|]. simpl in *.
    inversion Hvs as [|p v ps vs' Hp Hrest]; subst. constructor.
    + exists fk. simpl. by split.
    + apply IH; [done|lia].
Qed.

(** When all the children of a frame have settled, fulfilled or rejected,
    the frame returns its node with one entry per child. *)
Lemma children_settled_collect i s f :
  is_fail_fast (opt_errorStrategy o) = false →
  frames s !! i = Some f → f_status f = AwaitingChildren →
  length (f_validNeighbors f) = length (f_childPromises f) →
  (∀ k, k ∈ f_childPromises f → ∃ fk, frames s !! k = Some fk ∧ final (f_status fk) = true) →
  ∃ vs, children_settled o i s = fulfil_frame i f vs s ∧
        Forall2 (λ p v, ∃ fk, frames s !! p.2 = Some fk ∧
                              settled_entry p.1 (f_status fk) = Some v)
                (zip (f_validNeighbors f) (f_childPromises f)) vs.
Proof.
  intros Hff Hi Hst Hlen Hkids. unfold children_settled. rewrite Hi, Hst.
  destruct (child_statuses s (f_childPromises f)) as [sts|] eqn:Hsts.
  2: { exfalso. assert (is_Some (child_statuses s (f_childPromises f))) as [? ?];
         [|congruence].
       apply mapM_is_Some, Forall_forall. intros k Hk. simpl.
       destruct (Hkids k Hk) as (fk & -> & _). by eexists. }
  rewrite Hff.
  destruct (mapM _ (zip (f_validNeighbors f) sts)) as [vs|] eqn:Hvs.
  { exists vs. split; [done|]. by eapply collect_entries. }
  exfalso.
  assert (is_Some (mapM (λ p : (string * string) * frame_status, settled_entry p.1 p.2)
                        (zip (f_validNeighbors f) sts))) as [? ?]; [|congruence].
  apply mapM_is_Some, Forall_forall. intros [nb st] Hin%elem_of_zip_r. simpl.
  apply child_statuses_Some in Hsts.
  apply list_elem_of_lookup in Hin as [m Hm].
  destruct (Forall2_lookup_r _ _ _ _ _ Hsts Hm) as (k & Hk & fk & Hfk & <-).
  destruct (Hkids k) as (fk' & Hfk' & Hfin); [by eapply list_elem_of_lookup_2|].
  rewrite Hfk in Hfk'. injection Hfk' as <-. by destruct (f_status fk).
Qed.

(** And it waits as long as one of them is pending: no child's outcome
    makes the frame return before the others have settled. *)
Lemma children_settled_waits i s f k fk :
  is_fail_fast (opt_errorStrategy o) = false →
  frames s !! i = Some f → f_status f = AwaitingChildren →
  length (f_validNeighbors f) = length (f_childPromises f) →
  k ∈ f_childPromises f → frames s !! k = Some fk → final (f_status fk) = false →
  children_settled o i s = s.
Proof.
  intros Hff Hi Hst Hlen Hk Hfk Hpend. unfold children_settled. rewrite Hi, Hst.
  destruct (child_statuses s (f_childPromises f)) as [sts|] eqn:Hsts; [|done].
  rewrite Hff.
  destruct (mapM _ (zip (f_validNeighbors f) sts)) as [vs|] eqn:Hvs; [|done].
  exfalso. apply mapM_Some in Hvs. apply child_statuses_Some in Hsts.
  apply list_elem_of_lookup in Hk as [m Hm].
  destruct (Forall2_lookup_l _ _ _ _ _ Hsts Hm) as (st & Hst' & fk' & Hfk' & Hstk).
  rewrite Hfk in Hfk'. injection Hfk' as <-.
  destruct (lookup_lt_is_Some_2 (f_validNeighbors f) m) as [nb Hnb].
  { rewrite Hlen. by eapply lookup_lt_Some. }
  assert (Hz : zip (f_validNeighbors f) sts !! m = Some (nb, st)).
  { by rewrite lookup_zip_with, Hnb, Hst'. }
  destruct (Forall2_lookup_l _ _ _ _ _ Hvs Hz) as (v & _ & Hv). simpl in Hv.
  rewrite <- Hstk in Hv. by destruct (f_status fk).
Qed.

End collect.

(** *** Error strategy [collect] *)

Section collect_frames.
Context (g : DependencyGraph) (callback : string → jsval → context → behaviour)
        (o : options) (startNodeId : string).

(** A frame of a run whose callback has thrown. *)
Lemma collect_thrown schedule i f e :
  opt_errorStrategy o = Collect →
  frames (run g callback o startNodeId schedule) !! i = Some f →
  settles (callback (f_nodeId f) (f_parentResult f) (f_context f)) = Throws e →
  (f_status f = AwaitingChildren ∨
   ∃ x, f_status f = Fulfilled x ∧ isCircularRef x = false) →
  f_result f = VNull ∧ f_error f = e ∧
  Forall2 (λ k nb, ∃ fk, frames (run g callback o startNodeId schedule) !! k = Some fk ∧
                         f_nodeId fk = nb.1 ∧ f_parentResult fk = VNull ∧
                         f_context fk = child_context (f_nodeId f) (f_context f) nb.2)
          (f_childPromises f)
          (validNeighbors g (normalize_edgeTypes (opt_edgeTypes o)) (opt_direction o)
             (f_nodeId f)).
Proof.
  intros Hc Hf He Hst.
  destruct (run_ok g callback o startNodeId schedule) as (_ & Hok & _).
  specialize (Hok i f Hf). unfold frame_ok in Hok.
  assert (Hthrown : settled_locals callback f →
            children_launched g o (frames (run g callback o startNodeId schedule)) f →
            f_result f = VNull ∧ f_error f = e ∧
            Forall2 (λ k nb, ∃ fk,
                       frames (run g callback o startNodeId schedule) !! k = Some fk ∧
                       f_nodeId fk = nb.1 ∧ f_parentResult fk = VNull ∧
                       f_context fk = child_context (f_nodeId f) (f_context f) nb.2)
                    (f_childPromises f)
                    (validNeighbors g (normalize_edgeTypes (opt_edgeTypes o))
                       (opt_direction o) (f_nodeId f))).
  { intros Hsl [([_ Hsk] & _)|[Hvn Hkids]]; [by rewrite Hc in Hsk|].
    unfold settled_locals in Hsl. rewrite He in Hsl. destruct Hsl as [Hr ->].
    split_and!; [done|done|]. rewrite <- Hvn.
    eapply Forall2_impl; [exact Hkids|]. intros k nb (fk & ? & ? & Hpr & ?).
    exists fk. rewrite Hr in Hpr. by split_and!. }
  destruct Hst as [Hst|(x & Hst & Hx)]; rewrite Hst in Hok.
  - destruct Hok. by apply Hthrown.
  - destruct Hok as [[Hcirc _]|(? & ? & _)]; [congruence|]. by apply Hthrown.
Qed.

(** The valid neighbours of a frame that waits for its children. *)
Lemma collect_awaiting schedule i f :
  opt_errorStrategy o = Collect →
  frames (run g callback o startNodeId schedule) !! i = Some f →
  f_status f = AwaitingChildren →
  f_validNeighbors f
  = validNeighbors g (normalize_edgeTypes (opt_edgeTypes o)) (opt_direction o) (f_nodeId f) ∧
  length (f_validNeighbors f) = length (f_childPromises f).
Proof.
  intros Hc Hf Hst.
  destruct (run_ok g callback o startNodeId schedule) as (_ & Hok & _).
  specialize (Hok i f Hf). unfold frame_ok in Hok. rewrite Hst in Hok.
  destruct Hok as [_ Hl]. split; [|by eapply children_launched_length].
  destruct Hl as [([_ Hsk] & _)|[Hvn _]]; [by rewrite Hc in Hsk|done].
Qed.

End collect_frames.

(** The promise after one more tick, and the promise of a run whose root
    frame has returned. *)
Lemma executeOnTree_snoc g callback o startNodeId schedule t :
  JsMap.has startNodeId (nodes g) = true →
  executeOnTree g callback o startNodeId (schedule ++ [t])
  = settled_promise (step g callback o (run g callback o startNodeId schedule) t).
Proof. intros Hn. unfold executeOnTree, run. by rewrite Hn, foldl_snoc. Qed.

Lemma settled_promise_root s f v :
  frames s !! 0 = Some f → f_status f = Fulfilled v → settled_promise s = Resolves v.
Proof. intros Hf Hst. unfold settled_promise. by rewrite Hf, Hst. Qed.



Example collect_two_branches_ex :
  executeOnTree two_branches fails_at_C collect_options "A" two_branches_schedule
  = Resolves
      (mkExecNode "A" (VStr "result_A") VNull false
         [mkExecNode "B" (VStr "result_B") VNull false
            [mkExecNode "D" (VStr "result_D") VNull false []];
          mkExecNode "C" VNull (VError "Error in C") false
            [mkExecNode "E" (VStr "result_E") VNull false []]]).
Proof. vm_compute. reflexivity. Qed.

(** *** The trace of a run *)

Section trace_facts.
Context (g : DependencyGraph) (callback : string → jsval → context → behaviour)
        (o : options).

Lemma after_abort_app_in tr evs :
  SignalAborted ∈ tr → after_abort (tr ++ evs) = after_abort tr ++ evs.
Proof.
  induction tr as [|ev tr IH]; simpl; [by intros ?%elem_of_nil|].
  intros [<-|Hin]%elem_of_cons; [done|]. destruct ev; simpl; auto.
Qed.

Lemma after_abort_app_notin tr evs :
  SignalAborted ∉ tr → after_abort (tr ++ evs) = after_abort evs.
Proof.
  induction tr as [|ev tr IH]; simpl; [done|].
  intros [Hne Hin]%not_elem_of_cons. destruct ev; simpl; auto. done.
Qed.

Lemma signalled_dec s :
  (aborted s = true ↔ SignalAborted ∈ trace s) →
  (aborted s = true ∧ SignalAborted ∈ trace s) ∨
  (aborted s = false ∧ SignalAborted ∉ trace s).
Proof.
  intros Hiff. destruct (aborted s); [left|right]; split; try done.
  - by apply Hiff.
  - intros H. apply Hiff in H. done.
Qed.

(** Appending events that do not get past the check. *)
Lemma trace_ok_log s s' evs :
  trace_ok o s → trace s' = trace s ++ evs → aborted s' = aborted s →
  SignalAborted ∉ evs →
  (aborted s = true →
   Forall (λ ev, passes_check ev = false ∧ (limiter o = None → is_invoked ev = false)) evs) →
  trace_ok o s'.
Proof.
  intros [Hiff Hq] Ht Ha Hno Hevs. split.
  - rewrite Ha, Ht, elem_of_app, Hiff. tauto.
  - unfold quiet. rewrite Ht. destruct (signalled_dec s Hiff) as [[Hab Hin]|[Hab Hin]].
    + rewrite after_abort_app_in by done. apply Forall_app. split; [done|]. by apply Hevs.
    + rewrite after_abort_app_notin by done.
      clear -Hno. induction evs as [|ev evs IH]; [constructor|].
      apply not_elem_of_cons in Hno as [Hne Hno]. destruct ev; simpl; auto. done.
Qed.

Lemma start_callback_trace_ok i s :
  trace_ok o s → aborted s = false ∨ limiter o ≠ None →
  trace_ok o (start_callback callback o i s).
Proof.
  intros Hok Hpre. unfold start_callback.
  destruct (frames s !! i) as [[n r c [] res err vn kids]|]; try done.
  destruct Hok as [Hiff Hq].
  destruct (aborts (callback n r c) && has_signal o && negb (aborted s)) eqn:Hfires.
  - apply andb_true_iff in Hfires as [_ Hna]. apply negb_true_iff in Hna.
    split; simpl.
    + rewrite orb_true_r. split; [intros _|done].
      rewrite elem_of_app. right. right. left.
    + unfold quiet. rewrite after_abort_app_notin; [constructor|].
      rewrite <- Hiff. congruence.
  - split; simpl.
    + rewrite orb_false_r, elem_of_app, Hiff. split; [tauto|].
      intros [?|Hin]; [done|]. apply elem_of_cons in Hin as [?|Hin]; [done|].
      by apply elem_of_nil in Hin.
    + unfold quiet. destruct (signalled_dec s Hiff) as [[Hab Hin]|[Hab Hin]].
      * rewrite after_abort_app_in by done.
        apply Forall_app. split; [done|]. constructor; [|constructor].
        split; [done|]. intros Hl. destruct Hpre; congruence.
      * rewrite after_abort_app_notin by done. constructor.
Qed.

Lemma drain_trace_ok max waiting s :
  limiter o ≠ None → trace_ok o s → trace_ok o (drain callback o max waiting s).
Proof.
  intros Hl. revert s. induction waiting as [|i waiting IH]; intros s Hok; simpl.
  - done.
  - destruct (below (running s) max); [|done]. apply IH.
    apply start_callback_trace_ok; [done|by right].
Qed.

Lemma launch_trace_ok n r c s : trace_ok o s → trace_ok o (launch callback o n r c s).
Proof.
  intros Hok. unfold launch. destruct (aborted s) eqn:Ha.
  { eapply (trace_ok_log s _ [Abandoned n]); try done.
    - by intros [?|?%elem_of_nil]%elem_of_cons.
    - intros _. by repeat constructor. }
  assert (Hno : SignalAborted ∉ trace s) by (destruct Hok as [<- _]; congruence).
  assert (Hfirst : ∀ ev s', trace s' = trace s ++ [ev] → aborted s' = false →
            ev ≠ SignalAborted → trace_ok o s').
  { intros ev s' Ht Has Hev. split.
    - rewrite Has, Ht, elem_of_app, list_elem_of_singleton. split; [done|].
      intros [?|?]; congruence.
    - unfold quiet. rewrite Ht, after_abort_app_notin by done.
      destruct ev; constructor. }
  destruct (JsSet.has _ (visited s)); [by eapply Hfirst|].
  destruct (limiter o) as [max|] eqn:Hl.
  - unfold processQueue. apply drain_trace_ok; [congruence|]. by eapply Hfirst.
  - apply start_callback_trace_ok; [|by left]. by eapply Hfirst.
Qed.

Lemma launch_children_trace_ok n r c vn s :
  trace_ok o s → trace_ok o (launch_children callback o n r c vn s).
Proof.
  unfold launch_children. revert s. induction vn as [|nb vn IH]; intros s Hok; simpl; [done|].
  apply IH. by apply launch_trace_ok.
Qed.

Lemma step_trace_ok s t : trace_ok o s → trace_ok o (step g callback o s t).
Proof.
  intros Hok. destruct t as [i| |i|]; simpl.
  - unfold callback_settles.
    destruct (frames s !! i) as [f|]; [|done]. destruct (f_status f); try done.
    destruct (after_callback o (f_nodeId f) _ (resultCache s))
      as [[[[result error] caught] cache] reports] eqn:Hac.
    assert (Hlog : ∀ s', trace s' = trace s ++ Settled (f_nodeId f)
              (settles (callback (f_nodeId f) (f_parentResult f) (f_context f))) :: reports →
              aborted s' = aborted s → trace_ok o s').
    { intros s' Ht Has. eapply trace_ok_log; try done.
      - unfold after_callback in Hac.
        destruct (settles _); [destruct (opt_onProgress o) as [hook|];
          [destruct (hook _ _)|]|]; simplify_eq;
          intros Hin; repeat (apply elem_of_cons in Hin as [?|Hin]; [done|]);
          by apply elem_of_nil in Hin.
      - intros _. unfold after_callback in Hac.
        destruct (settles _); [destruct (opt_onProgress o) as [hook|];
          [destruct (hook _ _)|]|]; simplify_eq; by repeat constructor. }
    destruct (caught && is_fail_fast (opt_errorStrategy o)); [by apply Hlog|].
    destruct (truthy error && is_skip_children (opt_errorStrategy o)); [by apply Hlog|].
    destruct (validNeighbors g _ _ (f_nodeId f)); [by apply Hlog|].
    apply launch_children_trace_ok. by apply Hlog.
  - unfold slot_released. destruct (limiter o) as [max|] eqn:Hl; [|done].
    destruct (releases s); [done|]. unfold processQueue.
    apply drain_trace_ok; [congruence|]. done.
  - unfold children_settled.
    destruct (frames s !! i) as [f|]; [|done]. destruct (f_status f); try done.
    destruct (child_statuses s (f_childPromises f)); [|done].
    destruct (is_fail_fast (opt_errorStrategy o)).
    + destruct (first_rejection l) as [[r t]|]; [done|].
      by destruct (mapM fulfilled_value l).
    + by destruct (mapM _ (zip (f_validNeighbors f) l)).
  - unfold signal_aborts. destruct (has_signal o && negb (aborted s)) eqn:Hfire; [|done].
    apply andb_true_iff in Hfire as [_ Hna%negb_true_iff].
    destruct Hok as [Hiff Hq]. split; simpl.
    + split; [intros _|done]. apply elem_of_app. right. left.
    + unfold quiet. rewrite after_abort_app_notin; [constructor|].
      rewrite <- Hiff. congruence.
Qed.

Lemma init_trace_ok startNodeId : trace_ok o (init callback o startNodeId).
Proof.
  unfold init. apply launch_trace_ok.
  destruct (opt_signal o) as [[]|]; (split; [simpl|unfold quiet; simpl; constructor]).
  - split; [intros _; left|done].
  - split; [done|]. by intros ?%elem_of_nil.
  - split; [done|]. by intros ?%elem_of_nil.
Qed.

Lemma run_trace_ok startNodeId schedule :
  trace_ok o (run g callback o startNodeId schedule).
Proof.
  unfold run. induction schedule as [|t schedule IH] using rev_ind; simpl.
  - apply init_trace_ok.
  - rewrite foldl_snoc. by apply step_trace_ok.
Qed.

End trace_facts.

(** *** How a rejection travels *)

Section rejection_facts.
Context (g : DependencyGraph) (callback : string → jsval → context → behaviour)
        (o : options).

Local Notation "'ok'" := (frame_ok g callback o).
Local Notation "'all_ok'" := (frames_ok g callback o).
Local Notation "'tick_step'" := (step g callback o).

Lemma child_statuses_is_Some s kids :
  (∀ k, k ∈ kids → is_Some (frames s !! k)) → is_Some (child_statuses s kids).
Proof.
  intros H. unfold child_statuses. apply mapM_is_Some. apply Forall_forall.
  intros k Hk. simpl. destruct (H k Hk) as [fk ->]. by eexists.
Qed.

Lemma children_launched_exist fs f k :
  children_launched g o fs f → k ∈ f_childPromises f → is_Some (fs !! k).
Proof.
  intros [(_ & _ & ->)|[_ H]] Hk; [by apply elem_of_nil in Hk|].
  apply list_elem_of_lookup in Hk as [j Hj].
  destruct (Forall2_lookup_l _ _ _ _ _ H Hj) as (nb & _ & fk & Hfk & _). by eexists.
Qed.

(** Under [fail-fast] a fulfilled frame has fulfilled children only. *)
Lemma fulfilled_parent_child fs fp x i :
  is_fail_fast (opt_errorStrategy o) = true →
  ok fs fp → f_status fp = Fulfilled x → i ∈ f_childPromises fp →
  ∃ fk v, fs !! i = Some fk ∧ f_status fk = Fulfilled v.
Proof.
  intros Hff Hok Hst Hi. unfold frame_ok in Hok. rewrite Hst in Hok.
  destruct Hok as [[_ Hk]|(_ & Hcl & vs & _ & Hvs)].
  { rewrite Hk in Hi. by apply elem_of_nil in Hi. }
  pose proof (children_launched_length g o _ _ Hcl) as Hlen.
  apply list_elem_of_lookup in Hi as [j Hj].
  destruct (lookup_lt_is_Some_2 (f_validNeighbors fp) j) as [nb Hnb].
  { rewrite Hlen. by eapply lookup_lt_Some. }
  assert (Hz : zip (f_validNeighbors fp) (f_childPromises fp) !! j = Some (nb, i)).
  { apply lookup_zip_with_Some. eauto. }
  destruct (Forall2_lookup_l _ _ _ _ _ Hvs Hz) as (v & _ & fk & Hfk & _ & Hful).
  exists fk, v. split; [done|]. by apply Hful.
Qed.

Lemma fail_fast_fulfilled_root fs f0 x :
  is_fail_fast (opt_errorStrategy o) = true → all_ok fs →
  fs !! 0 = Some f0 → f_status f0 = Fulfilled x →
  ∀ i f, fs !! i = Some f → ∃ v, f_status f = Fulfilled v.
Proof.
  intros Hff (Hlen & Hok & Hpar) H0 Hst0 i.
  induction i as [i IH] using lt_wf_ind. intros f Hf.
  destruct (decide (i = 0)) as [->|Hne]; [simplify_eq; eauto|].
  destruct (Hpar i) as (p & fp & Hp & Hfp & Hin).
  { apply lookup_lt_Some in Hf. lia. }
  destruct (IH p Hp fp Hfp) as [v Hv].
  destruct (fulfilled_parent_child fs fp v i Hff (Hok _ _ Hfp) Hv Hin) as (fk & v' & ? & ?).
  simplify_eq. eauto.
Qed.

(** Under [fail-fast] a rejection can always travel on to the root: the
    frames on the way resume one after the other. *)
Lemma fail_fast_rejection_reaches_root n :
  is_fail_fast (opt_errorStrategy o) = true →
  ∀ s i f r t, i ≤ n → all_ok (frames s) →
    frames s !! i = Some f → f_status f = Rejected r t →
    ∃ schedule f0 r0 t0,
      frames (foldl tick_step s schedule) !! 0 = Some f0 ∧ f_status f0 = Rejected r0 t0.
Proof.
  intros Hff. induction n as [|n IH]; intros s i f r t Hi Hall Hf Hst.
  { assert (i = 0) as -> by lia. by exists [], f, r, t. }
  destruct (decide (i = 0)) as [->|Hne]; [by exists [], f, r, t|].
  pose proof Hall as (Hlen & Hok & Hpar).
  destruct (Hpar i) as (p & fp & Hp & Hfp & Hin).
  { apply lookup_lt_Some in Hf. lia. }
  pose proof (Hok _ _ Hfp) as Hokp.
  destruct (f_status fp) as [| | |x|rp tp] eqn:Hstp.
  - unfold frame_ok in Hokp. rewrite Hstp in Hokp. rewrite Hokp in Hin.
    by apply elem_of_nil in Hin.
  - unfold frame_ok in Hokp. rewrite Hstp in Hokp. rewrite Hokp in Hin.
    by apply elem_of_nil in Hin.
  - (* the parent awaits its children: it resumes and is rejected *)
    pose proof Hokp as Hokp'. unfold frame_ok in Hokp'. rewrite Hstp in Hokp'.
    destruct Hokp' as [_ Hcl].
    destruct (child_statuses_is_Some s (f_childPromises fp)) as [sts Hsts].
    { intros k Hk. by eapply children_launched_exist. }
    assert (Hrej : Rejected r t ∈ sts).
    { apply child_statuses_Some in Hsts.
      apply list_elem_of_lookup in Hin as [j Hj].
      destruct (Forall2_lookup_l _ _ _ _ _ Hsts Hj) as (st & Hst' & fk & Hfk & <-).
      rewrite Hf in Hfk. injection Hfk as <-. rewrite <- Hst.
      by eapply list_elem_of_lookup_2. }
    destruct (first_rejection sts) as [[r' t']|] eqn:Hfr.
    2: { by apply (first_rejection_None _ r t) in Hfr. }
    set (s' := tick_step s (ChildrenSettled p)).
    assert (Hs' : frames s' !! p = Some (set_status (Rejected r' (rejections s)) fp)).
    { unfold s'. simpl. unfold children_settled. rewrite Hfp, Hstp, Hsts, Hff, Hfr. simpl.
      apply list_lookup_insert_eq. by eapply lookup_lt_Some. }
    destruct (IH s' p (set_status (Rejected r' (rejections s)) fp) r' (rejections s))
      as (schedule & f0 & r0 & t0 & H0 & Hst0);
      [lia|by apply step_ok|exact Hs'|by destruct fp|].
    exists (ChildrenSettled p :: schedule), f0, r0, t0. by split.
  - destruct (fulfilled_parent_child _ _ _ _ Hff Hokp Hstp Hin) as (fk & v & ? & ?).
    simplify_eq. congruence.
  - eapply (IH s p); [lia|done|done|done].
Qed.

(** Under the other strategies no frame that exists becomes rejected. *)
Lemma callback_settles_own i s f :
  frames s !! i = Some f → f_status f = Running →
  ∃ f', frames (callback_settles g callback o i s) !! i = Some f' ∧
        (f_status f' = AwaitingChildren ∨ (∃ x, f_status f' = Fulfilled x) ∨
         (is_fail_fast (opt_errorStrategy o) = true ∧ ∃ r t, f_status f' = Rejected r t)).
Proof.
  intros Hi Hst. unfold callback_settles. rewrite Hi, Hst.
  destruct (after_callback o (f_nodeId f) _ (resultCache s))
    as [[[[result error] caught] cache] reports] eqn:Hac.
  assert (Hlt : i < length (frames s)) by by eapply lookup_lt_Some.
  destruct (caught && is_fail_fast (opt_errorStrategy o)) eqn:Hff.
  { apply andb_true_iff in Hff as [_ Hff]. simpl. eexists.
    split; [by apply list_lookup_insert_eq|]. right. right. simpl. eauto. }
  destruct (truthy error && is_skip_children (opt_errorStrategy o)).
  { simpl. eexists. split; [by apply list_lookup_insert_eq|]. right. left. simpl. eauto. }
  destruct (validNeighbors g _ _ (f_nodeId f)) as [|nb0 vn0].
  { simpl. eexists. split; [by apply list_lookup_insert_eq|]. right. left. simpl. eauto. }
  match goal with |- context [launch_children _ _ ?n ?r ?c ?vn ?s2] =>
    destruct (launch_children_frames callback o n r c vn s2) as (_ & Hold & _)
  end.
  match type of Hold with context [<[i := ?fA]> _] =>
    destruct (Hold i fA) as (f' & Hf' & [->|[Hq _]])
  end.
  - simpl. by apply list_lookup_insert_eq.
  - exists (finish f AwaitingChildren result error (nb0 :: vn0)
              (seq (length (frames s)) (length (nb0 :: vn0)))).
    split; [exact Hf'|by left].
  - done.
Qed.

Lemma step_new_rejection s t i f f' r n :
  is_fail_fast (opt_errorStrategy o) = false →
  frames s !! i = Some f → frames (tick_step s t) !! i = Some f' →
  f_status f' = Rejected r n → f_status f = Rejected r n.
Proof.
  intros Hff Hf Hf' Hst'.
  assert (Hstarted : started f f' → f_status f = Rejected r n).
  { intros [->|[_ ->]]; [done|]. by destruct f. }
  destruct t as [j| |j|]; simpl in Hf'.
  - destruct (decide (j = i)) as [->|Hne].
    + destruct (f_status f) eqn:Hst.
      2: { destruct (callback_settles_own i s f Hf Hst) as (f'' & Hf'' & Hcases).
           simplify_eq. destruct Hcases as [?|[[x ?]|[? _]]]; congruence. }
      all: unfold callback_settles in Hf'; rewrite Hf, Hst in Hf'; simplify_eq; congruence.
    + destruct (callback_settles_others g callback o j s i f) as (f'' & Hf'' & Hs);
        [done|done|]. simplify_eq. by apply Hstarted.
  - unfold slot_released in Hf'. destruct (limiter o) as [max|]; [|congruence].
    destruct (releases s); [congruence|]. unfold processQueue in Hf'.
    match type of Hf' with context [drain _ _ ?m ?q ?s0] =>
      destruct (drain_only_started callback o m q s0) as [_ Hs]
    end.
    destruct (Hs i f Hf) as (f'' & Hf'' & Hst''). simplify_eq. by apply Hstarted.
  - unfold children_settled in Hf'.
    destruct (frames s !! j) as [fj|] eqn:Hj; [|congruence].
    destruct (f_status fj) eqn:Hstj; try congruence.
    destruct (child_statuses s (f_childPromises fj)) as [sts|]; [|congruence].
    rewrite Hff in Hf'.
    destruct (mapM _ (zip (f_validNeighbors fj) sts)) as [vs|]; [|congruence].
    unfold fulfil_frame in Hf'. simpl in Hf'.
    destruct (decide (j = i)) as [->|Hne].
    + rewrite list_lookup_insert_eq in Hf' by by eapply lookup_lt_Some.
      injection Hf' as <-. by destruct fj.
    + rewrite list_lookup_insert_ne in Hf' by done. congruence.
  - unfold signal_aborts in Hf'. destruct (_ && _); simpl in Hf'; congruence.
Qed.

Lemma launch_passed n r c s f :
  aborted s = false → frames (launch callback o n r c s) !! length (frames s) = Some f →
  ∀ r' t, f_status f ≠ Rejected r' t.
Proof.
  intros Ha. unfold launch. rewrite Ha.
  destruct (JsSet.has _ (visited s)).
  { simpl. rewrite list_lookup_middle by done. intros [= <-]. done. }
  set (s1 := mkState (frames s ++ [new_frame n r c Queued]) _ _ _ _ _ _ _ _).
  assert (H1 : ∀ s2, only_started s1 s2 → frames s2 !! length (frames s) = Some f →
                     ∀ r' t, f_status f ≠ Rejected r' t).
  { intros s2 [_ Hs] Hf.
    destruct (Hs (length (frames s)) (new_frame n r c Queued)) as (f' & Hf' & Hst).
    { simpl. by rewrite list_lookup_middle. }
    simplify_eq. by destruct Hst as [->|[_ ->]]. }
  destruct (limiter o) as [max|].
  - apply H1. unfold processQueue.
    eapply only_started_trans; [|apply drain_only_started]. by apply only_started_same.
  - apply H1. apply start_callback_only_started.
Qed.

Lemma root_rejected_at_call startNodeId schedule f r n :
  is_fail_fast (opt_errorStrategy o) = false →
  frames (run g callback o startNodeId schedule) !! 0 = Some f →
  f_status f = Rejected r n → opt_signal o = Some true.
Proof.
  intros Hff. unfold run. revert f.
  induction schedule as [|t schedule IH] using rev_ind; intros f Hf Hst.
  - simpl in Hf. unfold init in Hf.
    destruct (opt_signal o) as [[]|]; [done| |].
    all: match type of Hf with context [launch _ _ ?id ?r0 ?c ?s0] =>
           by destruct (launch_passed id r0 c s0 f eq_refl Hf r n)
         end.
  - rewrite foldl_snoc in Hf.
    destruct (step_ok g callback o (foldl tick_step (init callback o startNodeId) schedule) t)
      as [_ Hadv]; [apply run_ok|].
    destruct (frames (foldl tick_step (init callback o startNodeId) schedule) !! 0)
      as [f0|] eqn:H0.
    + eapply (IH f0); [done|]. eapply step_new_rejection; eauto.
    + destruct (run_ok g callback o startNodeId schedule) as (Hlen & _).
      apply lookup_ge_None in H0. unfold run in Hlen. lia.
Qed.

End rejection_facts.

(** *** Cancellation under each strategy *)

Section cancellation_facts.
Context (g : DependencyGraph) (callback : string → jsval → context → behaviour)
        (o : options).

Local Notation "'all_ok'" := (frames_ok g callback o).
Local Notation "'tick_step'" := (step g callback o).

Lemma advance_trans fs1 fs2 fs3 : advance fs1 fs2 → advance fs2 fs3 → advance fs1 fs3.
Proof.
  intros H12 H23 i f Hf.
  destruct (H12 i f Hf) as (f2 & Hf2 & (Hn2 & Hp2 & Hc2 & Hfin2)).
  destruct (H23 i f2 Hf2) as (f3 & Hf3 & (Hn3 & Hp3 & Hc3 & Hfin3)).
  exists f3. split; [done|]. repeat split; try congruence.
  intros Hfin. rewrite (Hfin2 Hfin) in *. by apply Hfin3.
Qed.

Lemma steps_ok s schedule :
  all_ok (frames s) →
  all_ok (frames (foldl tick_step s schedule)) ∧
  advance (frames s) (frames (foldl tick_step s schedule)).
Proof.
  revert s. induction schedule as [|t schedule IH]; intros s Hall; simpl.
  - split; [done|apply advance_refl].
  - destruct (step_ok g callback o s t Hall) as [Hall' Hadv].
    destruct (IH _ Hall') as [Hall'' Hadv'].
    split; [done|by eapply advance_trans].
Qed.

Lemma fail_fast_never_resolves s i f r t x :
  is_fail_fast (opt_errorStrategy o) = true → all_ok (frames s) →
  frames s !! i = Some f → f_status f = Rejected r t → settled_promise s ≠ Resolves x.
Proof.
  intros Hff Hall Hf Hst. unfold settled_promise.
  destruct (frames s !! 0) as [f0|] eqn:H0; [|done].
  destruct (f_status f0) as [| | |v|] eqn:Hst0; try done.
  destruct (fail_fast_fulfilled_root g callback o _ f0 v Hff Hall H0 Hst0 i f Hf) as [v' Hv'].
  congruence.
Qed.

(** Under the other strategies the parent of a rejected call lists it as
    an error node. *)
Lemma rejected_entry fs i f r t p fp x j :
  all_ok fs → fs !! i = Some f → f_status f = Rejected r t →
  fs !! p = Some fp → f_status fp = Fulfilled x → f_childPromises fp !! j = Some i →
  children x !! j = Some (mkExecNode (f_nodeId f) VNull r false []).
Proof.
  intros (_ & Hok & _) Hf Hst Hfp Hstp Hj.
  pose proof (Hok _ _ Hfp) as Hokp. unfold frame_ok in Hokp. rewrite Hstp in Hokp.
  destruct Hokp as [[_ Hk]|(_ & Hcl & vs & -> & Hvs)]; [by rewrite Hk in Hj|].
  pose proof (children_launched_length g o _ _ Hcl) as Hlen.
  destruct Hcl as [(_ & _ & Hk)|[_ Hkids]]; [by rewrite Hk in Hj|].
  destruct (Forall2_lookup_l _ _ _ _ _ Hkids Hj) as (nb & Hnb & fk & Hfk & Hid & _).
  assert (Hz : zip (f_validNeighbors fp) (f_childPromises fp) !! j = Some (nb, i)).
  { apply lookup_zip_with_Some. eauto. }
  destruct (Forall2_lookup_l _ _ _ _ _ Hvs Hz) as (v & Hv & fk' & Hfk' & Hentry & _).
  simpl in *. rewrite Hf in Hfk, Hfk'. injection Hfk as <-. injection Hfk' as <-.
  rewrite Hst in Hentry. simpl in Hentry. injection Hentry as <-.
  by rewrite Hid.
Qed.

End cancellation_facts.

(** C4, as the code has it.  The cancellation check is the first statement
    of every call of [_executeTreeNode].  Once the signal has fired, no
    later call gets past the check: each is abandoned with the error
    [Execution aborted], and without a concurrency limiter no callback is
    called any more.  What becomes of the rejected call depends on the
    strategy.  Under [fail-fast] ([Promise.all]) the promise of
    [executeOnTree] never fulfils after a call was rejected, and the
    rejection can always travel to it: some continuation rejects it, with
    the cancellation error or with an error a callback threw.  Under
    [collect] and [skip-children] ([Promise.allSettled]) a call is rejected
    by the cancellation check only, its parent lists it as an error node
    carrying the cancellation error, and the promise of [executeOnTree]
    rejects only if the signal was aborted when [executeOnTree] was
    called. *)
Theorem cancellation_by_strategy (g : DependencyGraph)
    (callback : string → jsval → context → behaviour) (o : options)
    (startNodeId : string) (schedule : list tick) :
  let s := run g callback o startNodeId schedule in
  quiet o (trace s) ∧
  ∀ i f r t, frames s !! i = Some f → f_status f = Rejected r t →
    if is_fail_fast (opt_errorStrategy o) then
      (r = abort_error ∨ thrown callback o r) ∧
      (∀ schedule' x,
         settled_promise (foldl (step g callback o) s schedule') ≠ Resolves x) ∧
      (∃ schedule' r',
         settled_promise (foldl (step g callback o) s schedule') = Rejects r' ∧
         (r' = abort_error ∨ thrown callback o r'))
    else
      r = abort_error ∧
      (i = 0 → opt_signal o = Some true) ∧
      (∀ p fp x j,
         frames s !! p = Some fp → f_status fp = Fulfilled x →
         f_childPromises fp !! j = Some i →
         children x !! j = Some (mkExecNode (f_nodeId f) VNull abort_error false [])).
Proof.
  intros s. split; [apply run_trace_ok|].
  intros i f r t Hf Hst.
  pose proof (run_ok g callback o startNodeId schedule) as Hall. fold s in Hall.
  assert (Hr : r = abort_error ∨
               (is_fail_fast (opt_errorStrategy o) = true ∧ thrown callback o r)).
  { destruct Hall as (_ & Hok & _). specialize (Hok _ _ Hf).
    unfold frame_ok in Hok. by rewrite Hst in Hok. }
  destruct (is_fail_fast (opt_errorStrategy o)) eqn:Hff.
  - split; [naive_solver|]. split.
    + intros schedule' x.
      destruct (steps_ok g callback o s schedule' Hall) as [Hall' Hadv].
      destruct (Hadv i f Hf) as (f' & Hf' & (_ & _ & _ & Hfin)).
      rewrite Hfin in Hf' by by rewrite Hst.
      by eapply fail_fast_never_resolves.
    + destruct (fail_fast_rejection_reaches_root g callback o i Hff s i f r t)
        as (schedule' & f0 & r0 & t0 & H0 & Hst0); [done..|].
      exists schedule', r0. unfold settled_promise. rewrite H0, Hst0. split; [done|].
      destruct (steps_ok g callback o s schedule' Hall) as [(_ & Hok & _) _].
      specialize (Hok _ _ H0). unfold frame_ok in Hok. rewrite Hst0 in Hok. naive_solver.
  - assert (r = abort_error) as -> by naive_solver.
    split; [done|]. split.
    + intros ->. by eapply root_rejected_at_call.
    + intros p fp x j Hfp Hstp Hj. by eapply rejected_entry.
Qed.

(** The test of the suite: under [fail-fast] the call at [C] is abandoned
    and the promise rejects with the cancellation error. *)
Example fail_fast_abort_ex :
  executeOnTree abort_chain aborts_at_B (signal_options FailFast) "A" abort_schedule
  = Rejects abort_error ∧
  trace (run abort_chain aborts_at_B (signal_options FailFast) "A" abort_schedule)
  = [Entered "A"; Invoked "A" VNull (mkContext 0 [] None None []);
     Settled "A" (Returns (VStr "A"));
     Entered "B"; Invoked "B" (VStr "A") (mkContext 1 ["A"] (Some "A") (Some "link") []);
     SignalAborted; Settled "B" (Returns (VStr "B")); Abandoned "C"].
Proof. split; vm_compute; reflexivity. Qed.

(** C4 as stated fails for [collect]: the signal fires while [B] runs, the
    call at [C] is abandoned, and yet the promise of [executeOnTree]
    fulfils; the cancellation error is the [error] of the node [C] of the
    tree. *)
Lemma collect_swallows_cancellation :
  Abandoned "C"
    ∈ after_abort (trace (run abort_chain aborts_at_B (signal_options Collect) "A"
                            abort_schedule)) ∧
  executeOnTree abort_chain aborts_at_B (signal_options Collect) "A" abort_schedule
  = Resolves
      (mkExecNode "A" (VStr "A") VNull false
         [mkExecNode "B" (VStr "B") VNull false
            [mkExecNode "C" VNull abort_error false []]]).
Proof.
  split; [|vm_compute; reflexivity].
  assert (after_abort (trace (run abort_chain aborts_at_B (signal_options Collect) "A"
                                abort_schedule))
          = [Settled "B" (Returns (VStr "B")); Abandoned "C"]) as ->
    by (vm_compute; reflexivity).
  apply list_elem_of_In. simpl. auto.
Qed.

Lemma cancellation_by_strategy_witness :
  ∃ fp x,
    frames (run abort_chain aborts_at_B (signal_options Collect) "A" abort_schedule) !! 1
    = Some fp ∧
    f_status fp = Fulfilled x ∧
    children x !! 0 = Some (mkExecNode "C" VNull abort_error false []).
Proof.
  eexists _, _. split; [vm_compute; reflexivity|]. split; [reflexivity|].
  destruct (cancellation_by_strategy abort_chain aborts_at_B (signal_options Collect) "A"
              abort_schedule) as [_ H].
  destruct (H 2 (new_frame "C" (VStr "B") (mkContext 2 ["A"; "B"] (Some "B") (Some "link") [])
                   (Rejected abort_error 0)) abort_error 0) as (_ & _ & Hentry).
  { vm_compute. reflexivity. }
  { reflexivity. }
  match goal with |- children ?x !! _ = _ =>
    apply (Hentry 1 (mkFrame "B" (VStr "A") (mkContext 1 ["A"] (Some "A") (Some "link") [])
                       (Fulfilled x) (VStr "B") VNull [("C", "link")] [2]) x 0)
  end.
  - vm_compute. reflexivity.
  - reflexivity.
  - reflexivity.
Defined.

(** With a limiter a callback that waits in the queue is still called
    after the signal has fired: its call passed the check before. *)
Example limiter_calls_after_abort_ex :
  after_abort (trace (run abort_fork aborts_at_B one_at_a_time "A"
                        [CallbackSettles 0; SlotReleased; CallbackSettles 1; SlotReleased]))
  = [Settled "B" (Returns (VStr "B"));
     Invoked "C" (VStr "A") (mkContext 1 ["A"] (Some "A") (Some "link") [])].
Proof. vm_compute. reflexivity. Qed.

Lemma abort_chain_built :
  perform_all [AddEdge "A" "B" "link"; AddEdge "B" "C" "link"; AddEdge "C" "D" "link"]
              empty_graph
  = Some abort_chain.
Proof. vm_compute. reflexivity. Qed.

(** Whatever the strategy, a call of [executeOnTree] with an aborted signal
    rejects with the cancellation error. *)
Lemma aborted_at_call_rejects g callback o startNodeId schedule :
  opt_signal o = Some true → hasNode startNodeId g = true →
  executeOnTree g callback o startNodeId schedule = Rejects abort_error.
Proof.
  intros Hsig Hnode. unfold executeOnTree. unfold hasNode in Hnode. rewrite Hnode. simpl.
  assert (Hinit : frames (init callback o startNodeId) !! 0
                  = Some (new_frame startNodeId VNull (mkContext 0 [] None None [])
                            (Rejected abort_error 0))).
  { unfold init. rewrite Hsig. reflexivity. }
  destruct (steps_ok g callback o (init callback o startNodeId) schedule) as [_ Hadv];
    [apply init_ok|].
  destruct (Hadv _ _ Hinit) as (f' & Hf' & (_ & _ & _ & Hfin)).
  unfold settled_promise, run. rewrite Hf', Hfin; done.
Qed.

(** *** The arguments of the calls of the callback *)

Section argument_facts.
Context (g : DependencyGraph) (callback : string → jsval → context → behaviour)
        (o : options) (startNodeId : string).

Local Notation "'args'" := (call_args g callback o startNodeId).
Local Notation "'calls_ok'" := (args_ok g callback o startNodeId).

Lemma not_invoked_elem evs n pr ctx :
  Forall (λ ev, is_invoked ev = false) evs → Invoked n pr ctx ∉ evs.
Proof.
  intros Hall Hin. rewrite Forall_forall in Hall. by specialize (Hall _ Hin).
Qed.

(** A frame is replaced by one with the same arguments, and events other
    than calls are logged. *)
Lemma args_ok_settle s s' i f f' evs :
  calls_ok s → frames s !! i = Some f → frames s' = <[i := f']> (frames s) →
  f_nodeId f' = f_nodeId f → f_parentResult f' = f_parentResult f →
  f_context f' = f_context f →
  trace s' = trace s ++ evs → Forall (λ ev, is_invoked ev = false) evs →
  calls_ok s'.
Proof.
  intros [Hfr Htr] Hf Hfs Hn Hp Hc Ht Hevs. split.
  - intros j fj. rewrite Hfs. intros [(<- & <- & _)|[_ Hj]]%list_lookup_insert_Some.
    + rewrite Hn, Hp, Hc. by eapply Hfr.
    + by eapply Hfr.
  - intros n pr ctx. rewrite Ht. intros [Hin|Hin]%elem_of_app; [by apply Htr|].
    by apply not_invoked_elem in Hin.
Qed.

Lemma args_ok_log s s' evs :
  calls_ok s → frames s' = frames s → trace s' = trace s ++ evs →
  Forall (λ ev, is_invoked ev = false) evs → calls_ok s'.
Proof.
  intros [Hfr Htr] Hfs Ht Hevs. split.
  - intros j fj. rewrite Hfs. apply Hfr.
  - intros n pr ctx. rewrite Ht. intros [Hin|Hin]%elem_of_app; [by apply Htr|].
    by apply not_invoked_elem in Hin.
Qed.

Lemma start_callback_args_ok i s : calls_ok s → calls_ok (start_callback callback o i s).
Proof.
  intros Hok. unfold start_callback.
  destruct (frames s !! i) as [[n r c [] res err vn kids]|] eqn:Hi; try done.
  destruct Hok as [Hfr Htr]. pose proof (Hfr _ _ Hi) as Hargs. simpl in Hargs.
  split; simpl.
  - intros j fj. intros [(<- & <- & _)|[_ Hj]]%list_lookup_insert_Some; [done|].
    by eapply Hfr.
  - intros n' pr' ctx'. intros [Hin|Hin]%elem_of_app; [by apply Htr|].
    apply elem_of_cons in Hin as [Heq|Hin]; [by simplify_eq|].
    destruct (_ && _); [|by apply elem_of_nil in Hin].
    apply list_elem_of_singleton in Hin. done.
Qed.

Lemma drain_args_ok max waiting s :
  calls_ok s → calls_ok (drain callback o max waiting s).
Proof.
  revert s. induction waiting as [|i waiting IH]; intros s Hok; simpl.
  - done.
  - destruct (below (running s) max); [|done]. apply IH. by apply start_callback_args_ok.
Qed.

Lemma launch_args_ok n r c s :
  args n r c → calls_ok s → calls_ok (launch callback o n r c s).
Proof.
  intros Hargs [Hfr Htr].
  assert (Hnew : ∀ s' st ev, frames s' = frames s ++ [new_frame n r c st] →
            trace s' = trace s ++ [ev] → is_invoked ev = false → calls_ok s').
  { intros s' st ev Hfs Ht Hev. split.
    - intros j fj. rewrite Hfs. intros [Hj|[_ Hj]]%lookup_app_Some; [by eapply Hfr|].
      apply list_lookup_singleton_Some in Hj as [_ <-]. done.
    - intros n' pr' ctx'. rewrite Ht. intros [Hin|Hin]%elem_of_app; [by apply Htr|].
      apply list_elem_of_singleton in Hin. by subst. }
  unfold launch. destruct (aborted s); [by eapply Hnew|].
  destruct (JsSet.has _ (visited s)); [by eapply Hnew|].
  destruct (limiter o) as [max|].
  - unfold processQueue. apply drain_args_ok. by eapply Hnew.
  - apply start_callback_args_ok. by eapply Hnew.
Qed.

Lemma launch_children_args_ok nodeId result ctx vn s :
  (∀ nb, nb ∈ vn → args nb.1 result (child_context nodeId ctx nb.2)) →
  calls_ok s → calls_ok (launch_children callback o nodeId result ctx vn s).
Proof.
  unfold launch_children. revert s.
  induction vn as [|nb vn IH]; intros s Hvn Hok; simpl; [done|].
  apply IH; [intros nb' Hin; apply Hvn; by right|].
  apply launch_args_ok; [|done]. apply (Hvn nb). by left.
Qed.

Lemma after_callback_result n pr ctx cache result error caught cache' reports :
  after_callback o n (settles (callback n pr ctx)) cache
  = (result, error, caught, cache', reports) →
  result = callback_result callback n pr ctx ∧ Forall (λ ev, is_invoked ev = false) reports.
Proof.
  unfold after_callback, callback_result.
  destruct (settles _); [destruct (opt_onProgress o) as [hook|]; [destruct (hook _ _)|]|];
    intros [= <- <- <- <- <-]; split; by repeat constructor.
Qed.

Lemma step_args_ok s t : calls_ok s → calls_ok (step g callback o s t).
Proof.
  intros Hok. destruct t as [i| |i|]; simpl.
  - unfold callback_settles.
    destruct (frames s !! i) as [f|] eqn:Hi; [|done]. destruct (f_status f); try done.
    destruct (after_callback o (f_nodeId f) _ (resultCache s))
      as [[[[result error] caught] cache] reports] eqn:Hac.
    apply after_callback_result in Hac as [-> Hrep].
    assert (Hlog : ∀ s' f', frames s' = <[i := f']> (frames s) →
              f_nodeId f' = f_nodeId f → f_parentResult f' = f_parentResult f →
              f_context f' = f_context f →
              trace s' = trace s ++ Settled (f_nodeId f)
                (settles (callback (f_nodeId f) (f_parentResult f) (f_context f)))
                :: reports →
              calls_ok s').
    { intros s' f' Hfs Hn Hp Hc Ht. eapply args_ok_settle; try done. by constructor. }
    destruct (caught && is_fail_fast (opt_errorStrategy o)); [by eapply Hlog|].
    destruct (truthy error && is_skip_children (opt_errorStrategy o)); [by eapply Hlog|].
    destruct (validNeighbors g _ _ (f_nodeId f)) as [|nb0 vn0] eqn:Hvn; [by eapply Hlog|].
    apply launch_children_args_ok; [|by eapply Hlog].
    intros [nodeId ty] Hin. simpl. apply child_call.
    + destruct Hok as [Hfr _]. by eapply Hfr.
    + by rewrite Hvn.
  - unfold slot_released. destruct (limiter o) as [max|]; [|done].
    destruct (releases s); [done|]. unfold processQueue. by apply drain_args_ok.
  - unfold children_settled.
    destruct (frames s !! i) as [f|] eqn:Hi; [|done]. destruct (f_status f); try done.
    destruct (child_statuses s (f_childPromises f)) as [sts|]; [|done].
    assert (Hset : ∀ s' st, frames s' = <[i := set_status st f]> (frames s) →
              trace s' = trace s → calls_ok s').
    { intros s' st Hfs Ht.
      apply (args_ok_settle s s' i f (set_status st f) []);
        [done|done|done|by destruct f|by destruct f|by destruct f|
         by rewrite app_nil_r|constructor]. }
    destruct (is_fail_fast (opt_errorStrategy o)).
    + destruct (first_rejection sts) as [[r t]|]; [by eapply Hset|].
      destruct (mapM fulfilled_value sts); [by eapply Hset|done].
    + destruct (mapM _ (zip (f_validNeighbors f) sts)); [by eapply Hset|done].
  - unfold signal_aborts. destruct (has_signal o && negb (aborted s)); [|done].
    eapply (args_ok_log s _ [SignalAborted]); try done. by repeat constructor.
Qed.

Lemma init_args_ok : calls_ok (init callback o startNodeId).
Proof.
  unfold init. apply launch_args_ok; [constructor|].
  split; simpl; [by intros i f ?|].
  intros n pr ctx Hin. destruct (opt_signal o) as [[]|].
  - by apply list_elem_of_singleton in Hin.
  - by apply elem_of_nil in Hin.
  - by apply elem_of_nil in Hin.
Qed.

Lemma run_args_ok schedule : calls_ok (run g callback o startNodeId schedule).
Proof.
  unfold run. induction schedule as [|t schedule IH] using rev_ind; simpl.
  - apply init_args_ok.
  - rewrite foldl_snoc. by apply step_args_ok.
Qed.

(** Every call of the callback, in every run: its arguments are those of
    the root, [(startNodeId, null, { depth: 0, path: [], parentNode: null,
    edgeType: null, siblings: [] })], or those made for a valid neighbour of
    a called node: the neighbour's id, the result of that node's callback
    and the context one level down. *)
Lemma callback_arguments schedule nodeId parentResult ctx :
  Invoked nodeId parentResult ctx ∈ trace (run g callback o startNodeId schedule) →
  args nodeId parentResult ctx.
Proof. intros Hin. by destruct (run_args_ok schedule) as [_ Htr]; apply Htr. Qed.

(** What the context of a call holds. *)
Lemma call_args_context nodeId parentResult ctx :
  args nodeId parentResult ctx →
  depth ctx = length (path ctx) ∧ parentNode ctx = last (path ctx) ∧ siblings ctx = [] ∧
  (depth ctx = 0 ↔ edgeType ctx = None) ∧
  (depth ctx = 0 → nodeId = startNodeId ∧ parentResult = VNull).
Proof.
  induction 1 as [|pn ppr pctx n ty Hp (IHd & IHl & _) Hnb]; simpl.
  - repeat split; done.
  - rewrite length_app, last_snoc, IHd. simpl. repeat split; try done; lia.
Qed.

End argument_facts.

(** C5 at the README's example of edge metadata.  The edge table keeps
    [{ to, type }] only, and the callback at [B] is called with the node
    id, the result of [A] and the context
    [{ depth: 1, path: ['A'], parentNode: 'A', edgeType: 'weighted', siblings: [] }]:
    the context has no field for the data of the edge. *)
Theorem edge_payload_not_passed :
  perform_all [AddEdge "A" "B" "weighted"] empty_graph = Some weighted_pair ∧
  JsMap.get (edgeId "A" "B") (edges weighted_pair) = Some (mkEdge "B" "weighted") ∧
  trace (run weighted_pair returns_id default_options "A"
           [CallbackSettles 0; CallbackSettles 1; ChildrenSettled 0])
  = [Entered "A"; Invoked "A" VNull (mkContext 0 [] None None []);
     Settled "A" (Returns (VStr "A"));
     Entered "B";
     Invoked "B" (VStr "A") (mkContext 1 ["A"] (Some "A") (Some "weighted") []);
     Settled "B" (Returns (VStr "B"))].
Proof. repeat split; vm_compute; reflexivity. Qed.

Example graph_ex1 :
  perform_all [AddEdge "A" "B" "link"; AddEdge "C" "A" "link"; RemoveNode "A"] empty_graph
  = Some (mkGraph [("B", []); ("C", [])] [("B", []); ("C", [])] []).
Proof. vm_compute. reflexivity. Qed.
(** ** Further properties of the tree executor *)

(** *** The arguments and the order of the calls *)

(** X14.  Whatever the schedule, every call of the callback gets the
    arguments the tree prescribes.  The call at the root gets the start
    node, [null] and the context [{ depth: 0, path: [], parentNode: null,
    edgeType: null, siblings: [] }].  Every other call is made for a valid
    neighbour of a called node and gets the neighbour's id, the value the
    parent's callback returned ([null] when it threw), and a context one
    level deeper, with the parent's id appended to the path and given as
    [parentNode], and the type of the edge.  In every context [depth] is
    the length of [path], [parentNode] is the last id of [path] and
    [siblings] is empty. *)
Theorem invocation_arguments (g : DependencyGraph)
    (callback : string → jsval → context → behaviour) (o : options)
    (startNodeId : string) (schedule : list tick)
    (nodeId : string) (parentResult : jsval) (ctx : context) :
  Invoked nodeId parentResult ctx ∈ trace (run g callback o startNodeId schedule) →
  call_args g callback o startNodeId nodeId parentResult ctx ∧
  depth ctx = length (path ctx) ∧ parentNode ctx = last (path ctx) ∧ siblings ctx = [] ∧
  (depth ctx = 0 ↔ edgeType ctx = None) ∧
  (depth ctx = 0 → nodeId = startNodeId ∧ parentResult = VNull).
Proof.
  intros Hin%callback_arguments. split; [done|]. by eapply call_args_context.
Qed.

Lemma invocation_arguments_witness :
  call_args waterfall_chain waterfall default_options "A" "C" (VNum 20)
            (mkContext 2 ["A"; "B"] (Some "B") (Some "calc") []).
Proof.
  destruct (invocation_arguments waterfall_chain waterfall default_options "A"
              waterfall_schedule "C" (VNum 20)
              (mkContext 2 ["A"; "B"] (Some "B") (Some "calc") [])) as [H _].
  { vm_compute. apply list_elem_of_In. simpl. tauto. }
  exact H.
Defined.

Lemma aborted_run_fixed g callback o startNodeId schedule :
  opt_signal o = Some true →
  run g callback o startNodeId schedule
  = mkState [new_frame startNodeId VNull (mkContext 0 [] None None [])
               (Rejected abort_error 0)]
            [] [] true [] 0 0 1 [SignalAborted; Abandoned startNodeId].
Proof.
  intros Hsig. unfold run.
  assert (Hinit : init callback o startNodeId
                  = mkState [new_frame startNodeId VNull (mkContext 0 [] None None [])
                               (Rejected abort_error 0)]
                            [] [] true [] 0 0 1 [SignalAborted; Abandoned startNodeId]).
  { unfold init, launch. by rewrite Hsig. }
  rewrite Hinit. induction schedule as [|t schedule IH] using rev_ind; [done|].
  rewrite foldl_snoc, IH. destruct t as [i| |i|]; simpl.
  - unfold callback_settles. by destruct i.
  - unfold slot_released. by destruct (limiter o).
  - unfold children_settled. by destruct i.
  - unfold signal_aborts. simpl. by rewrite andb_false_r.
Qed.

(** X15.  A call of [executeOnTree] with a signal that is already aborted
    rejects with the error [Execution aborted] under every strategy; the
    callback is never called, whatever happens afterwards. *)
Theorem aborted_signal_rejects (g : DependencyGraph)
    (callback : string → jsval → context → behaviour) (o : options)
    (startNodeId : string) (schedule : list tick) :
  opt_signal o = Some true → hasNode startNodeId g = true →
  executeOnTree g callback o startNodeId schedule = Rejects abort_error ∧
  trace (run g callback o startNodeId schedule) = [SignalAborted; Abandoned startNodeId].
Proof.
  intros Hsig Hnode. unfold executeOnTree. unfold hasNode in Hnode. rewrite Hnode.
  by rewrite aborted_run_fixed.
Qed.

Lemma aborted_signal_rejects_witness :
  executeOnTree abort_chain aborts_at_B
    (mkOptions TypesAbsent Outgoing Collect None (Some true) None) "A" abort_schedule
  = Rejects abort_error.
Proof.
  apply (aborted_signal_rejects abort_chain aborts_at_B
           (mkOptions TypesAbsent Outgoing Collect None (Some true) None) "A" abort_schedule).
  - reflexivity.
  - vm_compute. reflexivity.
Defined.

Section order_facts.
Context (g : DependencyGraph) (callback : string → jsval → context → behaviour)
        (o : options).

Lemma order_ok_trace s s' evs :
  order_ok s → trace s' = trace s ++ evs →
  (∀ n pr ctx p, Invoked n pr ctx ∈ evs → parentNode ctx = Some p →
                 ∃ outcome, Settled p outcome ∈ trace s) →
  ∀ j n pr ctx p, trace s' !! j = Some (Invoked n pr ctx) → parentNode ctx = Some p →
                  ∃ i outcome, i < j ∧ trace s' !! i = Some (Settled p outcome).
Proof.
  intros [_ Htr] Ht Hevs j n pr ctx p. rewrite Ht.
  intros [Hj|[Hlen Hj]]%lookup_app_Some Hp.
  - destruct (Htr _ _ _ _ _ Hj Hp) as (i & outcome & Hi & Hlook).
    exists i, outcome. split; [done|]. by apply lookup_app_l_Some.
  - apply list_elem_of_lookup_2 in Hj.
    destruct (Hevs _ _ _ _ Hj Hp) as (outcome & (i & Hi)%list_elem_of_lookup_1).
    exists i, outcome. split; [|by apply lookup_app_l_Some].
    apply lookup_lt_Some in Hi. lia.
Qed.

Lemma order_ok_frames s s' evs :
  order_ok s → trace s' = trace s ++ evs →
  (∀ i f', frames s' !! i = Some f' →
           ∃ j f, frames s !! j = Some f ∧ f_context f' = f_context f) →
  ∀ i f' p, frames s' !! i = Some f' → parentNode (f_context f') = Some p →
            ∃ outcome, Settled p outcome ∈ trace s'.
Proof.
  intros [Hfr _] Ht Hfs i f' p Hf' Hp.
  destruct (Hfs _ _ Hf') as (j & f & Hf & Hc). rewrite Hc in Hp.
  destruct (Hfr _ _ _ Hf Hp) as [outcome Hin]. exists outcome.
  rewrite Ht. apply elem_of_app. by left.
Qed.

Lemma not_invoked_parent evs (tr : list event) :
  Forall (λ ev, is_invoked ev = false) evs →
  ∀ n pr ctx (p : string), Invoked n pr ctx ∈ evs → parentNode ctx = Some p →
                ∃ outcome, Settled p outcome ∈ tr.
Proof.
  intros Hall n pr ctx p Hin. rewrite Forall_forall in Hall. by specialize (Hall _ Hin).
Qed.

(** A frame is replaced by one with the same context, and events other
    than calls are logged. *)
Lemma order_ok_settle s s' i f f' evs :
  order_ok s → frames s !! i = Some f → frames s' = <[i := f']> (frames s) →
  f_context f' = f_context f →
  trace s' = trace s ++ evs → Forall (λ ev, is_invoked ev = false) evs →
  order_ok s'.
Proof.
  intros Hok Hf Hfs Hc Ht Hevs. split.
  - eapply order_ok_frames; [done|done|]. intros j fj. rewrite Hfs.
    intros [(<- & <- & _)|[_ Hj]]%list_lookup_insert_Some; eauto.
  - eapply order_ok_trace; [done|done|]. by apply not_invoked_parent.
Qed.

Lemma order_ok_log s s' evs :
  order_ok s → frames s' = frames s → trace s' = trace s ++ evs →
  Forall (λ ev, is_invoked ev = false) evs → order_ok s'.
Proof.
  intros Hok Hfs Ht Hevs. split.
  - eapply order_ok_frames; [done|done|]. intros j fj. rewrite Hfs. eauto.
  - eapply order_ok_trace; [done|done|]. by apply not_invoked_parent.
Qed.

Lemma start_callback_order_ok i s : order_ok s → order_ok (start_callback callback o i s).
Proof.
  intros Hok. unfold start_callback.
  destruct (frames s !! i) as [[n r c [] res err vn kids]|] eqn:Hi; try done.
  split.
  - eapply order_ok_frames; [done|simpl; done|]. simpl. intros j fj.
    intros [(<- & <- & _)|[_ Hj]]%list_lookup_insert_Some; eauto.
  - eapply order_ok_trace; [done|simpl; done|]. intros n' pr' ctx' p Hin Hp.
    apply elem_of_cons in Hin as [Heq|Hin].
    + injection Heq as -> -> ->. destruct Hok as [Hfr _]. by apply (Hfr _ _ _ Hi).
    + destruct (_ && _); [|by apply elem_of_nil in Hin].
      by apply list_elem_of_singleton in Hin.
Qed.

Lemma drain_order_ok max waiting s :
  order_ok s → order_ok (drain callback o max waiting s).
Proof.
  revert s. induction waiting as [|i waiting IH]; intros s Hok; simpl.
  - done.
  - destruct (below (running s) max); [|done]. apply IH. by apply start_callback_order_ok.
Qed.

Lemma launch_order_ok n r c s :
  (∀ p, parentNode c = Some p → ∃ outcome, Settled p outcome ∈ trace s) →
  order_ok s → order_ok (launch callback o n r c s).
Proof.
  intros Hparent Hok.
  assert (Hnew : ∀ s' st ev, frames s' = frames s ++ [new_frame n r c st] →
            trace s' = trace s ++ [ev] → is_invoked ev = false → order_ok s').
  { intros s' st ev Hfs Ht Hev. split.
    - intros j fj p. rewrite Hfs, Ht. intros [Hj|[_ Hj]]%lookup_app_Some Hp.
      + destruct Hok as [Hfr _]. destruct (Hfr _ _ _ Hj Hp) as [outcome Hin].
        exists outcome. apply elem_of_app. by left.
      + apply list_lookup_singleton_Some in Hj as [_ <-]. simpl in Hp.
        destruct (Hparent _ Hp) as [outcome Hin]. exists outcome. apply elem_of_app. by left.
    - eapply order_ok_trace; [done|done|].
      apply not_invoked_parent. by repeat constructor. }
  unfold launch. destruct (aborted s); [by eapply Hnew|].
  destruct (JsSet.has _ (visited s)); [by eapply Hnew|].
  destruct (limiter o) as [max|].
  - unfold processQueue. apply drain_order_ok. by eapply Hnew.
  - apply start_callback_order_ok. by eapply Hnew.
Qed.

Lemma start_callback_trace i s :
  ∃ evs, trace (start_callback callback o i s) = trace s ++ evs.
Proof.
  unfold start_callback.
  destruct (frames s !! i) as [[n' r' c' [] res err vn kids]|];
    try (exists []; by rewrite app_nil_r). simpl. by eexists.
Qed.

Lemma drain_trace max waiting s :
  ∃ evs, trace (drain callback o max waiting s) = trace s ++ evs.
Proof.
  revert s. induction waiting as [|i waiting IH]; intros s; simpl.
  - exists []. by rewrite app_nil_r.
  - destruct (below (running s) max); [|exists []; by rewrite app_nil_r].
    edestruct IH as [evs' ->]. edestruct start_callback_trace as [evs ->].
    simpl. exists (evs ++ evs'). by rewrite app_assoc.
Qed.

Lemma launch_trace n r c s :
  ∃ evs, trace (launch callback o n r c s) = trace s ++ evs.
Proof.
  unfold launch. destruct (aborted s); [simpl; by eexists|].
  destruct (JsSet.has _ (visited s)); [simpl; by eexists|].
  destruct (limiter o) as [max|].
  - unfold processQueue. edestruct drain_trace as [evs ->]. simpl.
    eexists. by rewrite <- app_assoc.
  - edestruct start_callback_trace as [evs ->]. simpl. eexists. by rewrite <- app_assoc.
Qed.

Lemma launch_children_order_ok nodeId result ctx vn s :
  (∃ outcome, Settled nodeId outcome ∈ trace s) →
  order_ok s → order_ok (launch_children callback o nodeId result ctx vn s).
Proof.
  unfold launch_children. revert s.
  induction vn as [|nb vn IH]; intros s Hset Hok; simpl; [done|].
  apply IH.
  - destruct Hset as [outcome Hin]. exists outcome.
    edestruct launch_trace as [evs ->]. apply elem_of_app. by left.
  - apply launch_order_ok; [|done]. simpl. by intros p [= <-].
Qed.

Lemma step_order_ok s t : order_ok s → order_ok (step g callback o s t).
Proof.
  intros Hok. destruct t as [i| |i|]; simpl.
  - unfold callback_settles.
    destruct (frames s !! i) as [f|] eqn:Hi; [|done]. destruct (f_status f); try done.
    destruct (after_callback o (f_nodeId f) _ (resultCache s))
      as [[[[result error] caught] cache] reports] eqn:Hac.
    apply after_callback_result in Hac as [_ Hrep].
    assert (Hlog : ∀ s' f', frames s' = <[i := f']> (frames s) →
              f_context f' = f_context f →
              trace s' = trace s ++ Settled (f_nodeId f)
                (settles (callback (f_nodeId f) (f_parentResult f) (f_context f)))
                :: reports →
              order_ok s').
    { intros s' f' Hfs Hc Ht. eapply order_ok_settle; try done. by constructor. }
    destruct (caught && is_fail_fast (opt_errorStrategy o)); [by eapply Hlog|].
    destruct (truthy error && is_skip_children (opt_errorStrategy o)); [by eapply Hlog|].
    destruct (validNeighbors g _ _ (f_nodeId f)) as [|nb0 vn0] eqn:Hvn; [by eapply Hlog|].
    apply launch_children_order_ok; [|by eapply Hlog].
    eexists. simpl. apply elem_of_app. right. left.
  - unfold slot_released. destruct (limiter o) as [max|]; [|done].
    destruct (releases s); [done|]. unfold processQueue. by apply drain_order_ok.
  - unfold children_settled.
    destruct (frames s !! i) as [f|] eqn:Hi; [|done]. destruct (f_status f); try done.
    destruct (child_statuses s (f_childPromises f)) as [sts|]; [|done].
    assert (Hset : ∀ s' st, frames s' = <[i := set_status st f]> (frames s) →
              trace s' = trace s → order_ok s').
    { intros s' st Hfs Ht.
      apply (order_ok_settle s s' i f (set_status st f) []);
        [done|done|done|by destruct f|by rewrite app_nil_r|constructor]. }
    destruct (is_fail_fast (opt_errorStrategy o)).
    + destruct (first_rejection sts) as [[r t]|]; [by eapply Hset|].
      destruct (mapM fulfilled_value sts); [by eapply Hset|done].
    + destruct (mapM _ (zip (f_validNeighbors f) sts)); [by eapply Hset|done].
  - unfold signal_aborts. destruct (has_signal o && negb (aborted s)); [|done].
    eapply (order_ok_log s _ [SignalAborted]); try done. by repeat constructor.
Qed.

Lemma init_order_ok startNodeId : order_ok (init callback o startNodeId).
Proof.
  unfold init. apply launch_order_ok; [done|].
  split; simpl; [by intros i f p ?|].
  intros j n pr ctx p Hj. destruct (opt_signal o) as [[]|].
  - by apply list_lookup_singleton_Some in Hj as [_ ?].
  - done.
  - done.
Qed.

Lemma run_order_ok startNodeId schedule : order_ok (run g callback o startNodeId schedule).
Proof.
  unfold run. induction schedule as [|t schedule IH] using rev_ind; simpl.
  - apply init_order_ok.
  - rewrite foldl_snoc. by apply step_order_ok.
Qed.

End order_facts.

(** X16.  Parents come first, whatever the schedule: when the callback is
    called for a node below the root, the callback of its parent node has
    settled before. *)
Theorem parent_settles_before_child (g : DependencyGraph)
    (callback : string → jsval → context → behaviour) (o : options)
    (startNodeId : string) (schedule : list tick)
    (j : nat) (nodeId : string) (parentResult : jsval) (ctx : context) (parent : string) :
  trace (run g callback o startNodeId schedule) !! j = Some (Invoked nodeId parentResult ctx) →
  parentNode ctx = Some parent →
  ∃ i outcome, i < j ∧
    trace (run g callback o startNodeId schedule) !! i = Some (Settled parent outcome).
Proof.
  intros Hj Hp. destruct (run_order_ok g callback o startNodeId schedule) as [_ Htr].
  by eapply Htr.
Qed.

Lemma parent_settles_before_child_witness :
  ∃ i outcome, i < 4 ∧
    trace (run waterfall_chain waterfall default_options "A" waterfall_schedule) !! i
    = Some (Settled "A" outcome).
Proof.
  apply (parent_settles_before_child waterfall_chain waterfall default_options "A"
           waterfall_schedule 4 "B" (VNum 10)
           (mkContext 1 ["A"] (Some "A") (Some "calc") []) "A").
  - vm_compute. reflexivity.
  - reflexivity.
Defined.

(** *** Callbacks in flight *)

(** ** The limit of the limiter *)

Lemma below_mono n m max : n ≤ m → below m max = true → below n max = true.
Proof.
  intros Hnm. destruct max as [| | |q]; simpl; try done.
  unfold QArith_base.Qle_bool. simpl. rewrite !negb_true_iff, !Z.leb_gt.
  pose proof (Pos2Z.is_pos (QArith_base.Qden q)). nia.
Qed.

Lemma below_integer n k : below n (integer (Z.of_nat k)) = bool_decide (n < k).
Proof.
  unfold below, integer, QArith_base.Qle_bool. simpl.
  case_bool_decide as Hlt.
  - apply negb_true_iff, Z.leb_gt. lia.
  - apply negb_false_iff, Z.leb_le. lia.
Qed.

Lemma below_first max : below 0 max = false → ∀ n, below n max = false.
Proof.
  intros H0 n. destruct (below n max) eqn:Hn; [|done].
  apply (below_mono 0 n) in Hn; [congruence|lia].
Qed.

Section flight_facts.
Context (g : DependencyGraph) (callback : string → jsval → context → behaviour)
        (o : options).

Lemma sum_list_insert (l : list nat) i x y :
  l !! i = Some x → sum_list (<[i := y]> l) + x = sum_list l + y.
Proof.
  revert i. induction l as [|z l IH]; intros [|i] Hi; simplify_eq/=; [lia|].
  specialize (IH i Hi). lia.
Qed.

Lemma in_flight_insert s s' i f f' :
  frames s !! i = Some f → frames s' = <[i := f']> (frames s) →
  in_flight s' + (if is_running (f_status f) then 1 else 0)
  = in_flight s + (if is_running (f_status f') then 1 else 0).
Proof.
  intros Hi Hfs. unfold in_flight. rewrite Hfs, list_fmap_insert.
  apply sum_list_insert. by rewrite list_lookup_fmap, Hi.
Qed.

Lemma calls_made_app tr evs : calls_made (tr ++ evs) = calls_made tr + calls_made evs.
Proof. unfold calls_made. by rewrite filter_app, length_app. Qed.

Lemma calls_settled_app tr evs :
  calls_settled (tr ++ evs) = calls_settled tr + calls_settled evs.
Proof. unfold calls_settled. by rewrite filter_app, length_app. Qed.

Lemma calls_made_cons ev tr :
  calls_made (ev :: tr) = (if is_invoked ev then 1 else 0) + calls_made tr.
Proof.
  unfold calls_made. rewrite filter_cons.
  destruct (is_invoked ev); [by rewrite decide_True|by rewrite decide_False].
Qed.

Lemma calls_settled_cons ev tr :
  calls_settled (ev :: tr) = (if is_settled ev then 1 else 0) + calls_settled tr.
Proof.
  unfold calls_settled. rewrite filter_cons.
  destruct (is_settled ev); [by rewrite decide_True|by rewrite decide_False].
Qed.

Lemma calls_made_quiet evs : Forall (λ ev, is_invoked ev = false) evs → calls_made evs = 0.
Proof.
  unfold calls_made. induction 1 as [|ev evs Hev _ IH]; [done|].
  rewrite filter_cons, decide_False by congruence. done.
Qed.

(** What starting a callback changes. *)
Lemma start_callback_flight i s :
  let s' := start_callback callback o i s in
  running s' = running s ∧ releases s' = releases s ∧
  calls_settled (trace s') = calls_settled (trace s) ∧
  ∃ d, d ≤ 1 ∧ in_flight s' = in_flight s + d ∧
       calls_made (trace s') = calls_made (trace s) + d.
Proof.
  unfold start_callback.
  destruct (frames s !! i) as [[n r c [] res err vn kids]|] eqn:Hi;
    try (split_and!; [done|done|done|]; exists 0; split_and!; lia).
  cbn [running releases trace]. split_and!; [done|done| |].
  - rewrite calls_settled_app, calls_settled_cons.
    destruct (_ && _); rewrite ?calls_settled_cons;
      change (calls_settled []) with 0; simpl; lia.
  - exists 1. split_and!; [done| |].
    + pose proof (in_flight_insert s
        (mkState (<[i := mkFrame n r c Running res err vn kids]> (frames s))
                 (visited s) (resultCache s) (aborted s) (queue s) (running s)
                 (releases s) (rejections s) (trace s))
        i _ (mkFrame n r c Running res err vn kids) Hi eq_refl) as H.
      cbn [f_status is_running] in H. unfold in_flight in *. cbn [frames] in *. lia.
    + rewrite calls_made_app, calls_made_cons.
      destruct (_ && _); rewrite ?calls_made_cons;
        change (calls_made []) with 0; simpl; lia.
Qed.

Lemma drain_flight max waiting s :
  limiter o = Some max → flight_ok o s → flight_ok o (drain callback o max waiting s).
Proof.
  intros Hl. revert s. induction waiting as [|i waiting IH]; intros s Hok; simpl.
  - done.
  - destruct (below (running s) max) eqn:Hlt; [|done].
    apply IH. destruct Hok as [Hcalls Hlim]. rewrite Hl in Hlim.
    destruct Hlim as [Hlim Hbelow].
    match goal with |- flight_ok o (start_callback _ _ i ?s0) =>
      destruct (start_callback_flight i s0) as (Hr & Hrel & Hset & d & Hd & Hfl & Hmade)
    end.
    unfold flight_ok. rewrite Hl, Hr, Hrel, Hset, Hfl, Hmade.
    unfold in_flight in *. simpl in *. split_and!; [lia|lia|].
    by intros n [= <-].
Qed.

Lemma launch_flight n r c s : flight_ok o s → flight_ok o (launch callback o n r c s).
Proof.
  intros Hok.
  assert (Hnew : ∀ s' st ev, frames s' = frames s ++ [new_frame n r c st] →
            trace s' = trace s ++ [ev] → is_running st = false →
            is_invoked ev = false → is_settled ev = false →
            running s' = running s → releases s' = releases s → flight_ok o s').
  { intros s' st ev Hfs Ht Hst Hev Hev' Hr Hrel. destruct Hok as [Hcalls Hlim].
    assert (Hfl : in_flight s' = in_flight s).
    { unfold in_flight. rewrite Hfs, fmap_app, sum_list_with_app. simpl.
      rewrite Hst. simpl. lia. }
    unfold flight_ok. rewrite Hfl, Ht, Hr, Hrel. split; [|done].
    rewrite calls_made_app, calls_settled_app, calls_made_cons, calls_settled_cons.
    rewrite Hev, Hev'. change (calls_made []) with 0. change (calls_settled []) with 0. lia. }
  unfold launch. destruct (aborted s); [by eapply Hnew|].
  destruct (JsSet.has _ (visited s)); [by eapply Hnew|].
  destruct (limiter o) as [max|] eqn:Hl.
  - unfold processQueue. apply drain_flight; [done|]. by eapply Hnew.
  - match goal with |- flight_ok o (start_callback _ _ ?i ?s0) =>
      assert (Hs0 : flight_ok o s0) by (by eapply Hnew);
      destruct (start_callback_flight i s0) as (Hr & Hrel & Hset & d & Hd & Hfl & Hmade)
    end.
    destruct Hs0 as [Hcalls _]. unfold flight_ok. rewrite Hl, Hset, Hfl, Hmade.
    split; [lia|done].
Qed.

Lemma launch_children_flight nodeId result ctx vn s :
  flight_ok o s → flight_ok o (launch_children callback o nodeId result ctx vn s).
Proof.
  unfold launch_children. revert s.
  induction vn as [|nb vn IH]; intros s Hok; simpl; [done|].
  apply IH. by apply launch_flight.
Qed.

Lemma after_callback_reports n outcome cache result error caught cache' reports :
  after_callback o n outcome cache = (result, error, caught, cache', reports) →
  Forall (λ ev, is_invoked ev = false ∧ is_settled ev = false) reports.
Proof.
  unfold after_callback.
  destruct outcome; [destruct (opt_onProgress o) as [hook|]; [destruct (hook _ _)|]|];
    intros [= <- <- <- <- <-]; by repeat constructor.
Qed.

Lemma calls_quiet evs :
  Forall (λ ev, is_invoked ev = false ∧ is_settled ev = false) evs →
  calls_made evs = 0 ∧ calls_settled evs = 0.
Proof.
  unfold calls_made, calls_settled. induction 1 as [|ev evs [Hi Hs] _ [IH1 IH2]]; [done|].
  rewrite !filter_cons, !decide_False by congruence. done.
Qed.

Lemma step_flight s t : flight_ok o s → flight_ok o (step g callback o s t).
Proof.
  intros Hok. destruct t as [i| |i|]; simpl.
  - unfold callback_settles.
    destruct (frames s !! i) as [f|] eqn:Hi; [|done].
    destruct (f_status f) eqn:Hst; try done.
    destruct (after_callback o (f_nodeId f) _ (resultCache s))
      as [[[[result error] caught] cache] reports] eqn:Hac.
    apply after_callback_reports, calls_quiet in Hac as [Hm Hs].
    assert (Hlog : ∀ s' f', frames s' = <[i := f']> (frames s) →
              is_running (f_status f') = false →
              trace s' = trace s ++ Settled (f_nodeId f)
                (settles (callback (f_nodeId f) (f_parentResult f) (f_context f)))
                :: reports →
              running s' = running s →
              releases s' = match limiter o with
                            | Some _ => S (releases s) | None => releases s end →
              flight_ok o s').
    { intros s' f' Hfs Hf' Ht Hr Hrel. destruct Hok as [Hcalls Hlim].
      pose proof (in_flight_insert s s' i f f' Hi Hfs) as Hfl.
      rewrite Hst, Hf' in Hfl. simpl in Hfl.
      unfold flight_ok. rewrite Ht, Hr, Hrel. split.
      - rewrite calls_made_app, calls_settled_app.
        rewrite calls_made_cons, calls_settled_cons, Hm, Hs. simpl. lia.
      - destruct (limiter o); [|done]. destruct Hlim as [Hlim Hbelow].
        split; [lia|done]. }
    destruct (caught && is_fail_fast (opt_errorStrategy o)); [by eapply Hlog|].
    destruct (truthy error && is_skip_children (opt_errorStrategy o)); [by eapply Hlog|].
    destruct (validNeighbors g _ _ (f_nodeId f)) as [|nb0 vn0] eqn:Hvn; [by eapply Hlog|].
    apply launch_children_flight. by eapply Hlog.
  - unfold slot_released. destruct (limiter o) as [max|] eqn:Hl; [|done].
    destruct (releases s) as [|n] eqn:Hrel; [done|]. unfold processQueue.
    apply drain_flight; [done|]. destruct Hok as [Hcalls Hlim]. rewrite Hl, Hrel in Hlim.
    destruct Hlim as [Hlim Hbelow].
    unfold flight_ok. rewrite Hl. unfold in_flight in *. simpl. split_and!; [done|lia|].
    intros m Hm. apply (below_mono m (S m)); [lia|]. apply Hbelow. lia.
  - unfold children_settled.
    destruct (frames s !! i) as [f|] eqn:Hi; [|done].
    destruct (f_status f) eqn:Hst; try done.
    destruct (child_statuses s (f_childPromises f)) as [sts|]; [|done].
    assert (Hset : ∀ s' st, frames s' = <[i := set_status st f]> (frames s) →
              is_running st = false → trace s' = trace s →
              running s' = running s → releases s' = releases s → flight_ok o s').
    { intros s' st Hfs Hf' Ht Hr Hrel. destruct Hok as [Hcalls Hlim].
      pose proof (in_flight_insert s s' i f (set_status st f) Hi Hfs) as Hfl.
      rewrite Hst in Hfl. replace (f_status (set_status st f)) with st in Hfl by by destruct f.
      rewrite Hf' in Hfl. simpl in Hfl.
      unfold flight_ok. rewrite Ht, Hr, Hrel.
      replace (in_flight s') with (in_flight s) by lia. done. }
    destruct (is_fail_fast (opt_errorStrategy o)).
    + destruct (first_rejection sts) as [[r t]|]; [by eapply Hset|].
      destruct (mapM fulfilled_value sts); [by eapply Hset|done].
    + destruct (mapM _ (zip (f_validNeighbors f) sts)); [by eapply Hset|done].
  - unfold signal_aborts. destruct (has_signal o && negb (aborted s)); [|done].
    destruct Hok as [Hcalls Hlim]. unfold flight_ok, in_flight in *. simpl.
    rewrite calls_made_app, calls_settled_app, calls_made_cons, calls_settled_cons.
    change (calls_made []) with 0. change (calls_settled []) with 0.
    split; [simpl; lia|done].
Qed.

Lemma init_flight startNodeId : flight_ok o (init callback o startNodeId).
Proof.
  unfold init. apply launch_flight. unfold flight_ok, in_flight. simpl. split.
  - by destruct (opt_signal o) as [[]|].
  - destruct (limiter o) as [max|]; [|done]. split; [lia|]. by intros m [=].
Qed.

Lemma run_flight startNodeId schedule : flight_ok o (run g callback o startNodeId schedule).
Proof.
  unfold run. induction schedule as [|t schedule IH] using rev_ind; simpl.
  - apply init_flight.
  - rewrite foldl_snoc. by apply step_flight.
Qed.

End flight_facts.

(** A limiter that does not admit the first call admits none: no frame
    gets past the queue, and no tick changes a frame. *)
Section stuck_facts.
Context (g : DependencyGraph) (callback : string → jsval → context → behaviour)
        (o : options).

Lemma idle_step s t :
  (∀ i f, frames s !! i = Some f → f_status f = Queued ∨ final (f_status f) = true) →
  releases s = 0 →
  frames (step g callback o s t) = frames s ∧ releases (step g callback o s t) = 0 ∧
  calls_made (trace (step g callback o s t)) = calls_made (trace s).
Proof.
  intros Hidle Hrel. destruct t as [i| |i|]; simpl.
  - unfold callback_settles. destruct (frames s !! i) as [f|] eqn:Hi; [|done].
    destruct (Hidle i f Hi) as [Hst|Hst]; by destruct (f_status f).
  - unfold slot_released. destruct (limiter o); [|done]. by rewrite Hrel.
  - unfold children_settled. destruct (frames s !! i) as [f|] eqn:Hi; [|done].
    destruct (Hidle i f Hi) as [Hst|Hst]; by destruct (f_status f).
  - unfold signal_aborts. destruct (has_signal o && negb (aborted s)); [|done].
    simpl. split_and!; [done|done|].
    rewrite calls_made_app, calls_made_cons. change (calls_made []) with 0. simpl. lia.
Qed.

Lemma stuck_run max startNodeId schedule :
  limiter o = Some max → below 0 max = false →
  frames (run g callback o startNodeId schedule)
  = [new_frame startNodeId VNull (mkContext 0 [] None None [])
       (match opt_signal o with Some true => Rejected abort_error 0 | _ => Queued end)] ∧
  releases (run g callback o startNodeId schedule) = 0 ∧
  calls_made (trace (run g callback o startNodeId schedule)) = 0.
Proof.
  intros Hl Hbelow. unfold run.
  induction schedule as [|t schedule IH] using rev_ind; simpl.
  - unfold init, launch. destruct (opt_signal o) as [[]|]; simpl; try done.
    all: rewrite Hl; unfold processQueue; simpl; by rewrite Hbelow.
  - rewrite foldl_snoc. destruct IH as (Hfs & Hrel & Hcalls).
    destruct (idle_step (foldl (step g callback o) (init callback o startNodeId) schedule) t)
      as (Hfs' & Hrel' & Hcalls'); [|done|].
    + intros i f. rewrite Hfs. intros [-> <-]%list_lookup_singleton_Some. simpl.
      destruct (opt_signal o) as [[]|]; auto.
    + by rewrite Hfs', Hrel', Hcalls'.
Qed.

Lemma stuck_pending startNodeId schedule :
  admits_first o = false → hasNode startNodeId g = true → opt_signal o ≠ Some true →
  executeOnTree g callback o startNodeId schedule = Pending.
Proof.
  unfold admits_first. destruct (limiter o) as [max|] eqn:Hl; [|done].
  intros H0 Hnode Hsig.
  destruct (stuck_run max startNodeId schedule Hl H0) as (Hfs & _).
  unfold executeOnTree, settled_promise. unfold hasNode in Hnode. rewrite Hnode, Hfs.
  simpl. by destruct (opt_signal o) as [[]|].
Qed.

End stuck_facts.

(** X17.  With a limiter, that is [maxConcurrency] a number other than
    zero and [NaN], the calls in flight (made and not settled yet) stay
    under the limit as the loop [while (running < max ...)] sees it: when
    [n + 1] calls are in flight, [n < max].  For a positive integer [max]
    this is at most [max] calls in flight; a fraction admits its ceiling
    (two calls at [1.5]); and a limit that is not above zero admits no call
    at all, so no callback is ever called and the promise of a run that was
    not abandoned at the call stays pending for ever. *)
Theorem limiter_bounds_calls (g : DependencyGraph)
    (callback : string → jsval → context → behaviour) (o : options)
    (startNodeId : string) (schedule : list tick) (max : number) :
  opt_maxConcurrency o = Some max → number_truthy max = true →
  (∀ n, in_flight (run g callback o startNodeId schedule) = S n → below n max = true) ∧
  (∀ k : nat, max = integer (Z.of_nat k) →
     in_flight (run g callback o startNodeId schedule) ≤ k ∧
     calls_made (trace (run g callback o startNodeId schedule))
     ≤ calls_settled (trace (run g callback o startNodeId schedule)) + k) ∧
  (below 0 max = false →
     calls_made (trace (run g callback o startNodeId schedule)) = 0 ∧
     (hasNode startNodeId g = true → opt_signal o ≠ Some true →
      executeOnTree g callback o startNodeId schedule = Pending)).
Proof.
  intros Hmax Htruthy.
  assert (Hl : limiter o = Some max) by (unfold limiter; by rewrite Hmax, Htruthy).
  destruct (run_flight g callback o startNodeId schedule) as [Hcalls Hlim].
  rewrite Hl in Hlim. destruct Hlim as [Hlim Hbelow].
  assert (Hbound : ∀ n, in_flight (run g callback o startNodeId schedule) = S n →
                        below n max = true).
  { intros n Hn. destruct (running (run g callback o startNodeId schedule)) as [|m] eqn:Hm;
      [lia|].
    apply (below_mono n m); [lia|]. by apply Hbelow. }
  split_and!.
  - done.
  - intros k ->.
    assert (in_flight (run g callback o startNodeId schedule) ≤ k); [|lia].
    destruct (in_flight (run g callback o startNodeId schedule)) as [|n] eqn:Hn; [lia|].
    specialize (Hbound n eq_refl). rewrite below_integer in Hbound.
    apply bool_decide_eq_true in Hbound. lia.
  - intros H0. destruct (stuck_run g callback o max startNodeId schedule Hl H0)
      as (Hfs & _ & Hnone).
    split; [done|]. intros Hnode Hsig.
    unfold executeOnTree, settled_promise. unfold hasNode in Hnode. rewrite Hnode, Hfs.
    simpl. by destruct (opt_signal o) as [[]|].
Qed.

Lemma limiter_bounds_calls_witness :
  in_flight (run abort_fork aborts_at_B one_at_a_time "A" [CallbackSettles 0; SlotReleased])
  ≤ 1.
Proof.
  destruct (limiter_bounds_calls abort_fork aborts_at_B one_at_a_time "A"
              [CallbackSettles 0; SlotReleased] (integer 1)) as (_ & Hk & _).
  - reflexivity.
  - reflexivity.
  - by destruct (Hk 1 eq_refl).
Defined.

(** At [maxConcurrency: 1.5] two callbacks are in flight at once, and at
    [maxConcurrency: -1] the callback of the root is never called. *)
Example limiter_fraction_ex :
  in_flight (run abort_fork returns_id
               (mkOptions TypesAbsent Outgoing FailFast
                  (Some (Finite (QArith_base.Qmake 3 2))) None None)
               "A" [CallbackSettles 0; SlotReleased])
  = 2.
Proof. vm_compute. reflexivity. Qed.

Example limiter_negative_ex :
  trace (run abort_fork returns_id
           (mkOptions TypesAbsent Outgoing FailFast (Some (integer (-1))) None None)
           "A" [CallbackSettles 0; SlotReleased; ChildrenSettled 0])
  = [Entered "A"].
Proof. vm_compute. reflexivity. Qed.

Example limiter_queue_ex :
  let s := run abort_fork aborts_at_B one_at_a_time "A" [CallbackSettles 0; SlotReleased] in
  in_flight s = 1 ∧ queue s = [2] ∧
  calls_made (trace s) = 2 ∧ calls_settled (trace s) = 1.
Proof. vm_compute. repeat split; reflexivity. Qed.

(** *** One call per visit key *)

Section key_facts.
Context (g : DependencyGraph) (callback : string → jsval → context → behaviour)
        (o : options).

Lemma call_keys_app tr evs : call_keys (tr ++ evs) = call_keys tr ++ call_keys evs.
Proof. unfold call_keys. apply omap_app. Qed.

Lemma call_keys_quiet evs : Forall (λ ev, is_invoked ev = false) evs → call_keys evs = [].
Proof.
  unfold call_keys. induction 1 as [|ev evs Hev _ IH]; [done|].
  csimpl. rewrite IH. by destruct ev.
Qed.

Lemma waiting_keys_app fs fs' : waiting_keys (fs ++ fs') = waiting_keys fs ++ waiting_keys fs'.
Proof. unfold waiting_keys. apply omap_app. Qed.

Lemma waiting_keys_start fs i f f' :
  fs !! i = Some f → is_queued (f_status f) = true → is_queued (f_status f') = false →
  visitKey (f_nodeId f) (edgeType (f_context f)) :: waiting_keys (<[i := f']> fs)
  ≡ₚ waiting_keys fs.
Proof.
  intros Hi Hq Hq'. revert i Hi. unfold waiting_keys.
  induction fs as [|f0 fs IH]; intros [|i] Hi; simplify_eq/=.
  - by rewrite Hq, Hq'.
  - destruct (is_queued (f_status f0)); csimpl.
    + rewrite Permutation_swap. by rewrite IH.
    + by apply IH.
Qed.

Lemma waiting_keys_same fs i f f' :
  fs !! i = Some f → is_queued (f_status f) = false → is_queued (f_status f') = false →
  waiting_keys (<[i := f']> fs) = waiting_keys fs.
Proof.
  intros Hi Hq Hq'. revert i Hi. unfold waiting_keys.
  induction fs as [|f0 fs IH]; intros [|i] Hi; simplify_eq/=.
  - by rewrite Hq, Hq'.
  - by rewrite IH.
Qed.

Lemma keys_ok_perm s s' :
  keys_ok s →
  call_keys (trace s') ++ waiting_keys (frames s')
  ≡ₚ call_keys (trace s) ++ waiting_keys (frames s) →
  (∀ k, k ∈ visited s → k ∈ visited s') → keys_ok s'.
Proof.
  intros [Hnd Hin] Hperm Hvis. split.
  - by rewrite Hperm.
  - intros k. rewrite Hperm. intros Hk. by apply Hvis, Hin.
Qed.

(** A frame that does not wait is replaced by another one that does not
    wait, and events other than calls are logged. *)
Lemma keys_ok_settle s s' i f f' evs :
  keys_ok s → frames s !! i = Some f → frames s' = <[i := f']> (frames s) →
  is_queued (f_status f) = false → is_queued (f_status f') = false →
  trace s' = trace s ++ evs → Forall (λ ev, is_invoked ev = false) evs →
  visited s' = visited s → keys_ok s'.
Proof.
  intros Hok Hi Hfs Hq Hq' Ht Hevs Hvis. eapply keys_ok_perm; [exact Hok| |by rewrite Hvis].
  rewrite Hfs, Ht, call_keys_app, (call_keys_quiet evs), app_nil_r by done.
  by erewrite waiting_keys_same.
Qed.

Lemma start_callback_keys_ok i s : keys_ok s → keys_ok (start_callback callback o i s).
Proof.
  intros Hok. unfold start_callback.
  destruct (frames s !! i) as [[n r c [] res err vn kids]|] eqn:Hi; try done.
  eapply keys_ok_perm; [exact Hok| |intros k Hk; exact Hk]. cbn [trace frames].
  rewrite call_keys_app.
  assert (Hcall : call_keys (Invoked n r c
                    :: (if aborts (callback n r c) && has_signal o && negb (aborted s)
                        then [SignalAborted] else []))
                  = [visitKey n (edgeType c)]) by by destruct (_ && _).
  rewrite Hcall, <- app_assoc. apply Permutation_app_head. simpl.
  by apply (waiting_keys_start (frames s) i (mkFrame n r c Queued res err vn kids)).
Qed.

Lemma drain_keys_ok max waiting s :
  keys_ok s → keys_ok (drain callback o max waiting s).
Proof.
  revert s. induction waiting as [|i waiting IH]; intros s Hok; simpl.
  - done.
  - destruct (below (running s) max); [|done]. apply IH. by apply start_callback_keys_ok.
Qed.

Lemma launch_keys_ok n r c s : keys_ok s → keys_ok (launch callback o n r c s).
Proof.
  intros Hok.
  assert (Hnew : ∀ s' st ev, frames s' = frames s ++ [new_frame n r c st] →
            trace s' = trace s ++ [ev] → is_queued st = false →
            is_invoked ev = false → visited s' = visited s → keys_ok s').
  { intros s' st ev Hfs Ht Hst Hev Hvis. eapply keys_ok_perm; [exact Hok| |by rewrite Hvis].
    rewrite Hfs, Ht, call_keys_app, waiting_keys_app.
    rewrite (call_keys_quiet [ev]) by by repeat constructor.
    unfold waiting_keys at 2. simpl. rewrite Hst. simpl. by rewrite !app_nil_r. }
  unfold launch. destruct (aborted s); [by eapply Hnew|].
  destruct (JsSet.has _ (visited s)) eqn:Hvis; [by eapply Hnew|].
  apply bool_decide_eq_false in Hvis.
  assert (Hs1 : ∀ s1, frames s1 = frames s ++ [new_frame n r c Queued] →
            trace s1 = trace s ++ [Entered n] →
            visited s1 = JsSet.add (visitKey n (edgeType c)) (visited s) → keys_ok s1).
  { intros s1 Hfs Ht Hv. destruct Hok as [Hnd Hin].
    assert (Hlist : call_keys (trace s1) ++ waiting_keys (frames s1)
                    = (call_keys (trace s) ++ waiting_keys (frames s))
                      ++ [visitKey n (edgeType c)]).
    { rewrite Hfs, Ht, call_keys_app, waiting_keys_app. simpl.
      by rewrite app_nil_r, app_assoc. }
    split; rewrite Hlist.
    - apply NoDup_app. split_and!; [done| |apply NoDup_singleton].
      intros k Hk ->%list_elem_of_singleton. by apply Hvis, Hin.
    - intros k [Hk|Hk%list_elem_of_singleton]%elem_of_app; rewrite Hv;
        apply set_elem_of_add; [right; by apply Hin|by left]. }
  destruct (limiter o) as [max|].
  - unfold processQueue. apply drain_keys_ok. by apply Hs1.
  - apply start_callback_keys_ok. by apply Hs1.
Qed.

Lemma launch_children_keys_ok nodeId result ctx vn s :
  keys_ok s → keys_ok (launch_children callback o nodeId result ctx vn s).
Proof.
  unfold launch_children. revert s.
  induction vn as [|nb vn IH]; intros s Hok; simpl; [done|].
  apply IH. by apply launch_keys_ok.
Qed.

Lemma step_keys_ok s t : keys_ok s → keys_ok (step g callback o s t).
Proof.
  intros Hok. destruct t as [i| |i|]; simpl.
  - unfold callback_settles.
    destruct (frames s !! i) as [f|] eqn:Hi; [|done].
    destruct (f_status f) eqn:Hst; try done.
    destruct (after_callback o (f_nodeId f) _ (resultCache s))
      as [[[[result error] caught] cache] reports] eqn:Hac.
    apply after_callback_result in Hac as [_ Hrep].
    assert (Hlog : ∀ s' f', frames s' = <[i := f']> (frames s) →
              is_queued (f_status f') = false →
              trace s' = trace s ++ Settled (f_nodeId f)
                (settles (callback (f_nodeId f) (f_parentResult f) (f_context f)))
                :: reports →
              visited s' = visited s → keys_ok s').
    { intros s' f' Hfs Hq Ht Hv. eapply (keys_ok_settle s s' i f f'); try done.
      - by rewrite Hst.
      - by constructor. }
    destruct (caught && is_fail_fast (opt_errorStrategy o)); [by eapply Hlog|].
    destruct (truthy error && is_skip_children (opt_errorStrategy o)); [by eapply Hlog|].
    destruct (validNeighbors g _ _ (f_nodeId f)) as [|nb0 vn0] eqn:Hvn; [by eapply Hlog|].
    apply launch_children_keys_ok. by eapply Hlog.
  - unfold slot_released. destruct (limiter o) as [max|]; [|done].
    destruct (releases s); [done|]. unfold processQueue. apply drain_keys_ok.
    destruct Hok as [Hnd Hin]. by split.
  - unfold children_settled.
    destruct (frames s !! i) as [f|] eqn:Hi; [|done].
    destruct (f_status f) eqn:Hst; try done.
    destruct (child_statuses s (f_childPromises f)) as [sts|]; [|done].
    assert (Hset : ∀ s' st, frames s' = <[i := set_status st f]> (frames s) →
              is_queued st = false → trace s' = trace s → visited s' = visited s →
              keys_ok s').
    { intros s' st Hfs Hq Ht Hv.
      apply (keys_ok_settle s s' i f (set_status st f) []);
        [done|done|done|by rewrite Hst|by destruct f|by rewrite app_nil_r|constructor|done]. }
    destruct (is_fail_fast (opt_errorStrategy o)).
    + destruct (first_rejection sts) as [[r t]|]; [by eapply Hset|].
      destruct (mapM fulfilled_value sts); [by eapply Hset|done].
    + destruct (mapM _ (zip (f_validNeighbors f) sts)); [by eapply Hset|done].
  - unfold signal_aborts. destruct (has_signal o && negb (aborted s)); [|done].
    eapply keys_ok_perm; [exact Hok| |intros k Hk; exact Hk]. cbn [trace frames].
    by rewrite call_keys_app, (call_keys_quiet [SignalAborted]), app_nil_r
      by by repeat constructor.
Qed.

Lemma init_keys_ok startNodeId : keys_ok (init callback o startNodeId).
Proof.
  unfold init. apply launch_keys_ok. unfold keys_ok. cbn [trace frames visited].
  assert (call_keys (if match opt_signal o with Some true => true | _ => false end
                     then [SignalAborted] else []) = []) as ->
    by by destruct (opt_signal o) as [[]|].
  split; [constructor|]. by intros k Hk.
Qed.

Lemma run_keys_ok startNodeId schedule : keys_ok (run g callback o startNodeId schedule).
Proof.
  unfold run. induction schedule as [|t schedule IH] using rev_ind; simpl.
  - apply init_keys_ok.
  - rewrite foldl_snoc. by apply step_keys_ok.
Qed.

End key_facts.

(** X18.  Whatever the schedule, the limiter and the strategy, the
    callback is called at most once per visit key: no two calls of a run
    are for the same node reached through the same edge type (the key is
    the string [nodeId::edgeType]). *)
Theorem one_call_per_visit_key (g : DependencyGraph)
    (callback : string → jsval → context → behaviour) (o : options)
    (startNodeId : string) (schedule : list tick) :
  NoDup (call_keys (trace (run g callback o startNodeId schedule))) ∧
  ∀ k, k ∈ call_keys (trace (run g callback o startNodeId schedule)) →
       k ∈ visited (run g callback o startNodeId schedule).
Proof.
  destruct (run_keys_ok g callback o startNodeId schedule) as [Hnd Hin].
  apply NoDup_app in Hnd as [Hnd _]. split; [done|].
  intros k Hk. apply Hin, elem_of_app. by left.
Qed.

Example one_call_per_visit_key_ex :
  call_keys (trace (run diamond returns_id default_options "A"
                      [CallbackSettles 0; CallbackSettles 1; CallbackSettles 2;
                       CallbackSettles 3]))
  = ["A::null"; "B::link"; "C::link"; "D::link"].
Proof. vm_compute. reflexivity. Qed.

(** *** The shape of the result *)

Section shape_facts.
Context (g : DependencyGraph) (callback : string → jsval → context → behaviour)
        (o : options).

Local Notation "'shaped'" := (frame_shape g o).

Lemma shape_ok_insert s s' i f' :
  shape_ok g o s → frames s' = <[i := f']> (frames s) → shaped f' → shape_ok g o s'.
Proof.
  intros Hok Hfs Hf' j fj. rewrite Hfs.
  intros [(<- & <- & _)|[_ Hj]]%list_lookup_insert_Some; [done|]. by eapply Hok.
Qed.

Lemma start_callback_shape i s : shape_ok g o s → shape_ok g o (start_callback callback o i s).
Proof.
  intros Hok. unfold start_callback.
  destruct (frames s !! i) as [[n r c [] res err vn kids]|] eqn:Hi; try done.
  by eapply shape_ok_insert.
Qed.

Lemma drain_shape max waiting s :
  shape_ok g o s → shape_ok g o (drain callback o max waiting s).
Proof.
  revert s. induction waiting as [|i waiting IH]; intros s Hok; simpl.
  - done.
  - destruct (below (running s) max); [|done]. apply IH. by apply start_callback_shape.
Qed.

Lemma launch_shape n r c s : shape_ok g o s → shape_ok g o (launch callback o n r c s).
Proof.
  intros Hok.
  assert (Hnew : ∀ s' st, frames s' = frames s ++ [new_frame n r c st] →
            shaped (new_frame n r c st) → shape_ok g o s').
  { intros s' st Hfs Hst j fj. rewrite Hfs. intros [Hj|[_ Hj]]%lookup_app_Some.
    - by eapply Hok.
    - by apply list_lookup_singleton_Some in Hj as [_ <-]. }
  unfold launch. destruct (aborted s); [by eapply Hnew|].
  destruct (JsSet.has _ (visited s)).
  { eapply Hnew; [done|]. split; [done|]. constructor. }
  destruct (limiter o) as [max|].
  - unfold processQueue. apply drain_shape. by eapply Hnew.
  - apply start_callback_shape. by eapply Hnew.
Qed.

Lemma launch_children_shape nodeId result ctx vn s :
  shape_ok g o s → shape_ok g o (launch_children callback o nodeId result ctx vn s).
Proof.
  unfold launch_children. revert s.
  induction vn as [|nb vn IH]; intros s Hok; simpl; [done|].
  apply IH. by apply launch_shape.
Qed.

Lemma after_callback_caught n outcome cache result error caught cache' reports :
  after_callback o n outcome cache = (result, error, caught, cache', reports) →
  caught = false → error = VNull.
Proof.
  unfold after_callback.
  destruct outcome; [destruct (opt_onProgress o) as [hook|]; [destruct (hook _ _)|]|];
    by intros [= <- <- <- <- <-].
Qed.

Lemma callback_settles_shape i s :
  shape_ok g o s → shape_ok g o (callback_settles g callback o i s).
Proof.
  intros Hok. unfold callback_settles.
  destruct (frames s !! i) as [f|] eqn:Hi; [|done]. destruct (f_status f); try done.
  destruct (after_callback o (f_nodeId f) _ (resultCache s))
    as [[[[result error] caught] cache] reports] eqn:Hac.
  pose proof (after_callback_caught _ _ _ _ _ _ _ _ Hac) as Hcaught.
  destruct (caught && is_fail_fast (opt_errorStrategy o)) eqn:Hff.
  { by eapply shape_ok_insert. }
  assert (Hnone : is_fail_fast (opt_errorStrategy o) = true → error = VNull).
  { intros Hf. rewrite Hf, andb_true_r in Hff. by apply Hcaught. }
  destruct (truthy error && is_skip_children (opt_errorStrategy o)) eqn:Hskip.
  { eapply shape_ok_insert; [done|done|]. unfold frame_shape. simpl. split; [done|].
    constructor; [done|by rewrite Hskip|constructor]. }
  destruct (validNeighbors g _ _ (f_nodeId f)) as [|nb0 vn0] eqn:Hvn.
  { eapply shape_ok_insert; [done|done|]. unfold frame_shape. simpl. split; [done|].
    constructor; [done| |constructor]. by rewrite Hskip, Hvn. }
  apply launch_children_shape. eapply shape_ok_insert; [done|done|]. by split.
Qed.

(** The entries of [children] for the children of a frame. *)
Lemma entries_shape fs vn kids vs :
  Forall2 (λ k nb, ∃ fk, fs !! k = Some fk ∧ f_nodeId fk = nb.1 ∧
                         frame_ok g callback o fs fk ∧ shaped fk) kids vn →
  Forall2 (λ p v, entry_of o fs p.1 p.2 v) (zip vn kids) vs →
  Forall2 (λ nb v, node v = nb.1 ∧ result_tree g o v) vn vs.
Proof.
  intros Hkids. revert vs.
  induction Hkids as [|k nb kids vn (fk & Hfk & Hid & Hok & Hshape) _ IH];
    intros vs Hvs; simpl in Hvs.
  - apply Forall2_nil_inv_l in Hvs as ->. constructor.
  - apply Forall2_cons_inv_l in Hvs as (v & vs' & Hentry & Hvs' & ->).
    constructor; [|by apply IH].
    destruct Hentry as (fk' & Hfk' & Hv & Hff). simpl in *.
    rewrite Hfk in Hfk'. injection Hfk' as <-.
    unfold frame_ok in Hok. unfold frame_shape in Hshape.
    destruct (f_status fk) as [| | |x|r t] eqn:Hst; simplify_eq/=.
    + by rewrite <- Hid.
    + split; [done|].
      destruct (is_fail_fast (opt_errorStrategy o)) eqn:Hf; [by specialize (Hff eq_refl)|].
      destruct Hok as [->|[? _]]; [by constructor|done].
Qed.

Lemma shaped_fulfilled fs i f vs :
  fs !! i = Some f → f_status f = AwaitingChildren → shaped f →
  (∀ k fk, k ≠ i → fs !! k = Some fk → shaped fk) →
  let f' := set_status (Fulfilled (mkExecNode (f_nodeId f) (f_result f) (f_error f)
                                     false vs)) f in
  frames_ok g callback o (<[i := f']> fs) → shaped f'.
Proof.
  intros Hi Hst Hf Hothers f' (_ & Hok' & _).
  assert (Hlt : i < length fs) by by eapply lookup_lt_Some.
  assert (Hf' : <[i := f']> fs !! i = Some f') by by apply list_lookup_insert_eq.
  unfold frame_shape in Hf. rewrite Hst in Hf. destruct Hf as [Hnone Hskip].
  pose proof (Hok' _ _ Hf') as Hfok. unfold frame_ok in Hfok.
  assert (Hst' : f_status f' = Fulfilled (mkExecNode (f_nodeId f) (f_result f) (f_error f)
                                            false vs)) by by destruct f.
  rewrite Hst' in Hfok. destruct Hfok as [[? _]|(_ & Hcl & vs' & Heq & Hvs)]; [done|].
  injection Heq as <-.
  assert (Herr : f_error f' = f_error f) by by destruct f.
  assert (Hid : f_nodeId f' = f_nodeId f) by by destruct f.
  unfold frame_shape. rewrite Hst'. split; [by rewrite Hid|].
  destruct Hcl as [([Htr Hsk] & _)|[Hvn Hkids]].
  { rewrite Herr in Htr. by rewrite Htr, Hsk in Hskip. }
  assert (HF : Forall2 (λ nb v, node v = nb.1 ∧ result_tree g o v) (f_validNeighbors f') vs).
  { eapply (entries_shape (<[i := f']> fs)); [|exact Hvs].
    eapply Forall2_impl; [exact Hkids|]. intros k nb (fk & Hk & Hn & _ & Hctx).
    exists fk. split_and!; [done|done|by eapply Hok'|].
    apply list_lookup_insert_Some in Hk as [(<- & <- & _)|[Hne Hk]].
    - apply (f_equal depth) in Hctx. simpl in Hctx. lia.
    - by eapply Hothers. }
  constructor; [done| |].
  - rewrite Hskip. rewrite Hvn, Hid in HF. clear -HF.
    induction HF as [|nb v vn vs [Hn _] _ IH]; [done|]. csimpl. by rewrite Hn, IH.
  - eapply Forall2_Forall_r; [exact HF|]. apply Forall_forall. by intros nb _ v [_ ?].
Qed.

Lemma children_settled_shape i s :
  frames_ok g callback o (frames s) →
  shape_ok g o s → shape_ok g o (children_settled o i s).
Proof.
  intros Hall Hok.
  destruct (children_settled_ok g callback o i s Hall) as [Hall' _].
  revert Hall'. unfold children_settled.
  destruct (frames s !! i) as [f|] eqn:Hi; [|done].
  destruct (f_status f) eqn:Hst; try done.
  destruct (child_statuses s (f_childPromises f)) as [sts|]; [|done].
  assert (Hgoal : ∀ vs, frames_ok g callback o (frames (fulfil_frame i f vs s)) →
                        shape_ok g o (fulfil_frame i f vs s)).
  { intros vs Hall'. eapply shape_ok_insert; [done|done|].
    eapply (shaped_fulfilled (frames s)); try done; [by eapply Hok|].
    intros k fk _ Hk. by eapply Hok. }
  destruct (is_fail_fast (opt_errorStrategy o)).
  - destruct (first_rejection sts) as [[r t]|].
    + intros _. by eapply shape_ok_insert.
    + destruct (mapM fulfilled_value sts); [apply Hgoal|done].
  - destruct (mapM _ (zip (f_validNeighbors f) sts)); [apply Hgoal|done].
Qed.

Lemma step_shape s t :
  frames_ok g callback o (frames s) → shape_ok g o s → shape_ok g o (step g callback o s t).
Proof.
  intros Hall Hok. destruct t as [i| |i|]; simpl.
  - by apply callback_settles_shape.
  - unfold slot_released. destruct (limiter o) as [max|]; [|done].
    destruct (releases s); [done|]. unfold processQueue. by apply drain_shape.
  - by apply children_settled_shape.
  - unfold signal_aborts. by destruct (has_signal o && negb (aborted s)).
Qed.

Lemma init_shape startNodeId : shape_ok g o (init callback o startNodeId).
Proof. unfold init. apply launch_shape. by intros i f ?. Qed.

Lemma run_shape startNodeId schedule : shape_ok g o (run g callback o startNodeId schedule).
Proof.
  induction schedule as [|t schedule IH] using rev_ind.
  - apply init_shape.
  - unfold run in *. rewrite foldl_snoc. apply step_shape; [|done].
    apply (run_ok g callback o startNodeId schedule).
Qed.

(** The root frame is the call for the start node. *)
Lemma root_frame startNodeId schedule f :
  frames (run g callback o startNodeId schedule) !! 0 = Some f → f_nodeId f = startNodeId.
Proof.
  revert f. induction schedule as [|t schedule IH] using rev_ind; intros f H0.
  - destruct (launch_frames callback o startNodeId VNull (mkContext 0 [] None None [])
                (mkState [] [] [] match opt_signal o with Some true => true | _ => false end
                   [] 0 0 0
                   (if match opt_signal o with Some true => true | _ => false end
                    then [SignalAborted] else []))) as (_ & _ & f1 & Hf1 & Hfresh).
    unfold run, init in H0. simpl in *. rewrite Hf1 in H0. injection H0 as <-.
    by destruct Hfresh as (? & _).
  - destruct (run_ok g callback o startNodeId schedule) as (Hlen & _ & _).
    destruct (lookup_lt_is_Some_2 _ _ Hlen) as [f1 Hf1].
    destruct (step_ok g callback o (run g callback o startNodeId schedule) t
                (run_ok g callback o startNodeId schedule)) as [_ Hadv].
    destruct (Hadv _ _ Hf1) as (f2 & Hf2 & (Hid & _)).
    unfold run in *. rewrite foldl_snoc in H0. rewrite Hf2 in H0. injection H0 as <-.
    rewrite Hid. by apply IH.
Qed.

End shape_facts.




(** ** The work a run has left *)

Section work_facts.
Context (g : DependencyGraph) (callback : string → jsval → context → behaviour)
        (o : options) (startNodeId : string).

Local Notation "'work'" := (work_left g o startNodeId).
Local Notation "'keys'" := (all_keys g o startNodeId).

Lemma work_same s s' :
  frames s' = frames s → releases s' = releases s → visited s' = visited s →
  aborted s' = aborted s → work s' = work s.
Proof.
  intros Hf Hr Hv Ha. unfold work_left, unvisited. by rewrite Hf, Hr, Hv, Ha.
Qed.

Lemma weight_insert (fs : list frame) i f f' :
  fs !! i = Some f →
  sum_list ((λ f, weight (f_status f)) <$> <[i := f']> fs) + weight (f_status f)
  = sum_list ((λ f, weight (f_status f)) <$> fs) + weight (f_status f').
Proof.
  intros Hi. rewrite list_fmap_insert. apply sum_list_insert.
  by rewrite list_lookup_fmap, Hi.
Qed.

Lemma weight_snoc (fs : list frame) f :
  sum_list ((λ f, weight (f_status f)) <$> (fs ++ [f]))
  = sum_list ((λ f, weight (f_status f)) <$> fs) + weight (f_status f).
Proof. rewrite fmap_app, sum_list_with_app. simpl. lia. Qed.

(** Entering a key leaves one key less to enter. *)
Lemma filter_fresh_key (l v : list string) k :
  NoDup l → k ∉ v →
  length (filter (λ x, x ∉ JsSet.add k v) l) + (if decide (k ∈ l) then 1 else 0)
  = length (filter (λ x, x ∉ v) l).
Proof.
  intros Hnd Hk. rewrite set_add_fresh by done.
  induction Hnd as [|a l Ha Hnd IH].
  { by rewrite decide_False by apply not_elem_of_nil. }
  rewrite !filter_cons.
  repeat case_decide; simpl in *; try lia; exfalso; set_solver.
Qed.

Lemma unvisited_enter s s' k :
  visited s' = JsSet.add k (visited s) → k ∈ keys → k ∉ visited s →
  unvisited g o startNodeId s' + 1 = unvisited g o startNodeId s.
Proof.
  intros Hv Hk Hfresh. unfold unvisited. rewrite Hv.
  rewrite <- (filter_fresh_key keys (visited s) k); [|apply NoDup_remove_dups|done].
  by rewrite decide_True.
Qed.

Lemma start_callback_work i s :
  work (start_callback callback o i s) ≤ work s ∧
  (∀ f, frames s !! i = Some f → f_status f = Queued →
        work (start_callback callback o i s) < work s).
Proof.
  unfold start_callback.
  destruct (frames s !! i) as [[n r c st res err vn kids]|] eqn:Hi.
  2: { split; [done|]. by intros f [=]. }
  destruct st; try (split; [done|]; intros f [= <-]; by simpl).
  assert (H : work (mkState (<[i := mkFrame n r c Running res err vn kids]> (frames s))
                 (visited s) (resultCache s)
                 (aborted s || aborts (callback n r c) && has_signal o && negb (aborted s))
                 (queue s) (running s) (releases s) (rejections s)
                 (trace s ++ Invoked n r c
                    :: (if aborts (callback n r c) && has_signal o && negb (aborted s)
                        then [SignalAborted] else []))) < work s).
  { unfold work_left, unvisited. cbn [frames releases visited aborted].
    pose proof (weight_insert (frames s) i _ (mkFrame n r c Running res err vn kids) Hi) as Hw.
    cbn [f_status weight] in Hw.
    destruct (aborts (callback n r c)), (has_signal o), (aborted s); simpl; lia. }
  split; [lia|]. intros _ _ _. exact H.
Qed.

Lemma drain_work max waiting s : work (drain callback o max waiting s) ≤ work s.
Proof.
  revert s. induction waiting as [|i waiting IH]; intros s; simpl.
  - apply Nat.eq_le_incl. by apply work_same.
  - destruct (below (running s) max); [|apply Nat.eq_le_incl; by apply work_same].
    etrans; [apply IH|]. etrans; [apply start_callback_work|].
    apply Nat.eq_le_incl. by apply work_same.
Qed.

Lemma launch_work n r c s :
  visitKey n (edgeType c) ∈ keys → work (launch callback o n r c s) ≤ work s.
Proof.
  intros Hk. unfold launch.
  assert (Hnew : ∀ s' st, frames s' = frames s ++ [new_frame n r c st] →
            weight st = 0 → releases s' = releases s → visited s' = visited s →
            aborted s' = aborted s → work s' ≤ work s).
  { intros s' st Hf Hst Hr Hv Ha. unfold work_left, unvisited.
    rewrite Hf, Hr, Hv, Ha, weight_snoc. simpl. rewrite Hst. lia. }
  destruct (aborted s) eqn:Hab; [by eapply Hnew|].
  destruct (JsSet.has _ (visited s)) eqn:Hvis; [by eapply Hnew|].
  apply bool_decide_eq_false in Hvis.
  set (s1 := mkState (frames s ++ [new_frame n r c Queued]) _ _ _ _ _ _ _ _).
  assert (H1 : work s1 ≤ work s).
  { pose proof (unvisited_enter s s1 _ eq_refl Hk Hvis) as Hu.
    unfold work_left. unfold s1 at 1 2 4. cbn [frames releases aborted].
    rewrite weight_snoc, Hab. simpl. lia. }
  destruct (limiter o) as [max|].
  - unfold processQueue. etrans; [apply drain_work|]. etrans; [|exact H1].
    apply Nat.eq_le_incl. by apply work_same.
  - etrans; [apply start_callback_work|]. done.
Qed.

Lemma launch_children_work nodeId result ctx vn s :
  (∀ nb, nb ∈ vn → visitKey nb.1 (Some nb.2) ∈ keys) →
  work (launch_children callback o nodeId result ctx vn s) ≤ work s.
Proof.
  unfold launch_children. revert s.
  induction vn as [|nb vn IH]; intros s Hk; simpl; [done|].
  etrans; [apply IH|].
  - intros nb' Hnb'. apply Hk. by right.
  - apply launch_work. simpl. apply Hk. by left.
Qed.

Lemma map_get_key {V} k (v : V) m : JsMap.get k m = Some v → k ∈ JsMap.keys m.
Proof.
  intros H%map_get_elem_of. unfold JsMap.keys. apply list_elem_of_fmap. by exists (k, v).
Qed.

Lemma neighbor_key_known nodeId nb :
  nb ∈ validNeighbors g (normalize_edgeTypes (opt_edgeTypes o)) (opt_direction o) nodeId →
  visitKey nb.1 (Some nb.2) ∈ keys.
Proof.
  intros Hnb. unfold all_keys. apply elem_of_remove_dups. right.
  apply list_elem_of_join. exists (neighbor_keys g o nodeId). split.
  - unfold neighbor_keys. apply list_elem_of_fmap. by exists nb.
  - apply list_elem_of_fmap. exists nodeId. split; [done|].
    unfold validNeighbors, members in Hnb.
    destruct (JsMap.get nodeId (adjacencyMap (opt_direction o) g)) as [v|] eqn:Hget.
    + by eapply map_get_key.
    + simpl in Hnb. by apply elem_of_nil in Hnb.
Qed.

Lemma root_key_known : visitKey startNodeId None ∈ keys.
Proof. unfold all_keys. apply elem_of_remove_dups. by left. Qed.

(** A tick leaves the state as it is or takes from the work left. *)
Lemma step_work s t :
  step g callback o s t = s ∨ work (step g callback o s t) < work s.
Proof.
  destruct t as [i| |i|]; simpl.
  - unfold callback_settles.
    destruct (frames s !! i) as [f|] eqn:Hi; [|by left].
    destruct (f_status f) eqn:Hst; try by left. right.
    destruct (after_callback o (f_nodeId f) _ (resultCache s))
      as [[[[result error] caught] cache] reports] eqn:Hac.
    assert (Hlog : ∀ s' f', frames s' = <[i := f']> (frames s) →
              weight (f_status f') ≤ 1 →
              releases s' ≤ S (releases s) → visited s' = visited s →
              aborted s' = aborted s → work s' < work s).
    { intros s' f' Hfs Hf' Hr Hv Ha. unfold work_left, unvisited. rewrite Hfs, Hv, Ha.
      pose proof (weight_insert (frames s) i f f' Hi) as Hw. rewrite Hst in Hw.
      simpl in Hw. lia. }
    assert (Hrel : match limiter o with Some _ => S (releases s) | None => releases s end
                   ≤ S (releases s)) by (destruct (limiter o); lia).
    destruct (caught && is_fail_fast (opt_errorStrategy o)).
    { eapply Hlog; [reflexivity|simpl; lia|exact Hrel|reflexivity|reflexivity]. }
    destruct (truthy error && is_skip_children (opt_errorStrategy o)).
    { eapply Hlog; [reflexivity|simpl; lia|exact Hrel|reflexivity|reflexivity]. }
    destruct (validNeighbors g _ _ (f_nodeId f)) as [|nb0 vn0] eqn:Hvn.
    { eapply Hlog; [reflexivity|simpl; lia|exact Hrel|reflexivity|reflexivity]. }
    eapply Nat.le_lt_trans.
    + apply launch_children_work. intros nb Hnb.
      apply (neighbor_key_known (f_nodeId f)). by rewrite Hvn.
    + eapply Hlog; [reflexivity|simpl; lia|exact Hrel|reflexivity|reflexivity].
  - unfold slot_released. destruct (limiter o) as [max|]; [|by left].
    destruct (releases s) as [|n] eqn:Hrel; [by left|]. right. unfold processQueue.
    eapply Nat.le_lt_trans; [apply drain_work|].
    unfold work_left, unvisited. cbn [frames releases visited aborted]. rewrite Hrel. lia.
  - unfold children_settled.
    destruct (frames s !! i) as [f|] eqn:Hi; [|by left].
    destruct (f_status f) eqn:Hst; try by left.
    destruct (child_statuses s (f_childPromises f)) as [sts|]; [|by left].
    assert (Hset : ∀ s' st, frames s' = <[i := set_status st f]> (frames s) →
              weight st = 0 → releases s' = releases s → visited s' = visited s →
              aborted s' = aborted s → work s' < work s).
    { intros s' st Hfs Hf' Hr Hv Ha. unfold work_left, unvisited. rewrite Hfs, Hr, Hv, Ha.
      pose proof (weight_insert (frames s) i f (set_status st f) Hi) as Hw.
      rewrite Hst in Hw. replace (f_status (set_status st f)) with st in Hw by by destruct f.
      rewrite Hf' in Hw. simpl in Hw. lia. }
    destruct (is_fail_fast (opt_errorStrategy o)).
    + destruct (first_rejection sts) as [[r t]|]; [right; by eapply Hset|].
      destruct (mapM fulfilled_value sts); [right; by eapply Hset|by left].
    + destruct (mapM _ (zip (f_validNeighbors f) sts)); [right; by eapply Hset|by left].
  - unfold signal_aborts. destruct (has_signal o && negb (aborted s)) eqn:Hsig; [|by left].
    right. unfold work_left, unvisited. cbn [frames releases visited aborted].
    rewrite Hsig. rewrite andb_false_r. lia.
Qed.

(** The ticks that are due take from the work left. *)
Lemma callback_settles_work i s f :
  frames s !! i = Some f → f_status f = Running →
  work (callback_settles g callback o i s) < work s.
Proof.
  intros Hi Hst.
  destruct (step_work s (CallbackSettles i)) as [Hsame|Hless]; [|done].
  exfalso. simpl in Hsame. unfold callback_settles in Hsame. rewrite Hi, Hst in Hsame.
  destruct (after_callback o (f_nodeId f) _ (resultCache s))
    as [[[[result error] caught] cache] reports].
  assert (Htrace : ∀ (tr : list event) ev evs, tr ++ ev :: evs = tr → False).
  { intros tr ev evs H. apply (f_equal length) in H.
    rewrite length_app in H. simpl in H. lia. }
  destruct (caught && is_fail_fast (opt_errorStrategy o)).
  { apply (f_equal trace) in Hsame. simpl in Hsame. by apply Htrace in Hsame. }
  destruct (truthy error && is_skip_children (opt_errorStrategy o)).
  { apply (f_equal trace) in Hsame. simpl in Hsame. by apply Htrace in Hsame. }
  destruct (validNeighbors g _ _ (f_nodeId f)) as [|nb0 vn0].
  { apply (f_equal trace) in Hsame. simpl in Hsame. by apply Htrace in Hsame. }
  apply (f_equal (λ s, length (frames s))) in Hsame.
  match type of Hsame with
  | length (frames (launch_children _ _ ?n ?r ?c ?vn ?s0)) = _ =>
      destruct (launch_children_frames callback o n r c vn s0) as (Hlen & _)
  end.
  rewrite Hlen in Hsame. cbn [frames with_frames] in Hsame.
  rewrite length_insert in Hsame. simpl in Hsame. lia.
Qed.

Lemma slot_released_work s max :
  limiter o = Some max → 0 < releases s →
  work (slot_released callback o s) < work s.
Proof.
  intros Hl Hrel. unfold slot_released. rewrite Hl.
  destruct (releases s) as [|n] eqn:Hn; [lia|]. unfold processQueue.
  eapply Nat.le_lt_trans; [apply drain_work|].
  unfold work_left, unvisited. cbn [frames releases visited aborted]. rewrite Hn. lia.
Qed.

Lemma children_settled_work i s f sts :
  frames s !! i = Some f → f_status f = AwaitingChildren →
  child_statuses s (f_childPromises f) = Some sts →
  Forall (λ st, final st = true) sts →
  work (children_settled o i s) < work s.
Proof.
  intros Hi Hst Hsts Hfin. unfold children_settled. rewrite Hi, Hst, Hsts.
  assert (Hset : ∀ s' st, frames s' = <[i := set_status st f]> (frames s) →
            weight st = 0 → releases s' = releases s → visited s' = visited s →
            aborted s' = aborted s → work s' < work s).
  { intros s' st Hfs Hf' Hr Hv Ha. unfold work_left, unvisited. rewrite Hfs, Hr, Hv, Ha.
    pose proof (weight_insert (frames s) i f (set_status st f) Hi) as Hw.
    rewrite Hst in Hw. replace (f_status (set_status st f)) with st in Hw by by destruct f.
    rewrite Hf' in Hw. simpl in Hw. lia. }
  destruct (is_fail_fast (opt_errorStrategy o)).
  - destruct (first_rejection sts) as [[r t]|] eqn:Hrej; [by eapply Hset|].
    destruct (mapM fulfilled_value sts) eqn:Hvs; [by eapply Hset|].
    exfalso. assert (is_Some (mapM fulfilled_value sts)) as [? ?]; [|congruence].
    apply mapM_is_Some, Forall_forall. intros st Hin. simpl.
    rewrite Forall_forall in Hfin. specialize (Hfin st Hin).
    destruct st as [| | |v|r t]; try done.
    by apply (first_rejection_None sts r t) in Hrej.
  - destruct (mapM _ (zip (f_validNeighbors f) sts)) eqn:Hvs; [by eapply Hset|].
    exfalso.
    assert (is_Some (mapM (λ p, settled_entry p.1 p.2) (zip (f_validNeighbors f) sts)))
      as [? ?]; [|congruence].
    apply mapM_is_Some, Forall_forall. intros [nb st] Hin%elem_of_zip_r. simpl.
    rewrite Forall_forall in Hfin. specialize (Hfin st Hin).
    by destruct st.
Qed.

Lemma init_work : work (init callback o startNodeId) ≤ work_bound g o startNodeId.
Proof.
  unfold init. etrans; [apply launch_work, root_key_known|].
  unfold work_left, work_bound, unvisited. cbn [frames releases visited aborted].
  match goal with
  | |- context [length (filter ?P ?l)] =>
      pose proof (length_filter P l) as Hlen; set (n := length (filter P l)) in *
  end.
  destruct (has_signal o && _); simpl; lia.
Qed.

Lemma productive_work schedule s :
  productive g callback o s schedule →
  length schedule + work (foldl (step g callback o) s schedule) ≤ work s.
Proof.
  revert s. induction schedule as [|t schedule IH]; intros s; simpl; [lia|].
  intros [Hne Hrest]. specialize (IH _ Hrest).
  destruct (step_work s t) as [?|?]; [done|lia].
Qed.

End work_facts.

(** ** The queue of the limiter, and the order of the frames *)

Section progress_facts.
Context (g : DependencyGraph) (callback : string → jsval → context → behaviour)
        (o : options) (startNodeId : string).

Lemma kids_ok_only_started s s' : only_started s s' → kids_ok s → kids_ok s'.
Proof.
  intros [Hlen Hst] Hk i f' k Hi Hkin.
  assert (is_Some (frames s !! i)) as [f Hf].
  { apply lookup_lt_is_Some. rewrite <- Hlen. by eapply lookup_lt_Some. }
  destruct (Hst i f Hf) as (f'' & Hf'' & Hs). rewrite Hi in Hf''. injection Hf'' as <-.
  apply (Hk i f k Hf). by rewrite <- (started_childPromises f f').
Qed.

Lemma kids_ok_insert s s' i f' :
  frames s' = <[i := f']> (frames s) → (∀ k, k ∈ f_childPromises f' → i < k) →
  kids_ok s → kids_ok s'.
Proof.
  intros Hfs Hnew Hk j fj k Hj Hkin. rewrite Hfs in Hj.
  destruct (decide (i = j)) as [<-|Hne].
  - apply list_lookup_insert_Some in Hj as [(_ & <- & _)|[? _]]; [by apply Hnew|done].
  - rewrite list_lookup_insert_ne in Hj by done. by eapply Hk.
Qed.

Lemma launch_kids_ok n r c s : kids_ok s → kids_ok (launch callback o n r c s).
Proof.
  intros Hk i f' k Hi Hkin.
  destruct (launch_frames callback o n r c s) as (Hlen & Hold & fn & Hfn & Hfresh).
  destruct (decide (i < length (frames s))) as [Hlt|Hge].
  - destruct (lookup_lt_is_Some_2 (frames s) i Hlt) as [f Hf].
    destruct (Hold i f Hf) as (f'' & Hf'' & Hs). rewrite Hi in Hf''. injection Hf'' as <-.
    apply (Hk i f k Hf). by rewrite <- (started_childPromises f f').
  - assert (i = length (frames s)) as ->.
    { apply lookup_lt_Some in Hi. lia. }
    rewrite Hfn in Hi. injection Hi as <-. destruct Hfresh as (_ & _ & _ & Hkids & _).
    rewrite Hkids in Hkin. by apply elem_of_nil in Hkin.
Qed.

Lemma launch_children_kids_ok nodeId result ctx vn s :
  kids_ok s → kids_ok (launch_children callback o nodeId result ctx vn s).
Proof.
  unfold launch_children. revert s.
  induction vn as [|nb vn IH]; intros s Hok; simpl; [done|].
  apply IH. by apply launch_kids_ok.
Qed.

Lemma step_kids_ok s t : kids_ok s → kids_ok (step g callback o s t).
Proof.
  intros Hok. destruct t as [i| |i|]; simpl.
  - unfold callback_settles.
    destruct (frames s !! i) as [f|] eqn:Hi; [|done].
    destruct (f_status f) eqn:Hst; try done.
    destruct (after_callback o (f_nodeId f) _ (resultCache s))
      as [[[[result error] caught] cache] reports].
    destruct (caught && is_fail_fast (opt_errorStrategy o)).
    { eapply (kids_ok_insert s); [reflexivity| |done].
      intros k Hk. simpl in Hk. by apply elem_of_nil in Hk. }
    destruct (truthy error && is_skip_children (opt_errorStrategy o)).
    { eapply (kids_ok_insert s); [reflexivity| |done].
      intros k Hk. simpl in Hk. by apply elem_of_nil in Hk. }
    destruct (validNeighbors g _ _ (f_nodeId f)) as [|nb0 vn0].
    { eapply (kids_ok_insert s); [reflexivity| |done].
      intros k Hk. simpl in Hk. by apply elem_of_nil in Hk. }
    apply launch_children_kids_ok.
    eapply (kids_ok_insert s); [reflexivity| |done].
    intros k Hk. cbn [f_childPromises finish frames] in Hk.
    apply elem_of_seq in Hk. apply lookup_lt_Some in Hi. lia.
  - unfold slot_released. destruct (limiter o) as [max|]; [|done].
    destruct (releases s) as [|n]; [done|]. unfold processQueue.
    eapply kids_ok_only_started; [|exact Hok].
    eapply only_started_trans; [|apply drain_only_started]. by apply only_started_same.
  - unfold children_settled.
    destruct (frames s !! i) as [f|] eqn:Hi; [|done].
    destruct (f_status f) eqn:Hst; try done.
    destruct (child_statuses s (f_childPromises f)) as [sts|]; [|done].
    assert (Hset : ∀ s' st, frames s' = <[i := set_status st f]> (frames s) → kids_ok s').
    { intros s' st Hfs. eapply (kids_ok_insert s); [exact Hfs| |done].
      intros k Hk. apply (Hok i f k Hi). by destruct f. }
    destruct (is_fail_fast (opt_errorStrategy o)).
    + destruct (first_rejection sts) as [[r t]|]; [by eapply Hset|].
      destruct (mapM fulfilled_value sts); [by eapply Hset|done].
    + destruct (mapM _ (zip (f_validNeighbors f) sts)); [by eapply Hset|done].
  - unfold signal_aborts. destruct (has_signal o && negb (aborted s)); [|done].
    eapply kids_ok_only_started; [|exact Hok]. by apply only_started_same.
Qed.

Lemma run_kids_ok schedule : kids_ok (run g callback o startNodeId schedule).
Proof.
  unfold run. induction schedule as [|t schedule IH] using rev_ind; simpl.
  - unfold init. apply launch_kids_ok. intros i f k Hi. simpl in Hi.
    by rewrite lookup_nil in Hi.
  - rewrite foldl_snoc. by apply step_kids_ok.
Qed.

(** *** The queue *)

Lemma in_flight_snoc s s' f :
  frames s' = frames s ++ [f] →
  in_flight s' = in_flight s + (if is_running (f_status f) then 1 else 0).
Proof.
  intros Hfs. unfold in_flight. rewrite Hfs, fmap_app, sum_list_with_app. simpl. lia.
Qed.

Lemma start_callback_queued i s f :
  frames s !! i = Some f → f_status f = Queued →
  frames (start_callback callback o i s) = <[i := set_status Running f]> (frames s) ∧
  queue (start_callback callback o i s) = queue s ∧
  running (start_callback callback o i s) = running s ∧
  releases (start_callback callback o i s) = releases s.
Proof.
  intros Hi Hst. unfold start_callback. rewrite Hi.
  destruct f as [n r c st res err vn kids]. simpl in Hst. subst st. done.
Qed.

Lemma drain_queue_ok max waiting s :
  waiting_ok waiting s →
  waiting_ok (queue (drain callback o max waiting s)) (drain callback o max waiting s) ∧
  (queue (drain callback o max waiting s) ≠ [] →
   below (running (drain callback o max waiting s)) max = false).
Proof.
  revert s. induction waiting as [|i w IH]; intros s (Hnd & Hiff & Hrun); simpl.
  - split; [|done]. split_and!; [constructor|exact Hiff|exact Hrun].
  - destruct (below (running s) max) eqn:Hlt.
    + destruct (proj1 (Hiff i)) as (f & Hf & Hst); [by left|].
      set (s0 := mkState (frames s) (visited s) (resultCache s) (aborted s) w
                         (S (running s)) (releases s) (rejections s) (trace s)).
      destruct (start_callback_queued i s0 f Hf Hst) as (Hfs & Hq & Hr & Hrel).
      apply NoDup_cons in Hnd as [Hni Hnd].
      apply IH. split_and!.
      * done.
      * intros j. rewrite Hfs. destruct (decide (i = j)) as [<-|Hne].
        -- split; [done|]. intros (f' & Hf' & Hst').
           rewrite list_lookup_insert_eq in Hf' by (by eapply lookup_lt_Some).
           injection Hf' as <-. by destruct f.
        -- rewrite list_lookup_insert_ne by done. cbn [frames s0]. rewrite <- Hiff.
           rewrite elem_of_cons. naive_solver.
      * rewrite Hr, Hrel.
        pose proof (in_flight_insert s0 (start_callback callback o i s0) i f
                      (set_status Running f) Hf Hfs) as Hfl.
        rewrite Hst in Hfl.
        replace (f_status (set_status Running f)) with Running in Hfl by by destruct f.
        simpl in Hfl. unfold in_flight in *. simpl in *. lia.
    + split; [by split_and!|]. intros _. exact Hlt.
Qed.

Lemma queue_ok_snoc s s' fnew :
  frames s' = frames s ++ [fnew] →
  is_queued (f_status fnew) = false → is_running (f_status fnew) = false →
  queue s' = queue s → running s' = running s → releases s' = releases s →
  queue_ok o s → queue_ok o s'.
Proof.
  intros Hfs Hq Hr Hqu Hrun Hrel. unfold queue_ok, waiting_ok.
  destruct (limiter o) as [max|].
  - intros [(Hnd & Hiff & Heq) Hfull]. rewrite Hqu, Hrun, Hrel. split; [|done].
    split_and!; [done| |].
    + intros i. rewrite Hiff, Hfs. split.
      * intros (f & Hf & Hst). exists f. split; [by apply lookup_app_l_Some|done].
      * intros (f & Hf & Hst). apply lookup_app_Some in Hf as [Hf|[_ Hf]]; [by exists f|].
        apply list_lookup_singleton_Some in Hf as [_ <-]. by rewrite Hst in Hq.
    + rewrite (in_flight_snoc s s' fnew Hfs), Hr. lia.
  - intros Hnq i f. rewrite Hfs. intros [Hf|[_ Hf]]%lookup_app_Some; [by eapply Hnq|].
    by apply list_lookup_singleton_Some in Hf as [_ <-].
Qed.

Lemma queue_ok_insert s s' i f f' :
  frames s !! i = Some f → frames s' = <[i := f']> (frames s) →
  is_queued (f_status f) = false → is_queued (f_status f') = false →
  queue s' = queue s → running s' = running s →
  (is_Some (limiter o) → in_flight s' + releases s' = in_flight s + releases s) →
  queue_ok o s → queue_ok o s'.
Proof.
  intros Hi Hfs Hq Hq' Hqu Hrun Hsum. unfold queue_ok, waiting_ok.
  destruct (limiter o) as [max|].
  - intros [(Hnd & Hiff & Heq) Hfull]. rewrite Hqu, Hrun. split; [|done].
    split_and!; [done| |].
    + intros j. rewrite Hiff, Hfs. destruct (decide (i = j)) as [<-|Hne].
      * rewrite list_lookup_insert_eq by (by eapply lookup_lt_Some). rewrite Hi.
        split; intros (x & [= <-] & Hst); [by rewrite Hst in Hq|by rewrite Hst in Hq'].
      * by rewrite list_lookup_insert_ne.
    + specialize (Hsum (mk_is_Some _ _ eq_refl)). lia.
  - intros Hnq j fj. rewrite Hfs. destruct (decide (i = j)) as [<-|Hne].
    + rewrite list_lookup_insert_eq by (by eapply lookup_lt_Some). by intros [= <-].
    + rewrite list_lookup_insert_ne by done. apply Hnq.
Qed.

Lemma queue_ok_same s s' :
  frames s' = frames s → queue s' = queue s → running s' = running s →
  releases s' = releases s → queue_ok o s → queue_ok o s'.
Proof.
  intros Hf Hq Hr Hrel. unfold queue_ok, waiting_ok, in_flight.
  by rewrite Hf, Hq, Hr, Hrel.
Qed.

Lemma launch_queue_ok n r c s : queue_ok o s → queue_ok o (launch callback o n r c s).
Proof.
  intros Hok. unfold launch.
  destruct (aborted s).
  { eapply (queue_ok_snoc s); [reflexivity|done..]. }
  destruct (JsSet.has _ (visited s)).
  { eapply (queue_ok_snoc s); [reflexivity|done..]. }
  unfold queue_ok in *. destruct (limiter o) as [max|] eqn:Hl.
  - destruct Hok as [(Hnd & Hiff & Heq) Hfull]. unfold processQueue. cbn [queue].
    apply drain_queue_ok. split_and!.
    + apply NoDup_app. split_and!; [done| |apply NoDup_singleton].
      intros j Hj Hj'%list_elem_of_singleton. subst j.
      apply Hiff in Hj as (f & Hf & _). apply lookup_lt_Some in Hf. lia.
    + intros j. cbn [frames]. rewrite elem_of_app, Hiff, list_elem_of_singleton. split.
      * intros [(f & Hf & Hst)| ->].
        -- exists f. split; [by apply lookup_app_l_Some|done].
        -- eexists. split; [by apply list_lookup_middle|done].
      * intros (f & [Hf|[Hlen Hf]]%lookup_app_Some & Hst); [left; by exists f|]. right.
        apply list_lookup_singleton_Some in Hf as [Hj _]. lia.
    + cbn [running releases]. rewrite Heq. unfold in_flight. cbn [frames].
      rewrite fmap_app, sum_list_with_app. simpl. lia.
  - intros j fj.
    match goal with |- context [start_callback _ _ ?i ?s1] =>
      destruct (start_callback_queued i s1 (new_frame n r c Queued)) as (Hfs & _);
        [by apply list_lookup_middle|done|]
    end.
    rewrite Hfs. cbn [frames].
    destruct (decide (length (frames s) = j)) as [<-|Hne].
    + rewrite list_lookup_insert_eq by (rewrite length_app; simpl; lia). by intros [= <-].
    + rewrite list_lookup_insert_ne by done.
      intros [Hf|[Hlen Hf]]%lookup_app_Some; [by eapply Hok|].
      apply list_lookup_singleton_Some in Hf as [Hj _]. lia.
Qed.

Lemma launch_children_queue_ok nodeId result ctx vn s :
  queue_ok o s → queue_ok o (launch_children callback o nodeId result ctx vn s).
Proof.
  unfold launch_children. revert s.
  induction vn as [|nb vn IH]; intros s Hok; simpl; [done|].
  apply IH. by apply launch_queue_ok.
Qed.

Lemma step_queue_ok s t : queue_ok o s → queue_ok o (step g callback o s t).
Proof.
  intros Hok. destruct t as [i| |i|]; simpl.
  - unfold callback_settles.
    destruct (frames s !! i) as [f|] eqn:Hi; [|done].
    destruct (f_status f) eqn:Hst; try done.
    destruct (after_callback o (f_nodeId f) _ (resultCache s))
      as [[[[result error] caught] cache] reports].
    assert (Hlog : ∀ s' f', frames s' = <[i := f']> (frames s) →
              is_queued (f_status f') = false → is_running (f_status f') = false →
              queue s' = queue s → running s' = running s →
              releases s' = match limiter o with
                            | Some _ => S (releases s) | None => releases s end →
              queue_ok o s').
    { intros s' f' Hfs Hq' Hr' Hqu Hrun Hrel.
      eapply (queue_ok_insert s s' i f f'); try done.
      - by rewrite Hst.
      - intros [max Hl]. rewrite Hl in Hrel.
        pose proof (in_flight_insert s s' i f f' Hi Hfs) as Hfl.
        rewrite Hst, Hr' in Hfl. simpl in Hfl. lia. }
    destruct (caught && is_fail_fast (opt_errorStrategy o)).
    { eapply Hlog; reflexivity. }
    destruct (truthy error && is_skip_children (opt_errorStrategy o)).
    { eapply Hlog; reflexivity. }
    destruct (validNeighbors g _ _ (f_nodeId f)) as [|nb0 vn0].
    { eapply Hlog; reflexivity. }
    apply launch_children_queue_ok. eapply Hlog; reflexivity.
  - unfold slot_released. destruct (limiter o) as [max|] eqn:Hl; [|done].
    destruct (releases s) as [|n] eqn:Hrel; [done|]. unfold processQueue.
    unfold queue_ok in *. rewrite Hl in *. destruct Hok as [(Hnd & Hiff & Heq) Hfull].
    cbn [queue]. apply drain_queue_ok. split_and!; [done|done|].
    cbn [running releases]. unfold in_flight in *. cbn [frames]. lia.
  - unfold children_settled.
    destruct (frames s !! i) as [f|] eqn:Hi; [|done].
    destruct (f_status f) eqn:Hst; try done.
    destruct (child_statuses s (f_childPromises f)) as [sts|]; [|done].
    assert (Hset : ∀ s' st, frames s' = <[i := set_status st f]> (frames s) →
              is_queued st = false → is_running st = false →
              queue s' = queue s → running s' = running s → releases s' = releases s →
              queue_ok o s').
    { intros s' st Hfs Hq' Hr' Hqu Hrun Hrel.
      assert (Hst' : f_status (set_status st f) = st) by by destruct f.
      eapply (queue_ok_insert s s' i f (set_status st f)); try done.
      - by rewrite Hst.
      - intros _.
        pose proof (in_flight_insert s s' i f _ Hi Hfs) as Hfl.
        rewrite Hst' in Hfl. rewrite Hst, Hr' in Hfl. simpl in Hfl. lia. }
    destruct (is_fail_fast (opt_errorStrategy o)).
    + destruct (first_rejection sts) as [[r t]|]; [eapply Hset; reflexivity|].
      destruct (mapM fulfilled_value sts); [eapply Hset; reflexivity|done].
    + destruct (mapM _ (zip (f_validNeighbors f) sts)); [eapply Hset; reflexivity|done].
  - unfold signal_aborts. destruct (has_signal o && negb (aborted s)); [|done].
    by eapply (queue_ok_same s).
Qed.

Lemma run_queue_ok schedule : queue_ok o (run g callback o startNodeId schedule).
Proof.
  unfold run. induction schedule as [|t schedule IH] using rev_ind; simpl.
  - unfold init. apply launch_queue_ok. unfold queue_ok, waiting_ok, in_flight.
    destruct (limiter o); simpl.
    + split; [|done]. split_and!; [constructor| |done].
      intros i. split; [by intros ?%elem_of_nil|].
      intros (f & Hf & _). by rewrite lookup_nil in Hf.
    + intros i f Hf. by rewrite lookup_nil in Hf.
  - rewrite foldl_snoc. by apply step_queue_ok.
Qed.

End progress_facts.

(** ** A pending run can go on *)

Section liveness.
Context (g : DependencyGraph) (callback : string → jsval → context → behaviour)
        (o : options) (startNodeId : string).

Local Notation "'work'" := (work_left g o startNodeId).
Local Notation "'run_of'" := (run g callback o startNodeId).

(** Among frames that all wait for their children or are settled, one that
    waits has settled children only. *)
Lemma find_ready s n i f :
  frames_ok g callback o (frames s) → kids_ok s →
  (∀ j fj, frames s !! j = Some fj →
           f_status fj = AwaitingChildren ∨ final (f_status fj) = true) →
  length (frames s) ≤ i + n →
  frames s !! i = Some f → f_status f = AwaitingChildren →
  ∃ j fj sts, frames s !! j = Some fj ∧ f_status fj = AwaitingChildren ∧
    child_statuses s (f_childPromises fj) = Some sts ∧
    Forall (λ st, final st = true) sts.
Proof.
  intros Hok Hkids Hall. revert i f. induction n as [|n IH]; intros i f Hlen Hi Hst.
  { apply lookup_lt_Some in Hi. lia. }
  pose proof Hok as (_ & Hframes & _).
  pose proof (Hframes i f Hi) as Hfi. unfold frame_ok in Hfi. rewrite Hst in Hfi.
  destruct Hfi as [_ Hlaunched].
  destruct (child_statuses_is_Some s (f_childPromises f)) as [sts Hsts].
  { intros k Hk. by eapply children_launched_exist. }
  destruct (decide (Forall (λ st, final st = true) sts)) as [Hfin|Hnot].
  { by exists i, f, sts. }
  apply not_Forall_Exists in Hnot; [|apply _].
  apply Exists_exists in Hnot as (st & Hin & Hst'). simpl in Hst'.
  apply child_statuses_Some in Hsts.
  apply list_elem_of_lookup in Hin as [m Hm].
  destruct (Forall2_lookup_r _ _ _ _ _ Hsts Hm) as (k & Hk & fk & Hfk & Hfst).
  destruct (Hall k fk Hfk) as [Haw|Hf]; [|congruence].
  apply (IH k fk); [|done|done].
  assert (i < k) by (eapply Hkids; [done|]; by eapply list_elem_of_lookup_2). lia.
Qed.

(** While the promise is pending some tick is due, unless the limiter
    admits no call at all: a callback in flight settles, a [finally]
    handler of the limiter runs, or a frame whose children have all settled
    resumes. *)
Lemma progress s :
  admits_first o = true →
  frames_ok g callback o (frames s) → queue_ok o s → kids_ok s →
  is_pending (settled_promise s) = true →
  ∃ t, work (step g callback o s t) < work s.
Proof.
  intros Hadmit Hok Hq Hkids Hpend.
  destruct (decide (Exists (λ f, is_running (f_status f) = true) (frames s))) as [Hrun|Hnone].
  { apply Exists_exists in Hrun as (f & Hin & Hr).
    apply list_elem_of_lookup in Hin as [i Hi]. exists (CallbackSettles i).
    apply (callback_settles_work g callback o startNodeId i s f); [done|].
    by destruct (f_status f). }
  apply not_Exists_Forall in Hnone; [|apply _].
  assert (Hnr : ∀ j fj, frames s !! j = Some fj → is_running (f_status fj) = false).
  { intros j fj Hj. rewrite Forall_forall in Hnone.
    specialize (Hnone fj (list_elem_of_lookup_2 _ _ _ Hj)). simpl in Hnone.
    by destruct (is_running (f_status fj)). }
  assert (Hfl : in_flight s = 0).
  { unfold in_flight. clear -Hnone. induction Hnone as [|f fs Hf _ IH]; [done|].
    rewrite fmap_cons.
    match goal with |- sum_list (?x :: ?l) = 0 => change (x + sum_list l = 0) end.
    rewrite IH. simpl in Hf. by destruct (is_running (f_status f)). }
  assert (Hcase : (∃ max, limiter o = Some max ∧ 0 < releases s) ∨
                  ∀ j fj, frames s !! j = Some fj → is_queued (f_status fj) = false).
  { unfold queue_ok, waiting_ok in Hq. destruct (limiter o) as [max|] eqn:Hl; [|by right].
    destruct Hq as [(Hnd & Hiff & Heq) Hfull].
    destruct (releases s) as [|n] eqn:Hrel; [|left; exists max; split; [done|lia]].
    right. intros j fj Hj. destruct (f_status fj) eqn:Hst; try done.
    assert (Hin : j ∈ queue s) by (apply Hiff; eauto).
    assert (Hfull' : below (running s) max = false).
    { apply Hfull. intros Hnil. rewrite Hnil in Hin. by apply elem_of_nil in Hin. }
    unfold admits_first in Hadmit. rewrite Hl in Hadmit.
    rewrite Heq, Hfl in Hfull'. simpl in Hfull'. congruence. }
  destruct Hcase as [(max & Hl & Hrel)|Hnq].
  { exists SlotReleased. by eapply slot_released_work. }
  assert (Hall : ∀ j fj, frames s !! j = Some fj →
                         f_status fj = AwaitingChildren ∨ final (f_status fj) = true).
  { intros j fj Hj. specialize (Hnr j fj Hj). specialize (Hnq j fj Hj).
    destruct (f_status fj); auto; done. }
  unfold settled_promise in Hpend. destruct (frames s !! 0) as [f0|] eqn:H0.
  2: { destruct Hok as [Hlen _]. apply lookup_ge_None in H0. lia. }
  destruct (Hall 0 f0 H0) as [Haw|Hfin]; [|by destruct (f_status f0)].
  destruct (find_ready s (length (frames s)) 0 f0)
    as (j & fj & sts & Hj & Hst & Hsts & Hfin); [done|done|done|lia|done|done|].
  exists (ChildrenSettled j). by eapply children_settled_work.
Qed.

Lemma run_work schedule : work (run_of schedule) ≤ work_bound g o startNodeId.
Proof.
  unfold run. induction schedule as [|t schedule IH] using rev_ind; simpl.
  - apply init_work.
  - rewrite foldl_snoc.
    destruct (step_work g callback o startNodeId
                (foldl (step g callback o) (init callback o startNodeId) schedule) t)
      as [->|?]; [done|lia].
Qed.

Lemma settles_within n schedule :
  admits_first o = true →
  work (run_of schedule) ≤ n →
  ∃ more, length more ≤ n ∧
          is_pending (settled_promise (run_of (schedule ++ more))) = false.
Proof.
  intros Hadmit. revert schedule. induction n as [|n IH]; intros schedule Hn;
    (destruct (is_pending (settled_promise (run_of schedule))) eqn:Hp;
     [|exists []; rewrite app_nil_r; split; [simpl; lia|done]]);
    (destruct (progress (run_of schedule)) as [t Ht];
     [done|apply run_ok|apply run_queue_ok|apply run_kids_ok|done|]); [lia|].
  destruct (IH (schedule ++ [t])) as (more & Hlen & Hdone).
  { unfold run in *. rewrite foldl_snoc. lia. }
  exists (t :: more). split; [simpl; lia|].
  by rewrite cons_middle, app_assoc.
Qed.

End liveness.

(** X24.  When the limiter, if there is one, admits a first call
    ([maxConcurrency] is [null], zero, [NaN] or above zero), a call of
    [executeOnTree] cannot get stuck, whatever has happened so far: every
    schedule of callback settlements, limiter releases, resumptions and
    aborts can be continued, by at most [work_bound] further ticks, to a
    state in which the returned promise has settled; the limiter never
    holds back a call that is needed for that.  With any other limit (a
    negative number, or minus infinity) the call is stuck from the start:
    on an existing start node, the signal not aborted at the call, the
    promise is pending after every schedule. *)
Theorem executeOnTree_can_settle (g : DependencyGraph)
    (callback : string → jsval → context → behaviour) (o : options)
    (startNodeId : string) (schedule : list tick) :
  (admits_first o = true →
   ∃ more, length more ≤ work_bound g o startNodeId ∧
           is_pending (executeOnTree g callback o startNodeId (schedule ++ more)) = false) ∧
  (admits_first o = false → hasNode startNodeId g = true → opt_signal o ≠ Some true →
   executeOnTree g callback o startNodeId schedule = Pending).
Proof.
  split; [|apply stuck_pending].
  intros Hadmit. unfold executeOnTree. destruct (negb (JsMap.has startNodeId (nodes g))).
  { exists []. split; [simpl; lia|done]. }
  apply settles_within; [done|apply run_work].
Qed.

Lemma executeOnTree_can_settle_witness :
  (∃ more, length more ≤ work_bound abort_fork one_at_a_time "A" ∧
           is_pending (executeOnTree abort_fork aborts_at_B one_at_a_time "A"
                         ([CallbackSettles 0] ++ more)) = false) ∧
  executeOnTree abort_fork returns_id
    (mkOptions TypesAbsent Outgoing FailFast (Some (integer (-1))) None None)
    "A" [CallbackSettles 0; SlotReleased; ChildrenSettled 0]
  = Pending.
Proof.
  split.
  - apply (executeOnTree_can_settle abort_fork aborts_at_B one_at_a_time "A"
             [CallbackSettles 0]).
    reflexivity.
  - apply (executeOnTree_can_settle abort_fork returns_id
             (mkOptions TypesAbsent Outgoing FailFast (Some (integer (-1))) None None)
             "A" [CallbackSettles 0; SlotReleased; ChildrenSettled 0]).
    + reflexivity.
    + reflexivity.
    + discriminate.
Defined.

(** X25.  A run of [executeOnTree] does a bounded amount of work, also on
    a store with cycles: a schedule in which every tick changes the state
    has at most [work_bound] ticks, five for each visit key
    [nodeId::edgeType] of the store and one for the signal. *)
Theorem executeOnTree_work_bounded (g : DependencyGraph)
    (callback : string → jsval → context → behaviour) (o : options)
    (startNodeId : string) (schedule : list tick) :
  productive g callback o (init callback o startNodeId) schedule →
  length schedule ≤ work_bound g o startNodeId.
Proof.
  intros Hp%(productive_work g callback o startNodeId).
  pose proof (run_work g callback o startNodeId schedule) as Hb. unfold run in Hb.
  pose proof (init_work g callback o startNodeId). lia.
Qed.

Lemma executeOnTree_work_bounded_witness :
  2 ≤ work_bound abort_fork one_at_a_time "A".
Proof.
  apply (executeOnTree_work_bounded abort_fork aborts_at_B one_at_a_time "A"
           [CallbackSettles 0; SlotReleased]).
  split; [intros H; vm_compute in H; discriminate H|].
  split; [intros H; vm_compute in H; discriminate H|].
  exact I.
Defined.

(** ** The progress hook *)

Section report_facts.
Context (g : DependencyGraph) (callback : string → jsval → context → behaviour)
        (o : options).

Lemma reports_ok_plain tr evs :
  reports_ok o tr → Forall (λ ev, is_plain ev = true) evs → reports_ok o (tr ++ evs).
Proof.
  intros [Hrep Hset] Hevs.
  assert (Hplain : ∀ k ev, evs !! k = Some ev → is_plain ev = true).
  { intros k ev Hk. rewrite Forall_forall in Hevs.
    by eapply Hevs, list_elem_of_lookup_2. }
  split.
  - intros j n v [Hj|[_ Hj]]%lookup_app_Some.
    + destruct (Hrep j n v Hj) as (Hh & i & -> & Hi). split; [done|].
      exists i. split; [done|]. by apply lookup_app_l_Some.
    + by apply Hplain in Hj.
  - intros j n v [Hj|[_ Hj]]%lookup_app_Some Hh.
    + apply lookup_app_l_Some. by apply Hset.
    + by apply Hplain in Hj.
Qed.

Lemma after_callback_reports_eq n outcome cache result error caught cache' reports :
  after_callback o n outcome cache = (result, error, caught, cache', reports) →
  reports = match outcome, opt_onProgress o with
            | Returns v, Some _ => [Progressed n v]
            | _, _ => []
            end.
Proof.
  unfold after_callback.
  destruct outcome; [destruct (opt_onProgress o) as [hook|]; [destruct (hook _ _)|]|];
    by intros [= <- <- <- <- <-].
Qed.

Lemma reports_ok_settle tr n outcome :
  reports_ok o tr →
  reports_ok o (tr ++ Settled n outcome
                   :: match outcome, opt_onProgress o with
                      | Returns v, Some _ => [Progressed n v]
                      | _, _ => []
                      end).
Proof.
  intros [Hrep Hset]. split.
  - intros j n' v' [Hj|[Hlen Hj]]%lookup_app_Some.
    + destruct (Hrep j n' v' Hj) as (Hh & i & -> & Hi). split; [done|].
      exists i. split; [done|]. by apply lookup_app_l_Some.
    + destruct (j - length tr) as [|[|k]] eqn:Hk; simpl in Hj; [done| |].
      * destruct outcome as [v|e]; [|done].
        destruct (opt_onProgress o) as [hook|] eqn:Hh; [|done].
        injection Hj as <- <-. split; [done|]. exists (length tr). split; [lia|].
        by rewrite list_lookup_middle.
      * destruct outcome as [v|e]; [|done].
        by destruct (opt_onProgress o).
  - intros j n' v' [Hj|[Hlen Hj]]%lookup_app_Some Hh.
    + apply lookup_app_l_Some. by apply Hset.
    + destruct (j - length tr) as [|[|k]] eqn:Hk; simpl in Hj.
      * injection Hj as <- ->. destruct Hh as [hook Hh]. rewrite Hh.
        replace (S j) with (length tr + 1) by lia.
        by rewrite lookup_app_r, Nat.add_comm, Nat.add_sub by lia.
      * destruct outcome as [v|e]; [|done]. by destruct (opt_onProgress o).
      * destruct outcome as [v|e]; [|done]. by destruct (opt_onProgress o).
Qed.

(** Starting callbacks and launching calls add neither settlements nor
    reports. *)
Lemma start_callback_plain i s :
  ∃ evs, trace (start_callback callback o i s) = trace s ++ evs ∧
         Forall (λ ev, is_plain ev = true) evs.
Proof.
  unfold start_callback.
  destruct (frames s !! i) as [[n' r' c' [] res err vn kids]|];
    try (exists []; by rewrite app_nil_r). simpl.
  eexists. split; [done|]. destruct (_ && _); by repeat constructor.
Qed.

Lemma drain_plain max waiting s :
  ∃ evs, trace (drain callback o max waiting s) = trace s ++ evs ∧
         Forall (λ ev, is_plain ev = true) evs.
Proof.
  revert s. induction waiting as [|i waiting IH]; intros s; simpl.
  - exists []. by rewrite app_nil_r.
  - destruct (below (running s) max); [|exists []; by rewrite app_nil_r].
    edestruct IH as (evs' & -> & Hevs'). edestruct start_callback_plain as (evs & -> & Hevs).
    simpl. exists (evs ++ evs'). split; [by rewrite app_assoc|by apply Forall_app].
Qed.

Lemma launch_plain n r c s :
  ∃ evs, trace (launch callback o n r c s) = trace s ++ evs ∧
         Forall (λ ev, is_plain ev = true) evs.
Proof.
  unfold launch. destruct (aborted s); [simpl; eexists; split; [done|by repeat constructor]|].
  destruct (JsSet.has _ (visited s));
    [simpl; eexists; split; [done|by repeat constructor]|].
  destruct (limiter o) as [max|].
  - unfold processQueue. edestruct drain_plain as (evs & -> & Hevs). simpl.
    eexists. split; [by rewrite <- app_assoc|]. constructor; done.
  - edestruct start_callback_plain as (evs & -> & Hevs). simpl.
    eexists. split; [by rewrite <- app_assoc|]. constructor; done.
Qed.

Lemma launch_children_plain nodeId result ctx vn s :
  ∃ evs, trace (launch_children callback o nodeId result ctx vn s) = trace s ++ evs ∧
         Forall (λ ev, is_plain ev = true) evs.
Proof.
  unfold launch_children. revert s.
  induction vn as [|nb vn IH]; intros s; simpl.
  - exists []. by rewrite app_nil_r.
  - edestruct IH as (evs' & -> & Hevs'). edestruct launch_plain as (evs & -> & Hevs).
    exists (evs ++ evs'). split; [by rewrite app_assoc|by apply Forall_app].
Qed.

Lemma step_reports_ok s t :
  reports_ok o (trace s) → reports_ok o (trace (step g callback o s t)).
Proof.
  intros Hok. destruct t as [i| |i|]; simpl.
  - unfold callback_settles.
    destruct (frames s !! i) as [f|] eqn:Hi; [|done].
    destruct (f_status f) eqn:Hst; try done.
    destruct (after_callback o (f_nodeId f) _ (resultCache s))
      as [[[[result error] caught] cache] reports] eqn:Hac.
    apply after_callback_reports_eq in Hac. subst reports.
    pose proof (reports_ok_settle (trace s) (f_nodeId f)
                  (settles (callback (f_nodeId f) (f_parentResult f) (f_context f))) Hok)
      as Hs1.
    destruct (caught && is_fail_fast (opt_errorStrategy o)); [exact Hs1|].
    destruct (truthy error && is_skip_children (opt_errorStrategy o)); [exact Hs1|].
    destruct (validNeighbors g _ _ (f_nodeId f)) as [|nb0 vn0]; [exact Hs1|].
    edestruct launch_children_plain as (evs & -> & Hevs).
    by apply reports_ok_plain.
  - unfold slot_released. destruct (limiter o) as [max|]; [|done].
    destruct (releases s) as [|n]; [done|]. unfold processQueue.
    edestruct drain_plain as (evs & -> & Hevs). by apply reports_ok_plain.
  - unfold children_settled.
    destruct (frames s !! i) as [f|] eqn:Hi; [|done].
    destruct (f_status f) eqn:Hst; try done.
    destruct (child_statuses s (f_childPromises f)) as [sts|]; [|done].
    destruct (is_fail_fast (opt_errorStrategy o)).
    + destruct (first_rejection sts) as [[r t]|]; [done|].
      by destruct (mapM fulfilled_value sts).
    + by destruct (mapM _ (zip (f_validNeighbors f) sts)).
  - unfold signal_aborts. destruct (has_signal o && negb (aborted s)); [|done].
    simpl. apply reports_ok_plain; [done|]. by repeat constructor.
Qed.

Lemma run_reports_ok startNodeId schedule :
  reports_ok o (trace (run g callback o startNodeId schedule)).
Proof.
  unfold run. induction schedule as [|t schedule IH] using rev_ind; simpl.
  - unfold init. edestruct launch_plain as (evs & -> & Hevs). simpl.
    apply reports_ok_plain; [|done].
    destruct (opt_signal o) as [[]|]; split; intros [|j] n v Hj; done.
  - rewrite foldl_snoc. by apply step_reports_ok.
Qed.

End report_facts.

(** X27.  The progress hook is called once for every callback that
    returned, with the node and the value returned, right after the
    callback has settled and before any child is launched; it is not
    called after a callback that threw, for a circular reference or for an
    abandoned call, and never when no hook is given. *)
Theorem progress_hook_calls (g : DependencyGraph)
    (callback : string → jsval → context → behaviour) (o : options)
    (startNodeId : string) (schedule : list tick) :
  reports_ok o (trace (run g callback o startNodeId schedule)).
Proof. apply run_reports_ok. Qed.

(** ** The values a call leaves in its node *)

Section outcome_facts.
Context (g : DependencyGraph) (callback : string → jsval → context → behaviour)
        (o : options).

Local Notation "'outcome_of' f" :=
  (settles (callback (f_nodeId f) (f_parentResult f) (f_context f)))
  (at level 10, f at level 9).

Lemma after_callback_values n outcome cache result error caught cache' reports :
  after_callback o n outcome cache = (result, error, caught, cache', reports) →
  result = outcome_result outcome ∧ error = outcome_error o n outcome.
Proof.
  unfold after_callback, outcome_error.
  destruct outcome; [destruct (opt_onProgress o) as [hook|]; [destruct (hook _ _)|]|];
    by intros [= <- <- <- <- <-].
Qed.

Lemma locals_ok_only_started s s' :
  only_started s s' → locals_ok callback o s → locals_ok callback o s'.
Proof.
  intros [Hlen Hst] Hok i f' Hi.
  assert (is_Some (frames s !! i)) as [f Hf].
  { apply lookup_lt_is_Some. rewrite <- Hlen. by eapply lookup_lt_Some. }
  destruct (Hst i f Hf) as (f'' & Hf'' & Hs). rewrite Hi in Hf''. injection Hf'' as <-.
  destruct Hs as [->|[Hq ->]]; [by eapply Hok|]. by destruct f.
Qed.

Lemma locals_ok_insert s s' i f' :
  locals_ok callback o s → frames s' = <[i := f']> (frames s) →
  match f_status f' with
  | AwaitingChildren =>
      f_result f' = outcome_result (outcome_of f') ∧
      f_error f' = outcome_error o (f_nodeId f') (outcome_of f')
  | Fulfilled x =>
      isCircularRef x = true ∨
      (isCircularRef x = false ∧ node x = f_nodeId f' ∧
       result x = outcome_result (outcome_of f') ∧
       error x = outcome_error o (f_nodeId f') (outcome_of f'))
  | _ => True
  end →
  locals_ok callback o s'.
Proof.
  intros Hok Hfs Hf' j fj. rewrite Hfs.
  intros [(<- & <- & _)|[_ Hj]]%list_lookup_insert_Some; [done|]. by eapply Hok.
Qed.

Lemma launch_locals_ok n r c s :
  locals_ok callback o s → locals_ok callback o (launch callback o n r c s).
Proof.
  intros Hok i f' Hi.
  destruct (launch_frames callback o n r c s) as (Hlen & Hold & fn & Hfn & Hfresh).
  destruct (decide (i < length (frames s))) as [Hlt|Hge].
  - destruct (lookup_lt_is_Some_2 (frames s) i Hlt) as [f Hf].
    destruct (Hold i f Hf) as (f'' & Hf'' & Hs). rewrite Hi in Hf''. injection Hf'' as <-.
    destruct Hs as [->|[Hq ->]]; [by eapply Hok|]. by destruct f.
  - assert (i = length (frames s)) as ->.
    { apply lookup_lt_Some in Hi. lia. }
    rewrite Hfn in Hi. injection Hi as <-.
    destruct Hfresh as (_ & _ & _ & _ & [Hst|[Hst|[(x & Hst & Hx)|(t & Hst)]]]);
      rewrite Hst; simpl; auto.
Qed.

Lemma launch_children_locals_ok nodeId result ctx vn s :
  locals_ok callback o s →
  locals_ok callback o (launch_children callback o nodeId result ctx vn s).
Proof.
  unfold launch_children. revert s.
  induction vn as [|nb vn IH]; intros s Hok; simpl; [done|].
  apply IH. by apply launch_locals_ok.
Qed.

Lemma step_locals_ok s t :
  locals_ok callback o s → locals_ok callback o (step g callback o s t).
Proof.
  intros Hok. destruct t as [i| |i|]; simpl.
  - unfold callback_settles.
    destruct (frames s !! i) as [f|] eqn:Hi; [|done].
    destruct (f_status f) eqn:Hst; try done.
    destruct (after_callback o (f_nodeId f) _ (resultCache s))
      as [[[[result error] caught] cache] reports] eqn:Hac.
    apply after_callback_values in Hac as [Hres Herr].
    destruct (caught && is_fail_fast (opt_errorStrategy o)).
    { by eapply (locals_ok_insert s). }
    destruct (truthy error && is_skip_children (opt_errorStrategy o)).
    { eapply (locals_ok_insert s); [done|reflexivity|]. simpl. right. by split_and!. }
    destruct (validNeighbors g _ _ (f_nodeId f)) as [|nb0 vn0].
    { eapply (locals_ok_insert s); [done|reflexivity|]. simpl. right. by split_and!. }
    apply launch_children_locals_ok.
    eapply (locals_ok_insert s); [done|reflexivity|]. simpl. by split.
  - unfold slot_released. destruct (limiter o) as [max|]; [|done].
    destruct (releases s) as [|n]; [done|]. unfold processQueue.
    eapply locals_ok_only_started; [|exact Hok].
    eapply only_started_trans; [|apply drain_only_started]. by apply only_started_same.
  - unfold children_settled.
    destruct (frames s !! i) as [f|] eqn:Hi; [|done].
    destruct (f_status f) eqn:Hst; try done.
    destruct (child_statuses s (f_childPromises f)) as [sts|]; [|done].
    pose proof (Hok i f Hi) as Hf. simpl in Hf. rewrite Hst in Hf. destruct Hf as [Hres Herr].
    assert (Hful : ∀ vs, locals_ok callback o (fulfil_frame i f vs s)).
    { intros vs. eapply (locals_ok_insert s); [done|reflexivity|].
      destruct f; simpl in *. right. by split_and!. }
    destruct (is_fail_fast (opt_errorStrategy o)).
    + destruct (first_rejection sts) as [[r t]|].
      { eapply (locals_ok_insert s); [done|reflexivity|]. by destruct f. }
      destruct (mapM fulfilled_value sts); [apply Hful|done].
    + destruct (mapM _ (zip (f_validNeighbors f) sts)); [apply Hful|done].
  - unfold signal_aborts. destruct (has_signal o && negb (aborted s)); [|done].
    eapply locals_ok_only_started; [|exact Hok]. by apply only_started_same.
Qed.

Lemma run_locals_ok startNodeId schedule :
  locals_ok callback o (run g callback o startNodeId schedule).
Proof.
  unfold run. induction schedule as [|t schedule IH] using rev_ind; simpl.
  - unfold init. apply launch_locals_ok. intros i f Hi. simpl in Hi.
    by rewrite lookup_nil in Hi.
  - rewrite foldl_snoc. by apply step_locals_ok.
Qed.

(** *** The cache and the circular references *)

Lemma cached_value_mono s s' n v :
  (∃ evs, trace s' = trace s ++ evs) → cached_value s n v → cached_value s' n v.
Proof.
  intros [evs Htr] [->|Hin]; [by left|]. right. rewrite Htr. apply elem_of_app. by left.
Qed.

Lemma cache_ok_insert s s' i f' :
  cache_ok s → frames s' = <[i := f']> (frames s) → resultCache s' = resultCache s →
  (∃ evs, trace s' = trace s ++ evs) →
  (∀ x, f_status f' = Fulfilled x → isCircularRef x = false) →
  cache_ok s'.
Proof.
  intros [Hcache Hcirc] Hfs Hc Htr Hf'. split.
  - intros n v. rewrite Hc. intros Hv. eapply cached_value_mono; [done|]. by apply Hcache.
  - intros j fj x. rewrite Hfs.
    intros [(<- & <- & _)|[_ Hj]]%list_lookup_insert_Some Hst Hx.
    + apply Hf' in Hst. congruence.
    + destruct (Hcirc j fj x Hj Hst Hx) as (? & ? & ? & ?). split_and!; try done.
      by eapply cached_value_mono.
Qed.

Lemma start_callback_cache_ok i s : cache_ok s → cache_ok (start_callback callback o i s).
Proof.
  intros Hok. unfold start_callback.
  destruct (frames s !! i) as [[n r c [] res err vn kids]|] eqn:Hi; try done.
  eapply (cache_ok_insert s); [done|reflexivity|reflexivity|simpl; by eexists|done].
Qed.

Lemma cache_ok_same s s' :
  frames s' = frames s → resultCache s' = resultCache s → trace s' = trace s →
  cache_ok s → cache_ok s'.
Proof. intros Hf Hc Ht. unfold cache_ok, cached_value. by rewrite Hf, Hc, Ht. Qed.

Lemma drain_cache_ok max waiting s :
  cache_ok s → cache_ok (drain callback o max waiting s).
Proof.
  revert s. induction waiting as [|i waiting IH]; intros s Hok; simpl.
  - by eapply (cache_ok_same s).
  - destruct (below (running s) max); [|by eapply (cache_ok_same s)].
    apply IH, start_callback_cache_ok. by eapply (cache_ok_same s).
Qed.

Lemma launch_cache_ok n r c s : cache_ok s → cache_ok (launch callback o n r c s).
Proof.
  intros Hok.
  assert (Hnew : ∀ s' st ev, frames s' = frames s ++ [new_frame n r c st] →
            resultCache s' = resultCache s → trace s' = trace s ++ [ev] →
            (∀ x, st = Fulfilled x → isCircularRef x = true →
                  node x = n ∧ error x = VNull ∧ children x = [] ∧
                  cached_value s n (result x)) →
            cache_ok s').
  { intros s' st ev Hfs Hc Htr Hst. destruct Hok as [Hcache Hcirc].
    assert (Hext : ∃ evs, trace s' = trace s ++ evs) by by eexists.
    split.
    - intros k v. rewrite Hc. intros Hv. eapply cached_value_mono; [done|]. by apply Hcache.
    - intros j fj x. rewrite Hfs. intros [Hj|[_ Hj]]%lookup_app_Some Hstj Hx.
      + destruct (Hcirc j fj x Hj Hstj Hx) as (? & ? & ? & ?). split_and!; try done.
        by eapply cached_value_mono.
      + apply list_lookup_singleton_Some in Hj as [_ <-]. simpl in Hstj.
        destruct (Hst x Hstj Hx) as (? & ? & ? & ?). split_and!; try done.
        by eapply cached_value_mono. }
  unfold launch. destruct (aborted s); [by eapply Hnew|].
  destruct (JsSet.has _ (visited s)).
  { eapply Hnew; [reflexivity|reflexivity|reflexivity|].
    intros x [= <-] _. simpl. split_and!; try done.
    destruct Hok as [Hcache _].
    destruct (JsMap.get n (resultCache s)) as [v|] eqn:Hv; simpl; [by apply Hcache|by left]. }
  destruct (limiter o) as [max|].
  - unfold processQueue. apply drain_cache_ok.
    eapply Hnew; [reflexivity|reflexivity|reflexivity|done].
  - apply start_callback_cache_ok.
    eapply Hnew; [reflexivity|reflexivity|reflexivity|done].
Qed.

Lemma launch_children_cache_ok nodeId result ctx vn s :
  cache_ok s → cache_ok (launch_children callback o nodeId result ctx vn s).
Proof.
  unfold launch_children. revert s.
  induction vn as [|nb vn IH]; intros s Hok; simpl; [done|].
  apply IH. by apply launch_cache_ok.
Qed.

Lemma after_callback_cache n outcome cache result error caught cache' reports k w :
  after_callback o n outcome cache = (result, error, caught, cache', reports) →
  JsMap.get k cache' = Some w →
  (k = n ∧ (w = VUndefined ∨ outcome = Returns w)) ∨ JsMap.get k cache = Some w.
Proof.
  unfold after_callback.
  destruct outcome; [destruct (opt_onProgress o) as [hook|]; [destruct (hook _ _)|]|];
    intros [= <- <- <- <- <-]; rewrite ?map_get_set;
    repeat case_decide; intros; simplify_eq; auto.
Qed.

Lemma step_cache_ok s t : cache_ok s → cache_ok (step g callback o s t).
Proof.
  intros Hok. destruct t as [i| |i|]; simpl.
  - unfold callback_settles.
    destruct (frames s !! i) as [f|] eqn:Hi; [|done].
    destruct (f_status f) eqn:Hst; try done.
    destruct (after_callback o (f_nodeId f) _ (resultCache s))
      as [[[[result error] caught] cache] reports] eqn:Hac.
    set (s1 := mkState (frames s) (visited s) cache (aborted s) (queue s) (running s)
                 (match limiter o with Some _ => S (releases s) | None => releases s end)
                 (rejections s)
                 (trace s ++ Settled (f_nodeId f)
                    (settles (callback (f_nodeId f) (f_parentResult f) (f_context f)))
                    :: reports)).
    assert (Hs1 : cache_ok s1).
    { destruct Hok as [Hcache Hcirc].
      assert (Hext : ∃ evs, trace s1 = trace s ++ evs) by by eexists.
      split.
      - intros k w Hk. simpl in Hk.
        destruct (after_callback_cache _ _ _ _ _ _ _ _ k w Hac Hk) as [[-> [->|Hw]]|Hold].
        + by left.
        + right. simpl. rewrite Hw. apply elem_of_app. right. by left.
        + eapply cached_value_mono; [done|]. by apply Hcache.
      - intros j fj x Hj Hstj Hx. simpl in Hj.
        destruct (Hcirc j fj x Hj Hstj Hx) as (? & ? & ? & ?). split_and!; try done.
        by eapply cached_value_mono. }
    assert (Hext0 : ∃ evs : list event, trace s1 = trace s1 ++ evs).
    { exists []. by rewrite app_nil_r. }
    destruct (caught && is_fail_fast (opt_errorStrategy o)).
    { eapply (cache_ok_insert s1); [done|reflexivity|reflexivity|done|done]. }
    destruct (truthy error && is_skip_children (opt_errorStrategy o)).
    { eapply (cache_ok_insert s1); [done|reflexivity|reflexivity|done|].
      simpl. by intros x [= <-]. }
    destruct (validNeighbors g _ _ (f_nodeId f)) as [|nb0 vn0].
    { eapply (cache_ok_insert s1); [done|reflexivity|reflexivity|done|].
      simpl. by intros x [= <-]. }
    apply launch_children_cache_ok.
    eapply (cache_ok_insert s1); [done|reflexivity|reflexivity|done|done].
  - unfold slot_released. destruct (limiter o) as [max|]; [|done].
    destruct (releases s) as [|n]; [done|]. unfold processQueue.
    apply drain_cache_ok. by eapply (cache_ok_same s).
  - unfold children_settled.
    destruct (frames s !! i) as [f|] eqn:Hi; [|done].
    destruct (f_status f) eqn:Hst; try done.
    destruct (child_statuses s (f_childPromises f)) as [sts|]; [|done].
    assert (Hext0 : ∃ evs : list event, trace s = trace s ++ evs).
    { exists []. by rewrite app_nil_r. }
    assert (Hful : ∀ vs, cache_ok (fulfil_frame i f vs s)).
    { intros vs. eapply (cache_ok_insert s); [done|reflexivity|reflexivity|done|].
      destruct f; simpl. by intros x [= <-]. }
    destruct (is_fail_fast (opt_errorStrategy o)).
    + destruct (first_rejection sts) as [[r t]|].
      { eapply (cache_ok_insert s); [done|reflexivity|reflexivity|done|]. by destruct f. }
      destruct (mapM fulfilled_value sts); [apply Hful|done].
    + destruct (mapM _ (zip (f_validNeighbors f) sts)); [apply Hful|done].
  - unfold signal_aborts. destruct (has_signal o && negb (aborted s)); [|done].
    destruct Hok as [Hcache Hcirc].
    assert (Hext : ∃ evs, trace s ++ [SignalAborted] = trace s ++ evs) by by eexists.
    split.
    + intros k w Hk. eapply (cached_value_mono s); [done|]. by apply Hcache.
    + intros j fj x Hj Hstj Hx.
      destruct (Hcirc j fj x Hj Hstj Hx) as (? & ? & ? & ?). split_and!; try done.
      by eapply (cached_value_mono s).
Qed.

Lemma run_cache_ok startNodeId schedule :
  cache_ok (run g callback o startNodeId schedule).
Proof.
  unfold run. induction schedule as [|t schedule IH] using rev_ind; simpl.
  - unfold init. apply launch_cache_ok. split.
    + intros n v Hv. done.
    + intros i f x Hi. simpl in Hi. by rewrite lookup_nil in Hi.
  - rewrite foldl_snoc. by apply step_cache_ok.
Qed.

End outcome_facts.

(** X28.  The node that a call of [_executeTreeNode] returns, when it is
    not a circular reference, carries the values of the call: [result] is
    the value the callback returned, or [null] when it threw; [error] is
    what the callback threw, or what the progress hook threw when it was
    called with the result, or [null].  So a hook that throws turns the
    node of a callback that returned into one with both a result and an
    error. *)
Theorem node_outcome (g : DependencyGraph)
    (callback : string → jsval → context → behaviour) (o : options)
    (startNodeId : string) (schedule : list tick) (i : nat) (f : frame) (x : ExecNode) :
  frames (run g callback o startNodeId schedule) !! i = Some f →
  f_status f = Fulfilled x → isCircularRef x = false →
  node x = f_nodeId f ∧
  result x
  = outcome_result (settles (callback (f_nodeId f) (f_parentResult f) (f_context f))) ∧
  error x
  = outcome_error o (f_nodeId f)
      (settles (callback (f_nodeId f) (f_parentResult f) (f_context f))).
Proof.
  intros Hf Hst Hx. pose proof (run_locals_ok g callback o startNodeId schedule i f Hf) as H.
  simpl in H. rewrite Hst in H. destruct H as [?|(_ & ? & ? & ?)]; [congruence|done].
Qed.

Lemma node_outcome_witness :
  ∃ f x, frames (run weighted_pair returns_id default_options "A"
                   [CallbackSettles 0; CallbackSettles 1]) !! 1 = Some f ∧
         f_status f = Fulfilled x ∧ result x = VStr "B" ∧ error x = VNull.
Proof.
  edestruct (node_outcome weighted_pair returns_id default_options "A"
               [CallbackSettles 0; CallbackSettles 1] 1) as (Hn & Hr & He);
    [vm_compute; reflexivity|reflexivity|reflexivity|].
  eexists _, _. split; [vm_compute; reflexivity|]. split; [reflexivity|].
  split; [exact Hr|exact He].
Defined.

(** X29.  A circular reference (a call for a visit key that was entered
    before) returns at once a node without error and without children
    whose [result] is what the cache holds for the node at that moment:
    [undefined] when no callback for the node has settled yet or the last
    one failed, and otherwise a value the callback has returned for that
    node earlier in the run. *)
Theorem circular_reference_value (g : DependencyGraph)
    (callback : string → jsval → context → behaviour) (o : options)
    (startNodeId : string) (schedule : list tick) (i : nat) (f : frame) (x : ExecNode) :
  frames (run g callback o startNodeId schedule) !! i = Some f →
  f_status f = Fulfilled x → isCircularRef x = true →
  node x = f_nodeId f ∧ error x = VNull ∧ children x = [] ∧
  (result x = VUndefined ∨
   Settled (f_nodeId f) (Returns (result x))
   ∈ trace (run g callback o startNodeId schedule)).
Proof.
  intros Hf Hst Hx.
  destruct (run_cache_ok g callback o startNodeId schedule) as [_ Hcirc].
  by apply (Hcirc i f x).
Qed.

Lemma circular_reference_value_witness :
  ∃ f x, frames (run diamond returns_id default_options "A"
                   [CallbackSettles 0; CallbackSettles 1; CallbackSettles 3;
                    CallbackSettles 2]) !! 4 = Some f ∧
         f_status f = Fulfilled x ∧ isCircularRef x = true ∧
         node x = "D" ∧ error x = VNull ∧ children x = [].
Proof.
  edestruct (circular_reference_value diamond returns_id default_options "A"
               [CallbackSettles 0; CallbackSettles 1; CallbackSettles 3; CallbackSettles 2]
               4) as (Hn & He & Hc & _);
    [vm_compute; reflexivity|reflexivity|reflexivity|].
  eexists _, _. split; [vm_compute; reflexivity|]. split; [reflexivity|].
  split; [reflexivity|]. split; [exact Hn|]. split; [exact He|exact Hc].
Defined.

(** ** Runs that cannot fail *)

(** X30.  Under [collect] and [skip-children], when the start node exists
    and the signal is not aborted at the call, [executeOnTree] never
    rejects, whatever the callbacks, the hook and the signal do later: every
    failure ends up inside the tree.  And when the limiter, if there is
    one, admits a first call ([maxConcurrency] is [null], zero, [NaN] or
    above zero), the promise can still resolve with a tree from every state
    of the run; with any other limit it stays pending. *)
Theorem collect_always_resolves (g : DependencyGraph)
    (callback : string → jsval → context → behaviour) (o : options)
    (startNodeId : string) (schedule : list tick) :
  is_fail_fast (opt_errorStrategy o) = false → opt_signal o ≠ Some true →
  hasNode startNodeId g = true →
  (∀ r, executeOnTree g callback o startNodeId schedule ≠ Rejects r) ∧
  (admits_first o = true →
   ∃ more x, executeOnTree g callback o startNodeId (schedule ++ more) = Resolves x) ∧
  (admits_first o = false → executeOnTree g callback o startNodeId schedule = Pending).
Proof.
  intros Hff Hsig Hnode.
  assert (Hnever : ∀ sched r, executeOnTree g callback o startNodeId sched ≠ Rejects r).
  { intros sched r. unfold executeOnTree, settled_promise.
    unfold hasNode in Hnode. rewrite Hnode. simpl.
    destruct (frames (run g callback o startNodeId sched) !! 0) as [f|] eqn:Hf; [|done].
    destruct (f_status f) eqn:Hst; try done. intros _.
    apply Hsig. by apply (root_rejected_at_call g callback o startNodeId sched f reason order). }
  split; [apply Hnever|]. split; [|intros Hstuck; by apply stuck_pending].
  intros Hadmit.
  destruct (settles_within g callback o startNodeId (work_bound g o startNodeId) schedule)
    as (more & _ & Hdone); [done|apply run_work|].
  exists more. specialize (Hnever (schedule ++ more)).
  unfold executeOnTree in *. unfold hasNode in Hnode. rewrite Hnode in *. simpl in *.
  destruct (settled_promise (run g callback o startNodeId (schedule ++ more))) as [|x|r];
    [done|by exists x|by destruct (Hnever r)].
Qed.

Lemma collect_always_resolves_witness :
  ∃ more x, executeOnTree abort_fork aborts_at_B (signal_options Collect) "A"
              ([CallbackSettles 0] ++ more) = Resolves x.
Proof.
  destruct (collect_always_resolves abort_fork aborts_at_B (signal_options Collect) "A"
              [CallbackSettles 0]) as (_ & Hres & _).
  - reflexivity.
  - discriminate.
  - reflexivity.
  - apply Hres. reflexivity.
Defined.
